(** * Printipi motion pipeline: G-code state, motion planner and delta steppers

    A shallow embedding of
      - [src/drivers/lineardeltastepper.h]  (LinearDeltaStepper and
                                             LinearDeltaArcStepper),
      - [src/motion/motionplanner.h]        (MotionPlanner),
      - [src/common/tupleutil.h]            (callOnAll, tupleReduce,
                                             tupleCallOnIndex),
      - [src/state.h]                       (State, the G-code interpreter),
      - [code/firmware/src/state.h]         (the earlier State: queueMovement
                                             and the conversion of units),
      - [code/proof-of-concept/DMA/dma-gpio.c] (writeBitmasked, readSysTime),
    together with the properties of the motion pipeline stated in the
    specification and, in the last part, further properties of the code:
    the end of a move, the account of steps, the commands of [execute] and
    the events of [onIdleCpu].

    The C++ [float] is IEEE-754 binary32.  It is modelled with the executable
    specification of the Standard Library ([SpecFloat], precision 24, maximal
    exponent 128), restricted to the data that are values of the format; the
    first module proves what is needed of that arithmetic: every operation
    returns a value of the format, rounding is monotone, and the order
    decided by a comparison is a total order away from NaN.  The two modules
    after it are about rounding to nearest, ties to even: the difference
    [d - (d - o)], taken again of its own result, returns that result. *)

From Stdlib Require Import ZArith Lia Bool List Sorted Ascii String.
From Stdlib Require Import Floats.SpecFloat.
From stdpp Require Import base list.

Local Open Scope Z_scope.

Module IEEE754.

Lemma digits2_pos_size p : digits2_pos p = Pos.size p.
Proof. induction p; simpl; congruence. Qed.

Lemma digits2_pos_log2 p : Zpos (digits2_pos p) = Z.log2 (Zpos p) + 1.
Proof.
  rewrite digits2_pos_size.
  destruct p; simpl; rewrite ?Pos2Z.inj_succ; lia.
Qed.

Lemma Zdigits2_log2 m : 0 < m -> Zdigits2 m = Z.log2 m + 1.
Proof. destruct m; try lia. intros _. apply digits2_pos_log2. Qed.

Lemma Zdigits2_nonneg m : 0 <= Zdigits2 m.
Proof. destruct m; simpl; lia. Qed.

Lemma Zdigits2_bounds m : 0 < m -> 2 ^ (Zdigits2 m - 1) <= m < 2 ^ Zdigits2 m.
Proof.
  intros H. rewrite Zdigits2_log2 by assumption.
  replace (Z.log2 m + 1 - 1) with (Z.log2 m) by lia.
  apply Z.log2_spec; assumption.
Qed.

Lemma Zdigits2_unique m d : 0 < m -> 2 ^ (d - 1) <= m < 2 ^ d -> Zdigits2 m = d.
Proof.
  intros Hm H. rewrite Zdigits2_log2 by assumption.
  assert (0 <= d - 1).
  { destruct (Z_le_gt_dec 0 (d - 1)); auto.
    assert (d <= 0) by lia.
    destruct (Z.eq_dec d 0).
    - subst. simpl in H. lia.
    - rewrite (Z.pow_neg_r 2 d) in H by lia. lia. }
  rewrite (Z.log2_unique m (d - 1)); try lia.
  replace (Z.succ (d - 1)) with d by lia. assumption.
Qed.

Lemma Zdigits2_pos_iff m : 0 <= m -> (0 < Zdigits2 m <-> 0 < m).
Proof. destruct m; simpl; lia. Qed.

Lemma Zdigits2_le a b : 0 <= a <= b -> Zdigits2 a <= Zdigits2 b.
Proof.
  intros [Ha Hab].
  destruct (Z.eq_dec a 0) as [->|Hn]; [apply Zdigits2_nonneg|].
  rewrite !Zdigits2_log2 by lia.
  pose proof (Z.log2_le_mono a b Hab). lia.
Qed.

Lemma Zdigits2_lt_pow m d : 0 <= m -> 0 <= d -> m < 2 ^ d -> Zdigits2 m <= d.
Proof.
  intros Hm Hd H.
  destruct (Z.eq_dec m 0) as [->|Hn]; [simpl; lia|].
  rewrite Zdigits2_log2 by lia.
  assert (Z.log2 m < d) by (apply Z.log2_lt_pow2; lia). lia.
Qed.

Lemma Zdigits2_ge_pow m d : 0 <= d -> 2 ^ d <= m -> d + 1 <= Zdigits2 m.
Proof.
  intros Hd H.
  assert (0 < m) by (pose proof (Z.pow_pos_nonneg 2 d); lia).
  rewrite Zdigits2_log2 by lia.
  assert (d <= Z.log2 m) by (apply Z.log2_le_pow2; lia). lia.
Qed.

Lemma Zdigits2_shiftl m n : 0 < m -> 0 <= n -> Zdigits2 (m * 2 ^ n) = Zdigits2 m + n.
Proof.
  intros Hm Hn.
  assert (0 < 2 ^ n) by (apply Z.pow_pos_nonneg; lia).
  rewrite !Zdigits2_log2 by nia.
  rewrite Z.log2_mul_pow2 by lia. lia.
Qed.

Lemma Zdigits2_div_pow2 m n : 0 < m -> 0 <= n -> n < Zdigits2 m ->
  Zdigits2 (m / 2 ^ n) = Zdigits2 m - n.
Proof.
  intros Hm Hn Hlt.
  rewrite Zdigits2_log2 in Hlt by lia.
  rewrite <- Z.shiftr_div_pow2 by lia.
  assert (0 < Z.shiftr m n).
  { destruct (Z.shiftr_eq_0_iff m n) as [H1 _].
    pose proof (Z.shiftr_nonneg m n).
    destruct (Z.eq_dec (Z.shiftr m n) 0) as [E|E]; [|lia].
    destruct (H1 E); lia. }
  rewrite !Zdigits2_log2 by lia.
  rewrite Z.log2_shiftr by lia. lia.
Qed.

(** iterated right shift with sticky bits *)
Definition nz (x : Z) : bool := negb (x =? 0).

Definition shrN (k : Z) (mrs : shr_record) : shr_record :=
  {| shr_m := shr_m mrs / 2 ^ k;
     shr_r := Z.odd (shr_m mrs / 2 ^ (k - 1));
     shr_s := shr_r mrs || shr_s mrs || nz (shr_m mrs mod 2 ^ (k - 1)) |}.

Lemma shr_1_shrN mrs : 0 <= shr_m mrs -> shr_1 mrs = shrN 1 mrs.
Proof.
  destruct mrs as [m r s]. unfold shrN. simpl shr_m; simpl shr_r; simpl shr_s. intros H.
  replace (1 - 1) with 0 by lia. rewrite Z.pow_0_r, Z.div_1_r, Z.mod_1_r.
  change (2 ^ 1) with 2. unfold nz. simpl (0 =? 0). simpl negb. rewrite orb_false_r.
  rewrite <- Z.div2_div.
  destruct m as [|p|p]; [reflexivity | destruct p; reflexivity | lia].
Qed.

Lemma odd_mod2 x : Z.odd x = nz (x mod 2).
Proof.
  unfold nz. rewrite Zmod_odd. destruct (Z.odd x); reflexivity.
Qed.

Lemma shrN_compose j k mrs : 0 <= shr_m mrs -> 1 <= j -> 1 <= k ->
  shrN j (shrN k mrs) = shrN (j + k) mrs.
Proof.
  destruct mrs as [m r s]. unfold shrN. simpl shr_m; simpl shr_r; simpl shr_s.
  intros Hm Hj Hk.
  assert (P1 : 0 < 2 ^ k) by (apply Z.pow_pos_nonneg; lia).
  assert (P2 : 0 < 2 ^ j) by (apply Z.pow_pos_nonneg; lia).
  assert (P3 : 0 < 2 ^ (k - 1)) by (apply Z.pow_pos_nonneg; lia).
  assert (P4 : 0 < 2 ^ (j - 1)) by (apply Z.pow_pos_nonneg; lia).
  assert (E1 : 2 ^ (j + k) = 2 ^ k * 2 ^ j) by (rewrite <- Z.pow_add_r by lia; f_equal; lia).
  assert (E2 : 2 ^ (j + k - 1) = 2 ^ k * 2 ^ (j - 1)) by (rewrite <- Z.pow_add_r by lia; f_equal; lia).
  assert (E3 : 2 ^ k = 2 ^ (k - 1) * 2).
  { replace k with ((k - 1) + 1) at 1 by lia. rewrite Z.pow_add_r by lia. reflexivity. }
  f_equal.
  - rewrite Z.div_div by lia. rewrite E1. reflexivity.
  - rewrite Z.div_div by lia. rewrite E2. reflexivity.
  - rewrite E2. rewrite Z.rem_mul_r by lia.
    assert (E4 : m mod 2 ^ k = m mod 2 ^ (k - 1) + 2 ^ (k - 1) * ((m / 2 ^ (k - 1)) mod 2)).
    { rewrite E3 at 1. apply Z.rem_mul_r; lia. }
    rewrite E4.
    rewrite odd_mod2.
    pose proof (Z.mod_pos_bound m (2 ^ (k - 1)) P3).
    pose proof (Z.mod_pos_bound (m / 2 ^ (k - 1)) 2 ltac:(lia)).
    pose proof (Z.mod_pos_bound (m / 2 ^ k) (2 ^ (j - 1)) P4).
    unfold nz.
    destruct (Z.eqb_spec (m mod 2 ^ (k - 1)) 0);
    destruct (Z.eqb_spec ((m / 2 ^ (k - 1)) mod 2) 0);
    destruct (Z.eqb_spec ((m / 2 ^ k) mod 2 ^ (j - 1)) 0);
    destruct r, s; simpl;
    match goal with
    | |- true = negb (?x =? 0) => destruct (Z.eqb_spec x 0); [exfalso; nia | reflexivity]
    | |- false = negb (?x =? 0) => destruct (Z.eqb_spec x 0); [reflexivity | exfalso; nia]
    | _ => idtac
    end.
    all: reflexivity.
Qed.

Lemma shrN_m_nonneg k mrs : 0 <= shr_m mrs -> 0 <= k -> 0 <= shr_m (shrN k mrs).
Proof.
  intros. unfold shrN; simpl. apply Z.div_pos; [assumption | apply Z.pow_pos_nonneg; lia].
Qed.

Lemma iter_pos_shrN n : forall mrs, 0 <= shr_m mrs ->
  SpecFloat.iter_pos shr_1 n mrs = shrN (Zpos n) mrs.
Proof.
  induction n as [n IH|n IH|]; intros mrs H; simpl SpecFloat.iter_pos.
  - rewrite shr_1_shrN by assumption.
    pose proof (shrN_m_nonneg 1 mrs H ltac:(lia)) as H0.
    rewrite (IH (shrN 1 mrs)) by assumption.
    pose proof (shrN_m_nonneg (Zpos n) _ H0 ltac:(lia)) as H1.
    rewrite (IH (shrN (Zpos n) (shrN 1 mrs))) by assumption.
    rewrite shrN_compose by lia. rewrite shrN_compose by lia.
    f_equal. lia.
  - rewrite (IH mrs) by assumption.
    pose proof (shrN_m_nonneg (Zpos n) _ H ltac:(lia)) as H0.
    rewrite (IH (shrN (Zpos n) mrs)) by assumption.
    rewrite shrN_compose by lia. f_equal. lia.
  - apply shr_1_shrN; assumption.
Qed.


(** * Order decided by [SFcompare] *)


(** A sort key whose lexicographic order is the one [SFcompare] decides. *)
Definition key (x : spec_float) : option (Z * Z * Z) :=
  match x with
  | S754_nan => None
  | S754_infinity true => Some (-2, 0, 0)
  | S754_finite true m e => Some (-1, - e, Zneg m)
  | S754_zero _ => Some (0, 0, 0)
  | S754_finite false m e => Some (1, e, Zpos m)
  | S754_infinity false => Some (2, 0, 0)
  end.

Definition klt (a b : Z * Z * Z) : Prop :=
  let '(a1, a2, a3) := a in
  let '(b1, b2, b3) := b in
  a1 < b1 \/ (a1 = b1 /\ (a2 < b2 \/ (a2 = b2 /\ a3 < b3))).

Definition kle (a b : Z * Z * Z) : Prop := klt a b \/ a = b.

Lemma klt_irrefl a : ~ klt a a.
Proof. destruct a as [[a1 a2] a3]. unfold klt. lia. Qed.

Lemma klt_trans a b c : klt a b -> klt b c -> klt a c.
Proof. destruct a as [[a1 a2] a3], b as [[b1 b2] b3], c as [[c1 c2] c3]. unfold klt. lia. Qed.

Lemma klt_total a b : klt a b \/ a = b \/ klt b a.
Proof.
  destruct a as [[a1 a2] a3], b as [[b1 b2] b3]. unfold klt.
  destruct (Z.lt_total a1 b1) as [|[|]]; [lia| |lia].
  destruct (Z.lt_total a2 b2) as [|[|]]; [lia| |lia].
  destruct (Z.lt_total a3 b3) as [|[|]]; [lia| |lia].
  right; left. congruence.
Qed.

Lemma SFcompare_key x y :
  SFcompare x y =
  match key x, key y with
  | Some a, Some b =>
      Some (let '(a1, a2, a3) := a in
            let '(b1, b2, b3) := b in
            match a1 ?= b1 with
            | Eq => match a2 ?= b2 with Eq => a3 ?= b3 | c => c end
            | c => c
            end)
  | _, _ => None
  end.
Proof.
  destruct x as [sx|sx| |sx mx ex], y as [sy|sy| |sy my ey];
    try destruct sx; try destruct sy; try reflexivity.
  cbn [SFcompare key]. cbv iota beta. change (-1 ?= -1) with Eq. cbv iota.
    rewrite Z.compare_opp.
    destruct (Z.compare_spec ex ey), (Z.compare_spec ey ex); try lia; reflexivity.
Qed.

Lemma SFltb_key x y :
  SFltb x y = true <-> exists a b, key x = Some a /\ key y = Some b /\ klt a b.
Proof.
  unfold SFltb. rewrite SFcompare_key.
  destruct (key x) as [[[a1 a2] a3]|], (key y) as [[[b1 b2] b3]|].
  - split.
    + intros H. exists (a1, a2, a3), (b1, b2, b3). repeat split; try reflexivity.
      unfold klt.
      destruct (Z.compare_spec a1 b1); try discriminate; [|lia].
      destruct (Z.compare_spec a2 b2); try discriminate; [|lia].
      destruct (Z.compare_spec a3 b3); try discriminate. lia.
    + intros (a & b & Ha & Hb & Hlt). inversion Ha; inversion Hb; subst. unfold klt in Hlt.
      destruct (Z.compare_spec a1 b1); try lia; try reflexivity.
      destruct (Z.compare_spec a2 b2); try lia; try reflexivity.
      destruct (Z.compare_spec a3 b3); try lia; try reflexivity.
  - split; [discriminate|]. intros (a & b & _ & Hb & _). discriminate.
  - split; [discriminate|]. intros (a & b & Ha & _ & _). discriminate.
  - split; [discriminate|]. intros (a & b & Ha & _ & _). discriminate.
Qed.

Lemma SFeqb_key x y :
  SFeqb x y = true <-> exists a, key x = Some a /\ key y = Some a.
Proof.
  unfold SFeqb. rewrite SFcompare_key.
  destruct (key x) as [[[a1 a2] a3]|], (key y) as [[[b1 b2] b3]|].
  - split.
    + intros H. exists (a1, a2, a3). split; [reflexivity|].
      destruct (Z.compare_spec a1 b1); try discriminate.
      destruct (Z.compare_spec a2 b2); try discriminate.
      destruct (Z.compare_spec a3 b3); try discriminate. congruence.
    + intros (a & Ha & Hb). inversion Ha; inversion Hb; subst. inversion H1; subst.
      rewrite !Z.compare_refl. reflexivity.
  - split; [discriminate|]. intros (a & _ & Hb). discriminate.
  - split; [discriminate|]. intros (a & Ha & _). discriminate.
  - split; [discriminate|]. intros (a & Ha & _). discriminate.
Qed.

Lemma SFleb_ltb_eqb x y : SFleb x y = SFltb x y || SFeqb x y.
Proof. unfold SFleb, SFltb, SFeqb. destruct (SFcompare x y) as [[]|]; reflexivity. Qed.

Lemma SFleb_key x y :
  SFleb x y = true <-> exists a b, key x = Some a /\ key y = Some b /\ kle a b.
Proof.
  rewrite SFleb_ltb_eqb, orb_true_iff, SFltb_key, SFeqb_key. unfold kle. split.
  - intros [(a & b & Ha & Hb & Hlt)|(a & Ha & Hb)]; eauto 10.
  - intros (a & b & Ha & Hb & [Hlt| ->]); eauto 10.
Qed.

Definition is_nan (x : spec_float) : bool :=
  match x with S754_nan => true | _ => false end.

Lemma key_None x : key x = None <-> is_nan x = true.
Proof. destruct x as [s|s| |s m e]; try destruct s; simpl; split; congruence. Qed.

Lemma key_Some x : is_nan x = false -> exists a, key x = Some a.
Proof. destruct x as [s|s| |s m e]; try destruct s; simpl; eauto; discriminate. Qed.

Lemma SFltb_irrefl x : SFltb x x = false.
Proof.
  destruct (SFltb x x) eqn:E; [|reflexivity].
  apply SFltb_key in E. destruct E as (a & b & Ha & Hb & Hlt).
  rewrite Ha in Hb. inversion Hb; subst. destruct (klt_irrefl _ Hlt).
Qed.

Lemma SFltb_trans x y z : SFltb x y = true -> SFltb y z = true -> SFltb x z = true.
Proof.
  rewrite !SFltb_key. intros (a & b & Ha & Hb & H1) (b' & c & Hb' & Hc & H2).
  rewrite Hb in Hb'. inversion Hb'; subst.
  exists a, c. repeat split; auto. eapply klt_trans; eauto.
Qed.

Lemma SFltb_asym x y : SFltb x y = true -> SFltb y x = false.
Proof.
  intros H. destruct (SFltb y x) eqn:E; [|reflexivity].
  pose proof (SFltb_trans _ _ _ H E) as C. rewrite SFltb_irrefl in C. discriminate.
Qed.

Lemma SFltb_not_nan x y : SFltb x y = true -> is_nan x = false /\ is_nan y = false.
Proof.
  rewrite SFltb_key. intros (a & b & Ha & Hb & _).
  destruct x as [s|s| |s m e], y as [s'|s'| |s' m' e']; simpl in *; try discriminate; auto.
Qed.

Lemma SFltb_total x y : is_nan x = false -> is_nan y = false ->
  SFltb x y = true \/ SFeqb x y = true \/ SFltb y x = true.
Proof.
  intros Hx Hy. destruct (key_Some x Hx) as [a Ha], (key_Some y Hy) as [b Hb].
  rewrite !SFltb_key, SFeqb_key.
  destruct (klt_total a b) as [H|[H|H]]; subst; eauto 10.
Qed.

Lemma SFleb_total x y : is_nan x = false -> is_nan y = false ->
  SFltb y x = false -> SFleb x y = true.
Proof.
  intros Hx Hy H. rewrite SFleb_ltb_eqb.
  destruct (SFltb_total x y Hx Hy) as [E|[E|E]]; rewrite ?E, ?orb_true_r; auto; congruence.
Qed.

Lemma SFleb_not_ltb x y : SFleb x y = true -> SFltb y x = false.
Proof.
  rewrite SFleb_key. intros (a & b & Ha & Hb & Hle).
  destruct (SFltb y x) eqn:E; [|reflexivity].
  apply SFltb_key in E. destruct E as (b' & a' & Hb' & Ha' & Hlt).
  rewrite Ha in Ha'. rewrite Hb in Hb'. inversion Ha'; inversion Hb'; subst.
  destruct Hle as [H| ->]; [destruct (klt_irrefl _ (klt_trans _ _ _ H Hlt)) | destruct (klt_irrefl _ Hlt)].
Qed.

Lemma SFleb_trans x y z : SFleb x y = true -> SFleb y z = true -> SFleb x z = true.
Proof.
  rewrite !SFleb_key. intros (a & b & Ha & Hb & H1) (b' & c & Hb' & Hc & H2).
  rewrite Hb in Hb'. inversion Hb'; subst. exists a, c. repeat split; auto.
  destruct H1 as [H1| ->], H2 as [H2| ->]; unfold kle; eauto using klt_trans.
Qed.

Lemma SFltb_leb_trans x y z : SFltb x y = true -> SFleb y z = true -> SFltb x z = true.
Proof.
  rewrite !SFltb_key, SFleb_key. intros (a & b & Ha & Hb & H1) (b' & c & Hb' & Hc & H2).
  rewrite Hb in Hb'. inversion Hb'; subst. exists a, c. repeat split; auto.
  destruct H2 as [H2| ->]; eauto using klt_trans.
Qed.

Lemma SFleb_ltb_trans x y z : SFleb x y = true -> SFltb y z = true -> SFltb x z = true.
Proof.
  rewrite !SFltb_key, SFleb_key. intros (a & b & Ha & Hb & H1) (b' & c & Hb' & Hc & H2).
  rewrite Hb in Hb'. inversion Hb'; subst. exists a, c. repeat split; auto.
  destruct H1 as [H1| ->]; eauto using klt_trans.
Qed.

Lemma SFltb_leb x y : SFltb x y = true -> SFleb x y = true.
Proof. intros H. rewrite SFleb_ltb_eqb, H. reflexivity. Qed.

(** Equal non-zero floats are the same datum. *)
Lemma SFeqb_eq x y : SFeqb x y = true ->
  x = y \/ (exists s s', x = S754_zero s /\ y = S754_zero s').
Proof.
  rewrite SFeqb_key. intros (a & Ha & Hb).
  destruct x as [s|s| |s m e], y as [s'|s'| |s' m' e']; try destruct s; try destruct s';
    simpl in *; try discriminate; eauto; inversion Ha; subst; inversion Hb; subst; auto.
  left. f_equal. lia.
Qed.



Section Format.
Variables prec emax : Z.
Hypothesis Hprec : 0 < prec.
Hypothesis Hemax : prec < emax.

Local Abbreviation emin := (SpecFloat.emin prec emax).
Local Abbreviation fexp := (SpecFloat.fexp prec emax).

Lemma fexp_ge_emin x : emin <= fexp x.
Proof. unfold SpecFloat.fexp. lia. Qed.

Lemma fexp_mono x y : x <= y -> fexp x <= fexp y.
Proof. unfold SpecFloat.fexp. lia. Qed.

(** round-to-nearest-even of M / 2^n *)
Definition rne (M n : Z) : Z :=
  let q := M / 2 ^ n in
  match Z.compare (2 * (M mod 2 ^ n)) (2 ^ n) with
  | Lt => q
  | Eq => if Z.even q then q else q + 1
  | Gt => q + 1
  end.

Lemma rne_0 M : rne M 0 = M.
Proof. unfold rne. rewrite Z.pow_0_r, Z.mod_1_r, Z.div_1_r. reflexivity. Qed.

Lemma rne_cases M n : rne M n = M / 2 ^ n \/ rne M n = M / 2 ^ n + 1.
Proof.
  unfold rne. destruct (2 * (M mod 2 ^ n) ?= 2 ^ n); auto.
  destruct (Z.even (M / 2 ^ n)); auto.
Qed.

Lemma rne_exact M n : 0 <= n -> M mod 2 ^ n = 0 -> rne M n = M / 2 ^ n.
Proof.
  intros Hn H. unfold rne. rewrite H.
  assert (0 < 2 ^ n) by (apply Z.pow_pos_nonneg; lia).
  destruct (Z.compare_spec (2 * 0) (2 ^ n)); lia.
Qed.

Lemma rne_mono M M' n : 0 <= n -> M <= M' -> rne M n <= rne M' n.
Proof.
  intros Hn HM. unfold rne.
  assert (P : 0 < 2 ^ n) by (apply Z.pow_pos_nonneg; lia).
  pose proof (Z.div_le_mono M M' (2 ^ n) P HM) as Hq.
  pose proof (Z.div_mod M (2 ^ n) ltac:(lia)) as E1.
  pose proof (Z.div_mod M' (2 ^ n) ltac:(lia)) as E2.
  pose proof (Z.mod_pos_bound M (2 ^ n) P).
  pose proof (Z.mod_pos_bound M' (2 ^ n) P).
  destruct (Z.eq_dec (M / 2 ^ n) (M' / 2 ^ n)) as [Eq|Ne].
  - rewrite <- Eq in *.
    assert (M mod 2 ^ n <= M' mod 2 ^ n) by lia.
    destruct (Z.compare_spec (2 * (M mod 2 ^ n)) (2 ^ n));
    destruct (Z.compare_spec (2 * (M' mod 2 ^ n)) (2 ^ n));
    destruct (Z.even (M / 2 ^ n)); lia.
  - assert (M / 2 ^ n + 1 <= M' / 2 ^ n) by lia.
    destruct (2 * (M mod 2 ^ n) ?= 2 ^ n);
    destruct (2 * (M' mod 2 ^ n) ?= 2 ^ n);
    destruct (Z.even (M / 2 ^ n)); destruct (Z.even (M' / 2 ^ n)); lia.
Qed.

Lemma shrN_round M n : 0 <= M -> 1 <= n ->
  let R := shrN n {| shr_m := M; shr_r := false; shr_s := false |} in
  round_nearest_even (shr_m R) (loc_of_shr_record R) = rne M n.
Proof.
  intros HM Hn. unfold shrN, rne.
  cbv beta iota zeta delta [shr_m shr_r shr_s orb].
  assert (P3 : 0 < 2 ^ (n - 1)) by (apply Z.pow_pos_nonneg; lia).
  assert (E3 : 2 ^ n = 2 ^ (n - 1) * 2).
  { replace n with ((n - 1) + 1) at 1 by lia. rewrite Z.pow_add_r by lia. reflexivity. }
  assert (E4 : M mod 2 ^ n = M mod 2 ^ (n - 1) + 2 ^ (n - 1) * ((M / 2 ^ (n - 1)) mod 2)).
  { rewrite E3 at 1. apply Z.rem_mul_r; lia. }
  rewrite E4. rewrite odd_mod2. unfold nz.
  pose proof (Z.mod_pos_bound M (2 ^ (n - 1)) P3).
  pose proof (Z.mod_pos_bound (M / 2 ^ (n - 1)) 2 ltac:(lia)).
  destruct (Z.eqb_spec ((M / 2 ^ (n - 1)) mod 2) 0);
  destruct (Z.eqb_spec (M mod 2 ^ (n - 1)) 0);
  cbv beta iota delta [negb loc_of_shr_record round_nearest_even];
  match goal with
  | |- context [Z.compare ?a ?b] => destruct (Z.compare_spec a b); try (exfalso; nia)
  end; reflexivity.
Qed.

Definition norm_result (sx : bool) (m2 e1 : Z) : spec_float :=
  let m' := if m2 =? 2 ^ prec then 2 ^ (prec - 1) else m2 in
  let e' := if m2 =? 2 ^ prec then e1 + 1 else e1 in
  match m' with
  | Z0 => S754_zero sx
  | Zpos p => if e' <=? emax - prec then S754_finite sx p e' else S754_infinity sx
  | Zneg _ => S754_nan
  end.

Definition qcanon (m2 e1 : Z) : Prop :=
  emin <= e1 /\ 0 <= m2 <= 2 ^ prec /\ (e1 = emin \/ 2 ^ (prec - 1) <= m2).

Lemma pow_prec_pos : 0 < 2 ^ prec.
Proof. apply Z.pow_pos_nonneg; lia. Qed.

Lemma pow_prec_half : 2 ^ prec = 2 * 2 ^ (prec - 1).
Proof.
  replace prec with (1 + (prec - 1)) at 1 by lia.
  rewrite Z.pow_add_r by lia. reflexivity.
Qed.

Lemma Zdigits2_pow2 k : 0 <= k -> Zdigits2 (2 ^ k) = k + 1.
Proof.
  intros Hk. apply Zdigits2_unique.
  - apply Z.pow_pos_nonneg; lia.
  - replace (k + 1 - 1) with k by lia. split; [lia|].
    apply Z.pow_lt_mono_r; lia.
Qed.

Lemma qcanon_fexp m2 e1 : qcanon m2 e1 -> m2 <> 2 ^ prec ->
  fexp (Zdigits2 m2 + e1) = e1.
Proof.
  intros (He & [Hm0 Hm1] & Hc) Hne. unfold SpecFloat.fexp.
  pose proof pow_prec_pos.
  assert (Hd : Zdigits2 m2 <= prec) by (apply Zdigits2_lt_pow; lia).
  destruct Hc as [->|Hc]; [lia|].
  assert (prec <= Zdigits2 m2).
  { pose proof (Zdigits2_ge_pow m2 (prec - 1) ltac:(lia) Hc). lia. }
  lia.
Qed.

Lemma second_shr sx m2 e1 : qcanon m2 e1 ->
  (let '(mrs, e) := shr_fexp prec emax m2 e1 loc_Exact in
   match shr_m mrs with
   | Z0 => S754_zero sx
   | Zpos m => if e <=? emax - prec then S754_finite sx m e else S754_infinity sx
   | Zneg _ => S754_nan
   end) = norm_result sx m2 e1.
Proof.
  intros Hq. unfold norm_result, shr_fexp.
  destruct (Z.eqb_spec m2 (2 ^ prec)) as [E|Ne].
  - subst m2. rewrite Zdigits2_pow2 by lia.
    destruct Hq as (He & _ & _).
    replace (fexp (prec + 1 + e1) - e1) with 1 by (unfold SpecFloat.fexp; lia).
    cbv beta iota delta [shr SpecFloat.iter_pos shr_record_of_loc].
    rewrite shr_1_shrN by (simpl; pose proof pow_prec_pos; lia).
    unfold shrN. cbv beta iota delta [shr_m]. change (2 ^ 1) with 2.
    rewrite pow_prec_half. rewrite Z.mul_comm, Z.div_mul by lia. reflexivity.
  - rewrite (qcanon_fexp m2 e1 Hq Ne). rewrite Z.sub_diag.
    cbv beta iota delta [shr shr_record_of_loc shr_m]. reflexivity.
Qed.


Lemma shr_record_of_loc_m m l : shr_m (shr_record_of_loc m l) = m.
Proof. destruct l as [|[]]; reflexivity. Qed.

Lemma shr_fexp_spec mx ex lx : 0 <= mx -> ex <= fexp (Zdigits2 mx + ex) ->
  snd (shr_fexp prec emax mx ex lx) = fexp (Zdigits2 mx + ex) /\
  shr_m (fst (shr_fexp prec emax mx ex lx)) = mx / 2 ^ (fexp (Zdigits2 mx + ex) - ex).
Proof.
  intros Hm He. unfold shr_fexp, shr.
  destruct (fexp (Zdigits2 mx + ex) - ex) as [|p|p] eqn:E; try lia.
  - simpl. rewrite shr_record_of_loc_m, Z.div_1_r. split; lia.
  - cbv beta iota delta [fst snd]. split; [lia|].
    rewrite iter_pos_shrN by (rewrite shr_record_of_loc_m; assumption).
    unfold shrN. cbv beta iota delta [shr_m].
    fold (shr_m (shr_record_of_loc mx lx)). rewrite shr_record_of_loc_m. reflexivity.
Qed.

Lemma shr_fexp_exact mx ex : 0 <= mx -> ex <= fexp (Zdigits2 mx + ex) ->
  let R := fst (shr_fexp prec emax mx ex loc_Exact) in
  round_nearest_even (shr_m R) (loc_of_shr_record R) = rne mx (fexp (Zdigits2 mx + ex) - ex).
Proof.
  intros Hm He. unfold shr_fexp, shr.
  destruct (fexp (Zdigits2 mx + ex) - ex) as [|p|p] eqn:E; try lia.
  - simpl. rewrite rne_0. reflexivity.
  - cbv beta iota delta [fst shr_record_of_loc].
    rewrite iter_pos_shrN by (simpl; assumption).
    apply shrN_round; lia.
Qed.

Lemma first_qcanon mx ex m2 : 0 <= mx -> ex <= fexp (Zdigits2 mx + ex) ->
  m2 = mx / 2 ^ (fexp (Zdigits2 mx + ex) - ex) \/
  m2 = mx / 2 ^ (fexp (Zdigits2 mx + ex) - ex) + 1 ->
  qcanon m2 (fexp (Zdigits2 mx + ex)).
Proof.
  intros Hm He Hm2.
  pose proof pow_prec_pos as PP. pose proof pow_prec_half as PH.
  assert (P1 : 0 < 2 ^ (prec - 1)) by (apply Z.pow_pos_nonneg; lia).
  set (d := Zdigits2 mx) in *. set (e1 := fexp (d + ex)) in *.
  set (n := e1 - ex) in *.
  assert (Hn : 0 <= n) by lia.
  assert (Pn : 0 < 2 ^ n) by (apply Z.pow_pos_nonneg; lia).
  assert (Hm1 : 0 <= mx / 2 ^ n) by (apply Z.div_pos; lia).
  unfold qcanon. split; [apply fexp_ge_emin|].
  destruct (Z.eq_dec mx 0) as [E0|N0].
  - subst mx. rewrite Z.div_0_l in Hm2 by lia.
    assert (e1 = emin) by (subst e1 d; unfold SpecFloat.fexp in *; simpl in *; lia).
    split; [lia|]. left; assumption.
  - assert (Hpos : 0 < mx) by lia.
    pose proof (Zdigits2_bounds mx Hpos) as [B1 B2]. fold d in B1, B2.
    assert (Hd : 0 < d) by (apply Zdigits2_pos_iff; lia).
    destruct (Z_le_gt_dec emin (d + ex - prec)) as [Hnorm|Hsub].
    + assert (En : n = d - prec) by (subst n e1; unfold SpecFloat.fexp; lia).
      assert (Hdig : Zdigits2 (mx / 2 ^ n) = prec).
      { rewrite Zdigits2_div_pow2; fold d; lia. }
      assert (0 < mx / 2 ^ n).
      { apply Zdigits2_pos_iff; lia. }
      pose proof (Zdigits2_bounds (mx / 2 ^ n) ltac:(lia)) as [C1 C2].
      rewrite Hdig in C1, C2. split; [lia|]. right. lia.
    + assert (Ee : e1 = emin) by (subst e1; unfold SpecFloat.fexp; lia).
      assert (mx / 2 ^ n < 2 ^ (prec - 1)).
      { destruct (Z_le_gt_dec d n) as [Hdn|Hdn].
        - rewrite Z.div_small; [lia|]. split; [lia|].
          eapply Z.lt_le_trans; [exact B2|]. apply Z.pow_le_mono_r; lia.
        - apply Z.div_lt_upper_bound; [lia|].
          rewrite <- Z.pow_add_r by lia.
          eapply Z.lt_le_trans; [exact B2|]. apply Z.pow_le_mono_r; lia. }
      split; [lia|]. left; assumption.
Qed.

Lemma binary_round_aux_spec sx mx ex lx : 0 <= mx -> ex <= fexp (Zdigits2 mx + ex) ->
  exists m2,
    (m2 = mx / 2 ^ (fexp (Zdigits2 mx + ex) - ex) \/
     m2 = mx / 2 ^ (fexp (Zdigits2 mx + ex) - ex) + 1) /\
    qcanon m2 (fexp (Zdigits2 mx + ex)) /\
    binary_round_aux prec emax sx mx ex lx = norm_result sx m2 (fexp (Zdigits2 mx + ex)).
Proof.
  intros Hm He.
  destruct (shr_fexp_spec mx ex lx Hm He) as [S1 S2].
  unfold binary_round_aux.
  destruct (shr_fexp prec emax mx ex lx) as [mrs' e'] eqn:E. simpl in S1, S2. subst e'.
  set (m2 := round_nearest_even (shr_m mrs') (loc_of_shr_record mrs')).
  assert (Hc : m2 = mx / 2 ^ (fexp (Zdigits2 mx + ex) - ex) \/
               m2 = mx / 2 ^ (fexp (Zdigits2 mx + ex) - ex) + 1).
  { subst m2. rewrite <- S2. unfold round_nearest_even.
    destruct (loc_of_shr_record mrs') as [|[]]; auto.
    destruct (Z.even (shr_m mrs')); auto. }
  exists m2. split; [exact Hc|].
  pose proof (first_qcanon mx ex m2 Hm He Hc) as Hq.
  split; [exact Hq|].
  apply (second_shr sx m2 _ Hq).
Qed.

Lemma binary_round_aux_exact sx mx ex : 0 <= mx -> ex <= fexp (Zdigits2 mx + ex) ->
  binary_round_aux prec emax sx mx ex loc_Exact =
  norm_result sx (rne mx (fexp (Zdigits2 mx + ex) - ex)) (fexp (Zdigits2 mx + ex)).
Proof.
  intros Hm He.
  destruct (shr_fexp_spec mx ex loc_Exact Hm He) as [S1 S2].
  pose proof (shr_fexp_exact mx ex Hm He) as S3.
  unfold binary_round_aux.
  destruct (shr_fexp prec emax mx ex loc_Exact) as [mrs' e'] eqn:E.
  cbv beta iota delta [fst snd] in S1, S2, S3. cbv zeta in S3. subst e'.
  rewrite S3.
  apply second_shr. apply first_qcanon; try assumption.
  apply rne_cases.
Qed.

Lemma norm_result_valid sx m2 e1 : qcanon m2 e1 ->
  valid_binary prec emax (norm_result sx m2 e1) = true.
Proof.
  intros Hq. unfold norm_result.
  pose proof pow_prec_pos as PP.
  assert (P1 : 0 < 2 ^ (prec - 1)) by (apply Z.pow_pos_nonneg; lia).
  destruct (Z.eqb_spec m2 (2 ^ prec)) as [E|Ne].
  - destruct (2 ^ (prec - 1)) as [|p|p] eqn:Ep; try lia.
    destruct (Z.leb_spec (e1 + 1) (emax - prec)); [|reflexivity].
    simpl. unfold bounded, canonical_mantissa.
    change (Zpos (digits2_pos p)) with (Zdigits2 (Zpos p)).
    rewrite <- Ep. rewrite Zdigits2_pow2 by lia.
    destruct Hq as (He & _ & _).
    apply andb_true_intro. split; [apply Z.eqb_eq; unfold SpecFloat.fexp; lia | apply Z.leb_le; lia].
  - destruct m2 as [|p|p]; [reflexivity| |destruct Hq as (_ & ? & _); lia].
    destruct (Z.leb_spec e1 (emax - prec)); [|reflexivity].
    simpl. unfold bounded, canonical_mantissa.
    change (Zpos (digits2_pos p)) with (Zdigits2 (Zpos p)).
    rewrite (qcanon_fexp _ _ Hq Ne).
    apply andb_true_intro. split; [apply Z.eqb_refl | apply Z.leb_le; lia].
Qed.

Theorem binary_round_aux_valid sx mx ex lx : 0 <= mx -> ex <= fexp (Zdigits2 mx + ex) ->
  valid_binary prec emax (binary_round_aux prec emax sx mx ex lx) = true.
Proof.
  intros Hm He.
  destruct (binary_round_aux_spec sx mx ex lx Hm He) as (m2 & _ & Hq & ->).
  apply norm_result_valid; assumption.
Qed.

Lemma Zpos_iter_xO mx d : Zpos (Pos.iter xO mx d) = Zpos mx * 2 ^ Zpos d.
Proof.
  rewrite (Pos.iter_swap_gen _ _ Zpos xO (Z.mul 2)) by reflexivity.
  change (Pos.iter (Z.mul 2) (Zpos mx) d) with (Z.shiftl (Zpos mx) (Zpos d)).
  apply Z.shiftl_mul_pow2. lia.
Qed.

Lemma shl_align_spec mx ex ex' :
  snd (shl_align mx ex ex') = Z.min ex ex' /\
  Zpos (fst (shl_align mx ex ex')) = Zpos mx * 2 ^ (ex - Z.min ex ex').
Proof.
  unfold shl_align. destruct (ex' - ex) as [|p|p] eqn:E; cbv beta iota delta [fst snd].
  - replace (Z.min ex ex') with ex by lia. rewrite Z.sub_diag. simpl. lia.
  - replace (Z.min ex ex') with ex by lia. rewrite Z.sub_diag. simpl. lia.
  - replace (Z.min ex ex') with ex' by lia. split; [reflexivity|].
    rewrite Zpos_iter_xO. f_equal. f_equal. lia.
Qed.

Lemma binary_round_pre mx ex :
  let mz := fst (shl_align mx ex (fexp (Zpos (digits2_pos mx) + ex))) in
  let ez := snd (shl_align mx ex (fexp (Zpos (digits2_pos mx) + ex))) in
  Zdigits2 (Zpos mz) + ez = Zpos (digits2_pos mx) + ex /\ ez <= fexp (Zdigits2 (Zpos mz) + ez).
Proof.
  intros mz ez.
  destruct (shl_align_spec mx ex (fexp (Zpos (digits2_pos mx) + ex))) as [S1 S2].
  fold ez in S1. fold mz in S2.
  assert (D : Zdigits2 (Zpos mz) + ez = Zpos (digits2_pos mx) + ex).
  { rewrite S2. rewrite Zdigits2_shiftl by lia. simpl Zdigits2. lia. }
  split; [exact D|]. rewrite D. lia.
Qed.

Theorem binary_round_valid sx mx ex :
  valid_binary prec emax (binary_round prec emax sx mx ex) = true.
Proof.
  unfold binary_round.
  destruct (binary_round_pre mx ex) as [_ H].
  destruct (shl_align mx ex (fexp (Zpos (digits2_pos mx) + ex))) as [mz ez].
  apply binary_round_aux_valid; [lia | exact H].
Qed.

Theorem binary_normalize_valid m e sz :
  valid_binary prec emax (binary_normalize prec emax m e sz) = true.
Proof. destruct m; simpl; auto using binary_round_valid. Qed.

Theorem SFopp_valid x : valid_binary prec emax x = true -> valid_binary prec emax (SFopp x) = true.
Proof. destruct x; auto. Qed.

Theorem SFabs_valid x : valid_binary prec emax x = true -> valid_binary prec emax (SFabs x) = true.
Proof. destruct x; auto. Qed.

Theorem SFadd_valid x y : valid_binary prec emax x = true -> valid_binary prec emax y = true ->
  valid_binary prec emax (SFadd prec emax x y) = true.
Proof.
  destruct x as [sx|sx| |sx mx ex], y as [sy|sy| |sy my ey]; intros Hx Hy;
    try reflexivity; try assumption;
    try (destruct sx, sy; reflexivity).
  apply binary_normalize_valid.
Qed.

Theorem SFsub_valid x y : valid_binary prec emax x = true -> valid_binary prec emax y = true ->
  valid_binary prec emax (SFsub prec emax x y) = true.
Proof.
  destruct x as [sx|sx| |sx mx ex], y as [sy|sy| |sy my ey]; intros Hx Hy;
    try reflexivity; try assumption;
    try (destruct sx, sy; reflexivity).
  apply binary_normalize_valid.
Qed.

Lemma emin_nonpos : emin <= 0.
Proof. unfold SpecFloat.emin. lia. Qed.

Lemma bounded_canonical m e : bounded prec emax m e = true ->
  e = fexp (Zpos (digits2_pos m) + e) /\ e <= emax - prec.
Proof.
  unfold bounded, canonical_mantissa. intros H.
  apply andb_prop in H. destruct H as [H1 H2].
  apply Z.eqb_eq in H1. apply Z.leb_le in H2. split; [symmetry|]; assumption.
Qed.

Lemma canonical_digits m e : e = fexp (Zpos (digits2_pos m) + e) ->
  Zpos (digits2_pos m) <= prec /\ (Zpos (digits2_pos m) = prec \/ e = emin).
Proof. unfold SpecFloat.fexp. lia. Qed.

Lemma Zdigits2_mul a b : 0 < a -> 0 < b -> Zdigits2 a + Zdigits2 b - 1 <= Zdigits2 (a * b).
Proof.
  intros Ha Hb.
  pose proof (Zdigits2_bounds a Ha) as [A1 _].
  pose proof (Zdigits2_bounds b Hb) as [B1 _].
  pose proof (Zdigits2_pos_iff a ltac:(lia)) as [_ DA]. specialize (DA Ha).
  pose proof (Zdigits2_pos_iff b ltac:(lia)) as [_ DB]. specialize (DB Hb).
  assert (2 ^ (Zdigits2 a + Zdigits2 b - 2) <= a * b).
  { replace (Zdigits2 a + Zdigits2 b - 2) with ((Zdigits2 a - 1) + (Zdigits2 b - 1)) by lia.
    rewrite Z.pow_add_r by lia.
    assert (0 < 2 ^ (Zdigits2 a - 1)) by (apply Z.pow_pos_nonneg; lia).
    assert (0 < 2 ^ (Zdigits2 b - 1)) by (apply Z.pow_pos_nonneg; lia).
    nia. }
  pose proof (Zdigits2_ge_pow (a * b) (Zdigits2 a + Zdigits2 b - 2) ltac:(lia) H). lia.
Qed.

Theorem SFmul_valid x y : valid_binary prec emax x = true -> valid_binary prec emax y = true ->
  valid_binary prec emax (SFmul prec emax x y) = true.
Proof.
  destruct x as [sx|sx| |sx mx ex], y as [sy|sy| |sy my ey]; intros Hx Hy; try reflexivity.
  simpl in Hx, Hy. unfold SFmul.
  apply bounded_canonical in Hx, Hy. destruct Hx as [Cx _], Hy as [Cy _].
  pose proof (canonical_digits _ _ Cx) as [Dx1 Dx2].
  pose proof (canonical_digits _ _ Cy) as [Dy1 Dy2].
  apply binary_round_aux_valid; [lia|].
  pose proof (Zdigits2_mul (Zpos mx) (Zpos my) ltac:(lia) ltac:(lia)) as Hd.
  simpl Zdigits2 in Hd. change (Zpos mx * Zpos my) with (Zpos (mx * my)) in Hd.
  simpl Zdigits2.
  pose proof emin_nonpos.
  assert (0 < Zpos (digits2_pos mx)) by lia.
  assert (0 < Zpos (digits2_pos my)) by lia.
  unfold SpecFloat.fexp. lia.
Qed.

Lemma shift_pos m s : 0 <= s ->
  match s with Zpos _ => Z.shiftl m s | Z0 => m | Zneg _ => 0 end = m * 2 ^ s.
Proof.
  destruct s; intros; [rewrite Z.pow_0_r; lia | apply Z.shiftl_mul_pow2; lia | lia].
Qed.

Theorem SFdiv_valid x y : valid_binary prec emax x = true -> valid_binary prec emax y = true ->
  valid_binary prec emax (SFdiv prec emax x y) = true.
Proof.
  destruct x as [sx|sx| |sx mx ex], y as [sy|sy| |sy my ey]; intros Hx Hy; try reflexivity.
  unfold SFdiv, SFdiv_core_binary.
  set (d1 := Zdigits2 (Zpos mx)). set (d2 := Zdigits2 (Zpos my)).
  set (e' := Z.min (fexp (d1 + ex - (d2 + ey))) (ex - ey)).
  set (s := ex - ey - e').
  set (m' := match s with Zpos _ => Z.shiftl (Zpos mx) s | Z0 => Zpos mx | Zneg _ => 0 end).
  assert (Hs : 0 <= s) by (subst s e'; lia).
  assert (Hm' : m' = Zpos mx * 2 ^ s) by (apply shift_pos; exact Hs).
  assert (P2 : 0 < 2 ^ s) by (apply Z.pow_pos_nonneg; lia).
  pose proof (Z_div_mod m' (Zpos my) ltac:(lia)) as DM.
  destruct (Z.div_eucl m' (Zpos my)) as [q r] eqn:Eq. destruct DM as [DM1 DM2].
  assert (Hq : 0 <= q) by nia.
  apply binary_round_aux_valid; [exact Hq|].
  destruct (Z_le_gt_dec e' emin) as [Hle|Hgt].
  - unfold SpecFloat.fexp. lia.
  - assert (Hf : e' <= d1 + ex - (d2 + ey) - prec) by (subst e'; unfold SpecFloat.fexp in *; lia).
    assert (D1 : 0 < d1) by (subst d1; simpl; lia).
    assert (D2 : 0 < d2) by (subst d2; simpl; lia).
    pose proof (Zdigits2_bounds (Zpos mx) ltac:(lia)) as [B1 _]. fold d1 in B1.
    pose proof (Zdigits2_bounds (Zpos my) ltac:(lia)) as [_ B2]. fold d2 in B2.
    assert (Hsd : prec + d2 <= d1 + s) by (subst s; lia).
    assert (Hm2 : 2 ^ (prec - 1 + d2) <= m').
    { rewrite Hm'.
      assert (2 ^ (prec - 1 + d2) <= 2 ^ (d1 - 1 + s)) by (apply Z.pow_le_mono_r; lia).
      rewrite Z.pow_add_r in H |- * by lia.
      assert (0 < 2 ^ (d1 - 1)) by (apply Z.pow_pos_nonneg; lia).
      rewrite (Z.pow_add_r 2 (d1 - 1) s) in H by lia. nia. }
    rewrite Z.pow_add_r in Hm2 by lia.
    assert (P1 : 0 < 2 ^ (prec - 1)) by (apply Z.pow_pos_nonneg; lia).
    assert (Hq2 : 2 ^ (prec - 1) <= q) by nia.
    pose proof (Zdigits2_ge_pow q (prec - 1) ltac:(lia) Hq2).
    unfold SpecFloat.fexp. lia.
Qed.

Theorem SFsqrt_valid x : valid_binary prec emax x = true ->
  valid_binary prec emax (SFsqrt prec emax x) = true.
Proof.
  destruct x as [sx|sx| |sx mx ex]; intros Hx; try reflexivity;
    try (destruct sx; reflexivity).
  destruct sx; [reflexivity|].
  unfold SFsqrt, SFsqrt_core_binary.
  set (d := Zdigits2 (Zpos mx)).
  set (e' := Z.min (fexp (Z.div2 (d + ex + 1))) (Z.div2 ex)).
  set (s := ex - 2 * e').
  pose proof (Z.div2_div ex) as Dex.
  pose proof (Z.div2_div (d + ex + 1)) as Ddex.
  pose proof (Z.mul_div_le ex 2 ltac:(lia)) as L1.
  pose proof (Z.mul_div_le (d + ex + 1) 2 ltac:(lia)) as L2.
  assert (Hs : 0 <= s) by (subst s e'; lia).
  rewrite (shift_pos (Zpos mx) s Hs).
  assert (P2 : 0 < 2 ^ s) by (apply Z.pow_pos_nonneg; lia).
  pose proof (Z.sqrtrem_spec (Zpos mx * 2 ^ s) ltac:(lia)) as SP.
  destruct (Z.sqrtrem (Zpos mx * 2 ^ s)) as [q r] eqn:Eq. destruct SP as [SP1 SP2].
  assert (Hq : 0 <= q) by lia.
  apply binary_round_aux_valid; [exact Hq|].
  destruct (Z_le_gt_dec e' emin) as [Hle|Hgt].
  - unfold SpecFloat.fexp. lia.
  - assert (Hf : e' + prec <= Z.div2 (d + ex + 1)) by (subst e'; unfold SpecFloat.fexp in *; lia).
    assert (D1 : 0 < d) by (subst d; simpl; lia).
    pose proof (Zdigits2_bounds (Zpos mx) ltac:(lia)) as [B1 _]. fold d in B1.
    assert (Hds : 2 * prec - 1 <= d + s) by (subst s; lia).
    assert (P1 : 0 < 2 ^ (prec - 1)) by (apply Z.pow_pos_nonneg; lia).
    assert (Hm2 : 2 ^ (prec - 1) * 2 ^ (prec - 1) <= Zpos mx * 2 ^ s).
    { rewrite <- Z.pow_add_r by lia.
      assert (2 ^ (prec - 1 + (prec - 1)) <= 2 ^ (d - 1 + s)) by (apply Z.pow_le_mono_r; lia).
      rewrite (Z.pow_add_r 2 (d - 1) s) in H by lia.
      assert (0 < 2 ^ (d - 1)) by (apply Z.pow_pos_nonneg; lia). nia. }
    assert (Hq2 : 2 ^ (prec - 1) <= q) by nia.
    pose proof (Zdigits2_ge_pow q (prec - 1) ltac:(lia) Hq2).
    unfold SpecFloat.fexp. lia.
Qed.

(** ** What [binary_round] computes *)

Definition rnd_e (M e : Z) : Z := fexp (Zdigits2 M + e).
Definition rnd_m (M e : Z) : Z :=
  let ez := Z.min e (rnd_e M e) in rne (M * 2 ^ (e - ez)) (rnd_e M e - ez).

Lemma binary_round_spec sx mx ex :
  binary_round prec emax sx mx ex =
    norm_result sx (rnd_m (Zpos mx) ex) (rnd_e (Zpos mx) ex) /\
  qcanon (rnd_m (Zpos mx) ex) (rnd_e (Zpos mx) ex).
Proof.
  unfold binary_round, rnd_m, rnd_e.
  destruct (binary_round_pre mx ex) as [D H].
  destruct (shl_align_spec mx ex (fexp (Zpos (digits2_pos mx) + ex))) as [S1 S2].
  destruct (shl_align mx ex (fexp (Zpos (digits2_pos mx) + ex))) as [mz ez].
  cbv beta iota delta [fst snd] in D, H, S1, S2. cbv zeta in D, H.
  change (Zdigits2 (Zpos mx)) with (Zpos (digits2_pos mx)).
  rewrite (binary_round_aux_exact sx (Zpos mz) ez ltac:(lia) H).
  rewrite D. rewrite <- S1 in S2 |- *. rewrite <- S2. split; [reflexivity|].
  rewrite <- D. apply first_qcanon; try assumption; try lia.
  apply rne_cases.
Qed.

Definition kopp (a : Z * Z * Z) : Z * Z * Z :=
  let '(a1, a2, a3) := a in (- a1, - a2, - a3).

Lemma key_SFopp x : key (SFopp x) = option_map kopp (key x).
Proof.
  destruct x as [s|s| |s m e]; try destruct s; simpl; rewrite ?Z.opp_involutive; reflexivity.
Qed.

Lemma klt_kopp a b : klt a b -> klt (kopp b) (kopp a).
Proof. destruct a as [[a1 a2] a3], b as [[b1 b2] b3]. unfold klt, kopp. lia. Qed.

Lemma kle_kopp a b : kle a b -> kle (kopp b) (kopp a).
Proof. intros [H| ->]; [left; apply klt_kopp; assumption | right; reflexivity]. Qed.

Lemma kle_intro a1 a2 a3 b1 b2 b3 :
  a1 < b1 \/ (a1 = b1 /\ (a2 < b2 \/ (a2 = b2 /\ a3 <= b3))) ->
  kle (a1, a2, a3) (b1, b2, b3).
Proof.
  intros H. destruct (Z.eq_dec a3 b3) as [E|N].
  - destruct (Z.eq_dec a2 b2) as [E2|N2]; [destruct (Z.eq_dec a1 b1) as [E1|N1]|].
    + right. congruence.
    + left. unfold klt. lia.
    + left. unfold klt. lia.
  - left. unfold klt. lia.
Qed.

(** key of a rounded positive value *)
Definition nkey (m2 e1 : Z) : Z * Z * Z :=
  let m' := if m2 =? 2 ^ prec then 2 ^ (prec - 1) else m2 in
  let e' := if m2 =? 2 ^ prec then e1 + 1 else e1 in
  if m' =? 0 then (0, 0, 0)
  else if e' <=? emax - prec then (1, e', m') else (2, 0, 0).

Lemma norm_result_opp m2 e1 :
  norm_result true m2 e1 = SFopp (norm_result false m2 e1).
Proof.
  unfold norm_result.
  destruct (if m2 =? 2 ^ prec then 2 ^ (prec - 1) else m2); try reflexivity.
  destruct (_ <=? _); reflexivity.
Qed.

Lemma key_norm_result m2 e1 : qcanon m2 e1 ->
  key (norm_result false m2 e1) = Some (nkey m2 e1).
Proof.
  intros (He & [Hm0 Hm1] & Hc). unfold norm_result, nkey.
  assert (P1 : 0 < 2 ^ (prec - 1)) by (apply Z.pow_pos_nonneg; lia).
  destruct (m2 =? 2 ^ prec).
  - destruct (2 ^ (prec - 1)) as [|p|p] eqn:E; try lia.
    change (Zpos p =? 0) with false. cbv iota.
    destruct (e1 + 1 <=? emax - prec); reflexivity.
  - destruct m2 as [|p|p]; try lia; [reflexivity|].
    change (Zpos p =? 0) with false. cbv iota.
    destruct (e1 <=? emax - prec); reflexivity.
Qed.

Lemma nkey_nonneg m2 e1 : qcanon m2 e1 -> kle (0, 0, 0) (nkey m2 e1).
Proof.
  intros (He & [Hm0 Hm1] & Hc). unfold nkey.
  assert (P1 : 0 < 2 ^ (prec - 1)) by (apply Z.pow_pos_nonneg; lia).
  destruct (Z.eqb_spec m2 (2 ^ prec));
  match goal with |- context [?a =? 0] => destruct (Z.eqb_spec a 0) end;
  try (right; reflexivity);
  match goal with |- context [?a <=? ?b] => destruct (Z.leb_spec a b) end;
  apply kle_intro; lia.
Qed.

Lemma rnd_mono M M' e : 0 < M -> M <= M' ->
  kle (nkey (rnd_m M e) (rnd_e M e)) (nkey (rnd_m M' e) (rnd_e M' e)).
Proof.
  intros HM HMM'.
  assert (Q : forall N, 0 < N -> qcanon (rnd_m N e) (rnd_e N e)).
  { intros N HN. destruct N as [|p|p]; try lia. apply (binary_round_spec false p e). }
  pose proof (Q M HM) as (He & [Hm0 Hm1] & Hc).
  pose proof (Q M' ltac:(lia)) as (He' & [Hm0' Hm1'] & Hc').
  assert (Hee : rnd_e M e <= rnd_e M' e).
  { unfold rnd_e. apply fexp_mono. pose proof (Zdigits2_le M M' ltac:(lia)). lia. }
  pose proof pow_prec_half as PH.
  assert (P1 : 0 < 2 ^ (prec - 1)) by (apply Z.pow_pos_nonneg; lia).
  destruct (Z.eq_dec (rnd_e M e) (rnd_e M' e)) as [Eq|Ne].
  - assert (Hmm : rnd_m M e <= rnd_m M' e).
    { unfold rnd_m. rewrite <- Eq.
      apply rne_mono; [lia|].
      assert (0 < 2 ^ (e - Z.min e (rnd_e M e))) by (apply Z.pow_pos_nonneg; lia).
      nia. }
    unfold nkey. rewrite <- Eq.
    destruct (Z.eqb_spec (rnd_m M e) (2 ^ prec));
    destruct (Z.eqb_spec (rnd_m M' e) (2 ^ prec));
    repeat match goal with |- context [?a =? 0] => destruct (Z.eqb_spec a 0) end;
    repeat match goal with |- context [?a <=? ?b] => destruct (Z.leb_spec a b) end;
    apply kle_intro; lia.
  - assert (Hn' : 2 ^ (prec - 1) <= rnd_m M' e) by lia.
    unfold nkey.
    destruct (Z.eqb_spec (rnd_m M e) (2 ^ prec));
    destruct (Z.eqb_spec (rnd_m M' e) (2 ^ prec));
    repeat match goal with |- context [?a =? 0] => destruct (Z.eqb_spec a 0) end;
    repeat match goal with |- context [?a <=? ?b] => destruct (Z.leb_spec a b) end;
    apply kle_intro; lia.
Qed.

Lemma key_binary_normalize_pos p e :
  key (binary_normalize prec emax (Zpos p) e false) = Some (nkey (rnd_m (Zpos p) e) (rnd_e (Zpos p) e)).
Proof.
  simpl binary_normalize. destruct (binary_round_spec false p e) as [-> Hq].
  apply key_norm_result; assumption.
Qed.

Lemma key_binary_normalize_neg p e :
  key (binary_normalize prec emax (Zneg p) e false) =
  Some (kopp (nkey (rnd_m (Zpos p) e) (rnd_e (Zpos p) e))).
Proof.
  simpl binary_normalize. destruct (binary_round_spec true p e) as [-> Hq].
  rewrite norm_result_opp, key_SFopp, key_norm_result by assumption. reflexivity.
Qed.

Theorem binary_normalize_mono M M' e : M <= M' ->
  SFleb (binary_normalize prec emax M e false) (binary_normalize prec emax M' e false) = true.
Proof.
  intros H. apply SFleb_key.
  assert (Q : forall p, qcanon (rnd_m (Zpos p) e) (rnd_e (Zpos p) e)).
  { intros p. apply (binary_round_spec false p e). }
  assert (Z0' : kopp (0, 0, 0) = (0, 0, 0)) by reflexivity.
  destruct M as [|p|p], M' as [|p'|p']; try lia;
    rewrite ?key_binary_normalize_pos, ?key_binary_normalize_neg;
    do 2 eexists; (split; [reflexivity|]); (split; [reflexivity|]).
  - right; reflexivity.
  - apply nkey_nonneg, Q.
  - apply rnd_mono; lia.
  - rewrite <- Z0'. apply kle_kopp, nkey_nonneg, Q.
  - pose proof (nkey_nonneg _ _ (Q p)) as A. pose proof (nkey_nonneg _ _ (Q p')) as B.
    apply kle_kopp in A. rewrite Z0' in A.
    destruct A as [A| ->], B as [B| <-]; try (left; eapply klt_trans; eassumption);
      try (left; assumption); right; reflexivity.
  - apply kle_kopp, rnd_mono; lia.
Qed.

(** ** Signs and the order of sums and differences *)

Definition notneg (r : spec_float) : Prop :=
  match r with
  | S754_finite true _ _ | S754_infinity true => False
  | _ => True
  end.

Definition notpos (r : spec_float) : Prop :=
  match r with
  | S754_finite false _ _ | S754_infinity false => False
  | _ => True
  end.

Lemma notpos_ltb r : notpos r -> SFltb (S754_zero false) r = false.
Proof. destruct r as [s|s| |s m e]; try destruct s; simpl; intros H; try reflexivity; destruct H. Qed.

Lemma binary_round_aux_sign sx mx ex lx :
  match binary_round_aux prec emax sx mx ex lx with
  | S754_finite s _ _ | S754_infinity s | S754_zero s => s = sx
  | S754_nan => True
  end.
Proof.
  unfold binary_round_aux.
  destruct (shr_fexp prec emax mx ex lx) as [mrs' e'].
  destruct (shr_fexp prec emax _ e' loc_Exact) as [mrs'' e''].
  destruct (shr_m mrs''); auto.
  destruct (e'' <=? emax - prec); reflexivity.
Qed.

Lemma SFsqrt_notneg x : notneg (SFsqrt prec emax x).
Proof.
  destruct x as [s|s| |s m e]; try destruct s; simpl; auto.
  destruct (SFsqrt_core_binary prec emax (Zpos m) e) as [[mz ez] lz].
  pose proof (binary_round_aux_sign false mz ez lz) as H.
  destruct (binary_round_aux prec emax false mz ez lz) as [s|s| |s m' e']; subst; simpl; auto.
Qed.

Lemma shl_align_fst mx ex ez : ez <= ex ->
  Zpos (fst (shl_align mx ex ez)) = Zpos mx * 2 ^ (ex - ez).
Proof.
  intros H. destruct (shl_align_spec mx ex ez) as [_ S2]. rewrite S2.
  replace (Z.min ex ez) with ez by lia. reflexivity.
Qed.

Theorem SFadd_SFsub_order x r : notneg r ->
  SFltb (SFadd prec emax x r) (SFsub prec emax x r) = false.
Proof.
  intros Hr.
  destruct x as [sx|sx| |sx mx ex], r as [sr|sr| |sr mr er];
    try destruct sx; try destruct sr; try destruct Hr; try reflexivity;
    try apply SFltb_irrefl.
  all: apply SFleb_not_ltb; unfold SFadd, SFsub; apply binary_normalize_mono;
    rewrite !shl_align_fst by lia;
    assert (0 < Zpos mr * 2 ^ (er - Z.min ex er))
      by (apply Z.mul_pos_pos; [lia | apply Z.pow_pos_nonneg; lia]);
    unfold cond_Zopp; lia.
Qed.

Lemma canonical_lex_lt m1 e1 m2 e2 ez :
  bounded prec emax m1 e1 = true -> bounded prec emax m2 e2 = true ->
  e1 < e2 \/ (e1 = e2 /\ Zpos m1 < Zpos m2) ->
  ez <= e1 -> ez <= e2 ->
  Zpos m1 * 2 ^ (e1 - ez) < Zpos m2 * 2 ^ (e2 - ez).
Proof.
  intros B1 B2 Hlt Hz1 Hz2.
  apply bounded_canonical in B1, B2. destruct B1 as [C1 _], B2 as [C2 _].
  pose proof (canonical_digits _ _ C1) as [D1 D1'].
  pose proof (canonical_digits _ _ C2) as [D2 D2'].
  assert (P1 : 0 < 2 ^ (e1 - ez)) by (apply Z.pow_pos_nonneg; lia).
  destruct Hlt as [Hlt|[-> Hlt]]; [|nia].
  pose proof (fexp_ge_emin (Zpos (digits2_pos m1) + e1)) as G1. rewrite <- C1 in G1.
  assert (Dp : Zpos (digits2_pos m2) = prec) by lia.
  pose proof (Zdigits2_bounds (Zpos m1) ltac:(lia)) as [_ U1]. simpl Zdigits2 in U1.
  pose proof (Zdigits2_bounds (Zpos m2) ltac:(lia)) as [L2 _]. simpl Zdigits2 in L2.
  rewrite Dp in L2.
  assert (U1' : Zpos m1 < 2 ^ prec).
  { eapply Z.lt_le_trans; [exact U1|]. apply Z.pow_le_mono_r; lia. }
  assert (E : 2 ^ (e2 - ez) = 2 ^ (e2 - e1 - 1) * 2 * 2 ^ (e1 - ez)).
  { replace (e2 - ez) with ((e2 - e1 - 1) + 1 + (e1 - ez)) by lia.
    rewrite !Z.pow_add_r by lia. reflexivity. }
  assert (P2 : 0 < 2 ^ (e2 - e1 - 1)) by (apply Z.pow_pos_nonneg; lia).
  pose proof pow_prec_half as PH.
  assert (P3 : 0 < 2 ^ (prec - 1)) by (apply Z.pow_pos_nonneg; lia).
  rewrite E.
  assert (Zpos m1 < Zpos m2 * (2 ^ (e2 - e1 - 1) * 2)) by nia.
  nia.
Qed.

Lemma binary_normalize_neg_notpos p e : notpos (binary_normalize prec emax (Zneg p) e false).
Proof.
  simpl. destruct (binary_round_spec true p e) as [-> _].
  unfold norm_result.
  destruct (if _ =? _ then _ else _); simpl; auto.
  destruct (_ <=? _); simpl; auto.
Qed.

Lemma binary_normalize_lt0_notpos M e : M < 0 -> notpos (binary_normalize prec emax M e false).
Proof. destruct M; try lia. intros _. apply binary_normalize_neg_notpos. Qed.

Theorem SFsub_lt_notpos x y :
  valid_binary prec emax x = true -> valid_binary prec emax y = true ->
  SFltb x y = true -> notpos (SFsub prec emax x y).
Proof.
  intros Vx Vy Hlt.
  destruct x as [sx|sx| |sx mx ex], y as [sy|sy| |sy my ey];
    try destruct sx; try destruct sy; try discriminate Hlt; try solve [simpl; auto];
    unfold SFsub; apply binary_normalize_lt0_notpos;
    rewrite !shl_align_fst by lia; unfold cond_Zopp.
  - (* both negative *)
    simpl in Vx, Vy. apply SFltb_key in Hlt. destruct Hlt as (a & b & Ha & Hb & Hk).
    simpl in Ha, Hb. inversion Ha; inversion Hb; subst. unfold klt in Hk.
    pose proof (canonical_lex_lt my ey mx ex (Z.min ex ey) Vy Vx ltac:(lia) ltac:(lia) ltac:(lia)).
    lia.
  - (* negative minus positive *)
    assert (0 < Zpos mx * 2 ^ (ex - Z.min ex ey))
      by (apply Z.mul_pos_pos; [lia | apply Z.pow_pos_nonneg; lia]).
    assert (0 < Zpos my * 2 ^ (ey - Z.min ex ey))
      by (apply Z.mul_pos_pos; [lia | apply Z.pow_pos_nonneg; lia]).
    lia.
  - (* both positive *)
    simpl in Vx, Vy. apply SFltb_key in Hlt. destruct Hlt as (a & b & Ha & Hb & Hk).
    simpl in Ha, Hb. inversion Ha; inversion Hb; subst. unfold klt in Hk.
    pose proof (canonical_lex_lt mx ex my ey (Z.min ex ey) Vx Vy ltac:(lia) ltac:(lia) ltac:(lia)).
    lia.
Qed.

(** ** The values of a binary format, with the operations of the format *)

Record binary_float : Type := BF {
  bval :> spec_float;
  bvalid : valid_binary prec emax bval = true
}.

Lemma binary_float_ext (x y : binary_float) : bval x = bval y -> x = y.
Proof.
  destruct x as [x Hx], y as [y Hy]. simpl. intros ->.
  f_equal. apply (Eqdep_dec.UIP_dec Bool.bool_dec).
Qed.

Definition Bnan : binary_float := BF S754_nan eq_refl.
Definition Bzero (s : bool) : binary_float := BF (S754_zero s) eq_refl.
Definition Binfinity (s : bool) : binary_float := BF (S754_infinity s) eq_refl.
Definition Bopp (x : binary_float) : binary_float :=
  BF (SFopp x) (SFopp_valid x (bvalid x)).
Definition Badd (x y : binary_float) : binary_float :=
  BF (SFadd prec emax x y) (SFadd_valid x y (bvalid x) (bvalid y)).
Definition Bsub (x y : binary_float) : binary_float :=
  BF (SFsub prec emax x y) (SFsub_valid x y (bvalid x) (bvalid y)).
Definition Bmul (x y : binary_float) : binary_float :=
  BF (SFmul prec emax x y) (SFmul_valid x y (bvalid x) (bvalid y)).
Definition Bdiv (x y : binary_float) : binary_float :=
  BF (SFdiv prec emax x y) (SFdiv_valid x y (bvalid x) (bvalid y)).
Definition Bsqrt (x : binary_float) : binary_float :=
  BF (SFsqrt prec emax x) (SFsqrt_valid x (bvalid x)).
(** conversion of an integer, rounded to nearest even *)
Definition Bof_Z (z : Z) : binary_float :=
  BF (binary_normalize prec emax z 0 false) (binary_normalize_valid z 0 false).
(** the datum [x] of any format, rounded into this one *)
Definition Bof_spec (x : spec_float) : binary_float :=
  match x with
  | S754_zero s => Bzero s
  | S754_infinity s => Binfinity s
  | S754_nan => Bnan
  | S754_finite s m e => BF (binary_round prec emax s m e) (binary_round_valid s m e)
  end.

Definition Bltb (x y : binary_float) : bool := SFltb x y.
Definition Bleb (x y : binary_float) : bool := SFleb x y.
Definition Beqb (x y : binary_float) : bool := SFeqb x y.
Definition Bis_nan (x : binary_float) : bool := is_nan x.

End Format.

End IEEE754.

(** * Rounding to nearest, on the integers *)

(** The finite floats of a format are the integers of at most [p] significant
    digits, counted in units of the least positive float.  This part is about
    them alone: the exponent has no upper bound here. *)
Module Nearest.

Import IEEE754.

Section Rounding.

Variable p : Z.
Hypothesis Hp : 1 < p.

(** the exponent of the unit in the last place of a natural number *)
Definition sh (M : Z) : Z := Z.max 0 (Zdigits2 M - p).

(** a natural number rounded to [p] digits, to nearest, ties to even *)
Definition rp (M : Z) : Z := rne M (sh M) * 2 ^ sh M.

(** an integer rounded *)
Definition rz (N : Z) : Z := if N <? 0 then - rp (- N) else rp N.

(** the integers of at most [p] significant digits *)
Definition inF (N : Z) : Prop := Z.abs N mod 2 ^ sh (Z.abs N) = 0.

Lemma sh_nonneg M : 0 <= sh M.
Proof. unfold sh. lia. Qed.

Lemma pow_sh_pos M : 0 < 2 ^ sh M.
Proof. apply Z.pow_pos_nonneg; [lia | apply sh_nonneg]. Qed.

Lemma sh_mono M M' : 0 <= M <= M' -> sh M <= sh M'.
Proof. intros H. unfold sh. pose proof (Zdigits2_le M M' H). lia. Qed.

Lemma pow_lt_mono a b : 0 <= a -> a < b -> 2 ^ a < 2 ^ b.
Proof. intros. apply Z.pow_lt_mono_r; lia. Qed.

Lemma pow_le_mono a b : 0 <= a -> a <= b -> 2 ^ a <= 2 ^ b.
Proof. intros. apply Z.pow_le_mono_r; lia. Qed.

Lemma pow_split a b : 0 <= a -> 0 <= b -> 2 ^ (a + b) = 2 ^ a * 2 ^ b.
Proof. intros. apply Z.pow_add_r; assumption. Qed.

(** a number with a positive [sh] has [p + sh] digits *)
Lemma sh_bounds M : 0 <= M -> 0 < sh M -> 2 ^ (p - 1 + sh M) <= M < 2 ^ (p + sh M).
Proof.
  unfold sh. intros HM0 H.
  assert (HM : 0 < M).
  { destruct (Z.eq_dec M 0) as [->|]; [|lia]. change (Zdigits2 0) with 0 in H. lia. }
  pose proof (Zdigits2_bounds M HM) as B.
  replace (Z.max 0 (Zdigits2 M - p)) with (Zdigits2 M - p) by lia.
  replace (p - 1 + (Zdigits2 M - p)) with (Zdigits2 M - 1) by lia.
  replace (p + (Zdigits2 M - p)) with (Zdigits2 M) by lia. exact B.
Qed.

Lemma sh_zero_bound M : 0 <= M -> sh M = 0 -> M < 2 ^ p.
Proof.
  unfold sh. intros HM H.
  destruct (Z.eq_dec M 0) as [->|Hn]; [apply Z.pow_pos_nonneg; lia|].
  pose proof (Zdigits2_bounds M ltac:(lia)) as B.
  assert (2 ^ Zdigits2 M <= 2 ^ p) by (apply pow_le_mono; [apply Zdigits2_nonneg | lia]).
  lia.
Qed.

Lemma sh_upper M : 0 <= M -> M < 2 ^ (p + sh M).
Proof.
  intros HM. destruct (Z.eq_dec (sh M) 0) as [E|E].
  - rewrite E, Z.add_0_r. apply sh_zero_bound; assumption.
  - pose proof (sh_nonneg M). apply sh_bounds; lia.
Qed.

(** [sh] from bounds *)
Lemma sh_unique M s : 0 < s -> 2 ^ (p - 1 + s) <= M < 2 ^ (p + s) -> sh M = s.
Proof.
  intros Hs B. unfold sh.
  assert (0 < M) by (pose proof (Z.pow_pos_nonneg 2 (p - 1 + s)); lia).
  rewrite (Zdigits2_unique M (p + s)); try lia.
  replace (p + s - 1) with (p - 1 + s) by lia. exact B.
Qed.

Lemma sh_small M : 0 <= M -> M < 2 ^ p -> sh M = 0.
Proof.
  intros HM B. unfold sh. pose proof (Zdigits2_lt_pow M p HM ltac:(lia) B). lia.
Qed.

Lemma sh_le M s : 0 <= M -> 0 <= s -> M < 2 ^ (p + s) -> sh M <= s.
Proof.
  intros HM Hs B. unfold sh. pose proof (Zdigits2_lt_pow M (p + s) HM ltac:(lia) B). lia.
Qed.

Lemma sh_ge M s : 0 <= s -> 2 ^ (p - 1 + s) <= M -> s <= sh M.
Proof.
  intros Hs B. unfold sh. pose proof (Zdigits2_ge_pow M (p - 1 + s) ltac:(lia) B). lia.
Qed.


(** ** Rounding a natural number *)

(** [lo M] is the multiple of the unit just below [M] *)
Definition lo (M : Z) : Z := M / 2 ^ sh M * 2 ^ sh M.

Lemma lo_le M : 0 <= M -> lo M <= M < lo M + 2 ^ sh M.
Proof.
  intros HM. unfold lo. pose proof (pow_sh_pos M) as P.
  pose proof (Z.div_mod M (2 ^ sh M) ltac:(lia)).
  pose proof (Z.mod_pos_bound M (2 ^ sh M) P). lia.
Qed.

Lemma lo_mod M : M mod 2 ^ sh M = M - lo M.
Proof.
  unfold lo. pose proof (pow_sh_pos M) as P.
  pose proof (Z.div_mod M (2 ^ sh M) ltac:(lia)). lia.
Qed.

(** the quotient has [p] digits when the unit is not 1 *)
Lemma quot_bounds M : 0 <= M -> 0 < sh M -> 2 ^ (p - 1) <= M / 2 ^ sh M < 2 ^ p.
Proof.
  intros HM Hs. pose proof (sh_bounds M HM Hs) as [B1 B2]. pose proof (pow_sh_pos M) as P.
  rewrite pow_split in B1, B2 by lia. split.
  - apply Z.div_le_lower_bound; lia.
  - apply Z.div_lt_upper_bound; lia.
Qed.

Lemma quot_upper M : 0 <= M -> M / 2 ^ sh M < 2 ^ p.
Proof.
  intros HM. pose proof (sh_upper M HM) as B. pose proof (pow_sh_pos M) as P.
  pose proof (sh_nonneg M). rewrite pow_split in B by lia.
  apply Z.div_lt_upper_bound; lia.
Qed.

Lemma lo_bounds M : 0 <= M -> 0 < sh M -> 2 ^ (p - 1 + sh M) <= lo M /\ lo M + 2 ^ sh M <= 2 ^ (p + sh M).
Proof.
  intros HM Hs. pose proof (quot_bounds M HM Hs) as [Q1 Q2]. pose proof (pow_sh_pos M) as P.
  unfold lo. rewrite !pow_split by lia. nia.
Qed.

(** what [rp] chooses *)
Lemma rp_cases M : 0 <= M ->
  (2 * (M - lo M) < 2 ^ sh M /\ rp M = lo M) \/
  (2 * (M - lo M) > 2 ^ sh M /\ rp M = lo M + 2 ^ sh M) \/
  (2 * (M - lo M) = 2 ^ sh M /\ Z.even (M / 2 ^ sh M) = true /\ rp M = lo M) \/
  (2 * (M - lo M) = 2 ^ sh M /\ Z.even (M / 2 ^ sh M) = false /\ rp M = lo M + 2 ^ sh M).
Proof.
  intros HM. unfold rp, rne. rewrite lo_mod. unfold lo.
  destruct (Z.compare_spec (2 * (M - M / 2 ^ sh M * 2 ^ sh M)) (2 ^ sh M)) as [E|E|E].
  - destruct (Z.even (M / 2 ^ sh M)); [right; right; left | right; right; right];
      repeat split; try assumption; lia.
  - left. split; [assumption | reflexivity].
  - right; left. split; [lia | lia].
Qed.

Lemma rp_0 : rp 0 = 0.
Proof. unfold rp, rne. rewrite Z.div_0_l, Z.mod_0_l by (pose proof (pow_sh_pos 0); lia).
  change (2 * 0) with 0. pose proof (pow_sh_pos 0).
  destruct (Z.compare_spec 0 (2 ^ sh 0)); lia.
Qed.

Lemma rp_lo_hi M : 0 <= M -> rp M = lo M \/ rp M = lo M + 2 ^ sh M.
Proof. intros HM. destruct (rp_cases M HM) as [H|[H|[H|H]]]; intuition. Qed.

Lemma rp_nonneg M : 0 <= M -> 0 <= rp M.
Proof.
  intros HM. pose proof (pow_sh_pos M). unfold rp.
  destruct (rne_cases M (sh M)) as [-> | ->];
    pose proof (Z.div_pos M (2 ^ sh M) HM ltac:(lia)); nia.
Qed.

(** the error of [rp] is at most half the unit *)
Lemma rp_err M : 0 <= M -> 2 * Z.abs (M - rp M) <= 2 ^ sh M.
Proof.
  intros HM. pose proof (lo_le M HM) as L.
  destruct (rp_cases M HM) as [H|[H|[H|H]]]; lia.
Qed.

(** a natural number that is a float *)
Definition inFp (f : Z) : Prop := f mod 2 ^ sh f = 0.

Lemma rp_id f : 0 <= f -> inFp f -> rp f = f.
Proof.
  intros Hf H. unfold rp. rewrite rne_exact by (apply sh_nonneg || exact H).
  pose proof (pow_sh_pos f) as P.
  pose proof (Z.div_mod f (2 ^ sh f) ltac:(lia)). unfold inFp in H. lia.
Qed.

Lemma inFp_mult c s : 0 <= s -> 0 <= c <= 2 ^ p -> (s = 0 \/ 2 ^ (p - 1) <= c) -> inFp (c * 2 ^ s).
Proof.
  intros Hs [Hc0 Hc1] Hcan. unfold inFp.
  assert (P : 0 < 2 ^ s) by (apply Z.pow_pos_nonneg; lia).
  assert (Pp : 0 < 2 ^ (p - 1)) by (apply Z.pow_pos_nonneg; lia).
  assert (E2 : 2 ^ p = 2 * 2 ^ (p - 1)).
  { replace p with (1 + (p - 1)) at 1 by lia. rewrite pow_split by lia. reflexivity. }
  destruct (Z.eq_dec c (2 ^ p)) as [->|Hn].
  - (* the carry: one more digit *)
    assert (Es : sh (2 ^ p * 2 ^ s) = s + 1).
    { apply sh_unique; [lia|]. rewrite !pow_split by lia. change (2 ^ 1) with 2. nia. }
    rewrite Es. rewrite pow_split by lia. change (2 ^ 1) with 2.
    rewrite E2. replace (2 * 2 ^ (p - 1) * 2 ^ s) with (2 ^ (p - 1) * (2 ^ s * 2)) by lia.
    apply Z.mod_mul. lia.
  - destruct (Z.eq_dec s 0) as [->|Hs0].
    + rewrite Z.pow_0_r, Z.mul_1_r. rewrite sh_small by lia. apply Z.mod_1_r.
    + assert (Es : sh (c * 2 ^ s) = s).
      { apply sh_unique; [lia|]. rewrite !pow_split by lia. destruct Hcan; [lia|]. nia. }
      rewrite Es. apply Z.mod_mul. lia.
Qed.

Lemma inFp_lo M : 0 <= M -> inFp (lo M).
Proof.
  intros HM. unfold lo. apply inFp_mult; [apply sh_nonneg | |].
  - pose proof (quot_upper M HM). pose proof (pow_sh_pos M).
    pose proof (Z.div_pos M (2 ^ sh M) HM ltac:(lia)). lia.
  - destruct (Z.eq_dec (sh M) 0); [left; assumption|right].
    pose proof (sh_nonneg M). apply quot_bounds; lia.
Qed.

Lemma inFp_hi M : 0 <= M -> inFp (lo M + 2 ^ sh M).
Proof.
  intros HM. unfold lo.
  replace (M / 2 ^ sh M * 2 ^ sh M + 2 ^ sh M) with ((M / 2 ^ sh M + 1) * 2 ^ sh M) by lia.
  apply inFp_mult; [apply sh_nonneg | |].
  - pose proof (quot_upper M HM). pose proof (pow_sh_pos M).
    pose proof (Z.div_pos M (2 ^ sh M) HM ltac:(lia)). lia.
  - destruct (Z.eq_dec (sh M) 0); [left; assumption|right].
    pose proof (sh_nonneg M). pose proof (quot_bounds M HM ltac:(lia)). lia.
Qed.

Lemma inFp_rp M : 0 <= M -> inFp (rp M).
Proof.
  intros HM. destruct (rp_lo_hi M HM) as [-> | ->]; [apply inFp_lo | apply inFp_hi]; assumption.
Qed.

(** no float lies strictly between [lo M] and [lo M + 2 ^ sh M] *)
Lemma bracket_gap M f : 0 <= M -> 0 <= f -> inFp f -> f <= lo M \/ lo M + 2 ^ sh M <= f.
Proof.
  intros HM Hf Hin.
  destruct (Z_le_gt_dec f (lo M)) as [|H1]; [left; assumption|].
  destruct (Z_le_gt_dec (lo M + 2 ^ sh M) f) as [|H2]; [right; assumption|]. exfalso.
  pose proof (pow_sh_pos M) as P. pose proof (sh_nonneg M) as S0.
  destruct (Z.eq_dec (sh M) 0) as [E|E].
  - rewrite E in H2. change (2 ^ 0) with 1 in H2. lia.
  - pose proof (lo_bounds M HM ltac:(lia)) as [B1 B2].
    assert (Es : sh f = sh M) by (apply sh_unique; lia).
    unfold inFp in Hin. rewrite Es in Hin.
    pose proof (Z.div_mod f (2 ^ sh M) ltac:(lia)) as D. rewrite Hin in D.
    unfold lo in H1, H2.
    set (G := 2 ^ sh M) in *. set (k := f / G) in *. set (q := M / G) in *.
    assert (q < k) by nia. assert (k < q + 1) by nia. lia.
Qed.

Lemma rp_nearest M f : 0 <= M -> 0 <= f -> inFp f -> Z.abs (M - rp M) <= Z.abs (M - f).
Proof.
  intros HM Hf Hin. pose proof (lo_le M HM) as L.
  destruct (bracket_gap M f HM Hf Hin) as [B|B];
  destruct (rp_cases M HM) as [H1|[H1|[H1|H1]]]; lia.
Qed.

Lemma sh_rp M : 0 <= M -> sh M <= sh (rp M).
Proof.
  intros HM. pose proof (sh_nonneg M). pose proof (pow_sh_pos M).
  destruct (Z.eq_dec (sh M) 0) as [E|E]; [rewrite E; apply sh_nonneg|].
  apply sh_ge; [lia|]. pose proof (lo_bounds M HM ltac:(lia)).
  destruct (rp_lo_hi M HM) as [-> | ->]; lia.
Qed.

Lemma rp_upper M : 0 <= M -> rp M <= 2 ^ (p + sh M).
Proof.
  intros HM. pose proof (sh_nonneg M). pose proof (pow_sh_pos M).
  destruct (Z.eq_dec (sh M) 0) as [E|E].
  - pose proof (sh_zero_bound M HM E). rewrite E, Z.add_0_r.
    unfold rp. rewrite E, rne_0. lia.
  - pose proof (lo_bounds M HM ltac:(lia)).
    destruct (rp_lo_hi M HM) as [-> | ->]; lia.
Qed.

Lemma rp_lower M : 0 <= M -> 0 < sh M -> 2 ^ (p - 1 + sh M) <= rp M.
Proof.
  intros HM Hs. pose proof (lo_bounds M HM Hs). pose proof (pow_sh_pos M).
  destruct (rp_lo_hi M HM) as [-> | ->]; lia.
Qed.

Lemma rp_mono M M' : 0 <= M <= M' -> rp M <= rp M'.
Proof.
  intros [HM HMM']. pose proof (sh_mono M M' ltac:(lia)) as Hs.
  destruct (Z.eq_dec (sh M) (sh M')) as [E|Ne].
  - unfold rp. rewrite <- E. pose proof (pow_sh_pos M).
    pose proof (rne_mono M M' (sh M) (sh_nonneg M) HMM'). nia.
  - pose proof (sh_nonneg M).
    pose proof (rp_upper M HM). pose proof (rp_lower M' ltac:(lia) ltac:(lia)).
    assert (2 ^ (p + sh M) <= 2 ^ (p - 1 + sh M')) by (apply pow_le_mono; lia). lia.
Qed.


(** ** Where a float is the nearest *)

Lemma even_pow_pred : Z.even (2 ^ p - 1) = false.
Proof.
  replace (2 ^ p - 1) with (1 + 2 * (2 ^ (p - 1) - 1)).
  - rewrite Z.even_add_mul_2. reflexivity.
  - replace p with (1 + (p - 1)) at 2 by lia. rewrite pow_split by lia. change (2 ^ 1) with 2. lia.
Qed.

Lemma even_pow_half : Z.even (2 ^ (p - 1)) = true.
Proof.
  replace (p - 1) with (1 + (p - 2)) by lia. rewrite pow_split by lia. change (2 ^ 1) with 2.
  rewrite Z.even_mul. reflexivity.
Qed.

(** a float is a multiple of its unit, and of every smaller one *)
Lemma inFp_multiple f s : 0 <= f -> inFp f -> 0 <= s -> s <= sh f -> exists k, f = k * 2 ^ s.
Proof.
  intros Hf Hin Hs Hle. unfold inFp in Hin. pose proof (pow_sh_pos f) as P.
  pose proof (Z.div_mod f (2 ^ sh f) ltac:(lia)) as D. rewrite Hin in D.
  exists (f / 2 ^ sh f * 2 ^ (sh f - s)).
  replace (sh f) with ((sh f - s) + s) in D at 1 by lia. rewrite pow_split in D by lia. lia.
Qed.

Lemma inFp_large f s : 0 <= f -> inFp f -> 0 <= s -> 2 ^ (p - 1 + s) <= f -> exists k, f = k * 2 ^ s.
Proof.
  intros Hf Hin Hs B. apply inFp_multiple; try assumption. apply sh_ge; assumption.
Qed.

(** quotient and [lo] of a number between two multiples of the unit *)
Lemma lo_between M c s : 0 <= s -> sh M = s -> c * 2 ^ s <= M < c * 2 ^ s + 2 ^ s ->
  M / 2 ^ sh M = c /\ lo M = c * 2 ^ s.
Proof.
  intros Hs Es B. unfold lo. rewrite Es.
  assert (P : 0 < 2 ^ s) by (apply Z.pow_pos_nonneg; lia).
  assert (E : M / 2 ^ s = c).
  { symmetry. apply (Z.div_unique M (2 ^ s) c (M - c * 2 ^ s)); lia. }
  rewrite E. split; reflexivity.
Qed.

(** above a float, within half its unit *)
Lemma rp_up f a : 0 <= f -> inFp f -> 0 <= a -> 2 * a < 2 ^ sh f -> rp (f + a) = f.
Proof.
  intros Hf Hin Ha Hlt. pose proof (sh_nonneg f) as S0. pose proof (pow_sh_pos f) as P.
  destruct (Z.eq_dec (sh f) 0) as [E|E].
  - rewrite E in Hlt. change (2 ^ 0) with 1 in Hlt. replace a with 0 by lia.
    rewrite Z.add_0_r. apply rp_id; assumption.
  - destruct (inFp_multiple f (sh f) Hf Hin S0 ltac:(lia)) as [k Hk].
    pose proof (sh_bounds f Hf ltac:(lia)) as [B1 B2].
    rewrite pow_split in B2 by lia.
    assert (Hk1 : k + 1 <= 2 ^ p) by nia.
    assert (Es : sh (f + a) = sh f).
    { apply sh_unique; [lia|]. rewrite (pow_split p) by lia. nia. }
    destruct (lo_between (f + a) k (sh f) S0 Es ltac:(lia)) as [Eq El].
    pose proof (rp_cases (f + a) ltac:(lia)) as C. rewrite Es, El in C.
    destruct C as [C|[C|[C|C]]]; lia.
Qed.

(** below a float that is not a power of two, within half its unit *)
Lemma rp_down f b : 0 <= f -> inFp f -> 0 <= b -> 2 * b < 2 ^ sh f ->
  (sh f = 0 \/ 2 ^ (p - 1 + sh f) < f) -> rp (f - b) = f.
Proof.
  intros Hf Hin Hb Hlt Hnp. pose proof (sh_nonneg f) as S0. pose proof (pow_sh_pos f) as P.
  destruct (Z.eq_dec b 0) as [->|Hb0]; [rewrite Z.sub_0_r; apply rp_id; assumption|].
  destruct Hnp as [E|Hnp]; [rewrite E in Hlt; change (2 ^ 0) with 1 in Hlt; lia|].
  assert (Hs : 0 < sh f).
  { destruct (Z.eq_dec (sh f) 0) as [E|E]; [|lia].
    pose proof (sh_zero_bound f Hf E). rewrite E in Hnp.
    replace (p - 1 + 0) with (p - 1) in Hnp by lia.
    rewrite E in Hlt. change (2 ^ 0) with 1 in Hlt. lia. }
  destruct (inFp_multiple f (sh f) Hf Hin S0 ltac:(lia)) as [k Hk].
  pose proof (sh_bounds f Hf Hs) as [B1 B2].
  rewrite pow_split in B2 by lia. rewrite pow_split in Hnp, B1 by lia.
  assert (Hk1 : 2 ^ (p - 1) + 1 <= k) by nia.
  assert (Es : sh (f - b) = sh f).
  { apply sh_unique; [lia|]. rewrite (pow_split p), (pow_split (p - 1)) by lia. nia. }
  destruct (lo_between (f - b) (k - 1) (sh f) S0 Es ltac:(nia)) as [Eq El].
  pose proof (rp_cases (f - b) ltac:(nia)) as C. rewrite Es, El in C.
  destruct C as [C|[C|[C|C]]]; nia.
Qed.

(** below a power of two, within a quarter of its unit, ties included *)
Lemma rp_down_pow2 s b : 0 < s -> 0 <= b -> 4 * b <= 2 ^ s -> rp (2 ^ (p - 1 + s) - b) = 2 ^ (p - 1 + s).
Proof.
  intros Hs Hb Hle.
  assert (Pp : 0 < 2 ^ (p - 1)) by (apply Z.pow_pos_nonneg; lia).
  assert (E2 : 2 ^ p = 2 * 2 ^ (p - 1)).
  { replace p with (1 + (p - 1)) at 1 by lia. rewrite pow_split by lia. reflexivity. }
  destruct (Z.eq_dec b 0) as [->|Hb0].
  - rewrite Z.sub_0_r. apply rp_id; [apply Z.pow_nonneg; lia|].
    rewrite pow_split by lia. apply inFp_mult; lia.
  - assert (Hs1 : 1 < s).
    { destruct (Z.eq_dec s 1) as [->|]; [change (2 ^ 1) with 2 in Hle; lia | lia]. }
    assert (P1 : 0 < 2 ^ (s - 1)) by (apply Z.pow_pos_nonneg; lia).
    assert (Es1 : 2 ^ s = 2 * 2 ^ (s - 1)).
    { replace s with (1 + (s - 1)) at 1 by lia. rewrite pow_split by lia. reflexivity. }
    assert (Ef : 2 ^ (p - 1 + s) = 2 ^ p * 2 ^ (s - 1)).
    { replace (p - 1 + s) with (p + (s - 1)) by lia. apply pow_split; lia. }
    rewrite Ef.
    assert (Es : sh (2 ^ p * 2 ^ (s - 1) - b) = s - 1).
    { apply sh_unique; [lia|]. rewrite (pow_split p), (pow_split (p - 1)) by lia. nia. }
    destruct (lo_between (2 ^ p * 2 ^ (s - 1) - b) (2 ^ p - 1) (s - 1) ltac:(lia) Es ltac:(nia))
      as [Eq El].
    pose proof (rp_cases (2 ^ p * 2 ^ (s - 1) - b) ltac:(nia)) as C. rewrite Eq, El, Es in C.
    rewrite even_pow_pred in C.
    destruct C as [C|[C|[C|C]]]; try nia; destruct C as (_ & C & _); discriminate.
Qed.


(** ** Rounding an integer *)

Lemma rz_nonneg N : 0 <= N -> rz N = rp N.
Proof. intros H. unfold rz. destruct (Z.ltb_spec N 0); [lia | reflexivity]. Qed.

Lemma rz_nonpos N : N <= 0 -> rz N = - rp (- N).
Proof.
  intros H. unfold rz. destruct (Z.ltb_spec N 0); [reflexivity|].
  replace N with 0 by lia. change (- 0) with 0. rewrite rp_0. reflexivity.
Qed.

Lemma rz_opp N : rz (- N) = - rz N.
Proof.
  destruct (Z_le_gt_dec 0 N).
  - rewrite (rz_nonneg N), (rz_nonpos (- N)) by lia. rewrite Z.opp_involutive. reflexivity.
  - rewrite (rz_nonneg (- N)), (rz_nonpos N) by lia. lia.
Qed.

Lemma rz_sign_nonneg N : 0 <= N -> 0 <= rz N.
Proof. intros H. rewrite rz_nonneg by assumption. apply rp_nonneg; assumption. Qed.

Lemma rz_sign_nonpos N : N <= 0 -> rz N <= 0.
Proof. intros H. rewrite rz_nonpos by assumption. pose proof (rp_nonneg (- N)). lia. Qed.

Lemma rz_mono N N' : N <= N' -> rz N <= rz N'.
Proof.
  intros H. destruct (Z_le_gt_dec 0 N), (Z_le_gt_dec 0 N').
  - rewrite !rz_nonneg by lia. apply rp_mono; lia.
  - lia.
  - pose proof (rz_sign_nonpos N ltac:(lia)). pose proof (rz_sign_nonneg N' ltac:(lia)). lia.
  - rewrite !rz_nonpos by lia. pose proof (rp_mono (- N') (- N) ltac:(lia)). lia.
Qed.

Lemma inF_nonneg f : 0 <= f -> (inF f <-> inFp f).
Proof. intros H. unfold inF, inFp. rewrite Z.abs_eq by assumption. reflexivity. Qed.

Lemma inF_opp f : inF (- f) <-> inF f.
Proof. unfold inF. rewrite Z.abs_opp. reflexivity. Qed.

Lemma inF_0 : inF 0.
Proof. unfold inF. change (Z.abs 0) with 0. apply Z.mod_0_l. pose proof (pow_sh_pos 0). lia. Qed.

Lemma inF_rz N : inF (rz N).
Proof.
  destruct (Z_le_gt_dec 0 N).
  - rewrite rz_nonneg by assumption. apply inF_nonneg; [apply rp_nonneg | apply inFp_rp]; assumption.
  - rewrite rz_nonpos by lia. apply inF_opp.
    apply inF_nonneg; [apply rp_nonneg | apply inFp_rp]; lia.
Qed.

Lemma rz_id f : inF f -> rz f = f.
Proof.
  intros H. destruct (Z_le_gt_dec 0 f).
  - rewrite rz_nonneg by assumption. apply rp_id; [assumption | apply inF_nonneg; assumption].
  - rewrite rz_nonpos by lia. rewrite rp_id; [lia | lia |].
    apply inF_nonneg; [lia | apply inF_opp; assumption].
Qed.

Lemma rz_nearest N f : inF f -> Z.abs (N - rz N) <= Z.abs (N - f).
Proof.
  intros H. destruct (Z_le_gt_dec 0 N) as [HN|HN].
  - rewrite rz_nonneg by assumption.
    destruct (Z_le_gt_dec 0 f) as [Hf|Hf].
    + apply rp_nearest; [assumption | assumption | apply inF_nonneg; assumption].
    + pose proof (rp_nearest N 0 HN ltac:(lia) ltac:(apply inF_nonneg; [lia | apply inF_0])). lia.
  - rewrite rz_nonpos by lia.
    destruct (Z_le_gt_dec f 0) as [Hf|Hf].
    + pose proof (rp_nearest (- N) (- f) ltac:(lia) ltac:(lia)
                    ltac:(apply inF_nonneg; [lia | apply inF_opp; assumption])). lia.
    + pose proof (rp_nearest (- N) 0 ltac:(lia) ltac:(lia)
                    ltac:(apply inF_nonneg; [lia | apply inF_0])). lia.
Qed.

(** the error of a rounding is at most half the unit of the number rounded *)
Lemma rz_err N : 2 * Z.abs (N - rz N) <= 2 ^ sh (Z.abs N).
Proof.
  destruct (Z_le_gt_dec 0 N) as [HN|HN].
  - rewrite rz_nonneg, (Z.abs_eq N) by assumption. apply rp_err; assumption.
  - rewrite rz_nonpos by lia. rewrite (Z.abs_neq N) by lia.
    pose proof (rp_err (- N) ltac:(lia)). lia.
Qed.

(** and at most half the unit of the result *)
Lemma rz_err_result N : 2 * Z.abs (N - rz N) <= 2 ^ sh (Z.abs (rz N)).
Proof.
  pose proof (rz_err N) as E.
  assert (sh (Z.abs N) <= sh (Z.abs (rz N))).
  { destruct (Z_le_gt_dec 0 N) as [HN|HN].
    - rewrite rz_nonneg by assumption. rewrite (Z.abs_eq N) by assumption.
      rewrite Z.abs_eq by (apply rp_nonneg; assumption). apply sh_rp; assumption.
    - rewrite rz_nonpos by lia. rewrite Z.abs_opp, (Z.abs_neq N) by lia.
      rewrite Z.abs_eq by (apply rp_nonneg; lia). apply sh_rp; lia. }
  pose proof (pow_le_mono (sh (Z.abs N)) (sh (Z.abs (rz N))) (sh_nonneg _) ltac:(lia)). lia.
Qed.


(** ** The float that loses a tie *)

Lemma even_pred_odd q : Z.even q = false -> Z.even (q - 1) = true.
Proof.
  intros H. replace (q - 1) with (Z.pred q) by lia.
  rewrite Z.even_pred, <- Z.negb_even, H. reflexivity.
Qed.

Lemma even_succ_even q : Z.even q = true -> Z.even (q + 1) = false.
Proof.
  intros H. replace (q + 1) with (Z.succ q) by lia.
  rewrite Z.even_succ, <- Z.negb_even, H. reflexivity.
Qed.

(** [t] lies half way between the floats [y] and [w] and is rounded to [w]:
    then what lies as far from [y] on its other side is not rounded to [y]. *)
Lemma tie_loser_pos t y w : 0 < t -> inF y -> y < t -> t - y = w - t -> rz t = w ->
  rz (y - (t - y)) < y.
Proof.
  intros Ht Hy Hyt Ha Hw. rewrite rz_nonneg in Hw by lia.
  pose proof (sh_nonneg t) as S0. pose proof (pow_sh_pos t) as P.
  pose proof (lo_le t ltac:(lia)) as L.
  pose proof (rp_cases t ltac:(lia)) as C.
  assert (Hy0 : 0 <= y).
  { destruct (Z_le_gt_dec 0 y); [assumption|exfalso].
    pose proof (quot_upper t ltac:(lia)).
    assert (0 <= lo t).
    { unfold lo. pose proof (Z.div_pos t (2 ^ sh t) ltac:(lia) P). nia. }
    destruct C as [C|[C|[C|C]]]; lia. }
  apply (proj1 (inF_nonneg y Hy0)) in Hy.
  destruct (bracket_gap t y ltac:(lia) Hy0 Hy) as [B|B]; [|lia].
  assert (T : 2 * (t - lo t) = 2 ^ sh t /\ Z.even (t / 2 ^ sh t) = false /\ y = lo t).
  { destruct C as [C|[C|[C|C]]]; repeat split; try lia; apply C. }
  destruct T as (T1 & T2 & T3).
  assert (Hs : 0 < sh t).
  { destruct (Z.eq_dec (sh t) 0) as [E|E]; [|lia]. rewrite E in T1. change (2 ^ 0) with 1 in T1. lia. }
  pose proof (quot_bounds t ltac:(lia) Hs) as [Q1 Q2].
  assert (Q3 : 2 ^ (p - 1) + 1 <= t / 2 ^ sh t).
  { destruct (Z.eq_dec (t / 2 ^ sh t) (2 ^ (p - 1))) as [E|E]; [|lia].
    rewrite E, even_pow_half in T2. discriminate. }
  unfold lo in T1, T3. set (G := 2 ^ sh t) in *. set (q := t / G) in *.
  assert (Pp : 0 < 2 ^ (p - 1)) by (apply Z.pow_pos_nonneg; lia).
  assert (HM : 0 <= y - (t - y)) by nia.
  rewrite rz_nonneg by assumption.
  assert (Es : sh (y - (t - y)) = sh t).
  { apply sh_unique; [lia|]. rewrite (pow_split p), (pow_split (p - 1)) by lia. fold G. nia. }
  destruct (lo_between (y - (t - y)) (q - 1) (sh t) S0 Es ltac:(fold G; nia)) as [Eq El].
  pose proof (rp_cases (y - (t - y)) HM) as C'. rewrite Eq, El, Es in C'. fold G in C'.
  rewrite (even_pred_odd q T2) in C'.
  destruct C' as [C'|[C'|[C'|C']]]; try nia; destruct C' as (_ & C' & _); discriminate.
Qed.

Lemma tie_loser_neg t y w : t < 0 -> inF y -> y < t -> t - y = w - t -> rz t = w ->
  rz (y - (t - y)) < y.
Proof.
  intros Ht Hy Hyt Ha Hw. rewrite rz_nonpos in Hw by lia.
  pose proof (sh_nonneg (- t)) as S0. pose proof (pow_sh_pos (- t)) as P.
  pose proof (lo_le (- t) ltac:(lia)) as L.
  pose proof (rp_cases (- t) ltac:(lia)) as C.
  apply inF_opp in Hy. apply (proj1 (inF_nonneg (- y) ltac:(lia))) in Hy.
  destruct (bracket_gap (- t) (- y) ltac:(lia) ltac:(lia) Hy) as [B|B]; [lia|].
  assert (T : 2 * (- t - lo (- t)) = 2 ^ sh (- t) /\ Z.even (- t / 2 ^ sh (- t)) = true /\
              - y = lo (- t) + 2 ^ sh (- t)).
  { destruct C as [C|[C|[C|C]]]; repeat split; try lia; apply C. }
  destruct T as (T1 & T2 & T3).
  assert (Hs : 0 < sh (- t)).
  { destruct (Z.eq_dec (sh (- t)) 0) as [E|E]; [|lia].
    rewrite E in T1. change (2 ^ 0) with 1 in T1. lia. }
  pose proof (quot_bounds (- t) ltac:(lia) Hs) as [Q1 Q2].
  pose proof (sh_bounds (- t) ltac:(lia) Hs) as [B1 B2].
  assert (Q3 : - t / 2 ^ sh (- t) + 2 <= 2 ^ p).
  { destruct (Z.eq_dec (- t / 2 ^ sh (- t) + 1) (2 ^ p)) as [E|E]; [|lia].
    pose proof (even_succ_even _ T2) as T4. rewrite E in T4.
    replace p with (1 + (p - 1)) in T4 by lia. rewrite pow_split in T4 by lia.
    rewrite Z.even_mul in T4. discriminate. }
  unfold lo in T1, T3. set (G := 2 ^ sh (- t)) in *. set (q := - t / G) in *.
  assert (Pp : 0 < 2 ^ (p - 1)) by (apply Z.pow_pos_nonneg; lia).
  rewrite rz_nonpos by lia.
  assert (Es : sh (- (y - (t - y))) = sh (- t)).
  { apply sh_unique; [lia|]. rewrite (pow_split p) by lia. fold G.
    rewrite (pow_split p) in B2 by lia. fold G in B2. nia. }
  destruct (lo_between (- (y - (t - y))) (q + 1) (sh (- t)) S0 Es ltac:(fold G; nia)) as [Eq El].
  pose proof (rp_cases (- (y - (t - y))) ltac:(lia)) as C'. rewrite Eq, El, Es in C'. fold G in C'.
  rewrite (even_succ_even q T2) in C'.
  destruct C' as [C'|[C'|[C'|C']]]; try nia; destruct C' as (_ & C' & _); discriminate.
Qed.

Lemma tie_loser t y w : inF y -> y < t -> t - y = w - t -> rz t = w -> rz (y - (t - y)) < y.
Proof.
  intros Hy Hyt Ha Hw. destruct (Z.lt_total t 0) as [H|[H|H]].
  - apply (tie_loser_neg t y w); assumption.
  - exfalso. subst t. unfold rz in Hw. simpl in Hw. rewrite rp_0 in Hw. lia.
  - apply (tie_loser_pos t y w); assumption.
Qed.

Lemma tie_loser_above t y w : inF y -> t < y -> y - t = t - w -> rz t = w -> y < rz (y + (y - t)).
Proof.
  intros Hy Hyt Ha Hw.
  pose proof (tie_loser (- t) (- y) (- w) ltac:(apply inF_opp; assumption) ltac:(lia) ltac:(lia)
                ltac:(rewrite rz_opp; lia)) as T.
  replace (- y - (- t - - y)) with (- (y + (y - t))) in T by lia.
  rewrite rz_opp in T. lia.
Qed.


(** ** A difference taken four times *)

Lemma inF_far f s : inF f -> 0 <= s -> 2 ^ (p - 1 + s) <= Z.abs f -> exists k, f = k * 2 ^ s.
Proof.
  intros Hf Hs B. destruct (Z_le_gt_dec 0 f) as [H|H].
  - rewrite Z.abs_eq in B by assumption.
    apply (inFp_large f s H (proj1 (inF_nonneg f H) Hf) Hs B).
  - rewrite Z.abs_neq in B by lia. apply inF_opp in Hf.
    destruct (inFp_large (- f) s ltac:(lia) (proj1 (inF_nonneg (- f) ltac:(lia)) Hf) Hs B)
      as [k Hk].
    exists (- k). lia.
Qed.

(** two floats less than a unit apart lie within the binade below *)
Lemma close_floats c G y t w : 0 < G -> 0 < c -> y < t < w -> w - y < G ->
  (c * G <= Z.abs y -> exists k, y = k * G) ->
  (c * G <= Z.abs w -> exists k, w = k * G) ->
  - (c * G) < t < c * G.
Proof.
  intros HG Hc [Hyt Htw] Hd Hy Hw. split.
  - destruct (Z_lt_le_dec (- (c * G)) t) as [|Ht]; [assumption|exfalso].
    destruct Hy as [ky Hky]; [lia|].
    destruct (Z_le_gt_dec w (- (c * G))) as [Hw1|Hw1].
    + destruct Hw as [kw Hkw]; [lia|]. subst y w.
      assert (ky < kw) by nia. nia.
    + subst y. assert (ky < - c) by nia. nia.
  - destruct (Z_lt_le_dec t (c * G)) as [|Ht]; [assumption|exfalso].
    destruct Hw as [kw Hkw]; [lia|].
    destruct (Z_le_gt_dec (c * G) y) as [Hy1|Hy1].
    + destruct Hy as [ky Hky]; [lia|]. subst y w.
      assert (ky < kw) by nia. nia.
    + subst w. assert (c < kw) by nia. nia.
Qed.

(** [w] is the rounding of [d - z] and lies beyond it, nearer than the
    float [y] on the other side, whose difference from [d] is rounded to
    [z]: then the difference of [w] from [d] is rounded to [z] too. *)
Lemma round_back d y z w : inF y -> rz (d - y) = z -> rz (d - z) = w ->
  y < d - z < w -> w - (d - z) < (d - z) - y -> rz (d - w) = z.
Proof.
  intros Hy Hz Hw [Hyt Htw] Hba.
  pose proof (inF_rz (d - y)) as Fz. rewrite Hz in Fz.
  pose proof (inF_rz (d - z)) as Fw. rewrite Hw in Fw.
  pose proof (rz_err_result (d - y)) as Ea. rewrite Hz in Ea.
  pose proof (rz_err (d - z)) as Eb. rewrite Hw in Eb.
  set (b := w - (d - z)) in *.
  replace (d - w) with (z - b) by (unfold b; lia).
  destruct (Z.lt_total z 0) as [Hz0|[Hz0|Hz0]].
  - (* below a negative float *)
    rewrite rz_nonpos by lia. rewrite (Z.abs_neq z) in Ea by lia.
    replace (- (z - b)) with (- z + b) by lia.
    rewrite rp_up; try lia.
    apply inF_nonneg; [lia | apply inF_opp; assumption].
  - subst z. change (Z.abs 0) with 0 in Ea. rewrite sh_small in Ea by (try lia; apply Z.pow_pos_nonneg; lia).
    change (2 ^ 0) with 1 in Ea. lia.
  - rewrite (Z.abs_eq z) in Ea by lia.
    apply (proj1 (inF_nonneg z ltac:(lia))) in Fz.
    pose proof (sh_nonneg z) as S0.
    destruct (Z.eq_dec (sh z) 0) as [E0|E0].
    { rewrite E0 in Ea. change (2 ^ 0) with 1 in Ea. lia. }
    pose proof (sh_bounds z ltac:(lia) ltac:(lia)) as [B1 B2].
    destruct (Z.eq_dec z (2 ^ (p - 1 + sh z))) as [Ep|Ep].
    + (* below a power of two *)
      assert (Pp : 0 < 2 ^ (p - 1)) by (apply Z.pow_pos_nonneg; lia).
      pose proof (pow_sh_pos z) as PG.
      assert (Ht : - z < d - z < z).
      { rewrite Ep at 1 4. rewrite pow_split by lia.
        apply (close_floats (2 ^ (p - 1)) (2 ^ sh z) y (d - z) w); try lia.
        - intros Hfar. apply (inF_far y (sh z) Hy S0). rewrite pow_split by lia. exact Hfar.
        - intros Hfar. apply (inF_far w (sh z) Fw S0). rewrite pow_split by lia. exact Hfar. }
      assert (Hst : sh (Z.abs (d - z)) <= sh z - 1).
      { apply sh_le; [lia | lia |]. replace (p + (sh z - 1)) with (p - 1 + sh z) by lia. lia. }
      pose proof (pow_le_mono _ _ (sh_nonneg (Z.abs (d - z))) Hst) as Hpw.
      assert (E2 : 2 ^ sh z = 2 * 2 ^ (sh z - 1)).
      { replace (sh z) with (1 + (sh z - 1)) at 1 by lia. rewrite pow_split by lia. reflexivity. }
      assert (Ez : z = 2 ^ (p - 1) * 2 ^ sh z) by (rewrite Ep at 1; apply pow_split; lia).
      assert (Hbz : 0 <= z - b) by nia.
      rewrite rz_nonneg by lia. rewrite Ep.
      apply rp_down_pow2; lia.
    + assert (Pp : 0 < 2 ^ (p - 1)) by (apply Z.pow_pos_nonneg; lia).
      pose proof (pow_sh_pos z) as PG.
      assert (Hbz : 0 <= z - b).
      { rewrite pow_split in B1 by lia. nia. }
      rewrite rz_nonneg by lia. apply rp_down; try lia. assumption.
Qed.

Lemma round_back_below d y z w : inF y -> rz (d - y) = z -> rz (d - z) = w ->
  w < d - z < y -> (d - z) - w < y - (d - z) -> rz (d - w) = z.
Proof.
  intros Hy Hz Hw Ht Hba.
  pose proof (round_back (- d) (- y) (- z) (- w) ltac:(apply inF_opp; assumption)) as R.
  replace (- d - - y) with (- (d - y)) in R by lia.
  replace (- d - - z) with (- (d - z)) in R by lia.
  replace (- d - - w) with (- (d - w)) in R by lia.
  rewrite !rz_opp in R. lia.
Qed.

Section Four.

Variables d o : Z.
Hypothesis Fo : inF o.

Let y := rz (d - o).
Let z := rz (d - y).
Let w := rz (d - z).

(** where the third difference lies *)
Lemma third_difference :
  y <= w <= d - z \/ d - z <= w <= y \/
  (y < d - z < w /\ w - (d - z) < (d - z) - y) \/
  (w < d - z < y /\ (d - z) - w < y - (d - z)).
Proof.
  pose proof (inF_rz (d - o)) as Fy. fold y in Fy.
  pose proof (rz_nearest (d - z) y Fy) as Hn. fold w in Hn.
  pose proof (rz_nearest (d - y) o Fo) as Hno. fold z in Hno.
  destruct (Z_le_gt_dec y (d - z)) as [Hyt|Hyt].
  - pose proof (rz_mono _ _ Hyt) as Hm. rewrite (rz_id y Fy) in Hm. fold w in Hm.
    destruct (Z_le_gt_dec w (d - z)) as [Hwt|Hwt]; [left; lia|].
    right; right; left.
    assert (y < d - z).
    { destruct (Z.eq_dec y (d - z)) as [E|E]; [|lia].
      assert (w = y) by (unfold w; rewrite <- E; apply rz_id; exact Fy). lia. }
    split; [lia|].
    destruct (Z.eq_dec (w - (d - z)) (d - z - y)) as [Etie|]; [exfalso|lia].
    pose proof (tie_loser (d - z) y w Fy ltac:(lia) ltac:(lia) eq_refl) as T.
    assert (Hup : d - o < d - z).
    { destruct (Z_lt_le_dec (d - o) (d - z)) as [|Hc]; [assumption|].
      pose proof (rz_mono _ _ Hc) as Hc'. fold y in Hc'. fold w in Hc'. lia. }
    assert (Hdn : y - (d - z - y) < d - o).
    { destruct (Z_lt_le_dec (y - (d - z - y)) (d - o)) as [|Hc]; [assumption|].
      pose proof (rz_mono _ _ Hc) as Hc'. fold y in Hc'. lia. }
    lia.
  - pose proof (rz_mono (d - z) y ltac:(lia)) as Hm. rewrite (rz_id y Fy) in Hm. fold w in Hm.
    destruct (Z_le_gt_dec (d - z) w) as [Hwt|Hwt]; [right; left; lia|].
    right; right; right. split; [lia|].
    destruct (Z.eq_dec (d - z - w) (y - (d - z))) as [Etie|]; [exfalso|lia].
    pose proof (tie_loser_above (d - z) y w Fy ltac:(lia) ltac:(lia) eq_refl) as T.
    assert (Hdn : d - z < d - o).
    { destruct (Z_lt_le_dec (d - z) (d - o)) as [|Hc]; [assumption|].
      pose proof (rz_mono _ _ Hc) as Hc'. fold y in Hc'. fold w in Hc'. lia. }
    assert (Hup : d - o < y + (y - (d - z))).
    { destruct (Z_lt_le_dec (d - o) (y + (y - (d - z)))) as [|Hc]; [assumption|].
      pose proof (rz_mono _ _ Hc) as Hc'. fold y in Hc'. lia. }
    lia.
Qed.

(** the fourth difference is the second *)
Theorem fourth_difference : rz (d - w) = z.
Proof.
  pose proof (inF_rz (d - o)) as Fy. fold y in Fy.
  pose proof (inF_rz (d - y)) as Fz. fold z in Fz.
  destruct third_difference as [H|[H|[[H1 H2]|[H1 H2]]]].
  - pose proof (rz_mono (d - w) (d - y) ltac:(lia)) as M2. fold z in M2.
    pose proof (rz_mono z (d - w) ltac:(lia)) as M3. rewrite (rz_id z Fz) in M3. lia.
  - pose proof (rz_mono (d - y) (d - w) ltac:(lia)) as M2. fold z in M2.
    pose proof (rz_mono (d - w) z ltac:(lia)) as M3. rewrite (rz_id z Fz) in M3. lia.
  - apply (round_back d y z w Fy eq_refl eq_refl H1 H2).
  - apply (round_back_below d y z w Fy eq_refl eq_refl H1 H2).
Qed.

(** the third difference does not overflow when the first two do not *)
Lemma third_difference_bounded K : p <= K ->
  Z.abs y < 2 ^ K -> Z.abs z < 2 ^ K -> Z.abs w < 2 ^ K.
Proof.
  intros HK By Bz.
  pose proof (inF_rz (d - o)) as Fy. fold y in Fy.
  assert (PG : 0 < 2 ^ (K - p)) by (apply Z.pow_pos_nonneg; lia).
  assert (Pp : 0 < 2 ^ (p - 1)) by (apply Z.pow_pos_nonneg; lia).
  assert (EK : 2 ^ K = 2 ^ p * 2 ^ (K - p)).
  { replace K with (p + (K - p)) at 1 by lia. apply pow_split; lia. }
  assert (Ep : 2 ^ p = 2 * 2 ^ (p - 1)).
  { replace p with (1 + (p - 1)) at 1 by lia. rewrite pow_split by lia. reflexivity. }
  assert (F1 : Z.abs y <= 2 ^ K - 2 ^ (K - p)).
  { destruct (Z_le_gt_dec (2 ^ (p - 1 + (K - p))) (Z.abs y)) as [Hl|Hl].
    - destruct (inF_far y (K - p) Fy ltac:(lia) Hl) as [k Hk].
      rewrite EK in By |- *. rewrite Hk in By |- *.
      assert (Z.abs (k * 2 ^ (K - p)) = Z.abs k * 2 ^ (K - p)) as Ea.
      { rewrite Z.abs_mul. rewrite (Z.abs_eq (2 ^ (K - p))) by lia. reflexivity. }
      rewrite Ea in By |- *.
      assert (Z.abs k < 2 ^ p) by nia. nia.
    - rewrite pow_split in Hl by lia. nia. }
  assert (F2 : 2 * Z.abs (d - z - y) <= 2 ^ (K - p)).
  { pose proof (rz_err_result (d - y)) as E. fold z in E.
    assert (sh (Z.abs z) <= K - p).
    { apply sh_le; [lia | lia |]. replace (p + (K - p)) with K by lia. exact Bz. }
    pose proof (pow_le_mono _ _ (sh_nonneg (Z.abs z)) H).
    replace (d - z - y) with (d - y - z) by lia. lia. }
  destruct third_difference as [H|[H|[[H1 H2]|[H1 H2]]]]; lia.
Qed.

End Four.

End Rounding.

End Nearest.

(** * The difference of two floats *)

Module Subtraction.

Import IEEE754 Nearest.

Section Format.

Variables prec emax : Z.
Hypothesis Hprec : 1 < prec.
Hypothesis Hemax : prec < emax.

Local Abbreviation emin := (SpecFloat.emin prec emax).
Local Abbreviation valid := (valid_binary prec emax).
Local Abbreviation sub := (SFsub prec emax).
Local Abbreviation sh := (Nearest.sh prec).
Local Abbreviation rp := (Nearest.rp prec).
Local Abbreviation rz := (Nearest.rz prec).
Local Abbreviation inF := (Nearest.inF prec).

Lemma Hprec0 : 0 < prec.
Proof. lia. Qed.

(** the value of a finite float in units of the least positive float *)
Definition V (x : spec_float) : Z :=
  match x with
  | S754_finite s m e => cond_Zopp s (Zpos m * 2 ^ (e - emin))
  | _ => 0
  end.

(** an integer number of units as a float *)
Definition R (N : Z) : spec_float := binary_normalize prec emax N emin false.

(** the least power of two that is no float *)
Definition overflow : Z := 2 ^ (emax - emin).

Lemma rnd_e_emin M : 0 < M -> rnd_e prec emax M emin = emin + sh M.
Proof.
  intros HM. unfold rnd_e, SpecFloat.fexp, Nearest.sh. lia.
Qed.

Lemma rnd_m_emin M : 0 < M -> rnd_m prec emax M emin = rne M (sh M).
Proof.
  intros HM. unfold rnd_m. rewrite rnd_e_emin by assumption.
  pose proof (sh_nonneg prec M).
  replace (Z.min emin (emin + sh M)) with emin by lia.
  rewrite Z.sub_diag, Z.pow_0_r, Z.mul_1_r. f_equal. lia.
Qed.

Lemma rne_pos M : 0 < M -> 0 < rne M (sh M).
Proof.
  intros HM. pose proof (sh_nonneg prec M) as S0.
  destruct (Z.eq_dec (sh M) 0) as [E|E].
  - rewrite E, rne_0. assumption.
  - pose proof (quot_bounds prec Hprec M ltac:(lia) ltac:(lia)) as [Q _].
    assert (0 < 2 ^ (prec - 1)) by (apply Z.pow_pos_nonneg; lia).
    destruct (rne_cases M (sh M)) as [-> | ->]; lia.
Qed.

(** what [binary_round] makes of a positive number of units *)
Lemma binary_round_units s M : 
  (rp (Zpos M) < overflow /\
   exists m e, binary_round prec emax s M emin = S754_finite s m e /\
               Zpos m * 2 ^ (e - emin) = rp (Zpos M)) \/
  (overflow <= rp (Zpos M) /\ binary_round prec emax s M emin = S754_infinity s).
Proof.
  destruct (binary_round_spec prec emax Hprec0 s M emin) as [E0 Q].
  rewrite rnd_e_emin, rnd_m_emin in E0, Q by lia.
  pose proof (rne_pos (Zpos M) ltac:(lia)) as Pm.
  pose proof (sh_nonneg prec (Zpos M)) as S0.
  destruct Q as (_ & [_ Qm] & Qc).
  assert (Pp : 0 < 2 ^ (prec - 1)) by (apply Z.pow_pos_nonneg; lia).
  assert (Ep : 2 ^ prec = 2 * 2 ^ (prec - 1)).
  { replace prec with (1 + (prec - 1)) at 1 by lia. rewrite Z.pow_add_r by lia. reflexivity. }
  assert (PG : 0 < 2 ^ sh (Zpos M)) by (apply Z.pow_pos_nonneg; lia).
  set (E := emax - prec - emin).
  assert (HE : 0 <= E) by (unfold E, SpecFloat.emin; lia).
  assert (PE : 0 < 2 ^ E) by (apply Z.pow_pos_nonneg; lia).
  assert (Eo : overflow = 2 ^ prec * 2 ^ E).
  { unfold overflow, E. rewrite <- Z.pow_add_r by lia. f_equal. lia. }
  assert (Mle : forall k, 0 <= k -> k <= E -> 2 ^ k <= 2 ^ E).
  { intros k H1 H2. apply Z.pow_le_mono_r; lia. }
  assert (Mge : forall k, E + 1 <= k -> 2 * 2 ^ E <= 2 ^ k).
  { intros k H1. replace (2 * 2 ^ E) with (2 ^ (E + 1)).
    - apply Z.pow_le_mono_r; lia.
    - rewrite Z.pow_add_r by lia. change (2 ^ 1) with 2. lia. }
  unfold Nearest.rp. rewrite E0. unfold norm_result.
  set (m2 := rne (Zpos M) (sh (Zpos M))) in *. set (k := sh (Zpos M)) in *.
  destruct (Z.eqb_spec m2 (2 ^ prec)) as [Em|Em].
  - (* the carry *)
    destruct (2 ^ (prec - 1)) as [|q|q] eqn:Eq; try lia.
    destruct (Z.leb_spec (emin + k + 1) (emax - prec)) as [Hle|Hgt].
    + left. split.
      * pose proof (Mle (k + 1) ltac:(lia) ltac:(unfold E; lia)) as L.
        rewrite Z.pow_add_r in L by lia. change (2 ^ 1) with 2 in L. rewrite Eo, Em. nia.
      * exists q, (emin + k + 1). split; [reflexivity|].
        replace (emin + k + 1 - emin) with (k + 1) by lia.
        rewrite Z.pow_add_r by lia. change (2 ^ 1) with 2. rewrite Em. lia.
    + right. split; [|reflexivity].
      rewrite Eo, Em.
      assert (2 ^ E <= 2 ^ k) by (apply Z.pow_le_mono_r; unfold E; lia). nia.
  - destruct m2 as [|q|q] eqn:Eq; try lia.
    destruct (Z.leb_spec (emin + k) (emax - prec)) as [Hle|Hgt].
    + left. split.
      * pose proof (Mle k ltac:(lia) ltac:(unfold E; lia)) as L. rewrite Eo. nia.
      * exists q, (emin + k). split; [reflexivity|].
        replace (emin + k - emin) with k by lia. reflexivity.
    + right. split; [|reflexivity].
      destruct Qc as [Qc|Qc]; [lia|].
      pose proof (Mge k ltac:(unfold E; lia)) as L. rewrite Eo, Ep. nia.
Qed.


(** ** Scaling *)

Lemma rne_scale M n k : 0 <= n -> 0 <= k -> rne (M * 2 ^ k) (n + k) = rne M n.
Proof.
  intros Hn Hk. unfold rne.
  assert (Pn : 0 < 2 ^ n) by (apply Z.pow_pos_nonneg; lia).
  assert (Pk : 0 < 2 ^ k) by (apply Z.pow_pos_nonneg; lia).
  rewrite Z.pow_add_r by assumption.
  rewrite Z.div_mul_cancel_r by lia.
  rewrite Z.mul_mod_distr_r by lia.
  destruct (Z.compare_spec (2 * (M mod 2 ^ n)) (2 ^ n));
  destruct (Z.compare_spec (2 * (M mod 2 ^ n * 2 ^ k)) (2 ^ n * 2 ^ k)); try reflexivity; nia.
Qed.

Lemma rnd_scale M k e : 0 < M -> 0 <= k ->
  rnd_e prec emax (M * 2 ^ k) e = rnd_e prec emax M (e + k) /\
  rnd_m prec emax (M * 2 ^ k) e = rnd_m prec emax M (e + k).
Proof.
  intros HM Hk.
  assert (Ee : rnd_e prec emax (M * 2 ^ k) e = rnd_e prec emax M (e + k)).
  { unfold rnd_e. rewrite Zdigits2_shiftl by lia. f_equal. lia. }
  split; [exact Ee|]. unfold rnd_m. rewrite Ee.
  set (E := rnd_e prec emax M (e + k)).
  destruct (Z_le_gt_dec E e) as [H1|H1].
  - replace (Z.min e E) with E by lia. replace (Z.min (e + k) E) with E by lia.
    rewrite Z.sub_diag, !rne_0. rewrite <- Z.mul_assoc, <- Z.pow_add_r by lia.
    f_equal. f_equal. lia.
  - replace (Z.min e E) with e by lia. rewrite Z.sub_diag, Z.pow_0_r, Z.mul_1_r.
    destruct (Z_le_gt_dec E (e + k)) as [H2|H2].
    + replace (Z.min (e + k) E) with E by lia. rewrite Z.sub_diag, rne_0.
      assert (Ek : M * 2 ^ k = M * 2 ^ (e + k - E) * 2 ^ (E - e)).
      { rewrite <- Z.mul_assoc, <- Z.pow_add_r by lia. f_equal. f_equal. lia. }
      assert (0 < 2 ^ (E - e)) by (apply Z.pow_pos_nonneg; lia).
      rewrite rne_exact; [| lia | rewrite Ek; apply Z.mod_mul; lia].
      rewrite Ek at 1. apply Z.div_mul. lia.
    + replace (Z.min (e + k) E) with (e + k) by lia. rewrite Z.sub_diag, Z.pow_0_r, Z.mul_1_r.
      replace (E - e) with ((E - (e + k)) + k) by lia. apply rne_scale; lia.
Qed.

Lemma binary_normalize_scale M k e sz : 0 <= k ->
  binary_normalize prec emax (M * 2 ^ k) e sz = binary_normalize prec emax M (e + k) sz.
Proof.
  intros Hk. assert (Pk : 0 < 2 ^ k) by (apply Z.pow_pos_nonneg; lia).
  destruct M as [|m|m].
  - reflexivity.
  - destruct (Zpos m * 2 ^ k) as [|q|q] eqn:Eq; try lia. simpl.
    destruct (binary_round_spec prec emax Hprec0 false q e) as [-> _].
    destruct (binary_round_spec prec emax Hprec0 false m (e + k)) as [-> _].
    destruct (rnd_scale (Zpos m) k e ltac:(lia) Hk) as [E1 E2].
    rewrite Eq in E1, E2. rewrite E1, E2. reflexivity.
  - destruct (Zneg m * 2 ^ k) as [|q|q] eqn:Eq; try lia. simpl.
    destruct (binary_round_spec prec emax Hprec0 true q e) as [-> _].
    destruct (binary_round_spec prec emax Hprec0 true m (e + k)) as [-> _].
    destruct (rnd_scale (Zpos m) k e ltac:(lia) Hk) as [E1 E2].
    replace (Zpos m * 2 ^ k) with (Zpos q) in E1, E2 by lia. rewrite E1, E2. reflexivity.
Qed.

(** ** Floats and their values *)

Lemma bounded_emin m e : bounded prec emax m e = true -> emin <= e.
Proof.
  intros H. destruct (bounded_canonical prec emax m e H) as [C _].
  unfold SpecFloat.fexp in C. lia.
Qed.

(** the value of a float rounds to the float *)
Lemma R_V s m e : bounded prec emax m e = true -> R (V (S754_finite s m e)) = S754_finite s m e.
Proof.
  intros Hb. destruct (bounded_canonical prec emax m e Hb) as [C Hle].
  pose proof (canonical_digits prec emax m e C) as [D1 D2].
  pose proof (bounded_emin m e Hb) as He.
  assert (Pk : 0 < 2 ^ (e - emin)) by (apply Z.pow_pos_nonneg; lia).
  unfold R, V.
  replace (cond_Zopp s (Zpos m * 2 ^ (e - emin))) with (cond_Zopp s (Zpos m) * 2 ^ (e - emin))
    by (destruct s; simpl; lia).
  rewrite binary_normalize_scale by lia. replace (emin + (e - emin)) with e by lia.
  assert (Eb : forall sx, binary_round prec emax sx m e = S754_finite sx m e).
  { intros sx. destruct (binary_round_spec prec emax Hprec0 sx m e) as [-> _].
    assert (Ee : rnd_e prec emax (Zpos m) e = e).
    { unfold rnd_e. simpl Zdigits2. symmetry. exact C. }
    assert (Em : rnd_m prec emax (Zpos m) e = Zpos m).
    { unfold rnd_m. rewrite Ee. replace (Z.min e e) with e by lia.
      rewrite Z.sub_diag, Z.pow_0_r, Z.mul_1_r. apply rne_0. }
    rewrite Ee, Em. unfold norm_result.
    assert (Zpos m < 2 ^ prec).
    { pose proof (Zdigits2_bounds (Zpos m) ltac:(lia)) as [_ B]. simpl Zdigits2 in B.
      assert (2 ^ Zpos (digits2_pos m) <= 2 ^ prec) by (apply Z.pow_le_mono_r; lia). lia. }
    destruct (Z.eqb_spec (Zpos m) (2 ^ prec)); [lia|].
    destruct (Z.leb_spec e (emax - prec)); [reflexivity | lia]. }
  destruct s; simpl; apply Eb.
Qed.

Lemma V_finite_pos s m e : bounded prec emax m e = true ->
  V (S754_finite s m e) <> 0 /\ (V (S754_finite s m e) <? 0) = s.
Proof.
  intros Hb. pose proof (bounded_emin m e Hb) as He.
  assert (Pk : 0 < 2 ^ (e - emin)) by (apply Z.pow_pos_nonneg; lia).
  unfold V. destruct s; simpl; split; try lia.
  - apply Z.ltb_lt. lia.
  - apply Z.ltb_ge. lia.
Qed.

(** what [R] makes of a number of units *)
Lemma R_cases N : N <> 0 ->
  (Z.abs (rz N) < overflow /\
   exists m e, R N = S754_finite (N <? 0) m e /\ bounded prec emax m e = true /\ V (R N) = rz N) \/
  (overflow <= Z.abs (rz N) /\ R N = S754_infinity (N <? 0)).
Proof.
  intros HN. pose proof (binary_normalize_valid prec emax Hprec0 N emin false) as Hv.
  fold (R N) in Hv.
  destruct N as [|M|M]; [congruence| |].
  - destruct (binary_round_units false M) as [(B & m & e & E & Ev)|[B E]].
    + left. rewrite rz_nonneg by lia. rewrite Z.abs_eq by (apply rp_nonneg; lia).
      split; [exact B|]. exists m, e. unfold R. simpl. rewrite E.
      split; [reflexivity|]. split.
      * unfold R in Hv. simpl in Hv. rewrite E in Hv. exact Hv.
      * simpl. exact Ev.
    + right. rewrite rz_nonneg by lia. rewrite Z.abs_eq by (apply rp_nonneg; lia).
      split; [exact B | exact E].
  - destruct (binary_round_units true M) as [(B & m & e & E & Ev)|[B E]].
    + left. rewrite rz_nonpos by lia. rewrite Z.abs_opp. change (- Zneg M) with (Zpos M).
      rewrite Z.abs_eq by (apply rp_nonneg; lia).
      split; [exact B|]. exists m, e. unfold R. simpl. rewrite E.
      split; [reflexivity|]. split.
      * unfold R in Hv. simpl in Hv. rewrite E in Hv. exact Hv.
      * simpl. lia.
    + right. rewrite rz_nonpos by lia. rewrite Z.abs_opp. change (- Zneg M) with (Zpos M).
      rewrite Z.abs_eq by (apply rp_nonneg; lia).
      split; [exact B | exact E].
Qed.


Lemma V_float s m e : bounded prec emax m e = true ->
  inF (V (S754_finite s m e)) /\ Z.abs (V (S754_finite s m e)) < overflow /\
  rz (V (S754_finite s m e)) = V (S754_finite s m e).
Proof.
  intros Hb. pose proof (R_V s m e Hb) as E.
  destruct (V_finite_pos s m e Hb) as [Hn _].
  destruct (R_cases _ Hn) as [(B & m' & e' & _ & _ & Ev)|[_ Ei]].
  - rewrite E in Ev. rewrite <- Ev in B |- *. split; [|split; [exact B | reflexivity]].
    rewrite Ev. apply inF_rz. exact Hprec.
  - rewrite E in Ei. discriminate.
Qed.

(** a float that is finite *)
Definition finite (x : spec_float) : Prop :=
  match x with
  | S754_zero _ => True
  | S754_finite _ m e => bounded prec emax m e = true
  | _ => False
  end.

Lemma V_finite x : finite x -> inF (V x) /\ Z.abs (V x) < overflow.
Proof.
  destruct x as [s|s| |s m e]; simpl; intros H; try contradiction.
  - split; [apply inF_0; exact Hprec | apply Z.pow_pos_nonneg; unfold SpecFloat.emin; lia].
  - destruct (V_float s m e H) as (A & B & _). split; assumption.
Qed.

(** the difference of a float that is not zero and a finite float *)
Lemma sub_R sd md ed x : bounded prec emax md ed = true -> finite x ->
  sub (S754_finite sd md ed) x = R (V (S754_finite sd md ed) - V x).
Proof.
  intros Hd Hx. destruct x as [s|s| |s m e]; simpl in Hx; try contradiction.
  - simpl sub. change (V (S754_zero s)) with 0. rewrite Z.sub_0_r. symmetry. apply R_V. exact Hd.
  - pose proof (bounded_emin md ed Hd) as Hed. pose proof (bounded_emin m e Hx) as He.
    cbv beta iota delta [SFsub]. cbv zeta.
    set (ez := Z.min ed e).
    rewrite !shl_align_fst by lia.
    unfold R, V.
    assert (Pd : 2 ^ (ed - emin) = 2 ^ (ed - ez) * 2 ^ (ez - emin)).
    { rewrite <- Z.pow_add_r by lia. f_equal. lia. }
    assert (Pe : 2 ^ (e - emin) = 2 ^ (e - ez) * 2 ^ (ez - emin)).
    { rewrite <- Z.pow_add_r by lia. f_equal. lia. }
    replace (cond_Zopp sd (Zpos md * 2 ^ (ed - emin)) - cond_Zopp s (Zpos m * 2 ^ (e - emin)))
      with ((cond_Zopp sd (Zpos md * 2 ^ (ed - ez)) - cond_Zopp s (Zpos m * 2 ^ (e - ez)))
            * 2 ^ (ez - emin))
      by (rewrite Pd, Pe; destruct sd, s; simpl; lia).
    rewrite binary_normalize_scale by lia.
    replace (emin + (ez - emin)) with ez by lia. reflexivity.
Qed.

(** what a difference is *)
Lemma R_class N :
  (N = 0 /\ R N = S754_zero false) \/
  (N <> 0 /\ Z.abs (rz N) < overflow /\ finite (R N) /\ V (R N) = rz N /\
   exists s m e, R N = S754_finite s m e) \/
  (overflow <= Z.abs (rz N) /\ exists s, R N = S754_infinity s).
Proof.
  destruct (Z.eq_dec N 0) as [->|HN]; [left; split; reflexivity|].
  destruct (R_cases N HN) as [(B & m & e & E & Hb & Ev)|[B E]].
  - right; left. split; [exact HN|]. split; [exact B|]. split.
    + rewrite E. exact Hb.
    + split; [exact Ev|]. eauto.
  - right; right. split; [exact B|]. eauto.
Qed.

Lemma R_inj x y : finite x -> finite y -> V x = V y -> V x <> 0 -> x = y.
Proof.
  destruct x as [s|s| |s m e], y as [s'|s'| |s' m' e']; simpl finite; intros Hx Hy E Hn;
    try contradiction;
    try (exfalso; apply Hn; reflexivity);
    try (exfalso; apply Hn; exact E).
  rewrite <- (R_V s m e Hx), <- (R_V s' m' e' Hy). rewrite E. reflexivity.
Qed.

(** ** The difference from [d] taken four times is the difference taken twice *)

Theorem sub_four d o : valid d = true -> valid o = true ->
  sub d (sub d (sub d (sub d o))) = sub d (sub d o).
Proof.
  intros Vd Vo.
  destruct d as [sd|sd| |sd md ed].
  - destruct o as [so|so| |so mo eo]; destruct sd; try destruct so; reflexivity.
  - destruct o as [so|so| |so mo eo]; destruct sd; try destruct so; reflexivity.
  - reflexivity.
  - simpl in Vd.
    assert (Fo : finite o \/ (exists s, o = S754_infinity s) \/ o = S754_nan).
    { destruct o as [so|so| |so mo eo]; simpl; eauto. }
    destruct Fo as [Fo|[[s ->]| ->]]; [|destruct s; reflexivity|reflexivity].
    set (d := S754_finite sd md ed) in *.
    assert (Fd : finite d) by exact Vd.
    destruct (V_finite d Fd) as [Id Bd]. destruct (V_finite o Fo) as [Io Bo].
    assert (Ediag : sub d d = S754_zero false).
    { unfold d. rewrite sub_R by assumption. rewrite Z.sub_diag. reflexivity. }
    assert (Ezero : forall s, sub d (S754_zero s) = d) by reflexivity.
    assert (Einf : forall s, sub d (S754_infinity s) = S754_infinity (negb s)) by reflexivity.
    assert (HK : prec <= emax - emin) by (unfold SpecFloat.emin; lia).
    pose proof (fourth_difference prec Hprec (V d) (V o) Io) as F4.
    pose proof (third_difference_bounded prec Hprec (V d) (V o) Io (emax - emin) HK) as F3.
    fold overflow in F3. cbv zeta in F4, F3.
    assert (Sub : forall x, finite x -> sub d x = R (V d - V x)).
    { intros x Hx. apply sub_R; assumption. }
    rewrite (Sub o Fo).
    destruct (R_class (V d - V o)) as [[N1 E1]|[(N1 & B1 & F1 & V1 & _)|[_ [s1 E1]]]].
    + (* the first difference is zero *)
      rewrite E1, Ezero, Ediag, Ezero. reflexivity.
    + rewrite (Sub _ F1). rewrite V1.
      destruct (R_class (V d - rz (V d - V o))) as [[N2 E2]|[(N2 & B2 & F2 & V2 & s2 & m2 & e2 & E2)|[_ [s2 E2]]]].
      * rewrite E2, Ezero, Ediag. reflexivity.
      * rewrite (Sub _ F2). rewrite V2.
        specialize (F3 B1 B2).
        destruct (R_class (V d - rz (V d - rz (V d - V o))))
          as [[N3 E3]|[(N3 & B3 & F3' & V3 & _)|[B3 _]]]; [| |lia].
        -- rewrite E3, Ezero. apply R_inj; try assumption.
           ++ rewrite V2. lia.
           ++ destruct (V_finite_pos sd md ed Vd) as [Hn _]. exact Hn.
        -- rewrite (Sub _ F3'). rewrite V3.
           assert (Hz : V (R (V d - rz (V d - V o))) <> 0).
           { rewrite E2. rewrite E2 in F2. apply V_finite_pos. exact F2. }
           rewrite V2 in Hz.
           destruct (R_class (V d - rz (V d - rz (V d - rz (V d - V o)))))
             as [[N4 E4]|[(N4 & B4 & F4' & V4 & _)|[B4 _]]].
           ++ exfalso. rewrite N4 in F4.
              assert (R0 : rz 0 = 0) by (apply rz_id; try apply inF_0; assumption).
              rewrite R0 in F4. lia.
           ++ apply R_inj; try assumption.
              ** rewrite V4, V2. exact F4.
              ** rewrite V4, F4. exact Hz.
           ++ rewrite F4 in B4. lia.
      * rewrite E2. destruct s2; reflexivity.
    + rewrite E1. destruct s1; reflexivity.
Qed.

End Format.

End Subtraction.

(** * The C++ [float] (binary32) and [double] (binary64) *)

Module F32.

Definition prec : Z := 24.
Definition emax : Z := 128.

Lemma prec_pos : 0 < prec.
Proof. reflexivity. Qed.

Lemma prec_lt_emax : prec < emax.
Proof. reflexivity. Qed.

Definition float : Type := IEEE754.binary_float prec emax.

Definition val (x : float) : spec_float := IEEE754.bval prec emax x.

Definition NAN : float := IEEE754.Bnan prec emax.
Definition zero : float := IEEE754.Bzero prec emax false.
Definition infinity : float := IEEE754.Binfinity prec emax false.
Definition opp : float -> float := IEEE754.Bopp prec emax.
Definition add : float -> float -> float := IEEE754.Badd prec emax prec_pos.
Definition sub : float -> float -> float := IEEE754.Bsub prec emax prec_pos.
Definition mul : float -> float -> float := IEEE754.Bmul prec emax prec_pos prec_lt_emax.
Definition div : float -> float -> float := IEEE754.Bdiv prec emax prec_pos.
Definition sqrt : float -> float := IEEE754.Bsqrt prec emax prec_pos.
(** [static_cast<float>(z)] of an integer *)
Definition of_int : Z -> float := IEEE754.Bof_Z prec emax prec_pos.
(** [x < y], [x <= y], [x == y]; each is false when an operand is NaN *)
Definition ltb : float -> float -> bool := IEEE754.Bltb prec emax.
Definition leb : float -> float -> bool := IEEE754.Bleb prec emax.
Definition eqb : float -> float -> bool := IEEE754.Beqb prec emax.
(** [x > y] and [x != y] *)
Definition gtb (x y : float) : bool := ltb y x.
Definition neb (x y : float) : bool := negb (eqb x y).
(** [std::isnan] *)
Definition isnan : float -> bool := IEEE754.Bis_nan prec emax.
(** [std::max(a, b)] is [(a < b) ? b : a] and [std::min(a, b)] is
    [(b < a) ? b : a] *)
Definition std_max (a b : float) : float := if ltb a b then b else a.
Definition std_min (a b : float) : float := if ltb b a then b else a.

Lemma ext (x y : float) : val x = val y -> x = y.
Proof. apply IEEE754.binary_float_ext. Qed.

End F32.

Declare Scope f32_scope.
Delimit Scope f32_scope with f32.
Bind Scope f32_scope with F32.float.
Infix "+" := F32.add : f32_scope.
Infix "-" := F32.sub : f32_scope.
Infix "*" := F32.mul : f32_scope.
Infix "/" := F32.div : f32_scope.
Notation "- x" := (F32.opp x) : f32_scope.
Infix "<?" := F32.ltb : f32_scope.
Infix "<=?" := F32.leb : f32_scope.
Infix ">?" := F32.gtb : f32_scope.
Infix "=?" := F32.eqb : f32_scope.
Infix "!=?" := F32.neb (at level 70) : f32_scope.

Module F64.

Definition prec : Z := 53.
Definition emax : Z := 1024.

Lemma prec64_pos : 0 < prec.
Proof. reflexivity. Qed.

Lemma prec64_lt_emax : prec < emax.
Proof. reflexivity. Qed.

Definition double : Type := IEEE754.binary_float prec emax.

Definition val (x : double) : spec_float := IEEE754.bval prec emax x.

Definition opp : double -> double := IEEE754.Bopp prec emax.
Definition add : double -> double -> double := IEEE754.Badd prec emax prec64_pos.
Definition sub : double -> double -> double := IEEE754.Bsub prec emax prec64_pos.
Definition mul : double -> double -> double := IEEE754.Bmul prec emax prec64_pos prec64_lt_emax.
Definition div : double -> double -> double := IEEE754.Bdiv prec emax prec64_pos.
Definition sqrt : double -> double := IEEE754.Bsqrt prec emax prec64_pos.
Definition of_int : Z -> double := IEEE754.Bof_Z prec emax prec64_pos.
(** the implicit promotion of a [float] operand; it is exact *)
Definition of_float (x : F32.float) : double := IEEE754.Bof_spec prec emax prec64_pos (F32.val x).
(** the conversion of a [double] stored into a [float], rounded to nearest *)
Definition to_float (x : double) : F32.float := IEEE754.Bof_spec F32.prec F32.emax F32.prec_pos (val x).

End F64.

Declare Scope f64_scope.
Delimit Scope f64_scope with f64.
Bind Scope f64_scope with F64.double.
Infix "+" := F64.add : f64_scope.
Infix "-" := F64.sub : f64_scope.
Infix "*" := F64.mul : f64_scope.
Infix "/" := F64.div : f64_scope.
Notation "- x" := (F64.opp x) : f64_scope.

(** * Machine integers *)

(** The C++ [int] is 32 bits wide.  [wrap_int] is the two's-complement
    wrap-around of an out-of-range result; signed overflow is undefined in
    C++, so a statement about [++] or [+=] is made where the mathematical
    result is in range. *)
Definition INT_MIN : Z := - 2 ^ 31.
Definition INT_MAX : Z := 2 ^ 31 - 1.
Definition wrap_int (z : Z) : Z := (z + 2 ^ 31) mod 2 ^ 32 - 2 ^ 31.
Definition in_int (z : Z) : Prop := INT_MIN <= z <= INT_MAX.

(** * Steps and events *)

Inductive StepDirection : Type := StepBackward | StepForward.

(** Modelled from the spec: [stepDirToSigned] is declared outside the given
    sources; the motion planner adds its result to the mechanical position of
    the stepped axis ("mechanical_pos[axis] += direction"). *)
Definition stepDirToSigned (d : StepDirection) : Z :=
  match d with StepForward => 1 | StepBackward => -1 end.

(** Modelled from the spec: the class [Event] is declared outside the given
    sources.  An event is null ([Event()]) or one step of one axis in one
    direction with a deadline; [offset] moves the deadline by a duration.
    Clock instants and durations are counted in ticks of the event clock. *)
Inductive Event : Type :=
| NullEvent
| StepEvent (deadline : Z) (stepperId : nat) (dir : StepDirection).

Definition Event_offset (base : Z) (e : Event) : Event :=
  match e with
  | NullEvent => NullEvent
  | StepEvent t i d => StepEvent (base + t) i d
  end.

Definition Event_isNull (e : Event) : bool :=
  match e with NullEvent => true | _ => false end.

(** The deadline of an event (a null event has none; 0 stands for it). *)
Definition deadline (e : Event) : Z :=
  match e with
  | NullEvent => 0
  | StepEvent t _ _ => t
  end.

(** * drivers/lineardeltastepper.h: LinearDeltaStepper *)

Inductive DeltaAxis : Type := DELTA_AXIS_A | DELTA_AXIS_B | DELTA_AXIS_C.

(** What the stepper reads from the coordinate map of a linear delta machine
    ([lineardeltacoordmap.h] is outside the given sources): the tower radius
    [r], the rod length [L], the millimetres per step of an axis, the step
    count of an axis and the Cartesian position of a mechanical position. *)
Record DeltaMap : Type := {
  map_r : F32.float;
  map_L : F32.float;
  map_MM_STEPS : DeltaAxis -> F32.float;
  map_getAxisPosition : list Z -> DeltaAxis -> Z;
  map_xyzeFromMechanical : list Z -> F32.float * F32.float * F32.float * F32.float
}.

Module LinearDeltaStepper.

Import F32.
Local Open Scope f32_scope.

(** The members of the class, after those of its base [AxisStepper]
    ([time], [direction] and the index of the axis). *)
Record t : Type := mk {
  index : nat;
  time : float;
  direction : StepDirection;
  _r : float;
  _L : float;
  _MM_STEPS : float;
  M0 : float;
  sTotal : Z;
  inv_v2 : float;
  vz_over_v2 : float;
  _almostTerm1 : float;
  _almostRootParam : float;
  _almostRootParamV2S : float
}.

Definition with_step (st : t) (tm : float) (d : StepDirection) (s : Z) : t :=
  mk (index st) tm d (_r st) (_L st) (_MM_STEPS st) (M0 st) s (inv_v2 st)
     (vz_over_v2 st) (_almostTerm1 st) (_almostRootParam st) (_almostRootParamV2S st).

Definition with_time (st : t) (tm : float) : t :=
  with_step st tm (direction st) (sTotal st).

Definition f2 : float := of_int 2.

(** [sqrt(3)] is computed in [double]; an expression with a [double] operand
    is evaluated in [double] and rounded when it is stored in a [float]. *)
Definition sqrt3 : F64.double := F64.sqrt (F64.of_int 3).
Definition d (x : float) : F64.double := F64.of_float x.

(** The constructor.  [dir0] stands for the value of [direction], which the
    constructor does not set. *)
Definition make (AxisIdx : DeltaAxis) (idx : nat) (map : DeltaMap) (curPos : list Z)
    (vx vy vz ve : float) (dir0 : StepDirection) : t :=
  let r := map_r map in
  let L := map_L map in
  let M0 := of_int (map_getAxisPosition map curPos AxisIdx) * map_MM_STEPS map AxisIdx in
  let inv_v2 := of_int 1 / (vx * vx + vy * vy + vz * vz) in
  let vz_over_v2 := vz * inv_v2 in
  let '(x0, y0, z0, e_) := map_xyzeFromMechanical map curPos in
  let almostRootParamV2S := f2 * M0 - f2 * z0 in
  let almostTerm1 :=
    match AxisIdx with
    | DELTA_AXIS_A =>
        inv_v2 * (r * vy - vx * x0 - vy * y0 + vz * (M0 - z0))
    | DELTA_AXIS_B =>
        F64.to_float
          (d inv_v2 *
           (d r * (sqrt3 * d vx - d vy) / F64.of_int 2 - d (vx * x0) - d (vy * y0)
            + d (vz * (M0 - z0))))%f64
    | DELTA_AXIS_C =>
        F64.to_float
          (d inv_v2 *
           (d (- r) * (sqrt3 * d vx + d vy) / F64.of_int 2 - d (vx * x0) - d (vy * y0)
            + d (vz * (M0 - z0))))%f64
    end in
  let almostRootParam :=
    match AxisIdx with
    | DELTA_AXIS_A =>
        - inv_v2 * (- L * L + x0 * x0 + (r - y0) * (r - y0) + M0 * M0
                    - f2 * M0 * z0 + z0 * z0)
    | DELTA_AXIS_B =>
        F64.to_float
          (d (- inv_v2) *
           (d (- L * L + r * r + x0 * x0 + y0 * y0)
            + d r * (- sqrt3 * d x0 + d y0)
            + d (M0 * M0) - d (f2 * M0 * z0) + d (z0 * z0)))%f64
    | DELTA_AXIS_C =>
        F64.to_float
          (d (- inv_v2) *
           (d (- L * L + r * r + x0 * x0 + y0 * y0)
            + d r * (sqrt3 * d x0 + d y0)
            + d (M0 * M0) - d (f2 * M0 * z0) + d (z0 * z0)))%f64
    end in
  mk idx zero dir0 r L (map_MM_STEPS map AxisIdx) M0 0 inv_v2 vz_over_v2
     almostTerm1 almostRootParam almostRootParamV2S.

(** [getTerm1AndRootParam(term1, rootParam, s)] *)
Definition getTerm1AndRootParam (st : t) (s : float) : float * float :=
  let term1 := _almostTerm1 st + vz_over_v2 st * s in
  let rootParam :=
    term1 * term1 + _almostRootParam st - inv_v2 st * s * (_almostRootParamV2S st + s) in
  (term1, rootParam).

(** [testDir(s)]: the time at which the carriage is [s] millimetres from
    where it was when the segment began, if that lies after [this->time]. *)
Definition testDir (st : t) (s : float) : float :=
  let '(term1, rootParam) := getTerm1AndRootParam st s in
  if rootParam <? zero then NAN
  else
    let root := sqrt rootParam in
    let t1 := term1 - root in
    let t2 := term1 + root in
    if root >? term1 then
      (if t2 >? time st then t2 else NAN)
    else
      (if t1 >? time st then t1 else if t2 >? time st then t2 else NAN).

(** [_nextStep()] *)
Definition _nextStep (st : t) : t :=
  let negTime := testDir st (of_int (wrap_int (sTotal st - 1)) * _MM_STEPS st) in
  let posTime := testDir st (of_int (wrap_int (sTotal st + 1)) * _MM_STEPS st) in
  if (negTime <? time st) || isnan negTime then
    if posTime >? time st then
      with_step st posTime StepForward (wrap_int (sTotal st + 1))
    else
      with_time st NAN
  else if (posTime <? time st) || isnan posTime then
    if negTime >? time st then
      with_step st negTime StepBackward (wrap_int (sTotal st - 1))
    else
      with_time st NAN
  else
    if negTime <? posTime then
      with_step st negTime StepBackward (wrap_int (sTotal st - 1))
    else
      with_step st posTime StepForward (wrap_int (sTotal st + 1)).

(** The two roots [term1 - root] and [term1 + root] of the quadratic for the
    offset [s], and its discriminant, as [testDir] computes them. *)
Definition roots (st : t) (s : float) : float * float :=
  let '(term1, rootParam) := getTerm1AndRootParam st s in
  (term1 - sqrt rootParam, term1 + sqrt rootParam).

Definition rootParam (st : t) (s : float) : float := snd (getTerm1AndRootParam st s).

(** The candidate offsets of [_nextStep]: one step back and one step on. *)
Definition negOffset (st : t) : float := of_int (wrap_int (sTotal st - 1)) * _MM_STEPS st.
Definition posOffset (st : t) : float := of_int (wrap_int (sTotal st + 1)) * _MM_STEPS st.

End LinearDeltaStepper.

(** * drivers/lineardeltastepper.h: LinearDeltaArcStepper *)

Module LinearDeltaArcStepper.

Import F32.
Local Open Scope f32_scope.

Section Arc.

(** [cos], [sin] and [atan2] of [<math.h>], on [double], and [M_PI]; the
    square root is the correctly rounded one.  An expression with a [double]
    operand is evaluated in [double] and rounded when it is stored in a
    [float]. *)
Variables cos sin : F64.double -> F64.double.
Variable atan2 : F64.double -> F64.double -> F64.double.
Variable M_PI : F64.double.

Local Abbreviation d := F64.of_float.

(** The members of the class that the constructor sets, after those of its
    base [AxisStepper]; [m] is the angular velocity and [w] the angle of the
    tower. *)
Record t : Type := mk {
  index : nat;
  time : float;
  direction : StepDirection;
  _r : float;
  _L : float;
  _MM_STEPS : float;
  M0 : float;
  sTotal : Z;
  xc : float;
  yc : float;
  zc : float;
  ux : float;
  uy : float;
  uz : float;
  vx : float;
  vy : float;
  vz : float;
  arcRad : float;
  m : float;
  w : float
}.

Definition with_step (st : t) (tm : float) (dir : StepDirection) (s : Z) : t :=
  mk (index st) tm dir (_r st) (_L st) (_MM_STEPS st) (M0 st) s (xc st) (yc st) (zc st)
     (ux st) (uy st) (uz st) (vx st) (vy st) (vz st) (arcRad st) (m st) (w st).

Definition with_time (st : t) (tm : float) : t :=
  with_step st tm (direction st) (sTotal st).

Definition axisNumber (a : DeltaAxis) : Z :=
  match a with DELTA_AXIS_A => 0 | DELTA_AXIS_B => 1 | DELTA_AXIS_C => 2 end.

(** The constructor.  [dir0] stands for the value of [direction], which the
    constructor does not set. *)
Definition make (AxisIdx : DeltaAxis) (idx : nat) (map : DeltaMap) (curPos : list Z)
    (xCenter yCenter zCenter ux uy uz vx vy vz arcRad arcVel extVel : float)
    (dir0 : StepDirection) : t :=
  mk idx zero dir0 (map_r map) (map_L map) (map_MM_STEPS map AxisIdx)
     (of_int (map_getAxisPosition map curPos AxisIdx) * map_MM_STEPS map AxisIdx)
     0 xCenter yCenter zCenter ux uy uz vx vy vz arcRad arcVel
     (F64.to_float (F64.of_int (axisNumber AxisIdx * 2) * M_PI / F64.of_int 3)%f64).

Definition f2 : float := of_int 2.

(** [testDir(s, curTime)] *)
Definition testDir (st : t) (s : float) (curTime : float) : float :=
  let r := _r st in
  let L := _L st in
  let arcRad := arcRad st in
  let '(xc, yc, zc) := (xc st, yc st, zc st) in
  let '(ux, uy, uz) := (ux st, uy st, uz st) in
  let '(vx, vy, vz) := (vx st, vy st, vz st) in
  let angularVel := m st in
  let cw := cos (d (w st)) in
  let sw := sin (d (w st)) in
  let D := M0 st + s in
  let p :=
    F64.to_float
      (d (r * r + arcRad * arcRad + xc * xc + yc * yc + (D - zc) * (D - zc))
       - d (f2 * r) * (d yc * cw + d xc * sw)
       - d (L * L))%f64 in
  let n :=
    F64.to_float
      (d (f2 * arcRad)
       * (d (- D * uz + ux * xc + uy * yc + uz * zc) - d r * (d uy * cw + d ux * sw)))%f64 in
  let m :=
    F64.to_float
      (d (f2 * arcRad)
       * (d (- D * vz + vx * xc + vy * yc + vz * zc) - d r * (d vy * cw + d vx * sw)))%f64 in
  let root := F64.sqrt (d (m * m + n * n - p * p)) in
  let mt_1 :=
    F64.to_float
      (atan2 ((d (- m * p) + d n * root) / d (m * m + n * n))
             ((d (- n * p) - d m * root) / d (m * m + n * n)))%f64 in
  let mt_2 :=
    F64.to_float
      (atan2 ((d (- m * p) - d n * root) / d (m * m + n * n))
             ((d (- n * p) + d m * root) / d (m * m + n * n)))%f64 in
  let t1 := mt_1 / angularVel in
  let t2 := mt_2 / angularVel in
  if (t1 <? curTime) && (t2 <? curTime) then NAN
  else if t1 <? curTime then t2
  else if t2 <? curTime then t1
  else std_min t1 t2.

(** [_nextStep()] *)
Definition _nextStep (st : t) : t :=
  let negTime := testDir st (of_int (wrap_int (sTotal st - 1)) * _MM_STEPS st) (time st) in
  let posTime := testDir st (of_int (wrap_int (sTotal st + 1)) * _MM_STEPS st) (time st) in
  if (negTime <? time st) || isnan negTime then
    if posTime >? time st then
      with_step st posTime StepForward (wrap_int (sTotal st + 1))
    else
      with_time st NAN
  else if (posTime <? time st) || isnan posTime then
    if negTime >? time st then
      with_step st negTime StepBackward (wrap_int (sTotal st - 1))
    else
      with_time st NAN
  else
    if negTime <? posTime then
      with_step st negTime StepBackward (wrap_int (sTotal st - 1))
    else
      with_step st posTime StepForward (wrap_int (sTotal st + 1)).

End Arc.

End LinearDeltaArcStepper.

(** * motion/motionplanner.h: MotionPlanner *)

Inductive MotionType : Type := MotionNone | MotionMove | MotionHome.

(** The interface [drv::AxisStepper] as the planner uses it: the time of the
    pending step in seconds from the start of the segment, its direction, and
    [_nextStep], which commits the pending step and computes the next one. *)
Class AxisStepper (T : Type) : Type := {
  as_time : T -> F32.float;
  as_direction : T -> StepDirection;
  as_nextStep : T -> T
}.

#[export] Instance LinearDeltaStepper_AxisStepper : AxisStepper LinearDeltaStepper.t := {
  as_time := LinearDeltaStepper.time;
  as_direction := LinearDeltaStepper.direction;
  as_nextStep := LinearDeltaStepper._nextStep
}.

(** The acceleration profile ([accelerationprofile.h] is outside the given
    sources): [begin] starts a segment, [transform] maps the time of a step at
    constant velocity to its real time. *)
Class AccelerationProfile (A : Type) : Type := {
  accel_begin : A -> F32.float -> F32.float -> A;
  accel_transform : A -> F32.float -> F32.float
}.

(** The static functions of the coordinate map that the planner calls. *)
Record CoordMap : Type := {
  getHomePosition : list Z -> list Z;
  xyzeFromMechanical : list Z -> F32.float * F32.float * F32.float * F32.float;
  applyLeveling : F32.float * F32.float * F32.float -> F32.float * F32.float * F32.float;
  bound : F32.float * F32.float * F32.float * F32.float ->
          F32.float * F32.float * F32.float * F32.float
}.

Module MotionPlanner.

Import F32.
Local Open Scope f32_scope.

Section Planner.

(** [AxisStepperTypes] and [HomeStepperTypes] are tuples; a tuple is the list
    of its members, and the index of a stepper is its place in the tuple. *)
Context {Stepper HomeStepper Accel : Type}.
Context `{AxisStepper Stepper} `{AxisStepper HomeStepper} `{AccelerationProfile Accel}.
Variable CoordMapT : CoordMap.
(** The conversion of seconds, as a [float], to a duration of the event
    clock, which [AxisStepper::getEvent] applies. *)
Variable toDuration : float -> Z.
(** [drv::AxisStepper::initAxisSteppers] and [initAxisHomeSteppers] *)
Variable initAxisSteppers : list Stepper -> list Z -> float -> float -> float -> float -> list Stepper.
Variable initAxisHomeSteppers : list HomeStepper -> float -> list HomeStepper.

Record t : Type := mk {
  _accel : Accel;
  _destMechanicalPos : list Z;
  _iters : list Stepper;
  _homeIters : list HomeStepper;
  _baseTime : Z;
  _duration : float;
  _motionType : MotionType
}.

Definition set_destMechanicalPos (p : t) (pos : list Z) : t :=
  mk (_accel p) pos (_iters p) (_homeIters p) (_baseTime p) (_duration p) (_motionType p).
Definition set_iters (p : t) (l : list Stepper) : t :=
  mk (_accel p) (_destMechanicalPos p) l (_homeIters p) (_baseTime p) (_duration p) (_motionType p).
Definition set_homeIters (p : t) (l : list HomeStepper) : t :=
  mk (_accel p) (_destMechanicalPos p) (_iters p) l (_baseTime p) (_duration p) (_motionType p).
Definition set_motionType (p : t) (m : MotionType) : t :=
  mk (_accel p) (_destMechanicalPos p) (_iters p) (_homeIters p) (_baseTime p) (_duration p) m.

(** The constructor: default members, no duration, no motion. *)
Definition init (accel : Accel) (numAxis : nat) (iters : list Stepper)
    (homeIters : list HomeStepper) : t :=
  mk accel (replicate numAxis 0) iters homeIters 0 NAN MotionNone.

(** [readyForNextMove()] *)
Definition readyForNextMove (p : t) : bool :=
  match _motionType p with MotionNone => true | _ => false end.

(** [isHoming()] *)
Definition isHoming (p : t) : bool :=
  match _motionType p with MotionHome => true | _ => false end.

(** Modelled from the spec: [drv::AxisStepper::getNextTime] is declared
    outside the given sources.  It finds "the axis with smallest peek_time()
    (ties broken by axis index)", where a stepper whose time is NaN has no
    step left.  [best] is the index found so far and [bt] its time. *)
Fixpoint getNextTime_from {T : Type} `{AxisStepper T}
    (i best : nat) (bt : float) (l : list T) : nat :=
  match l with
  | [] => best
  | s :: l' =>
      if (isnan bt && negb (isnan (as_time s))) || (as_time s <? bt)
      then getNextTime_from (S i) i (as_time s) l'
      else getNextTime_from (S i) best bt l'
  end.

Definition getNextTime {T : Type} `{AxisStepper T} (l : list T) : nat :=
  match l with
  | [] => 0%nat
  | s :: l' => getNextTime_from 1 0 (as_time s) l'
  end.

(** The stepper [s] that [_nextStep] is given is the member [idx] of the
    tuple of the motion in progress. *)
Definition chosen (p : t) (idx : nat) (homing : bool) : option (float * StepDirection) :=
  if homing
  then (fun s => (as_time s, as_direction s)) <$> (_homeIters p !! idx)
  else (fun s => (as_time s, as_direction s)) <$> (_iters p !! idx).

(** [s.getEvent(transformedTime)] followed by [e.offset(_baseTime)] *)
Definition getEvent (idx : nat) (dir : StepDirection) (transformedTime : float) : Event :=
  StepEvent (toDuration transformedTime) idx dir.

(** [_nextStep(s, isHoming)] *)
Definition _nextStep (p : t) (idx : nat) (homing : bool) : t * Event :=
  match chosen p idx homing with
  | None => (p, NullEvent)
  | Some (s_time, s_direction) =>
      if (s_time >? _duration p) || (s_time <=? zero) || isnan s_time then
        let p1 :=
          if homing
          then set_destMechanicalPos p (getHomePosition CoordMapT (_destMechanicalPos p))
          else p in
        (set_motionType p1 MotionNone, NullEvent)
      else
        let transformedTime := accel_transform (_accel p) s_time in
        let e := Event_offset (_baseTime p) (getEvent idx s_direction transformedTime) in
        let p1 :=
          set_destMechanicalPos p
            (alter (fun v => wrap_int (v + stepDirToSigned s_direction)) idx
                   (_destMechanicalPos p)) in
        let p2 :=
          if homing
          then set_homeIters p1 (alter as_nextStep idx (_homeIters p1))
          else set_iters p1 (alter as_nextStep idx (_iters p1)) in
        (p2, e)
  end.

(** [nextStep()] *)
Definition nextStep (p : t) : t * Event :=
  match _motionType p with
  | MotionNone => (p, NullEvent)
  | _ =>
      let homing := isHoming p in
      if (homing && (length (_homeIters p) =? 0)%nat)
         || (negb homing && (length (_iters p) =? 0)%nat)
      then (p, NullEvent)
      else if homing
      then _nextStep p (getNextTime (_homeIters p)) true
      else _nextStep p (getNextTime (_iters p)) false
  end.

(** The arithmetic of [moveTo], from the current position [cur] and the
    levelled, bounded destination: duration, extrusion rate, Cartesian
    velocity and its components.  ([sqrt] of a [float] is correctly rounded
    whether it is computed in [float] or in [double].) *)
Record Velocities : Type := mkVelocities {
  v_minDuration0 : float;   (* dist/maxVelXyz, before the extrusion rate is regulated *)
  v_velE0 : float;          (* (e-curE)/minDuration, before it is clamped *)
  v_dist : float;
  v_minDuration : float;
  v_velE : float;
  v_maxVelXyz : float;
  v_vx : float;
  v_vy : float;
  v_vz : float
}.

Definition moveTo_velocities (curX curY curZ curE x y z e maxVelXyz minVelE maxVelE : float)
    : Velocities :=
  let distSq := (x - curX) * (x - curX) + (y - curY) * (y - curY) + (z - curZ) * (z - curZ) in
  let dist := sqrt distSq in
  let minDuration0 := dist / maxVelXyz in
  let velE0 := (e - curE) / minDuration0 in
  let newVelE := std_max minVelE (std_min maxVelE velE0) in
  let '(velE, minDuration, maxVelXyz') :=
    if velE0 !=? newVelE
    then (newVelE, (e - curE) / newVelE, dist / ((e - curE) / newVelE))
    else (velE0, minDuration0, maxVelXyz) in
  let vx := (x - curX) / minDuration in
  let vy := (y - curY) / minDuration in
  let vz := (z - curZ) / minDuration in
  mkVelocities minDuration0 velE0 dist minDuration velE maxVelXyz' vx vy vz.

(** [moveTo(baseTime, x, y, z, e, maxVelXyz, minVelE, maxVelE)] *)
Definition moveTo (p : t) (baseTime : Z) (x y z e maxVelXyz minVelE maxVelE : float) : t :=
  if (length (_iters p) =? 0)%nat then p
  else
    let '(curX, curY, curZ, curE) := xyzeFromMechanical CoordMapT (_destMechanicalPos p) in
    let '(x, y, z) := applyLeveling CoordMapT (x, y, z) in
    let '(x, y, z, e) := bound CoordMapT (x, y, z, e) in
    let v := moveTo_velocities curX curY curZ curE x y z e maxVelXyz minVelE maxVelE in
    mk (accel_begin (_accel p) (v_minDuration v) (v_maxVelXyz v))
       (_destMechanicalPos p)
       (initAxisSteppers (_iters p) (_destMechanicalPos p) (v_vx v) (v_vy v) (v_vz v) (v_velE v))
       (_homeIters p)
       baseTime
       (v_minDuration v)
       MotionMove.

(** [homeEndstops(baseTime, maxVelXyz)] *)
Definition homeEndstops (p : t) (baseTime : Z) (maxVelXyz : float) : t :=
  if (length (_homeIters p) =? 0)%nat then p
  else
    mk (accel_begin (_accel p) NAN maxVelXyz)
       (_destMechanicalPos p)
       (_iters p)
       (initAxisHomeSteppers (_homeIters p) maxVelXyz)
       baseTime
       NAN
       MotionHome.

(** The events that [n] calls of [nextStep] yield, up to the first null
    event, and the planner they leave. *)
Fixpoint run (n : nat) (p : t) : list Event * t :=
  match n with
  | O => ([], p)
  | S n' =>
      let '(p', e) := nextStep p in
      match e with
      | NullEvent => ([], p')
      | _ => let '(es, p'') := run n' p' in (e :: es, p'')
      end
  end.

End Planner.

End MotionPlanner.

(** * common/tupleutil.h *)

(** A tuple is the list of its members ([std::get<i>(t)] is [t !! i]).  The
    function object [f] takes a member by reference and may change it, and
    takes the other arguments by value; what it reaches through them (a
    pointer to the [State], say) is the state [S] that the calls thread. *)
Module TupleUtil.

Section Tuple.

Context {T S : Type}.

(** [__callOnAll<TupleT, IdxPlusOne, ...>]: the members before
    [IdxPlusOne - 1] first, then that member *)
Fixpoint __callOnAll (IdxPlusOne : nat) (t : list T) (f : nat -> T -> S -> T * S) (s : S)
    : list T * S :=
  match IdxPlusOne with
  | O => (t, s)
  | Datatypes.S i =>
      let '(t, s) := __callOnAll i t f s in
      match t !! i with
      | Some x => let '(x', s') := f i x s in (<[i := x']> t, s')
      | None => (t, s)
      end
  end.

(** [callOnAll(t, f, args...)] *)
Definition callOnAll (t : list T) (f : nat -> T -> S -> T * S) (s : S) : list T * S :=
  __callOnAll (length t) t f s.

(** [__callOnAllReduce<TupleT, IdxPlusOne, ...>]; [d] is the value that the
    [ReducedDefault] returns *)
Fixpoint __callOnAllReduce {R : Type} (IdxPlusOne : nat) (t : list T)
    (f : nat -> T -> S -> T * S * R) (r : R -> R -> R) (d : R) (s : S) : list T * S * R :=
  match IdxPlusOne with
  | O => (t, s, d)
  | Datatypes.S i =>
      let '(t, s, prev) := __callOnAllReduce i t f r d s in
      match t !! i with
      | Some x => let '(x', s', cur) := f i x s in (<[i := x']> t, s', r prev cur)
      | None => (t, s, prev)
      end
  end.

(** [tupleReduce(t, f, r, d, args...)] *)
Definition tupleReduce {R : Type} (t : list T) (f : nat -> T -> S -> T * S * R)
    (r : R -> R -> R) (d : R) (s : S) : list T * S * R :=
  __callOnAllReduce (length t) t f r d s.

(** [tupleReduceLogicalOr(t, f, args...)] *)
Definition tupleReduceLogicalOr (t : list T) (f : nat -> T -> S -> T * S * bool) (s : S)
    : list T * S * bool :=
  tupleReduce t f (fun a b => a || b) false s.

(** [__callOnIndex<TupleT, MyIdx, ...>]: [None] stands for a [std::get] past
    the end of the tuple, which does not compile *)
Fixpoint __callOnIndex {R : Type} (MyIdx : nat) (t : list T) (f : T -> S -> T * S * R)
    (desiredIdx : nat) (s : S) : option (list T * S * R) :=
  let here :=
    x ← t !! MyIdx;
    let '(x', s', res) := f x s in Some (<[MyIdx := x']> t, s', res) in
  match MyIdx with
  | O => here
  | Datatypes.S i => if (desiredIdx <? MyIdx)%nat then __callOnIndex i t f desiredIdx s else here
  end.

(** [tupleCallOnIndex(t, f, idx, args...)], for a tuple that is not empty
    ([std::tuple_size<TupleT>::value - 1] is the index of its last member) *)
Definition tupleCallOnIndex {R : Type} (t : list T) (f : T -> S -> T * S * R) (idx : nat) (s : S)
    : option (list T * S * R) :=
  __callOnIndex (length t - 1) t f idx s.

End Tuple.

End TupleUtil.

(** * state.h: State, the interpreter of G-code commands *)

Inductive PositionMode : Type := POS_ABSOLUTE | POS_RELATIVE.
Inductive LengthUnit : Type := UNIT_MM | UNIT_IN.

(** Modelled from the spec: [common/vector4.h] is outside the given sources.
    A [Vector4f] is a "millimeter-valued Cartesian position with extruder
    axis", a value type of four [float]s; sum, difference and the product by a
    scalar are taken by component. *)
Record Vector4f : Type := mkVector4f {
  v4_x : F32.float;
  v4_y : F32.float;
  v4_z : F32.float;
  v4_e : F32.float
}.

Record Vector3f : Type := mkVector3f {
  v3_x : F32.float;
  v3_y : F32.float;
  v3_z : F32.float
}.

Definition v4_add (a b : Vector4f) : Vector4f :=
  mkVector4f (v4_x a + v4_x b) (v4_y a + v4_y b) (v4_z a + v4_z b) (v4_e a + v4_e b)%f32.
Definition v4_sub (a b : Vector4f) : Vector4f :=
  mkVector4f (v4_x a - v4_x b) (v4_y a - v4_y b) (v4_z a - v4_z b) (v4_e a - v4_e b)%f32.
Definition v4_scale (a : Vector4f) (k : F32.float) : Vector4f :=
  mkVector4f (v4_x a * k) (v4_y a * k) (v4_z a * k) (v4_e a * k)%f32.
Definition v4_xyz (a : Vector4f) : Vector3f := mkVector3f (v4_x a) (v4_y a) (v4_z a).
Definition v3_withZ (a : Vector3f) (z : F32.float) : Vector3f := mkVector3f (v3_x a) (v3_y a) z.

(** Modelled from the spec: [gparse/command.h] is outside the given sources.
    A command is an opcode and the numeric parameters "X Y Z E F I J K S",
    each present or absent, and for M32 and M117 the rest of the line. *)
Record Command : Type := mkCommand {
  opcode : string;
  param_X : option F32.float;
  param_Y : option F32.float;
  param_Z : option F32.float;
  param_E : option F32.float;
  param_F : option F32.float;
  param_I : option F32.float;
  param_J : option F32.float;
  param_K : option F32.float;
  param_S : option F32.float;
  specialStringParam : string
}.

Definition isOpcode (name : string) (cmd : Command) : bool := String.eqb (opcode cmd) name.

(** [isTxxx]: a tool selection, [T] followed by the number of the tool *)
Definition isTxxx (cmd : Command) : bool :=
  match opcode cmd with
  | String "T"%char _ => true
  | _ => false
  end.

Definition has (p : option F32.float) : bool :=
  match p with Some _ => true | None => false end.

Definition hasAnyXYZEParam (cmd : Command) : bool :=
  has (param_X cmd) || has (param_Y cmd) || has (param_Z cmd) || has (param_E cmd).

(** Modelled from the spec: [gparse/response.h] is outside the given sources.
    A reply is "ok" or "ok <key>:<value> ...". *)
Inductive Response : Type := ResponseOk (pairs : list (string * string)).

Definition Response_Ok : Response := ResponseOk [].

Module State.

Import F32.
Local Open Scope f32_scope.

(** How a call of [execute] ends: it returns, or an exception leaves it, or
    the process ends with [exit]; each time after it has sent the replies in
    the list. *)
Inductive Outcome (St : Type) : Type :=
| Returns (st : St) (replies : list Response)
| Throws (what : string) (replies : list Response)
| Exits (status : Z) (replies : list Response).
Arguments Returns {St} st replies.
Arguments Throws {St} what replies.
Arguments Exits {St} status replies.

(** How the home routine of the coordinate map ends.  The routine drives
    [State] through [CoordMapInterface], whose [moveTo] queues a movement and
    runs [eventLoop]: [onIdleCpu] tends the communication channels there and
    [execute] is called for the commands that arrive.  Nothing on the way
    catches an exception, so the routine ends as such a call of [execute]
    can: it returns, or the exception of an unrecognized opcode leaves it, or
    [exit] ends the process. *)
Inductive HomeOutcome (St : Type) : Type :=
| HomeReturns (st : St)
| HomeThrows (what : string)
| HomeExits (status : Z).
Arguments HomeReturns {St} st.
Arguments HomeThrows {St} what.
Arguments HomeExits {St} status.

(** The interface of the motion planner as [State] calls it. *)
Class MotionPlannerT (Planner MotionFlags : Type) : Type := {
  readyForNextMove : Planner -> bool;
  doHomeBeforeFirstMovement : Planner -> bool;
  moveTo : Planner -> Z -> Vector4f -> float -> float -> float -> MotionFlags -> Planner;
  arcTo : Planner -> Z -> Vector4f -> Vector3f -> float -> float -> float -> bool -> Planner
}.

Section State.

Context {Planner MotionFlags : Type} `{MotionPlannerT Planner MotionFlags}.
(** The communication channels, the scheduler and the tuple of IO drivers
    are kept as [State] keeps them; their classes are outside the given
    sources and their member functions are the variables below. *)
Context {Com Sched IoDrivers : Type}.

(** [mathutil::MM_PER_IN] *)
Variable MM_PER_IN : float.
(** the value [Command] returns for a parameter that is absent *)
Variable ARG_NOT_PRESENT : float.
Variable MOTIONFLAGS_DEFAULT : MotionFlags.
(** the machine driver [Drv] *)
Variable defaultMoveRate : float.
Variable clampMoveRate : float -> float.
Variable maxRetractRate : float.
Variable maxExtrudeRate : float.
(** the scheduler *)
Variable setDefaultMaxSleep : Sched -> Sched.
Variable setMaxSleep_1ms : Sched -> Sched.
(** the IO drivers *)
Variable lockAllAxis : IoDrivers -> IoDrivers.
Variable unlockAllAxis : IoDrivers -> IoDrivers.
Variable setHotendTemp : IoDrivers -> float -> IoDrivers.
Variable setBedTemp : IoDrivers -> float -> IoDrivers.
Variable getHotendTemp : IoDrivers -> float.
Variable getBedTemp : IoDrivers -> float.
Variable getHotendTargetTemp : IoDrivers -> float.
(** [fan.setFanDutyCycle] on every driver that is a fan; it may schedule PWM *)
Variable setFanDutyCycles : float -> IoDrivers * Sched -> IoDrivers * Sched.
(** [std::to_string] of a temperature and the conversion of a [float] to [int] *)
Variable to_string : float -> string.
Variable float_to_int : float -> Z.
(** [gparse::Com(filesystem.relGcodePathToAbs(path), Com::NULL_FILE_STR, true)] *)
Variable openGcodeFile : string -> Com.

Record t : Type := mk {
  _doShutdownAfterMoveCompletes : bool;
  _doExitEventLoopAfterMoveCompletes : bool;
  _doBufferMoves : bool;
  _positionMode : PositionMode;
  _extruderPosMode : PositionMode;
  unitMode : LengthUnit;
  _destMm : Vector4f;
  _destMoveRatePrimitive : float;
  _hostZeroOffset : Vector4f;
  _isHoming : bool;
  _isHomed : bool;
  _isWaitingForHotend : bool;
  _lastMotionPlannedTime : Z;
  _isRootComPersistent : bool;
  gcodeFileStack : list Com;
  scheduler : Sched;
  _motionPlanner : Planner;
  ioDrivers : IoDrivers;
  logFlags : bool * bool * bool
}.

Definition set_doShutdownAfterMoveCompletes (st : t) (v : bool) : t :=
  mk v (_doExitEventLoopAfterMoveCompletes st) (_doBufferMoves st) (_positionMode st)
     (_extruderPosMode st) (unitMode st) (_destMm st) (_destMoveRatePrimitive st)
     (_hostZeroOffset st) (_isHoming st) (_isHomed st) (_isWaitingForHotend st)
     (_lastMotionPlannedTime st) (_isRootComPersistent st) (gcodeFileStack st) (scheduler st)
     (_motionPlanner st) (ioDrivers st) (logFlags st).
Definition set_doBufferMoves (st : t) (v : bool) : t :=
  mk (_doShutdownAfterMoveCompletes st) (_doExitEventLoopAfterMoveCompletes st) v
     (_positionMode st) (_extruderPosMode st) (unitMode st) (_destMm st) (_destMoveRatePrimitive
     st) (_hostZeroOffset st) (_isHoming st) (_isHomed st) (_isWaitingForHotend st)
     (_lastMotionPlannedTime st) (_isRootComPersistent st) (gcodeFileStack st) (scheduler st)
     (_motionPlanner st) (ioDrivers st) (logFlags st).
Definition set_positionMode (st : t) (v : PositionMode) : t :=
  mk (_doShutdownAfterMoveCompletes st) (_doExitEventLoopAfterMoveCompletes st)
     (_doBufferMoves st) v (_extruderPosMode st) (unitMode st) (_destMm st)
     (_destMoveRatePrimitive st) (_hostZeroOffset st) (_isHoming st) (_isHomed st)
     (_isWaitingForHotend st) (_lastMotionPlannedTime st) (_isRootComPersistent st)
     (gcodeFileStack st) (scheduler st) (_motionPlanner st) (ioDrivers st) (logFlags st).
Definition set_extruderPosMode (st : t) (v : PositionMode) : t :=
  mk (_doShutdownAfterMoveCompletes st) (_doExitEventLoopAfterMoveCompletes st)
     (_doBufferMoves st) (_positionMode st) v (unitMode st) (_destMm st) (_destMoveRatePrimitive
     st) (_hostZeroOffset st) (_isHoming st) (_isHomed st) (_isWaitingForHotend st)
     (_lastMotionPlannedTime st) (_isRootComPersistent st) (gcodeFileStack st) (scheduler st)
     (_motionPlanner st) (ioDrivers st) (logFlags st).
Definition set_unitMode (st : t) (v : LengthUnit) : t :=
  mk (_doShutdownAfterMoveCompletes st) (_doExitEventLoopAfterMoveCompletes st)
     (_doBufferMoves st) (_positionMode st) (_extruderPosMode st) v (_destMm st)
     (_destMoveRatePrimitive st) (_hostZeroOffset st) (_isHoming st) (_isHomed st)
     (_isWaitingForHotend st) (_lastMotionPlannedTime st) (_isRootComPersistent st)
     (gcodeFileStack st) (scheduler st) (_motionPlanner st) (ioDrivers st) (logFlags st).
Definition set_destMm (st : t) (v : Vector4f) : t :=
  mk (_doShutdownAfterMoveCompletes st) (_doExitEventLoopAfterMoveCompletes st)
     (_doBufferMoves st) (_positionMode st) (_extruderPosMode st) (unitMode st) v
     (_destMoveRatePrimitive st) (_hostZeroOffset st) (_isHoming st) (_isHomed st)
     (_isWaitingForHotend st) (_lastMotionPlannedTime st) (_isRootComPersistent st)
     (gcodeFileStack st) (scheduler st) (_motionPlanner st) (ioDrivers st) (logFlags st).
Definition set_destMoveRatePrimitive (st : t) (v : float) : t :=
  mk (_doShutdownAfterMoveCompletes st) (_doExitEventLoopAfterMoveCompletes st)
     (_doBufferMoves st) (_positionMode st) (_extruderPosMode st) (unitMode st) (_destMm st) v
     (_hostZeroOffset st) (_isHoming st) (_isHomed st) (_isWaitingForHotend st)
     (_lastMotionPlannedTime st) (_isRootComPersistent st) (gcodeFileStack st) (scheduler st)
     (_motionPlanner st) (ioDrivers st) (logFlags st).
Definition set_hostZeroOffset (st : t) (v : Vector4f) : t :=
  mk (_doShutdownAfterMoveCompletes st) (_doExitEventLoopAfterMoveCompletes st)
     (_doBufferMoves st) (_positionMode st) (_extruderPosMode st) (unitMode st) (_destMm st)
     (_destMoveRatePrimitive st) v (_isHoming st) (_isHomed st) (_isWaitingForHotend st)
     (_lastMotionPlannedTime st) (_isRootComPersistent st) (gcodeFileStack st) (scheduler st)
     (_motionPlanner st) (ioDrivers st) (logFlags st).
Definition set_isHoming (st : t) (v : bool) : t :=
  mk (_doShutdownAfterMoveCompletes st) (_doExitEventLoopAfterMoveCompletes st)
     (_doBufferMoves st) (_positionMode st) (_extruderPosMode st) (unitMode st) (_destMm st)
     (_destMoveRatePrimitive st) (_hostZeroOffset st) v (_isHomed st) (_isWaitingForHotend st)
     (_lastMotionPlannedTime st) (_isRootComPersistent st) (gcodeFileStack st) (scheduler st)
     (_motionPlanner st) (ioDrivers st) (logFlags st).
Definition set_isHomed (st : t) (v : bool) : t :=
  mk (_doShutdownAfterMoveCompletes st) (_doExitEventLoopAfterMoveCompletes st)
     (_doBufferMoves st) (_positionMode st) (_extruderPosMode st) (unitMode st) (_destMm st)
     (_destMoveRatePrimitive st) (_hostZeroOffset st) (_isHoming st) v (_isWaitingForHotend st)
     (_lastMotionPlannedTime st) (_isRootComPersistent st) (gcodeFileStack st) (scheduler st)
     (_motionPlanner st) (ioDrivers st) (logFlags st).
Definition set_isWaitingForHotend (st : t) (v : bool) : t :=
  mk (_doShutdownAfterMoveCompletes st) (_doExitEventLoopAfterMoveCompletes st)
     (_doBufferMoves st) (_positionMode st) (_extruderPosMode st) (unitMode st) (_destMm st)
     (_destMoveRatePrimitive st) (_hostZeroOffset st) (_isHoming st) (_isHomed st) v
     (_lastMotionPlannedTime st) (_isRootComPersistent st) (gcodeFileStack st) (scheduler st)
     (_motionPlanner st) (ioDrivers st) (logFlags st).
Definition set_gcodeFileStack (st : t) (v : list Com) : t :=
  mk (_doShutdownAfterMoveCompletes st) (_doExitEventLoopAfterMoveCompletes st)
     (_doBufferMoves st) (_positionMode st) (_extruderPosMode st) (unitMode st) (_destMm st)
     (_destMoveRatePrimitive st) (_hostZeroOffset st) (_isHoming st) (_isHomed st)
     (_isWaitingForHotend st) (_lastMotionPlannedTime st) (_isRootComPersistent st) v (scheduler
     st) (_motionPlanner st) (ioDrivers st) (logFlags st).
Definition set_scheduler (st : t) (v : Sched) : t :=
  mk (_doShutdownAfterMoveCompletes st) (_doExitEventLoopAfterMoveCompletes st)
     (_doBufferMoves st) (_positionMode st) (_extruderPosMode st) (unitMode st) (_destMm st)
     (_destMoveRatePrimitive st) (_hostZeroOffset st) (_isHoming st) (_isHomed st)
     (_isWaitingForHotend st) (_lastMotionPlannedTime st) (_isRootComPersistent st)
     (gcodeFileStack st) v (_motionPlanner st) (ioDrivers st) (logFlags st).
Definition set_motionPlanner (st : t) (v : Planner) : t :=
  mk (_doShutdownAfterMoveCompletes st) (_doExitEventLoopAfterMoveCompletes st)
     (_doBufferMoves st) (_positionMode st) (_extruderPosMode st) (unitMode st) (_destMm st)
     (_destMoveRatePrimitive st) (_hostZeroOffset st) (_isHoming st) (_isHomed st)
     (_isWaitingForHotend st) (_lastMotionPlannedTime st) (_isRootComPersistent st)
     (gcodeFileStack st) (scheduler st) v (ioDrivers st) (logFlags st).
Definition set_ioDrivers (st : t) (v : IoDrivers) : t :=
  mk (_doShutdownAfterMoveCompletes st) (_doExitEventLoopAfterMoveCompletes st)
     (_doBufferMoves st) (_positionMode st) (_extruderPosMode st) (unitMode st) (_destMm st)
     (_destMoveRatePrimitive st) (_hostZeroOffset st) (_isHoming st) (_isHomed st)
     (_isWaitingForHotend st) (_lastMotionPlannedTime st) (_isRootComPersistent st)
     (gcodeFileStack st) (scheduler st) (_motionPlanner st) v (logFlags st).
Definition set_logFlags (st : t) (v : bool * bool * bool) : t :=
  mk (_doShutdownAfterMoveCompletes st) (_doExitEventLoopAfterMoveCompletes st)
     (_doBufferMoves st) (_positionMode st) (_extruderPosMode st) (unitMode st) (_destMm st)
     (_destMoveRatePrimitive st) (_hostZeroOffset st) (_isHoming st) (_isHomed st)
     (_isWaitingForHotend st) (_lastMotionPlannedTime st) (_isRootComPersistent st)
     (gcodeFileStack st) (scheduler st) (_motionPlanner st) (ioDrivers st) v.

(** [setMoveBuffering(doBufferMoves)] *)
Definition setMoveBuffering (st : t) (doBufferMoves : bool) : t :=
  let st := set_doBufferMoves st doBufferMoves in
  if doBufferMoves
  then set_scheduler st (setDefaultMaxSleep (scheduler st))
  else set_scheduler st (setMaxSleep_1ms (scheduler st)).

Definition positionMode (st : t) : PositionMode := _positionMode st.
Definition setPositionMode (st : t) (mode : PositionMode) : t := set_positionMode st mode.
Definition extruderPosMode (st : t) : PositionMode := _extruderPosMode st.
Definition setExtruderPosMode (st : t) (mode : PositionMode) : t := set_extruderPosMode st mode.
Definition setUnitMode (st : t) (mode : LengthUnit) : t := set_unitMode st mode.
Definition destMm (st : t) : Vector4f := _destMm st.
Definition destMoveRatePrimitive (st : t) : float := _destMoveRatePrimitive st.

(** [coordToAbsolute(posUnit)] *)
Definition coordToAbsolute (st : t) (posUnit : Vector4f) : Vector4f :=
  match positionMode st with
  | POS_RELATIVE => v4_add posUnit (destMm st)
  | POS_ABSOLUTE => posUnit
  end.

(** [coordToMm(coord)] *)
Definition coordToMm (st : t) (coord : Vector4f) : Vector4f :=
  match unitMode st with
  | UNIT_IN => v4_scale coord MM_PER_IN
  | UNIT_MM => coord
  end.

(** [coordToPrimitive(coord)] *)
Definition coordToPrimitive (st : t) (coord : Vector4f) : Vector4f :=
  v4_add (coordToMm st (coordToAbsolute st coord)) (_hostZeroOffset st).

(** [fUnitToPrimitive(posUnit)] *)
Definition fUnitToPrimitive (st : t) (posUnit : float) : float :=
  v4_x (coordToMm st (mkVector4f (posUnit / of_int 60) zero zero zero)).

(** [setDestMoveRatePrimitive(f)] *)
Definition setDestMoveRatePrimitive (st : t) (f : float) : t :=
  set_destMoveRatePrimitive st (clampMoveRate f).

(** [setHostZeroPos(x, y, z, e)] *)
Definition setHostZeroPos (st : t) (x y z e : float) : t :=
  set_hostZeroOffset st (v4_sub (_destMm st) (mkVector4f x y z e)).

(** [std::max] of two instants *)
Definition std_max_time (a b : Z) : Z := if (a <? b)%Z then b else a.

(** [queueArc(dest, center, isCW)]; [now] is what [EventClockT::now()] returns *)
Definition queueArc (st : t) (now : Z) (dest : Vector4f) (center : Vector3f) (isCW : bool) : t :=
  let st := set_destMm st dest in
  let velXyz := destMoveRatePrimitive st in
  let minExtRate := - maxRetractRate in
  let maxExtRate := maxExtrudeRate in
  let startTime := std_max_time (_lastMotionPlannedTime st) now in
  set_motionPlanner st
    (arcTo (_motionPlanner st) startTime dest center velXyz minExtRate maxExtRate isCW).

(** [queueMovement(dest, velXyz, flags)] *)
Definition queueMovement (st : t) (now : Z) (dest : Vector4f) (velXyz : option float)
    (flags : MotionFlags) : t :=
  let st := set_destMm st dest in
  let minExtRate := - maxRetractRate in
  let maxExtRate := maxExtrudeRate in
  let startTime := std_max_time (_lastMotionPlannedTime st) now in
  set_motionPlanner st
    (moveTo (_motionPlanner st) startTime dest
            (default (destMoveRatePrimitive st) velXyz) minExtRate maxExtRate flags).

(** [_motionPlanner.coordMap().executeHomeRoutine(interface)]: the routine of
    the coordinate map ([coordmap.h] is outside the given sources), which
    drives [State] through [CoordMapInterface]. *)
Variable executeHomeRoutine : t -> HomeOutcome t.

(** [homeEndstops()]: the statements after the home routine are reached only
    when the routine returns. *)
Definition homeEndstops (st : t) : HomeOutcome t :=
  let st := set_isHoming st true in
  let restoreMoveBuffering := _doBufferMoves st in
  let st := setMoveBuffering st false in
  match executeHomeRoutine st with
  | HomeReturns st =>
      let st := setMoveBuffering st restoreMoveBuffering in
      let st := set_isHomed st true in
      HomeReturns (set_isHoming st false)
  | HomeThrows what => HomeThrows what
  | HomeExits status => HomeExits status
  end.

(** [isHotendReady()]: the state it leaves and what it returns *)
Definition isHotendReady (st : t) : t * bool :=
  let st :=
    if _isWaitingForHotend st then
      let current := getHotendTemp (ioDrivers st) in
      let target := getHotendTargetTemp (ioDrivers st) in
      set_isWaitingForHotend st (current <? target)
    else st in
  (st, negb (_isWaitingForHotend st)).

(** [setFanRate(rate)] *)
Definition setFanRate (st : t) (rate : float) : t :=
  let '(io, sch) := setFanDutyCycles rate (ioDrivers st, scheduler st) in
  set_scheduler (set_ioDrivers st io) sch.

Definition getParam (p : option float) : float := default ARG_NOT_PRESENT p.

(** The destination of a G0/G1/G2/G3 command: a coordinate that the command
    gives is converted, one that it omits is the current destination. *)
Definition trueDest (st : t) (cmd : Command) : Vector4f :=
  let cur := destMm st in
  let cmdDest :=
    coordToPrimitive st
      (mkVector4f (getParam (param_X cmd)) (getParam (param_Y cmd))
                  (getParam (param_Z cmd)) (getParam (param_E cmd))) in
  mkVector4f (if has (param_X cmd) then v4_x cmdDest else v4_x cur)
             (if has (param_Y cmd) then v4_y cmdDest else v4_y cur)
             (if has (param_Z cmd) then v4_z cmdDest else v4_z cur)
             (if has (param_E cmd) then v4_e cmdDest else v4_e cur).

(** The checks that open the branches of G0/G1, G2/G3 and G28; when one
    fails [execute] returns without a reply and the command is read again
    later. *)
Definition readyToMove (st : t) : t * bool :=
  if negb (readyForNextMove (_motionPlanner st)) then (st, false)
  else
    let '(st, ready) := isHotendReady st in
    if negb ready then (st, false)
    else if _isHoming st then (st, false)
    else (st, true).

Definition homeBeforeFirstMovement (st : t) : HomeOutcome t :=
  if negb (_isHomed st) && doHomeBeforeFirstMovement (_motionPlanner st)
  then homeEndstops st else HomeReturns st.

Definition setMoveRateOf (st : t) (cmd : Command) : t :=
  match param_F cmd with
  | Some f => setDestMoveRatePrimitive st (fUnitToPrimitive st f)
  | None => st
  end.

(** The branch of G92 *)
Definition executeG92 (st : t) (cmd : Command) : t :=
  if negb (hasAnyXYZEParam cmd) then setHostZeroPos st zero zero zero zero
  else
    let cmdPosMm :=
      coordToMm st
        (mkVector4f (getParam (param_X cmd)) (getParam (param_Y cmd))
                    (getParam (param_Z cmd)) (getParam (param_E cmd))) in
    let curZeroPos := v4_sub (destMm st) (_hostZeroOffset st) in
    let actualX := if has (param_X cmd) then v4_x cmdPosMm else v4_x curZeroPos in
    let actualY := if has (param_Y cmd) then v4_y cmdPosMm else v4_y curZeroPos in
    let actualZ := if has (param_Z cmd) then v4_z cmdPosMm else v4_z curZeroPos in
    let actualE := if has (param_E cmd) then v4_e cmdPosMm else v4_e curZeroPos in
    setHostZeroPos st actualX actualY actualZ actualE.

(** [execute(cmd, reply)] *)
Definition execute (st : t) (now : Z) (cmd : Command) : Outcome t :=
  if isOpcode "G0" cmd || isOpcode "G1" cmd then
    let '(st, ready) := readyToMove st in
    if negb ready then Returns st []
    else
      match homeBeforeFirstMovement st with
      | HomeReturns st =>
          let dest := trueDest st cmd in
          let st := setMoveRateOf st cmd in
          let st := queueMovement st now dest None MOTIONFLAGS_DEFAULT in
          Returns st [Response_Ok]
      | HomeThrows what => Throws what []
      | HomeExits status => Exits status []
      end
  else if isOpcode "G2" cmd || isOpcode "G3" cmd then
    let '(st, ready) := readyToMove st in
    if negb ready then Returns st []
    else
      match homeBeforeFirstMovement st with
      | HomeReturns st =>
          let curZ := v4_z (destMm st) in
          let dest := trueDest st cmd in
          let st := setMoveRateOf st cmd in
          let center :=
            v4_xyz (coordToPrimitive st
                      (mkVector4f (getParam (param_I cmd)) (getParam (param_J cmd))
                                  (getParam (param_K cmd)) zero)) in
          let center := v3_withZ center (if has (param_K cmd) then v3_z center else curZ) in
          let st := queueArc st now dest center (isOpcode "G2" cmd) in
          Returns st [Response_Ok]
      | HomeThrows what => Throws what []
      | HomeExits status => Exits status []
      end
  else if isOpcode "G20" cmd then Returns (setUnitMode st UNIT_IN) [Response_Ok]
  else if isOpcode "G21" cmd then Returns (setUnitMode st UNIT_MM) [Response_Ok]
  else if isOpcode "G28" cmd then
    let '(st, ready) := readyToMove st in
    if negb ready then Returns st []
    else
      (* the reply is sent before homing *)
      match homeEndstops st with
      | HomeReturns st => Returns st [Response_Ok]
      | HomeThrows what => Throws what [Response_Ok]
      | HomeExits status => Exits status [Response_Ok]
      end
  else if isOpcode "G90" cmd then
    Returns (setExtruderPosMode (setPositionMode st POS_ABSOLUTE) POS_ABSOLUTE) [Response_Ok]
  else if isOpcode "G91" cmd then
    Returns (setExtruderPosMode (setPositionMode st POS_RELATIVE) POS_RELATIVE) [Response_Ok]
  else if isOpcode "G92" cmd then Returns (executeG92 st cmd) [Response_Ok]
  else if isOpcode "M0" cmd then
    Returns (set_doShutdownAfterMoveCompletes st true) [Response_Ok]
  else if isOpcode "M17" cmd then
    Returns (set_ioDrivers st (lockAllAxis (ioDrivers st))) [Response_Ok]
  else if isOpcode "M18" cmd then
    Returns (set_ioDrivers st (unlockAllAxis (ioDrivers st))) [Response_Ok]
  else if isOpcode "M21" cmd then Returns st [Response_Ok]
  else if isOpcode "M22" cmd then Returns st [Response_Ok]
  else if isOpcode "M32" cmd then
    Returns (set_gcodeFileStack st
               (gcodeFileStack st ++ [openGcodeFile (specialStringParam cmd)]))
            [Response_Ok]
  else if isOpcode "M82" cmd then Returns (setExtruderPosMode st POS_ABSOLUTE) [Response_Ok]
  else if isOpcode "M83" cmd then Returns (setExtruderPosMode st POS_RELATIVE) [Response_Ok]
  else if isOpcode "M84" cmd then
    Returns (set_ioDrivers st (unlockAllAxis (ioDrivers st))) [Response_Ok]
  else if isOpcode "M99" cmd then
    match gcodeFileStack st with
    | [] => Returns (set_doShutdownAfterMoveCompletes st true) [Response_Ok]
    | _ => Returns (set_gcodeFileStack st (removelast (gcodeFileStack st))) [Response_Ok]
    end
  else if isOpcode "M104" cmd then
    match param_S cmd with
    | Some t => Returns (set_ioDrivers st (setHotendTemp (ioDrivers st) t)) [Response_Ok]
    | None => Returns st [Response_Ok]
    end
  else if isOpcode "M105" cmd then
    let t := getHotendTemp (ioDrivers st) in
    let b := getBedTemp (ioDrivers st) in
    Returns st [ResponseOk [("T", to_string t); ("B", to_string b)]%string]
  else if isOpcode "M106" cmd then
    let s := default (of_int 1) (param_S cmd) in
    let s := if s >? of_int 1
             then F64.to_float (F64.of_float s / F64.of_int 256)%f64 else s in
    Returns (setFanRate st s) [Response_Ok]
  else if isOpcode "M107" cmd then Returns (setFanRate st zero) [Response_Ok]
  else if isOpcode "M109" cmd then
    let st :=
      match param_S cmd with
      | Some t => set_ioDrivers st (setHotendTemp (ioDrivers st) t)
      | None => st
      end in
    Returns (set_isWaitingForHotend st true) [Response_Ok]
  else if isOpcode "M110" cmd then Returns st [Response_Ok]
  else if isOpcode "M111" cmd then
    let bitfield := float_to_int (getParam (param_S cmd)) in
    Returns (set_logFlags st (negb (Z.land bitfield 1 =? 0)%Z,
                              negb (Z.land bitfield 2 =? 0)%Z,
                              negb (Z.land bitfield 4 =? 0)%Z))
            [Response_Ok]
  else if isOpcode "M112" cmd then Exits 1 [Response_Ok]
  else if isOpcode "M115" cmd then
    Returns st [ResponseOk [("FIRMWARE_NAME", "printipi");
                            ("FIRMWARE_URL", "githum.com/Wallacoloo/printipi")]%string]
  else if isOpcode "M116" cmd then Returns (set_isWaitingForHotend st true) [Response_Ok]
  else if isOpcode "M117" cmd then Returns st [Response_Ok]
  else if isOpcode "M140" cmd then
    match param_S cmd with
    | Some t => Returns (set_ioDrivers st (setBedTemp (ioDrivers st) t)) [Response_Ok]
    | None => Returns st [Response_Ok]
    end
  else if isTxxx cmd then Returns st [Response_Ok]
  else Throws ("unrecognized gcode opcode: '" ++ opcode cmd ++ "'")%string [].

End State.

End State.

(** * state.h: State::onIdleCpu, the block that hands the next event to the scheduler *)

Module StateEvents.

Import State.

Section Events.

Context {Planner Com Sched IoDrivers : Type}.
(** [OutputEvent] ([outputevent.h] is outside the given sources), with its
    members [isNull()] and [time()] *)
Context {OutputEvent : Type}.
Variable isNull : OutputEvent -> bool.
Variable time : OutputEvent -> Z.
(** the scheduler *)
Variable isRoomInBuffer : Sched -> bool.
Variable queue : Sched -> OutputEvent -> Sched.
Variable exitEventLoop : Sched -> Sched.
(** [iodrv::IODriver::tuplePeekNextEvent] and [tupleConsumeNextEvent] *)
Variable tuplePeekNextEvent : IoDrivers -> IoDrivers * OutputEvent.
Variable tupleConsumeNextEvent : IoDrivers -> IoDrivers.
(** [peekNextEvent] and [consumeNextEvent] of the motion planner *)
Variable peekNextEvent : Planner -> Planner * OutputEvent.
Variable consumeNextEvent : Planner -> Planner.

Local Abbreviation state :=
  (State.t (Planner:=Planner) (Com:=Com) (Sched:=Sched) (IoDrivers:=IoDrivers)).

Definition set_doExitEventLoopAfterMoveCompletes (st : state) (v : bool) : state :=
  mk (_doShutdownAfterMoveCompletes st) v (_doBufferMoves st) (_positionMode st)
     (_extruderPosMode st) (unitMode st) (_destMm st) (_destMoveRatePrimitive st)
     (_hostZeroOffset st) (_isHoming st) (_isHomed st) (_isWaitingForHotend st)
     (_lastMotionPlannedTime st) (_isRootComPersistent st) (gcodeFileStack st) (scheduler st)
     (_motionPlanner st) (ioDrivers st) (logFlags st).
Definition set_lastMotionPlannedTime (st : state) (v : Z) : state :=
  mk (_doShutdownAfterMoveCompletes st) (_doExitEventLoopAfterMoveCompletes st)
     (_doBufferMoves st) (_positionMode st) (_extruderPosMode st) (unitMode st) (_destMm st)
     (_destMoveRatePrimitive st) (_hostZeroOffset st) (_isHoming st) (_isHomed st)
     (_isWaitingForHotend st) v (_isRootComPersistent st) (gcodeFileStack st) (scheduler st)
     (_motionPlanner st) (ioDrivers st) (logFlags st).

(** How the block ends: [onIdleCpu] goes on to the communication channels
    with [motionNeedsCpu], or returns false at once. *)
Inductive Next : Type :=
| GoesOn (motionNeedsCpu : bool)
| ReturnsFalse.

(** The first block of [onIdleCpu(interval)], from the test of
    [scheduler.isRoomInBuffer()] to its end; [now] is what
    [EventClockT::now()] returns. *)
Definition onIdleCpu_events (st : state) (now : Z) : state * Next :=
  if isRoomInBuffer (scheduler st) then
    let '(io, ioDriverEvt) := tuplePeekNextEvent (ioDrivers st) in
    let st := set_ioDrivers st io in
    let '(pl, motionEvt) := peekNextEvent (_motionPlanner st) in
    let st := set_motionPlanner st pl in
    let doServiceIoDriver :=
      negb (isNull ioDriverEvt)
      && (isNull motionEvt || (time ioDriverEvt <=? time motionEvt)) in
    let '(st, motionNeedsCpu) :=
      if doServiceIoDriver then
        let st := set_scheduler st (queue (scheduler st) ioDriverEvt) in
        (set_ioDrivers st (tupleConsumeNextEvent (ioDrivers st)), false)
      else if _doBufferMoves st || (_lastMotionPlannedTime st <=? now) then
        if negb (isNull motionEvt) then
          let st := set_motionPlanner st (consumeNextEvent (_motionPlanner st)) in
          let st := set_scheduler st (queue (scheduler st) motionEvt) in
          let st := set_lastMotionPlannedTime st (time motionEvt) in
          (st, isRoomInBuffer (scheduler st))
        else (st, false)
      else (st, false) in
    let '(pl, evt) := peekNextEvent (_motionPlanner st) in
    let st := set_motionPlanner st pl in
    if isNull evt then
      if (_doShutdownAfterMoveCompletes st || _doExitEventLoopAfterMoveCompletes st)
         && negb motionNeedsCpu
      then
        let st := set_doExitEventLoopAfterMoveCompletes st false in
        (set_scheduler st (exitEventLoop (scheduler st)), ReturnsFalse)
      else (st, GoesOn motionNeedsCpu)
    else (st, GoesOn motionNeedsCpu)
  else (st, GoesOn false).

End Events.

End StateEvents.

(** * code/firmware/src/state.h: the arithmetic of the earlier State::queueMovement *)

Module LegacyState.

Import F32.
Local Open Scope f32_scope.

Section Legacy.

(** [mathutil::NANOSECOND] and [driver.clampExtrusionRate] *)
Variable NANOSECOND : float.
Variable clampExtrusionRate : float -> float.

Record Velocities : Type := mkVelocities {
  v_duration0 : float;   (* std::max(NANOSECOND, dist/velXYZ) *)
  v_duration : float;
  v_velE : float;
  v_vx : float;
  v_vy : float;
  v_vz : float
}.

Definition queueMovement_velocities (curX curY curZ curE x y z e velXYZ : float) : Velocities :=
  let distSq := (x - curX) * (x - curX) + (y - curY) * (y - curY) + (z - curZ) * (z - curZ) in
  let dist := sqrt distSq in
  let duration0 := std_max NANOSECOND (dist / velXYZ) in
  let velE0 := (e - curE) / duration0 in
  let newVelE := clampExtrusionRate velE0 in
  let '(velE, duration) :=
    if velE0 !=? newVelE then (newVelE, (e - curE) / newVelE) else (velE0, duration0) in
  mkVelocities duration0 duration velE
    ((x - curX) / duration) ((y - curY) / duration) ((z - curZ) / duration).

End Legacy.

End LegacyState.

(** * code/firmware/src/state.h: positions and units in the earlier State *)

Module LegacyUnits.

Import F32.
Local Open Scope f32_scope.

(** [PositionMode] as this file uses it ([typesettings.h] is outside the
    given sources): the constructor leaves the mode of the extruder
    undefined. *)
Inductive PositionMode : Type := POS_ABSOLUTE | POS_RELATIVE | POS_UNDEFINED.

Section Legacy.

(** [mathutil::MM_PER_IN], and [clampMoveRate] and [defaultMoveRate] of the driver *)
Variable MM_PER_IN : float.
Variable clampMoveRate : float -> float.
Variable defaultMoveRate : float.

(** the members that hold positions and units *)
Record t : Type := mk {
  _positionMode : PositionMode;
  _extruderPosMode : PositionMode;
  unitMode : LengthUnit;
  _destXPrimitive : float;
  _destYPrimitive : float;
  _destZPrimitive : float;
  _destEPrimitive : float;
  _destMoveRatePrimitive : float;
  _hostZeroX : float;
  _hostZeroY : float;
  _hostZeroZ : float;
  _hostZeroE : float;
  _destMechanicalPos : list Z
}.

(** [setDestMoveRatePrimitive(f)] *)
Definition setDestMoveRatePrimitive (st : t) (f : float) : t :=
  mk (_positionMode st) (_extruderPosMode st) (unitMode st) (_destXPrimitive st)
     (_destYPrimitive st) (_destZPrimitive st) (_destEPrimitive st) (clampMoveRate f)
     (_hostZeroX st) (_hostZeroY st) (_hostZeroZ st) (_hostZeroE st) (_destMechanicalPos st).

(** the constructor, for a machine of [numAxis] axes; [rate0] stands for the
    value of [_destMoveRatePrimitive] before the body sets it *)
Definition init (numAxis : nat) (rate0 : float) : t :=
  setDestMoveRatePrimitive
    (mk POS_ABSOLUTE POS_UNDEFINED UNIT_MM zero zero zero zero rate0 zero zero zero zero
        (replicate numAxis 0%Z))
    defaultMoveRate.

Definition positionMode (st : t) : PositionMode := _positionMode st.

Definition setPositionMode (st : t) (mode : PositionMode) : t :=
  mk mode (_extruderPosMode st) (unitMode st) (_destXPrimitive st)
     (_destYPrimitive st) (_destZPrimitive st) (_destEPrimitive st) (_destMoveRatePrimitive st)
     (_hostZeroX st) (_hostZeroY st) (_hostZeroZ st) (_hostZeroE st) (_destMechanicalPos st).

(** [extruderPosMode()] *)
Definition extruderPosMode (st : t) : PositionMode :=
  match _extruderPosMode st with
  | POS_UNDEFINED => positionMode st
  | m => m
  end.

Definition setExtruderPosMode (st : t) (mode : PositionMode) : t :=
  mk (_positionMode st) mode (unitMode st) (_destXPrimitive st)
     (_destYPrimitive st) (_destZPrimitive st) (_destEPrimitive st) (_destMoveRatePrimitive st)
     (_hostZeroX st) (_hostZeroY st) (_hostZeroZ st) (_hostZeroE st) (_destMechanicalPos st).

Definition setUnitMode (st : t) (mode : LengthUnit) : t :=
  mk (_positionMode st) (_extruderPosMode st) mode (_destXPrimitive st)
     (_destYPrimitive st) (_destZPrimitive st) (_destEPrimitive st) (_destMoveRatePrimitive st)
     (_hostZeroX st) (_hostZeroY st) (_hostZeroZ st) (_hostZeroE st) (_destMechanicalPos st).

(** [xUnitToAbsolute(posUnit)] and the three like it *)
Definition xUnitToAbsolute (st : t) (posUnit : float) : float :=
  match positionMode st with
  | POS_RELATIVE => posUnit + _destXPrimitive st
  | _ => posUnit
  end.
Definition yUnitToAbsolute (st : t) (posUnit : float) : float :=
  match positionMode st with
  | POS_RELATIVE => posUnit + _destYPrimitive st
  | _ => posUnit
  end.
Definition zUnitToAbsolute (st : t) (posUnit : float) : float :=
  match positionMode st with
  | POS_RELATIVE => posUnit + _destZPrimitive st
  | _ => posUnit
  end.
Definition eUnitToAbsolute (st : t) (posUnit : float) : float :=
  match extruderPosMode st with
  | POS_RELATIVE => posUnit + _destEPrimitive st
  | _ => posUnit
  end.

(** [posUnitToMM(posUnit)] *)
Definition posUnitToMM (st : t) (posUnit : float) : float :=
  match unitMode st with
  | UNIT_IN => MM_PER_IN * posUnit
  | UNIT_MM => posUnit
  end.

(** [xUnitToPrimitive(posUnit)] and the three like it *)
Definition xUnitToPrimitive (st : t) (posUnit : float) : float :=
  posUnitToMM st (xUnitToAbsolute st posUnit) + _hostZeroX st.
Definition yUnitToPrimitive (st : t) (posUnit : float) : float :=
  posUnitToMM st (yUnitToAbsolute st posUnit) + _hostZeroY st.
Definition zUnitToPrimitive (st : t) (posUnit : float) : float :=
  posUnitToMM st (zUnitToAbsolute st posUnit) + _hostZeroZ st.
Definition eUnitToPrimitive (st : t) (posUnit : float) : float :=
  posUnitToMM st (eUnitToAbsolute st posUnit) + _hostZeroE st.

(** [fUnitToPrimitive(posUnit)] *)
Definition fUnitToPrimitive (st : t) (posUnit : float) : float :=
  posUnitToMM st (posUnit / of_int 60).

Definition destXPrimitive (st : t) : float := _destXPrimitive st.
Definition destYPrimitive (st : t) : float := _destYPrimitive st.
Definition destZPrimitive (st : t) : float := _destZPrimitive st.
Definition destEPrimitive (st : t) : float := _destEPrimitive st.
Definition destMoveRatePrimitive (st : t) : float := _destMoveRatePrimitive st.

(** [setHostZeroPos(x, y, z, e)] *)
Definition setHostZeroPos (st : t) (x y z e : float) : t :=
  mk (_positionMode st) (_extruderPosMode st) (unitMode st) (_destXPrimitive st)
     (_destYPrimitive st) (_destZPrimitive st) (_destEPrimitive st) (_destMoveRatePrimitive st)
     (destXPrimitive st - x) (destYPrimitive st - y) (destZPrimitive st - z)
     (destEPrimitive st - e) (_destMechanicalPos st).

End Legacy.

End LegacyUnits.

(** * State over the planner of motion/motionplanner.h *)

(** [State] passes the destination as a vector and passes motion flags, which
    this planner does not take; [arcTo] and [doHomeBeforeFirstMovement] are
    not members of this planner and stay variables. *)
Section StateOverPlanner.

Context {Stepper HomeStepper Accel : Type}.
Context `{AxisStepper Stepper} `{AxisStepper HomeStepper} `{AccelerationProfile Accel}.
Variable CoordMapT : CoordMap.
Variable toDuration : F32.float -> Z.
Variable initAxisSteppers :
  list Stepper -> list Z -> F32.float -> F32.float -> F32.float -> F32.float -> list Stepper.
Variable planner_arcTo :
  MotionPlanner.t (Stepper:=Stepper) (HomeStepper:=HomeStepper) (Accel:=Accel) ->
  Z -> Vector4f -> Vector3f -> F32.float -> F32.float -> F32.float -> bool ->
  MotionPlanner.t (Stepper:=Stepper) (HomeStepper:=HomeStepper) (Accel:=Accel).
Variable planner_doHomeBeforeFirstMovement : bool.

#[export] Instance MotionPlanner_MotionPlannerT :
  State.MotionPlannerT
    (MotionPlanner.t (Stepper:=Stepper) (HomeStepper:=HomeStepper) (Accel:=Accel)) unit := {
  State.readyForNextMove := MotionPlanner.readyForNextMove;
  State.doHomeBeforeFirstMovement := fun _ => planner_doHomeBeforeFirstMovement;
  State.moveTo := fun p startTime dest velXyz minVelE maxVelE _ =>
    MotionPlanner.moveTo CoordMapT initAxisSteppers p startTime
      (v4_x dest) (v4_y dest) (v4_z dest) (v4_e dest) velXyz minVelE maxVelE;
  State.arcTo := planner_arcTo
}.

End StateOverPlanner.

(** * code/proof-of-concept/DMA/dma-gpio.c *)

Module DmaGpio.

(** A [uint32_t] is a [Z] in [0, 2^32). *)
Definition uint32 (z : Z) : Z := z mod 2 ^ 32.

(** [~mask] *)
Definition not32 (mask : Z) : Z := Z.lxor mask (2 ^ 32 - 1).

(** [writeBitmasked(dest, mask, value)]: [cur] is the word read from [dest];
    the result is the words written to [dest], in order.  [dest] is volatile,
    and both writes take place. *)
Definition writeBitmasked (cur mask value : Z) : list Z :=
  let new := Z.lor (Z.land cur (not32 mask)) (Z.land value mask) in
  [new; new].

Definition TIMER_CLO : Z := 0x00000004.
Definition TIMER_CHI : Z := 0x00000008.

(** [readSysTime(timerBaseMem)]: [mem i] is the word at [timerBaseMem + i];
    the sum is taken in [uint64_t]. *)
Definition readSysTime (mem : Z -> Z) : Z :=
  (Z.shiftl (mem (TIMER_CHI / 4)) 32 mod 2 ^ 64 + mem (TIMER_CLO / 4)) mod 2 ^ 64.

End DmaGpio.

(** * A linear delta machine *)

(** Modelled from the spec: a machine to evaluate the definitions on, with
    the geometry of the spec's delta scenario, "r=100, L=250", one hundredth
    of a millimetre per step, no acceleration ("Default NoAcceleration:
    identity"), no bed levelling ("identity by default") and an event clock
    that counts nanoseconds. *)
Module Kossel.

Import F32.

(** [NoAcceleration] *)
#[export] Instance NoAcceleration : AccelerationProfile unit := {
  accel_begin := fun a _ _ => a;
  accel_transform := fun _ t => t
}.

Definition axisIndex (a : DeltaAxis) : nat :=
  match a with DELTA_AXIS_A => 0 | DELTA_AXIS_B => 1 | DELTA_AXIS_C => 2 end.

(** The carriages stand at 22913 steps, 229.13 mm, when the effector is at
    the centre of the bed, the only position the examples start from. *)
Definition centre : list Z := [22913; 22913; 22913; 0].

Definition deltaMap : DeltaMap := {|
  map_r := of_int 100;
  map_L := of_int 250;
  map_MM_STEPS := fun _ => (of_int 1 / of_int 100)%f32;
  map_getAxisPosition := fun pos a => nth (axisIndex a) pos 0;
  map_xyzeFromMechanical := fun _ => (zero, zero, zero, zero)
|}.

Definition coordMap : CoordMap := {|
  getHomePosition := fun _ => [50000; 50000; 50000; 0];
  xyzeFromMechanical := map_xyzeFromMechanical deltaMap;
  applyLeveling := fun xyz => xyz;
  bound := fun xyze => xyze
|}.

(** [initAxisSteppers]: each stepper is constructed for the segment and
    computes its first step. *)
Definition initAxisSteppers (iters : list LinearDeltaStepper.t) (curPos : list Z)
    (vx vy vz ve : float) : list LinearDeltaStepper.t :=
  imap (fun i old =>
          let axis := match i with O => DELTA_AXIS_A | S O => DELTA_AXIS_B | _ => DELTA_AXIS_C end in
          LinearDeltaStepper._nextStep
            (LinearDeltaStepper.make axis i deltaMap curPos vx vy vz ve
               (LinearDeltaStepper.direction old)))
       iters.

(** a stepper as the default constructor can leave it, for the towers A, B,
    C: the constructor sets [_r], [_L] and [_MM_STEPS] to 0 and leaves the
    other members unset; they are taken to be zero here *)
Definition stepper0 (i : nat) : LinearDeltaStepper.t :=
  LinearDeltaStepper.mk i zero StepForward zero zero zero zero 0 zero zero zero zero zero.

(** truncation of [M * 2^e] *)
Definition scaled (M e : Z) : Z := if (0 <=? e)%Z then M * 2 ^ e else M / 2 ^ (- e).

Definition saturate (z : Z) : Z := Z.max (- 2 ^ 63) (Z.min (2 ^ 63 - 1) z).

(** seconds to nanoseconds: truncated towards zero, saturated to 64 bits *)
Definition toNanos (x : float) : Z :=
  match val x with
  | S754_zero _ | S754_nan => 0
  | S754_infinity s => if s then - 2 ^ 63 else 2 ^ 63 - 1
  | S754_finite s m e => saturate (cond_Zopp s (scaled (Zpos m * 10 ^ 9) e))
  end.

Definition planner : Type :=
  MotionPlanner.t (Stepper:=LinearDeltaStepper.t) (HomeStepper:=LinearDeltaStepper.t)
                  (Accel:=unit).

(** the planner of a machine at rest at the centre *)
Definition planner0 : planner :=
  MotionPlanner.set_destMechanicalPos
    (MotionPlanner.init tt 4 [stepper0 0; stepper0 1; stepper0 2] [stepper0 0; stepper0 1; stepper0 2])
    centre.

(** a move of 10 mm along x at 10 mm/s that begins at the instant [1000000] *)
Definition planner1 : planner :=
  MotionPlanner.moveTo coordMap initAxisSteppers planner0 1000000
    (of_int 10) zero zero zero (of_int 10) (of_int (-5)) (of_int 5).

End Kossel.

(** * Properties *)

(** ** Comparisons of [float]s *)

Module F32Facts.

Import F32.
Local Open Scope f32_scope.

Lemma ltb_irrefl (x : float) : (x <? x) = false.
Proof. apply IEEE754.SFltb_irrefl. Qed.

Lemma ltb_trans (x y z : float) : (x <? y) = true -> (y <? z) = true -> (x <? z) = true.
Proof. apply IEEE754.SFltb_trans. Qed.

Lemma ltb_asym (x y : float) : (x <? y) = true -> (y <? x) = false.
Proof. apply IEEE754.SFltb_asym. Qed.

Lemma ltb_not_nan (x y : float) : (x <? y) = true -> isnan x = false /\ isnan y = false.
Proof. apply IEEE754.SFltb_not_nan. Qed.

Lemma ltb_nan_l (x y : float) : isnan x = true -> (x <? y) = false.
Proof.
  intros Hn. destruct (x <? y) eqn:E; [|reflexivity].
  apply ltb_not_nan in E. destruct E as [E _]. congruence.
Qed.

Lemma ltb_nan_r (x y : float) : isnan y = true -> (x <? y) = false.
Proof.
  intros Hn. destruct (x <? y) eqn:E; [|reflexivity].
  apply ltb_not_nan in E. destruct E as [_ E]. congruence.
Qed.

Lemma leb_not_nan (x y : float) : (x <=? y) = true -> isnan x = false /\ isnan y = false.
Proof.
  unfold leb, IEEE754.Bleb, isnan, IEEE754.Bis_nan. rewrite IEEE754.SFleb_key.
  intros (a & b & Ha & Hb & _).
  destruct (IEEE754.bval _ _ x), (IEEE754.bval _ _ y); simpl in *; try discriminate; auto.
Qed.

Lemma leb_total (x y : float) : isnan x = false -> isnan y = false ->
  (y <? x) = false -> (x <=? y) = true.
Proof. apply IEEE754.SFleb_total. Qed.

Lemma leb_not_ltb (x y : float) : (x <=? y) = true -> (y <? x) = false.
Proof. apply IEEE754.SFleb_not_ltb. Qed.

Lemma leb_refl (x : float) : isnan x = false -> (x <=? x) = true.
Proof. intros Hx. apply leb_total; auto using ltb_irrefl. Qed.

Lemma leb_trans (x y z : float) : (x <=? y) = true -> (y <=? z) = true -> (x <=? z) = true.
Proof. apply IEEE754.SFleb_trans. Qed.

Lemma ltb_leb (x y : float) : (x <? y) = true -> (x <=? y) = true.
Proof. apply IEEE754.SFltb_leb. Qed.

Lemma ltb_leb_trans (x y z : float) : (x <? y) = true -> (y <=? z) = true -> (x <? z) = true.
Proof. apply IEEE754.SFltb_leb_trans. Qed.

Lemma leb_ltb_trans (x y z : float) : (x <=? y) = true -> (y <? z) = true -> (x <? z) = true.
Proof. apply IEEE754.SFleb_ltb_trans. Qed.

(** Two floats that compare equal and are not zero are the same value. *)
Lemma eqb_eq_pos (x y : float) : (x =? y) = true -> (zero <? x) = true -> x = y.
Proof.
  intros He Hp. apply ext. unfold val.
  destruct (IEEE754.SFeqb_eq _ _ He) as [E|(s & s' & E1 & E2)]; [exact E|].
  unfold ltb, IEEE754.Bltb in Hp. rewrite E1 in Hp. destruct s; discriminate.
Qed.

Lemma leb_cases (x y : float) : (x <=? y) = true -> (x <? y) = true \/ (x =? y) = true.
Proof.
  unfold leb, ltb, eqb, IEEE754.Bleb, IEEE754.Bltb, IEEE754.Beqb.
  rewrite IEEE754.SFleb_ltb_eqb. apply orb_true_iff.
Qed.

(** The sum of a value and a non-negative one is not below their difference. *)
Lemma add_sub_order (x r : float) : IEEE754.notneg (val r) -> (x + r <? x - r) = false.
Proof. intros Hr. apply (IEEE754.SFadd_SFsub_order prec emax prec_pos (val x) (val r) Hr). Qed.

Lemma sqrt_notneg (x : float) : IEEE754.notneg (val (sqrt x)).
Proof. apply IEEE754.SFsqrt_notneg. Qed.

(** The difference [x - y] of [x < y] is negative, a zero, or minus infinity. *)
Lemma sub_lt_notpos (x y : float) : (x <? y) = true -> IEEE754.notpos (val (x - y)).
Proof.
  intros Hlt.
  apply (IEEE754.SFsub_lt_notpos prec emax prec_pos (val x) (val y));
    [apply IEEE754.bvalid | apply IEEE754.bvalid | exact Hlt].
Qed.

Lemma notpos_not_above (t x : float) :
  IEEE754.notpos (val x) -> (t <? zero) = false -> (t <? x) = false.
Proof.
  intros Hx Ht. destruct (t <? x) eqn:E; [|reflexivity].
  pose proof (IEEE754.notpos_ltb _ Hx) as Hz.
  destruct (ltb_not_nan _ _ E) as [Nt Nx].
  assert (L : (x <=? zero) = true) by (apply leb_total; auto).
  rewrite (ltb_leb_trans _ _ _ E L) in Ht. discriminate.
Qed.

End F32Facts.

(** ** LinearDeltaStepper *)

Module LinearDeltaStepperFacts.

Import F32 F32Facts LinearDeltaStepper.
Local Open Scope f32_scope.

Lemma testDir_nan_or_later (st : t) (s : float) :
  isnan (testDir st s) = true \/ (time st <? testDir st s) = true.
Proof.
  unfold testDir. destruct (getTerm1AndRootParam st s) as [term1 rp].
  destruct (rp <? zero); [left; reflexivity|].
  unfold gtb.
  destruct (term1 <? sqrt rp).
  - destruct (time st <? term1 + sqrt rp) eqn:E; [right; exact E | left; reflexivity].
  - destruct (time st <? term1 - sqrt rp) eqn:E1; [right; exact E1|].
    destruct (time st <? term1 + sqrt rp) eqn:E2; [right; exact E2 | left; reflexivity].
Qed.

Lemma testDir_negative_discriminant (st : t) (s : float) :
  (rootParam st s <? zero) = true -> testDir st s = NAN.
Proof.
  unfold rootParam, testDir. destruct (getTerm1AndRootParam st s) as [term1 rp]. simpl.
  intros ->. reflexivity.
Qed.

Lemma testDir_smallest_root (st : t) (s : float) :
  (time st <? zero) = false ->
  (rootParam st s <? zero) = false ->
  let '(t1, t2) := roots st s in
  (forall r, r = t1 \/ r = t2 -> (time st <? r) = true ->
     (testDir st s = t1 \/ testDir st s = t2) /\
     (time st <? testDir st s) = true /\
     (testDir st s <=? r) = true) /\
  ((time st <? t1) = false -> (time st <? t2) = false -> testDir st s = NAN).
Proof.
  unfold rootParam, roots, testDir.
  destruct (getTerm1AndRootParam st s) as [term1 rp]. simpl snd.
  intros Ht Hrp. rewrite Hrp. unfold gtb.
  set (root := sqrt rp). set (t1 := term1 - root). set (t2 := term1 + root).
  pose proof (add_sub_order term1 root (sqrt_notneg rp)) as Hord. fold t1 t2 in Hord.
  destruct (term1 <? root) eqn:Hbr.
  - (* root > term1: the smaller root is not positive *)
    pose proof (notpos_not_above (time st) t1 (sub_lt_notpos _ _ Hbr) Ht) as H1.
    split.
    + intros r [-> | ->] Hr; [congruence|].
      rewrite Hr. repeat split; auto.
      apply leb_refl. apply (ltb_not_nan _ _ Hr).
    + intros _ ->. reflexivity.
  - split.
    + intros r Hr Hlt. destruct (time st <? t1) eqn:E1.
      * repeat split; auto. destruct Hr as [-> | ->].
        -- apply leb_refl. apply (ltb_not_nan _ _ E1).
        -- apply leb_total; auto; [apply (ltb_not_nan _ _ E1) | apply (ltb_not_nan _ _ Hlt)].
      * destruct Hr as [-> | ->]; [congruence|].
        rewrite Hlt. repeat split; auto.
        apply leb_refl. apply (ltb_not_nan _ _ Hlt).
    + intros -> ->. reflexivity.
Qed.

(** What [_nextStep] does with the two candidate times. *)
Lemma _nextStep_cases (st : t) :
  let negTime := testDir st (negOffset st) in
  let posTime := testDir st (posOffset st) in
  (isnan negTime = true -> isnan posTime = true -> _nextStep st = with_time st NAN) /\
  (isnan negTime = true -> isnan posTime = false ->
     _nextStep st = with_step st posTime StepForward (wrap_int (sTotal st + 1))) /\
  (isnan negTime = false -> isnan posTime = true ->
     _nextStep st = with_step st negTime StepBackward (wrap_int (sTotal st - 1))) /\
  (isnan negTime = false -> isnan posTime = false ->
     _nextStep st =
       if negTime <? posTime
       then with_step st negTime StepBackward (wrap_int (sTotal st - 1))
       else with_step st posTime StepForward (wrap_int (sTotal st + 1))).
Proof.
  intros negTime posTime. unfold _nextStep. fold (negOffset st) (posOffset st).
  fold negTime posTime. unfold gtb.
  pose proof (testDir_nan_or_later st (negOffset st)) as Hn. fold negTime in Hn.
  pose proof (testDir_nan_or_later st (posOffset st)) as Hp. fold posTime in Hp.
  repeat split; intros En Ep.
  - rewrite En, orb_true_r. rewrite (ltb_nan_r _ _ Ep). reflexivity.
  - rewrite En, orb_true_r. destruct Hp as [Hp|Hp]; [congruence|]. rewrite Hp. reflexivity.
  - destruct Hn as [Hn|Hn]; [congruence|].
    rewrite En, (ltb_asym _ _ Hn). simpl. rewrite Ep, orb_true_r, Hn. reflexivity.
  - destruct Hn as [Hn|Hn]; [congruence|]. destruct Hp as [Hp|Hp]; [congruence|].
    rewrite En, Ep, (ltb_asym _ _ Hn), (ltb_asym _ _ Hp). reflexivity.
Qed.

(** The time that [_nextStep] leaves is NaN or later than the time before. *)
Lemma _nextStep_time (st : t) :
  isnan (time (_nextStep st)) = true \/ (time st <? time (_nextStep st)) = true.
Proof.
  pose proof (_nextStep_cases st) as (C1 & C2 & C3 & C4).
  pose proof (testDir_nan_or_later st (negOffset st)) as Hn.
  pose proof (testDir_nan_or_later st (posOffset st)) as Hp.
  destruct (isnan (testDir st (negOffset st))) eqn:En;
  destruct (isnan (testDir st (posOffset st))) eqn:Ep.
  - rewrite C1 by reflexivity. left; reflexivity.
  - rewrite C2 by reflexivity. destruct Hp as [Hp|Hp]; [discriminate|]. right; exact Hp.
  - rewrite C3 by reflexivity. destruct Hn as [Hn|Hn]; [discriminate|]. right; exact Hn.
  - rewrite C4 by reflexivity.
    destruct Hn as [Hn|Hn]; [discriminate|]. destruct Hp as [Hp|Hp]; [discriminate|].
    destruct (testDir st (negOffset st) <? testDir st (posOffset st)); right; assumption.
Qed.

Lemma _nextStep_time_nonneg (st : t) :
  (time st <? zero) = false -> (time (_nextStep st) <? zero) = false.
Proof.
  intros Ht. destruct (_nextStep_time st) as [Hn|Hl].
  - apply ltb_nan_l; assumption.
  - destruct (time (_nextStep st) <? zero) eqn:E; [|reflexivity].
    rewrite (ltb_trans _ _ _ Hl E) in Ht. discriminate.
Qed.

End LinearDeltaStepperFacts.

(** ** MotionPlanner *)

Module MotionPlannerFacts.

Import F32 F32Facts MotionPlanner.
Local Open Scope f32_scope.

Section GetNextTime.

Context {T : Type} `{AxisStepper T}.

(** [sr] is a stepper of [l] whose time is the least of those that are not NaN. *)
Definition least_time (l : list T) (sr : T) : Prop :=
  forall j s, l !! j = Some s -> isnan (as_time s) = false ->
    isnan (as_time sr) = false /\ (as_time s <? as_time sr) = false.

Lemma getNextTime_from_spec (l : list T) : forall (pre : list T) (best : nat) (sb : T),
  pre !! best = Some sb ->
  least_time pre sb ->
  exists sr, (pre ++ l) !! getNextTime_from (length pre) best (as_time sb) l = Some sr /\
             least_time (pre ++ l) sr.
Proof.
  induction l as [|s l IH]; intros pre best sb Hb Hmin; simpl.
  - exists sb. rewrite app_nil_r. auto.
  - assert (E : pre ++ s :: l = (pre ++ [s]) ++ l) by (rewrite <- app_assoc; reflexivity).
    assert (L : length (pre ++ [s]) = S (length pre)) by (rewrite length_app; simpl; lia).
    destruct ((isnan (as_time sb) && negb (isnan (as_time s))) || (as_time s <? as_time sb)) eqn:C.
    + rewrite E, <- L. apply IH.
      * rewrite lookup_app_r by lia. rewrite Nat.sub_diag. reflexivity.
      * intros j sj Hj Hnan.
        apply lookup_app_Some in Hj. destruct Hj as [Hj|[Hlen Hj]].
        -- destruct (Hmin j sj Hj Hnan) as [Nb Lb].
           rewrite Nb in C. simpl in C.
           split; [apply (ltb_not_nan _ _ C)|].
           destruct (as_time sj <? as_time s) eqn:E2; [|reflexivity].
           rewrite (ltb_trans _ _ _ E2 C) in Lb. discriminate.
        -- destruct (j - length pre)%nat; simpl in Hj; [|destruct n; discriminate].
           inversion Hj; subst sj. split; [exact Hnan | apply ltb_irrefl].
    + rewrite E, <- L. apply IH.
      * apply lookup_app_l_Some. exact Hb.
      * intros j sj Hj Hnan.
        apply lookup_app_Some in Hj. destruct Hj as [Hj|[Hlen Hj]].
        -- exact (Hmin j sj Hj Hnan).
        -- destruct (j - length pre)%nat; simpl in Hj; [|destruct n; discriminate].
           inversion Hj; subst sj.
           apply orb_false_iff in C. destruct C as [C1 C2].
           rewrite Hnan in C1. simpl in C1. rewrite andb_true_r in C1. auto.
Qed.

Lemma getNextTime_spec (l : list T) : l <> [] ->
  exists sr, l !! getNextTime l = Some sr /\ least_time l sr.
Proof.
  destruct l as [|s l]; [congruence|]. intros _. unfold getNextTime.
  apply (getNextTime_from_spec l [s] 0%nat s); [reflexivity|].
  intros j sj Hj Hnan. destruct j; simpl in Hj; [|destruct j; discriminate].
  inversion Hj; subst. split; [exact Hnan | apply ltb_irrefl].
Qed.

End GetNextTime.

Section Facts.

Context {Stepper HomeStepper Accel : Type}.
Context `{AxisStepper Stepper} `{AxisStepper HomeStepper} `{AccelerationProfile Accel}.
Variable CoordMapT : CoordMap.
Variable toDuration : float -> Z.

Local Abbreviation planner := (MotionPlanner.t (Stepper:=Stepper) (HomeStepper:=HomeStepper) (Accel:=Accel)).
Local Abbreviation nextStep := (MotionPlanner.nextStep CoordMapT toDuration).
Local Abbreviation _nextStep := (MotionPlanner._nextStep CoordMapT toDuration).
Local Abbreviation run := (MotionPlanner.run CoordMapT toDuration).

(** the test of [_nextStep]: the move is over for a stepper at time [t] *)
Definition finished (p : planner) (t : float) : bool :=
  (t >? _duration p) || (t <=? zero) || isnan t.

Lemma nextStep_idle (p : planner) : _motionType p = MotionNone -> nextStep p = (p, NullEvent).
Proof. unfold MotionPlanner.nextStep. intros ->. reflexivity. Qed.

Lemma nextStep_moving (p : planner) : _motionType p = MotionMove -> _iters p <> [] ->
  nextStep p = _nextStep p (getNextTime (_iters p)) false.
Proof.
  unfold MotionPlanner.nextStep, isHoming. intros -> Hne.
  destruct (_iters p); [congruence|]. reflexivity.
Qed.

Lemma nextStep_homing (p : planner) : _motionType p = MotionHome -> _homeIters p <> [] ->
  nextStep p = _nextStep p (getNextTime (_homeIters p)) true.
Proof.
  unfold MotionPlanner.nextStep, isHoming. intros -> Hne.
  destruct (_homeIters p); [congruence|]. reflexivity.
Qed.

Lemma _nextStep_finished (p : planner) (idx : nat) (homing : bool) (tm : float) (dir : StepDirection) :
  chosen p idx homing = Some (tm, dir) -> finished p tm = true ->
  _nextStep p idx homing =
    (set_motionType
       (if homing
        then set_destMechanicalPos p (getHomePosition CoordMapT (_destMechanicalPos p))
        else p) MotionNone,
     NullEvent).
Proof.
  unfold MotionPlanner._nextStep, finished. intros -> ->. reflexivity.
Qed.

Lemma _nextStep_step (p : planner) (idx : nat) (s : Stepper) :
  _iters p !! idx = Some s -> finished p (as_time s) = false ->
  _nextStep p idx false =
    (set_iters
       (set_destMechanicalPos p
          (alter (fun v => wrap_int (v + stepDirToSigned (as_direction s))) idx
                 (_destMechanicalPos p)))
       (alter as_nextStep idx (_iters p)),
     StepEvent (_baseTime p + toDuration (accel_transform (_accel p) (as_time s))) idx
               (as_direction s)).
Proof.
  unfold MotionPlanner._nextStep, finished, chosen. intros -> E. simpl.
  rewrite E. reflexivity.
Qed.

(** *** The events of one move segment *)

(** [transform] is strictly increasing on the times that the planner lets
    through, those in (0, duration]. *)
Definition increasing_on (acc : Accel) (dur : float) : Prop :=
  forall t1 t2 : float, (zero <? t1) = true -> (t1 <? t2) = true -> (dur <? t2) = false ->
    (accel_transform acc t1 <? accel_transform acc t2) = true.

(** the conversion to clock ticks keeps the order *)
Definition monotone (conv : float -> Z) : Prop :=
  forall a b : float, (a <? b) = true -> (conv a <= conv b)%Z.

(** each stepper proposes times that strictly increase, until NaN *)
Definition proposes_later (T : Type) `{AxisStepper T} : Prop :=
  forall s : T, isnan (as_time (as_nextStep s)) = true \/
                (as_time s <? as_time (as_nextStep s)) = true.

Lemma not_finished (p : planner) (tm : float) : finished p tm = false ->
  isnan tm = false /\ (zero <? tm) = true /\ (_duration p <? tm) = false.
Proof.
  unfold finished, gtb. intros E.
  apply orb_false_iff in E. destruct E as [E E3].
  apply orb_false_iff in E. destruct E as [E1 E2].
  repeat split; auto.
  destruct (zero <? tm) eqn:E4; [reflexivity|].
  rewrite (leb_total tm zero E3 eq_refl E4) in E2. discriminate.
Qed.

Lemma nextStep_step_inv (p p' : planner) (d : Z) (idx : nat) (dir : StepDirection) :
  _motionType p = MotionMove ->
  nextStep p = (p', StepEvent d idx dir) ->
  exists s, _iters p !! idx = Some s /\
    idx = getNextTime (_iters p) /\
    least_time (_iters p) s /\
    finished p (as_time s) = false /\
    dir = as_direction s /\
    d = (_baseTime p + toDuration (accel_transform (_accel p) (as_time s)))%Z /\
    p' = set_iters
           (set_destMechanicalPos p
              (alter (fun v => wrap_int (v + stepDirToSigned (as_direction s))) idx
                     (_destMechanicalPos p)))
           (alter as_nextStep idx (_iters p)).
Proof.
  intros Hm Hn.
  assert (Hne : _iters p <> []).
  { intros El. unfold MotionPlanner.nextStep, isHoming in Hn. rewrite Hm, El in Hn.
    simpl in Hn. discriminate. }
  rewrite (nextStep_moving p Hm Hne) in Hn.
  destruct (getNextTime_spec (_iters p) Hne) as (sr & Hsr & Hleast).
  destruct (finished p (as_time sr)) eqn:Ef.
  - rewrite (_nextStep_finished p _ false (as_time sr) (as_direction sr)) in Hn;
      [discriminate| |exact Ef].
    unfold chosen. rewrite Hsr. reflexivity.
  - rewrite (_nextStep_step p _ sr Hsr Ef) in Hn. inversion Hn; subst.
    exists sr. split; [exact Hsr|]. split; [reflexivity|]. split; [exact Hleast|].
    split; [exact Ef|]. repeat split.
Qed.

Definition bounded_below (p : planner) (lb : option float) : Prop :=
  match lb with
  | None => True
  | Some m =>
      (zero <? m) = true /\
      forall j s, _iters p !! j = Some s ->
        isnan (as_time s) = true \/ (m <=? as_time s) = true
  end.

Definition after (p : planner) (lb : option float) (e : Event) : Prop :=
  match lb with
  | None => True
  | Some m => (_baseTime p + toDuration (accel_transform (_accel p) m) <= deadline e)%Z
  end.

Lemma run_sorted_from (Hlater : proposes_later Stepper) (Hconv : monotone toDuration) (n : nat) :
  forall (p : planner) (lb : option float),
  _motionType p = MotionMove ->
  increasing_on (_accel p) (_duration p) ->
  bounded_below p lb ->
  Forall (after p lb) (fst (run n p)) /\
  StronglySorted (fun a b => (deadline a <= deadline b)%Z) (fst (run n p)).
Proof.
  induction n as [|n IH]; intros p lb Hm Hinc Hlb; simpl.
  - split; constructor.
  - destruct (MotionPlanner.nextStep CoordMapT toDuration p) as [p' e] eqn:En.
    destruct e as [|d idx dir]; [split; constructor|].
    destruct (nextStep_step_inv p p' d idx dir Hm En)
      as (s & Hs & _ & Hleast & Hfin & Hdir & Hd & Hp').
    destruct (not_finished p _ Hfin) as (Nn & Hpos & Hdur).
    assert (Hb' : bounded_below p' (Some (as_time s))).
    { split; [exact Hpos|]. intros j sj Hj. subst p'. simpl in Hj.
      destruct (Nat.eq_dec idx j) as [<-|Hne].
      - rewrite list_lookup_alter_eq, Hs in Hj. simpl in Hj. inversion Hj; subst sj.
        destruct (Hlater s) as [Hl|Hl]; [left; exact Hl | right; apply ltb_leb; exact Hl].
      - rewrite list_lookup_alter_ne in Hj by exact Hne.
        destruct (isnan (as_time sj)) eqn:Nj; [left; reflexivity|right].
        destruct (Hleast j sj Hj Nj) as [_ Hl]. apply leb_total; auto. }
    assert (Hm' : _motionType p' = MotionMove) by (subst p'; exact Hm).
    assert (Ha' : _accel p' = _accel p) by (subst p'; reflexivity).
    assert (Hd' : _duration p' = _duration p) by (subst p'; reflexivity).
    assert (Hbt' : _baseTime p' = _baseTime p) by (subst p'; reflexivity).
    assert (Hinc' : increasing_on (_accel p') (_duration p')) by (rewrite Ha', Hd'; exact Hinc).
    destruct (IH p' (Some (as_time s)) Hm' Hinc' Hb') as [IH1 IH2].
    destruct (MotionPlanner.run CoordMapT toDuration n p') as [es p''] eqn:Er.
    simpl in IH1, IH2 |- *. unfold after in IH1. rewrite Ha', Hbt', <- Hd in IH1.
    assert (Hhead : after p lb (StepEvent d idx dir)).
    { destruct lb as [m|]; [|exact I]. destruct Hlb as [Hm0 Hall]. simpl.
      destruct (Hall idx s Hs) as [C|C]; [congruence|].
      destruct (leb_cases _ _ C) as [Hlt|Heq].
      - pose proof (Hconv _ _ (Hinc m (as_time s) Hm0 Hlt Hdur)). lia.
      - rewrite (eqb_eq_pos _ _ Heq Hm0). lia. }
    split.
    + constructor; [exact Hhead|].
      eapply Forall_impl; [exact IH1|]. intros e He.
      destruct lb as [m|]; [|exact I]. unfold after in Hhead |- *. simpl in Hhead, He |- *. lia.
    + constructor; [exact IH2|].
      eapply Forall_impl; [exact IH1|]. intros e He. simpl. exact He.
Qed.

End Facts.

End MotionPlannerFacts.

(** ** The reference machine *)

Module KosselFacts.

Import F32 F32Facts Kossel.
Local Open Scope f32_scope.

Lemma NoAcceleration_increasing (dur : float) : MotionPlannerFacts.increasing_on tt dur.
Proof. intros t1 t2 _ Hlt _. exact Hlt. Qed.

Lemma scaled_nonneg (M e : Z) : (0 <= M)%Z -> (0 <= scaled M e)%Z.
Proof.
  intros HM. unfold scaled. destruct (0 <=? e)%Z eqn:E.
  - apply Z.leb_le in E. apply Z.mul_nonneg_nonneg; [lia | apply Z.pow_nonneg; lia].
  - apply Z.leb_gt in E. apply Z.div_pos; [lia | apply Z.pow_pos_nonneg; lia].
Qed.

Lemma scaled_align (M e ez : Z) : (ez <= e)%Z -> (ez <= 0)%Z ->
  scaled M e = (M * 2 ^ (e - ez) / 2 ^ (- ez))%Z.
Proof.
  intros H1 H2. unfold scaled.
  assert (P : (0 < 2 ^ (- ez))%Z) by (apply Z.pow_pos_nonneg; lia).
  destruct (0 <=? e)%Z eqn:E.
  - apply Z.leb_le in E.
    replace (e - ez)%Z with (e + - ez)%Z by lia.
    rewrite Z.pow_add_r by lia. rewrite Z.mul_assoc. rewrite Z.div_mul by lia. reflexivity.
  - apply Z.leb_gt in E.
    replace (- ez)%Z with (- e + (e - ez))%Z at 1 by lia.
    rewrite Z.pow_add_r by lia.
    rewrite Z.div_mul_cancel_r; [reflexivity| |];
      apply Z.neq_sym, Z.lt_neq, Z.pow_pos_nonneg; lia.
Qed.

Lemma scaled_mono (m1 m2 : positive) (e1 e2 : Z) :
  bounded prec emax m1 e1 = true -> bounded prec emax m2 e2 = true ->
  (e1 < e2 \/ (e1 = e2 /\ Zpos m1 < Zpos m2))%Z ->
  (scaled (Zpos m1 * 10 ^ 9) e1 <= scaled (Zpos m2 * 10 ^ 9) e2)%Z.
Proof.
  intros B1 B2 Hlt.
  set (ez := Z.min (Z.min e1 e2) 0).
  pose proof (IEEE754.canonical_lex_lt prec emax prec_pos m1 e1 m2 e2 ez B1 B2 Hlt
                ltac:(lia) ltac:(lia)) as Hv.
  rewrite (scaled_align _ e1 ez) by lia. rewrite (scaled_align _ e2 ez) by lia.
  apply Z.div_le_mono; [apply Z.pow_pos_nonneg; lia|]. nia.
Qed.

Lemma saturate_mono (a b : Z) : (a <= b)%Z -> (saturate a <= saturate b)%Z.
Proof. unfold saturate. lia. Qed.

Lemma saturate_range (a : Z) : (- 2 ^ 63 <= saturate a <= 2 ^ 63 - 1)%Z.
Proof. unfold saturate. lia. Qed.

(** The conversion to nanoseconds keeps the order of the seconds. *)
Lemma toNanos_monotone : MotionPlannerFacts.monotone toNanos.
Proof.
  intros [a Va] [b Vb] Hlt. unfold toNanos, ltb, IEEE754.Bltb, val in *. simpl in *.
  apply IEEE754.SFltb_key in Hlt. destruct Hlt as (ka & kb & Ha & Hb & Hk).
  destruct a as [sa|sa| |sa ma ea], b as [sb|sb| |sb mb eb];
    try destruct sa; try destruct sb; simpl in Ha, Hb; try discriminate;
    inversion Ha; inversion Hb; subst; unfold IEEE754.klt in Hk; try lia;
    repeat match goal with
    | |- context [scaled ?M ?e] =>
        lazymatch goal with
        | _ : (0 <= scaled M e)%Z |- _ => fail
        | _ => pose proof (scaled_nonneg M e ltac:(lia))
        end
    end;
    try (unfold saturate, cond_Zopp; lia).
  - (* both negative *)
    apply saturate_mono. unfold cond_Zopp.
    pose proof (scaled_mono mb ma eb ea Vb Va ltac:(lia)). lia.
  - (* both positive *)
    apply saturate_mono. unfold cond_Zopp.
    pose proof (scaled_mono ma mb ea eb Va Vb ltac:(lia)). lia.
Qed.

(** A positive time is no negative number of nanoseconds. *)
Lemma toNanos_nonneg (t : float) : (zero <? t) = true -> (0 <= toNanos t)%Z.
Proof.
  destruct t as [v Vv]. unfold toNanos, ltb, IEEE754.Bltb, val. simpl.
  destruct v as [s|s| |s m e]; try destruct s; simpl; try discriminate; intros _; try lia.
  pose proof (scaled_nonneg (Zpos m * 10 ^ 9) e ltac:(lia)). unfold saturate. lia.
Qed.

End KosselFacts.

(** * The specification, claim by claim *)

Lemma wrap_int_id (z : Z) : in_int z -> wrap_int z = z.
Proof.
  unfold in_int, INT_MIN, INT_MAX, wrap_int. intros Hz.
  rewrite Z.mod_small by lia. lia.
Qed.

Lemma stepDirToSigned_unit (d : StepDirection) :
  stepDirToSigned d = 1 \/ stepDirToSigned d = -1.
Proof. destruct d; [right | left]; reflexivity. Qed.

Module LinearDeltaStepperSpec.

Import F32 F32Facts LinearDeltaStepper LinearDeltaStepperFacts.
Local Open Scope f32_scope.

(** C2.  A stepper whose time is not negative (the constructor sets it to
    zero, and [_nextStep] keeps it so) tests the offsets of [sTotal-1] and
    [sTotal+1] steps with [testDir].  [testDir] is NaN when the discriminant
    is negative; otherwise it is the least of the two roots that lies
    strictly after [time], and NaN when neither does.  When both candidates
    are NaN the time of the stepper becomes NaN; when one is, the other is
    taken; when neither is, the earlier is taken, the forward step on a tie.
    A backward step decrements [sTotal] and sets [StepBackward], a forward
    step increments it and sets [StepForward]. *)
Theorem stepper_takes_least_later_root (st : t) :
  (time st <? zero) = false ->
  (forall s, (rootParam st s <? zero) = true -> testDir st s = NAN) /\
  (forall s, (rootParam st s <? zero) = false ->
     (forall r, r = fst (roots st s) \/ r = snd (roots st s) -> (time st <? r) = true ->
        (testDir st s = fst (roots st s) \/ testDir st s = snd (roots st s)) /\
        (time st <? testDir st s) = true /\
        (testDir st s <=? r) = true) /\
     ((time st <? fst (roots st s)) = false -> (time st <? snd (roots st s)) = false ->
        testDir st s = NAN)) /\
  (let negTime := testDir st (of_int (wrap_int (sTotal st - 1)) * _MM_STEPS st) in
   let posTime := testDir st (of_int (wrap_int (sTotal st + 1)) * _MM_STEPS st) in
   (isnan negTime = true -> isnan posTime = true -> _nextStep st = with_time st NAN) /\
   (isnan negTime = true -> isnan posTime = false ->
      _nextStep st = with_step st posTime StepForward (wrap_int (sTotal st + 1))) /\
   (isnan negTime = false -> isnan posTime = true ->
      _nextStep st = with_step st negTime StepBackward (wrap_int (sTotal st - 1))) /\
   (isnan negTime = false -> isnan posTime = false ->
      _nextStep st =
        if negTime <? posTime
        then with_step st negTime StepBackward (wrap_int (sTotal st - 1))
        else with_step st posTime StepForward (wrap_int (sTotal st + 1)))) /\
  (time (_nextStep st) <? zero) = false.
Proof.
  intros Ht. split; [|split; [|split]].
  - intros s. apply testDir_negative_discriminant.
  - intros s Hrp. pose proof (testDir_smallest_root st s Ht Hrp) as Hs.
    destruct (roots st s) as [t1 t2]. exact Hs.
  - exact (_nextStep_cases st).
  - apply _nextStep_time_nonneg. exact Ht.
Qed.

(** The stepper of tower A for a move along x at 10 mm/s from the centre. *)
Lemma stepper_takes_least_later_root_witness :
  let st := make DELTA_AXIS_A 0 Kossel.deltaMap Kossel.centre (of_int 10) zero zero zero
                 StepForward in
  (time st <? zero) = false /\ (time (_nextStep st) <? zero) = false.
Proof.
  intros st. split; [reflexivity|].
  apply (stepper_takes_least_later_root st). reflexivity.
Defined.

End LinearDeltaStepperSpec.

Module MotionPlannerSpec.

Import F32 F32Facts MotionPlanner MotionPlannerFacts.
Local Open Scope f32_scope.

Section NextStep.

Context {Stepper HomeStepper Accel : Type}.
Context `{AxisStepper Stepper} `{AxisStepper HomeStepper} `{AccelerationProfile Accel}.
Variable CoordMapT : CoordMap.
Variable toDuration : float -> Z.

Local Abbreviation planner :=
  (MotionPlanner.t (Stepper:=Stepper) (HomeStepper:=HomeStepper) (Accel:=Accel)).
Local Abbreviation nextStep := (MotionPlanner.nextStep CoordMapT toDuration).

(** C10.  [nextStep] on a planner whose motion type is [MotionNone] returns
    the null event and the planner as it was: the mechanical position, the
    base time, the duration and the motion type are those of before, and
    [readyForNextMove] is true afterwards. *)
Theorem nextStep_idle_is_noop (p : planner) :
  _motionType p = MotionNone ->
  snd (nextStep p) = NullEvent /\
  fst (nextStep p) = p /\
  _destMechanicalPos (fst (nextStep p)) = _destMechanicalPos p /\
  _baseTime (fst (nextStep p)) = _baseTime p /\
  _duration (fst (nextStep p)) = _duration p /\
  _motionType (fst (nextStep p)) = MotionNone /\
  readyForNextMove (fst (nextStep p)) = true.
Proof.
  intros Hm. rewrite (nextStep_idle CoordMapT toDuration p Hm). simpl.
  unfold readyForNextMove. rewrite Hm. repeat split.
Qed.

(** C3.  When the stepper that [nextStep] chooses, the one [getNextTime]
    finds among the steppers of the motion in progress, has a time that is
    greater than the duration, NaN, or not above zero, [nextStep] returns the
    null event and a planner whose motion type is [MotionNone]; no position
    is stepped and no stepper is advanced.  If the planner was homing its
    mechanical position is the home position of the coordinate map, and
    otherwise it is unchanged. *)
Theorem finished_stepper_ends_motion (p : planner) (tm : float) (dir : StepDirection) :
  _motionType p <> MotionNone ->
  chosen p (if isHoming p then getNextTime (_homeIters p) else getNextTime (_iters p))
         (isHoming p) = Some (tm, dir) ->
  (tm >? _duration p) = true \/ isnan tm = true \/ (tm <=? zero) = true ->
  snd (nextStep p) = NullEvent /\
  _motionType (fst (nextStep p)) = MotionNone /\
  readyForNextMove (fst (nextStep p)) = true /\
  _destMechanicalPos (fst (nextStep p)) =
    (if isHoming p then getHomePosition CoordMapT (_destMechanicalPos p)
     else _destMechanicalPos p) /\
  _iters (fst (nextStep p)) = _iters p /\
  _homeIters (fst (nextStep p)) = _homeIters p /\
  _baseTime (fst (nextStep p)) = _baseTime p /\
  _duration (fst (nextStep p)) = _duration p.
Proof.
  intros Hm Hc Hfin.
  assert (Ef : finished p tm = true).
  { unfold finished. destruct Hfin as [-> | [-> | ->]];
      rewrite ?orb_true_r; reflexivity. }
  assert (En : nextStep p =
    (set_motionType
       (if isHoming p
        then set_destMechanicalPos p (getHomePosition CoordMapT (_destMechanicalPos p))
        else p) MotionNone, NullEvent)).
  { destruct (_motionType p) eqn:Em; [congruence| |].
    - unfold isHoming in Hc |- *. rewrite Em in Hc |- *.
      assert (Hne : _iters p <> []).
      { intros El. unfold chosen in Hc. rewrite El in Hc. discriminate. }
      rewrite (nextStep_moving CoordMapT toDuration p Em Hne).
      apply (_nextStep_finished CoordMapT toDuration p _ false tm dir Hc Ef).
    - unfold isHoming in Hc |- *. rewrite Em in Hc |- *.
      assert (Hne : _homeIters p <> []).
      { intros El. unfold chosen in Hc. rewrite El in Hc. discriminate. }
      rewrite (nextStep_homing CoordMapT toDuration p Em Hne).
      apply (_nextStep_finished CoordMapT toDuration p _ true tm dir Hc Ef). }
  rewrite En. simpl. destruct (isHoming p); repeat split.
Qed.

End NextStep.

Import Kossel.

(** A planner that is homing with steppers that have no step to take:
    the mechanical position becomes the home position. *)
Lemma finished_stepper_ends_motion_witness :
  let p := MotionPlanner.homeEndstops (fun l _ => l) Kossel.planner0 0 (of_int 10) in
  _motionType (fst (MotionPlanner.nextStep Kossel.coordMap Kossel.toNanos p)) = MotionNone /\
  _destMechanicalPos (fst (MotionPlanner.nextStep Kossel.coordMap Kossel.toNanos p)) =
    [50000; 50000; 50000; 0]%Z.
Proof.
  intros p.
  pose proof (finished_stepper_ends_motion Kossel.coordMap Kossel.toNanos p zero StepForward)
    as Hw.
  destruct Hw as (_ & Hm & _ & Hpos & _).
  - discriminate.
  - reflexivity.
  - right; right; reflexivity.
  - split; [exact Hm | exact Hpos].
Defined.

Lemma nextStep_idle_is_noop_witness :
  fst (MotionPlanner.nextStep Kossel.coordMap Kossel.toNanos Kossel.planner0) = Kossel.planner0.
Proof.
  apply (nextStep_idle_is_noop Kossel.coordMap Kossel.toNanos Kossel.planner0). reflexivity.
Defined.

End MotionPlannerSpec.

Module MoveSegmentSpec.

Import F32 F32Facts MotionPlanner MotionPlannerFacts.
Local Open Scope f32_scope.

Section MoveSegment.

Context {HomeStepper Accel : Type}.
Context `{AxisStepper HomeStepper} `{AccelerationProfile Accel}.
Variable CoordMapT : CoordMap.
Variable toDuration : float -> Z.

Local Abbreviation planner :=
  (MotionPlanner.t (Stepper:=LinearDeltaStepper.t) (HomeStepper:=HomeStepper) (Accel:=Accel)).
Local Abbreviation nextStep := (MotionPlanner.nextStep CoordMapT toDuration).
Local Abbreviation run := (MotionPlanner.run CoordMapT toDuration).

Lemma LinearDeltaStepper_proposes_later : proposes_later LinearDeltaStepper.t.
Proof. intros s. apply LinearDeltaStepperFacts._nextStep_time. Qed.

(** C1.  For a planner of linear delta steppers in a move, with a transform
    that is strictly increasing on the times up to the duration and a
    conversion to clock ticks that keeps the order: the events that any
    number of calls of [nextStep] yield have non-decreasing deadlines.  Each
    step event is that of the stepper [getNextTime] chose; the stepper is
    advanced by [_nextStep], and the time it proposes next is NaN or strictly
    later than the time of the step emitted; the entry of that axis in the
    mechanical position changes by the sign of the step direction, +1 or -1
    (where that is within [int]), and no other entry and no other stepper
    changes; the planner is still in the same move. *)
Theorem move_segment_events (p : planner) :
  _motionType p = MotionMove ->
  increasing_on (_accel p) (_duration p) ->
  monotone toDuration ->
  (forall n, StronglySorted (fun a b => (deadline a <= deadline b)%Z) (fst (run n p))) /\
  (forall p' d idx dir, nextStep p = (p', StepEvent d idx dir) ->
     exists s, _iters p !! idx = Some s /\
       idx = getNextTime (_iters p) /\
       dir = LinearDeltaStepper.direction s /\
       d = (_baseTime p + toDuration (accel_transform (_accel p) (LinearDeltaStepper.time s)))%Z /\
       _iters p' !! idx = Some (LinearDeltaStepper._nextStep s) /\
       (isnan (LinearDeltaStepper.time (LinearDeltaStepper._nextStep s)) = true \/
        (LinearDeltaStepper.time s <? LinearDeltaStepper.time (LinearDeltaStepper._nextStep s))
          = true) /\
       (stepDirToSigned dir = 1 \/ stepDirToSigned dir = -1)%Z /\
       (forall v, _destMechanicalPos p !! idx = Some v ->
          in_int (v + stepDirToSigned dir) ->
          _destMechanicalPos p' !! idx = Some (v + stepDirToSigned dir)%Z) /\
       (forall j, j <> idx -> _destMechanicalPos p' !! j = _destMechanicalPos p !! j) /\
       (forall j, j <> idx -> _iters p' !! j = _iters p !! j) /\
       _motionType p' = MotionMove /\ _accel p' = _accel p /\
       _duration p' = _duration p /\ _baseTime p' = _baseTime p).
Proof.
  intros Hm Hinc Hconv. split.
  - intros n.
    exact (proj2 (run_sorted_from CoordMapT toDuration LinearDeltaStepper_proposes_later
                    Hconv n p None Hm Hinc I)).
  - intros p' d idx dir Hn.
    destruct (nextStep_step_inv CoordMapT toDuration p p' d idx dir Hm Hn)
      as (s & Hs & Hidx & _ & _ & Hdir & Hd & Hp').
    exists s. simpl in Hdir, Hd.
    split; [exact Hs|]. split; [exact Hidx|]. split; [exact Hdir|]. split; [exact Hd|].
    split; [subst p'; simpl; rewrite list_lookup_alter_eq, Hs; reflexivity|].
    split; [apply LinearDeltaStepperFacts._nextStep_time|].
    split; [apply stepDirToSigned_unit|].
    split.
    { intros v Hv Hin. subst p' dir. simpl.
      rewrite list_lookup_alter_eq, Hv. simpl. rewrite wrap_int_id by exact Hin. reflexivity. }
    split.
    { intros j Hj. subst p'. simpl. apply list_lookup_alter_ne. congruence. }
    split.
    { intros j Hj. subst p'. simpl. apply list_lookup_alter_ne. congruence. }
    subst p'. simpl. repeat split. exact Hm.
Qed.

End MoveSegment.

Import Kossel.

(** The first eight events of a move of 10 mm along x from the centre. *)
Lemma move_segment_events_witness :
  StronglySorted (fun a b => (deadline a <= deadline b)%Z)
    (fst (MotionPlanner.run coordMap toNanos 8%nat planner1)).
Proof.
  refine (proj1 (move_segment_events coordMap toNanos planner1 _ _ _) 8%nat).
  - reflexivity.
  - apply KosselFacts.NoAcceleration_increasing.
  - exact KosselFacts.toNanos_monotone.
Defined.

End MoveSegmentSpec.

(** ** More of the arithmetic of [float] *)

Module F32Arith.

Import F32 F32Facts.
Local Open Scope f32_scope.

(** [std::isfinite] *)
Definition is_finite (x : float) : bool :=
  match val x with
  | S754_finite _ _ _ | S754_zero _ => true
  | _ => false
  end.

Lemma eqb_sym (x y : float) : (x =? y) = true -> (y =? x) = true.
Proof.
  unfold eqb, IEEE754.Beqb. rewrite !IEEE754.SFeqb_key.
  intros (a & Ha & Hb). exists a. auto.
Qed.

Lemma eqb_trans (x y z : float) : (x =? y) = true -> (y =? z) = true -> (x =? z) = true.
Proof.
  unfold eqb, IEEE754.Beqb. rewrite !IEEE754.SFeqb_key.
  intros (a & Ha & Hb) (b & Hb' & Hc). exists a. split; [exact Ha|]. congruence.
Qed.

Lemma leb_ltb_eqb (x y : float) : (x <=? y) = (x <? y) || (x =? y).
Proof. apply IEEE754.SFleb_ltb_eqb. Qed.

Lemma leb_not_ltb_eqb (x y : float) : (x <=? y) = true -> (x <? y) = false -> (x =? y) = true.
Proof. rewrite leb_ltb_eqb. intros H1 H2. rewrite H2 in H1. exact H1. Qed.

(** [std::max(lo, std::min(hi, x))] lies between [lo] and [hi] *)
Lemma clamp_range (lo hi x : float) : (lo <=? hi) = true ->
  (lo <=? std_max lo (std_min hi x)) = true /\ (std_max lo (std_min hi x) <=? hi) = true.
Proof.
  intros Hlh. destruct (leb_not_nan _ _ Hlh) as [Nlo Nhi].
  unfold std_max, std_min.
  destruct (x <? hi) eqn:E1.
  - destruct (lo <? x) eqn:E2.
    + split; apply ltb_leb; assumption.
    + split; [apply leb_refl; exact Nlo | exact Hlh].
  - destruct (lo <? hi) eqn:E2.
    + split; [exact Hlh | apply leb_refl; exact Nhi].
    + split; [apply leb_refl; exact Nlo | exact Hlh].
Qed.

(** and is [x], as [==] has it, when [x] lies between them *)
Lemma clamp_inside (lo hi x : float) : (lo <=? x) = true -> (x <=? hi) = true ->
  (x =? std_max lo (std_min hi x)) = true.
Proof.
  intros H1 H2. destruct (leb_not_nan _ _ H1) as [Nlo Nx].
  assert (Exx : (x =? x) = true).
  { pose proof (leb_refl x Nx) as R. rewrite leb_ltb_eqb, ltb_irrefl in R. exact R. }
  unfold std_max, std_min.
  destruct (x <? hi) eqn:E1.
  - destruct (lo <? x) eqn:E2; [exact Exx|].
    apply eqb_sym. apply leb_not_ltb_eqb; assumption.
  - pose proof (leb_not_ltb_eqb _ _ H2 E1) as Exh.
    destruct (lo <? hi) eqn:E2; [exact Exh|].
    apply eqb_trans with hi; [exact Exh|]. apply eqb_sym.
    apply leb_not_ltb_eqb; [|exact E2]. apply leb_trans with x; assumption.
Qed.

Lemma sub_self (x : float) : is_finite x = true -> x - x = zero.
Proof.
  destruct x as [[s|s| |s m e] V]; unfold is_finite; simpl; intros Hf; try discriminate;
    apply ext; unfold sub, val; simpl.
  - destruct s; reflexivity.
  - rewrite Z.sub_diag. reflexivity.
Qed.

Lemma mul_zero : zero * zero = zero.
Proof. apply ext. reflexivity. Qed.

Lemma add_zero : zero + zero = zero.
Proof. apply ext. reflexivity. Qed.

Lemma sqrt_zero : sqrt zero = zero.
Proof. apply ext. reflexivity. Qed.

(** [+0 / m] is [+0] when [m] is positive *)
Lemma div_zero_l (m : float) : (zero <? m) = true -> zero / m = zero.
Proof.
  destruct m as [[s|s| |s m e] V]; unfold ltb, IEEE754.Bltb; simpl; intros H;
    try discriminate; destruct s; try discriminate; apply ext; reflexivity.
Qed.

(** a division by zero does not trap: the quotient is an infinity or NaN *)
Lemma div_zero_r (a : float) : is_finite (a / zero) = false.
Proof. destruct a as [[s|s| |s m e] V]; reflexivity. Qed.

Lemma neb_not_finite (x b : float) :
  is_finite x = false -> is_finite b = true -> (x !=? b) = true.
Proof.
  destruct x as [x Vx], b as [b Vb]. unfold is_finite, neb, eqb, IEEE754.Beqb. simpl.
  intros Hx Hb.
  destruct x as [sx|sx| |sx mx ex]; try discriminate; try reflexivity;
    destruct b as [sb|sb| |sb mb eb]; try discriminate; destruct sx; reflexivity.
Qed.

Lemma not_finite_below (lo hi x : float) :
  is_finite lo = true -> is_finite x = false -> (x <? hi) = true -> (lo <? x) = false.
Proof.
  destruct x as [x Vx], lo as [lo Vl], hi as [hi Vh].
  unfold is_finite, ltb, IEEE754.Bltb. simpl. intros Hlo Hx Hlt.
  destruct x as [sx|sx| |sx mx ex]; try discriminate; destruct sx.
  - destruct lo as [sl|sl| |sl ml el]; try discriminate; destruct sl; reflexivity.
  - destruct hi as [sh|sh| |sh mh eh]; try discriminate; destruct sh; discriminate.
Qed.

(** a value that is not finite is clamped to one of the bounds, and differs
    from it *)
Lemma clamp_not_finite (lo hi x : float) :
  is_finite lo = true -> is_finite hi = true -> is_finite x = false ->
  (std_max lo (std_min hi x) = lo \/ std_max lo (std_min hi x) = hi) /\
  (x !=? std_max lo (std_min hi x)) = true.
Proof.
  intros Hlo Hhi Hx. unfold std_max, std_min.
  destruct (x <? hi) eqn:E1.
  - rewrite (not_finite_below lo hi x Hlo Hx E1).
    split; [left; reflexivity | apply neb_not_finite; assumption].
  - destruct (lo <? hi).
    + split; [right; reflexivity | apply neb_not_finite; assumption].
    + split; [left; reflexivity | apply neb_not_finite; assumption].
Qed.

End F32Arith.

Module MoveToSpec.

Import F32 F32Facts F32Arith MotionPlanner.
Local Open Scope f32_scope.

(** the extrusion rate after the clamp of [moveTo] *)
Definition clamped (minVelE maxVelE velE : float) : float :=
  std_max minVelE (std_min maxVelE velE).

Lemma moveTo_velocities_changed (curX curY curZ curE x y z e maxVelXyz minVelE maxVelE : float) :
  let v := moveTo_velocities curX curY curZ curE x y z e maxVelXyz minVelE maxVelE in
  (v_velE0 v !=? clamped minVelE maxVelE (v_velE0 v)) = true ->
  v_velE v = clamped minVelE maxVelE (v_velE0 v) /\
  v_minDuration v = (e - curE) / clamped minVelE maxVelE (v_velE0 v) /\
  v_maxVelXyz v = v_dist v / v_minDuration v.
Proof.
  unfold moveTo_velocities, clamped. cbv zeta.
  match goal with |- context [if ?c then _ else _] => destruct c eqn:C end;
    simpl; intros E; [|congruence]. repeat split.
Qed.

Lemma moveTo_velocities_unchanged (curX curY curZ curE x y z e maxVelXyz minVelE maxVelE : float) :
  let v := moveTo_velocities curX curY curZ curE x y z e maxVelXyz minVelE maxVelE in
  (v_velE0 v !=? clamped minVelE maxVelE (v_velE0 v)) = false ->
  v_velE v = v_velE0 v /\
  v_minDuration v = v_minDuration0 v /\
  v_maxVelXyz v = maxVelXyz.
Proof.
  unfold moveTo_velocities, clamped. cbv zeta.
  match goal with |- context [if ?c then _ else _] => destruct c eqn:C end;
    simpl; intros E; [congruence|]. repeat split.
Qed.

Lemma moveTo_velocities_components
    (curX curY curZ curE x y z e maxVelXyz minVelE maxVelE : float) :
  let v := moveTo_velocities curX curY curZ curE x y z e maxVelXyz minVelE maxVelE in
  v_dist v =
    sqrt ((x - curX) * (x - curX) + (y - curY) * (y - curY) + (z - curZ) * (z - curZ)) /\
  v_minDuration0 v = v_dist v / maxVelXyz /\
  v_velE0 v = (e - curE) / v_minDuration0 v /\
  v_vx v = (x - curX) / v_minDuration v /\
  v_vy v = (y - curY) / v_minDuration v /\
  v_vz v = (z - curZ) / v_minDuration v.
Proof.
  unfold moveTo_velocities. cbv zeta. destruct (_ !=? _); simpl; repeat split.
Qed.

Section MoveTo.

Context {Stepper HomeStepper Accel : Type}.
Context `{AxisStepper Stepper} `{AxisStepper HomeStepper} `{AccelerationProfile Accel}.
Variable CoordMapT : CoordMap.
Variable initAxisSteppers :
  list Stepper -> list Z -> float -> float -> float -> float -> list Stepper.

Local Abbreviation planner :=
  (MotionPlanner.t (Stepper:=Stepper) (HomeStepper:=HomeStepper) (Accel:=Accel)).
Local Abbreviation moveTo := (MotionPlanner.moveTo CoordMapT initAxisSteppers).

(** C4.  [moveTo], on a machine with steppers, from the current position
    [cur] to the levelled and bounded destination: the extrusion rate is
    first [(e - curE) / (dist / maxVelXyz)]; its clamp lies between [minVelE]
    and [maxVelE] when these are ordered, and is the rate itself, as [==] has
    it, when the rate lies between them.  When the clamp differs from the
    rate, the rate becomes the clamp, the duration becomes
    [(e - curE) / velE] and the Cartesian velocity [dist / duration];
    otherwise the three stay.  [vx], [vy], [vz] are the differences of the
    coordinates divided by the duration so found, and the planner keeps this
    duration, starts the steppers with these velocities and begins the
    acceleration profile with the duration and the Cartesian velocity. *)
Theorem moveTo_regulates_extrusion (p : planner) (baseTime : Z)
    (x y z e maxVelXyz minVelE maxVelE curX curY curZ curE x1 y1 z1 x2 y2 z2 e2 : float) :
  _iters p <> [] ->
  xyzeFromMechanical CoordMapT (_destMechanicalPos p) = (curX, curY, curZ, curE) ->
  applyLeveling CoordMapT (x, y, z) = (x1, y1, z1) ->
  bound CoordMapT (x1, y1, z1, e) = (x2, y2, z2, e2) ->
  let v := moveTo_velocities curX curY curZ curE x2 y2 z2 e2 maxVelXyz minVelE maxVelE in
  let newVelE := std_max minVelE (std_min maxVelE (v_velE0 v)) in
  let p' := moveTo p baseTime x y z e maxVelXyz minVelE maxVelE in
  (v_dist v =
     sqrt ((x2 - curX) * (x2 - curX) + (y2 - curY) * (y2 - curY) + (z2 - curZ) * (z2 - curZ)) /\
   v_minDuration0 v = v_dist v / maxVelXyz /\
   v_velE0 v = (e2 - curE) / v_minDuration0 v) /\
  ((minVelE <=? maxVelE) = true ->
     (minVelE <=? newVelE) = true /\ (newVelE <=? maxVelE) = true) /\
  ((minVelE <=? v_velE0 v) = true -> (v_velE0 v <=? maxVelE) = true ->
     (v_velE0 v =? newVelE) = true) /\
  ((v_velE0 v !=? newVelE) = true ->
     v_velE v = newVelE /\
     v_minDuration v = (e2 - curE) / newVelE /\
     v_maxVelXyz v = v_dist v / v_minDuration v) /\
  ((v_velE0 v !=? newVelE) = false ->
     v_velE v = v_velE0 v /\
     v_minDuration v = v_minDuration0 v /\
     v_maxVelXyz v = maxVelXyz) /\
  (v_vx v = (x2 - curX) / v_minDuration v /\
   v_vy v = (y2 - curY) / v_minDuration v /\
   v_vz v = (z2 - curZ) / v_minDuration v) /\
  (_duration p' = v_minDuration v /\
   _iters p' =
     initAxisSteppers (_iters p) (_destMechanicalPos p) (v_vx v) (v_vy v) (v_vz v) (v_velE v) /\
   _accel p' = accel_begin (_accel p) (v_minDuration v) (v_maxVelXyz v) /\
   _baseTime p' = baseTime /\
   _motionType p' = MotionMove /\
   _destMechanicalPos p' = _destMechanicalPos p).
Proof.
  intros Hne Hcur Hlev Hbound v newVelE p'.
  pose proof (moveTo_velocities_components curX curY curZ curE x2 y2 z2 e2 maxVelXyz
                minVelE maxVelE) as (Hd & Hm0 & He0 & Hx & Hy & Hz).
  fold v in Hd, Hm0, He0, Hx, Hy, Hz.
  split; [repeat split; assumption|].
  split; [intros Hord; apply clamp_range; exact Hord|].
  split; [intros Hlo Hhi; apply clamp_inside; assumption|].
  split; [apply moveTo_velocities_changed|].
  split; [apply moveTo_velocities_unchanged|].
  split; [repeat split; assumption|].
  subst p'. unfold MotionPlanner.moveTo.
  destruct (_iters p) as [|s l] eqn:El; [congruence|]. simpl length. simpl Nat.eqb. cbv iota.
  rewrite Hcur, Hlev, Hbound. fold v. simpl. repeat split.
Qed.

End MoveTo.

Import Kossel.

(** A move of 10 mm along x that extrudes 20 mm, asked for at 10 mm/s with
    the extrusion rate held within 5 mm/s: the move takes 4 s, not 1 s. *)
Lemma moveTo_regulates_extrusion_witness :
  let p' := MotionPlanner.moveTo coordMap initAxisSteppers planner0 1000000
              (of_int 10) zero zero (of_int 20) (of_int 10) (of_int (-5)) (of_int 5) in
  let v := moveTo_velocities zero zero zero zero (of_int 10) zero zero (of_int 20)
              (of_int 10) (of_int (-5)) (of_int 5) in
  _duration p' = v_minDuration v /\
  val (v_minDuration v) = val (of_int 4) /\
  val (v_velE v) = val (of_int 5) /\
  val (v_vx v) = val (of_int 5 / of_int 2).
Proof.
  intros p' v. split; [|repeat split; vm_compute; reflexivity].
  pose proof (moveTo_regulates_extrusion coordMap initAxisSteppers planner0 1000000
                (of_int 10) zero zero (of_int 20) (of_int 10) (of_int (-5)) (of_int 5)
                zero zero zero zero (of_int 10) zero zero (of_int 10) zero zero (of_int 20))
    as Hw.
  destruct Hw as (_ & _ & _ & _ & _ & _ & Hdur & _).
  - discriminate.
  - reflexivity.
  - reflexivity.
  - reflexivity.
  - exact Hdur.
Defined.

End MoveToSpec.

Module MoveToDurationSpec.

Import F32 F32Facts F32Arith MotionPlanner.
Local Open Scope f32_scope.

(** The move that stays where it is and extrudes 1 mm, asked for at
    10 mm/s: [dist / maxVelXyz] is +0, below any positive bound, and the
    extrusion length is divided by it; the quotient is +infinity. *)
Lemma moveTo_duration_has_no_lower_bound :
  let v := moveTo_velocities zero zero zero zero zero zero zero (of_int 1)
             (of_int 10) (of_int (-5)) (of_int 5) in
  val (v_minDuration0 v) = S754_zero false /\
  v_velE0 v = of_int 1 / v_minDuration0 v /\
  val (v_velE0 v) = S754_infinity false /\
  ~ (exists ns : float, (zero <? ns) = true /\ (ns <=? v_minDuration0 v) = true).
Proof.
  intros v.
  assert (Ez : v_minDuration0 v = zero) by (apply ext; vm_compute; reflexivity).
  split; [vm_compute; reflexivity|].
  split; [apply ext; vm_compute; reflexivity|].
  split; [vm_compute; reflexivity|].
  intros (ns & Hpos & Hle). rewrite Ez in Hle.
  rewrite (leb_not_ltb _ _ Hle) in Hpos. discriminate.
Qed.

(** C5, amended.  [moveTo] puts no lower bound on [dist / maxVelXyz].  For
    a destination whose x, y, z are those of the current position (finite)
    and a positive [maxVelXyz], the distance and this duration are +0 and the
    extrusion rate is [(e - curE) / +0], an infinity or NaN: the division does
    not trap.  With finite [minVelE] and [maxVelE] the clamp differs from
    that rate, so the rate becomes one of the two bounds and the duration
    becomes [(e - curE) / velE]. *)
Theorem moveTo_zero_distance_is_regulated
    (curX curY curZ curE e maxVelXyz minVelE maxVelE : float) :
  is_finite curX = true -> is_finite curY = true -> is_finite curZ = true ->
  (zero <? maxVelXyz) = true ->
  is_finite minVelE = true -> is_finite maxVelE = true ->
  let v := moveTo_velocities curX curY curZ curE curX curY curZ e maxVelXyz minVelE maxVelE in
  v_dist v = zero /\
  v_minDuration0 v = zero /\
  v_velE0 v = (e - curE) / zero /\
  is_finite (v_velE0 v) = false /\
  (v_velE0 v !=? std_max minVelE (std_min maxVelE (v_velE0 v))) = true /\
  (v_velE v = minVelE \/ v_velE v = maxVelE) /\
  v_minDuration v = (e - curE) / v_velE v.
Proof.
  intros Hx Hy Hz Hv Hlo Hhi v.
  assert (Ed : v_dist v = zero).
  { subst v. unfold moveTo_velocities. cbv zeta.
    match goal with |- context [if ?c then _ else _] => destruct c end; simpl;
      rewrite !sub_self by assumption; rewrite !mul_zero, !add_zero; apply sqrt_zero. }
  assert (Em : v_minDuration0 v = zero).
  { transitivity (v_dist v / maxVelXyz).
    - subst v. unfold moveTo_velocities. cbv zeta.
      match goal with |- context [if ?c then _ else _] => destruct c end; reflexivity.
    - rewrite Ed. apply div_zero_l. exact Hv. }
  assert (Ee : v_velE0 v = (e - curE) / zero).
  { rewrite <- Em. subst v. unfold moveTo_velocities. cbv zeta.
    match goal with |- context [if ?c then _ else _] => destruct c end; reflexivity. }
  assert (Ef : is_finite (v_velE0 v) = false) by (rewrite Ee; apply div_zero_r).
  destruct (clamp_not_finite minVelE maxVelE (v_velE0 v) Hlo Hhi Ef) as [Hin Hne].
  pose proof (MoveToSpec.moveTo_velocities_changed curX curY curZ curE curX curY curZ e
                maxVelXyz minVelE maxVelE Hne) as (Hve & Hmd & _).
  fold v in Hve, Hmd. unfold MoveToSpec.clamped in Hve, Hmd.
  repeat split; try assumption.
  - rewrite Hve. exact Hin.
  - rewrite Hve. exact Hmd.
Qed.

(** The move of the counterexample: 1 mm is extruded at the bound of
    5 mm/s, in a fifth of a second. *)
Lemma moveTo_zero_distance_is_regulated_witness :
  let v := moveTo_velocities zero zero zero zero zero zero zero (of_int 1)
             (of_int 10) (of_int (-5)) (of_int 5) in
  v_minDuration v = (of_int 1 - zero) / v_velE v /\
  val (v_velE v) = val (of_int 5).
Proof.
  intros v. split; [|vm_compute; reflexivity].
  apply (moveTo_zero_distance_is_regulated zero zero zero zero (of_int 1) (of_int 10)
           (of_int (-5)) (of_int 5)); reflexivity.
Defined.

End MoveToDurationSpec.

(** The earlier [State::queueMovement] did bound the duration below. *)
Module LegacyStateFacts.

Import F32 F32Facts LegacyState.
Local Open Scope f32_scope.

Lemma queueMovement_duration_bounded (NANOSECOND : float) (clamp : float -> float)
    (curX curY curZ curE x y z e velXYZ : float) :
  isnan NANOSECOND = false ->
  (NANOSECOND <=?
     v_duration0 (queueMovement_velocities NANOSECOND clamp curX curY curZ curE x y z e velXYZ))
    = true.
Proof.
  intros Hn. unfold queueMovement_velocities. cbv zeta.
  match goal with |- context [if ?c then _ else _] => destruct c end; simpl;
    unfold std_max;
    match goal with |- context [if ?c then _ else _] => destruct c eqn:C end;
    try (apply ltb_leb; exact C); apply leb_refl; exact Hn.
Qed.

End LegacyStateFacts.

(** ** The reference machine under [State] *)

Module KosselState.

Import F32 Kossel.
Local Open Scope f32_scope.

(** an inch is 25.4 mm *)
Definition MM_PER_IN : float := of_int 254 / of_int 10.

(** [State] over the planner of the reference machine, which has no arcs
    and homes before its first movement *)
#[export] Instance plannerT : State.MotionPlannerT planner unit :=
  MotionPlanner_MotionPlannerT coordMap initAxisSteppers (fun p _ _ _ _ _ _ _ => p) true.

Definition origin : Vector4f := mkVector4f zero zero zero zero.

(** a state as the constructor can leave it; the channels, the scheduler and
    the IO drivers carry no data.  The constructor does not initialise
    [_doBufferMoves], which is taken to be true here. *)
Definition state : Type :=
  State.t (Planner:=planner) (Com:=unit) (Sched:=unit) (IoDrivers:=unit).

Definition state0 : state := {|
  State._doShutdownAfterMoveCompletes := false;
  State._doExitEventLoopAfterMoveCompletes := false;
  State._doBufferMoves := true;
  State._positionMode := POS_ABSOLUTE;
  State._extruderPosMode := POS_ABSOLUTE;
  State.unitMode := UNIT_MM;
  State._destMm := origin;
  State._destMoveRatePrimitive := of_int 10;
  State._hostZeroOffset := origin;
  State._isHoming := false;
  State._isHomed := false;
  State._isWaitingForHotend := false;
  State._lastMotionPlannedTime := 0;
  State._isRootComPersistent := false;
  State.gcodeFileStack := [tt];
  State.scheduler := tt;
  State._motionPlanner := planner0;
  State.ioDrivers := tt;
  State.logFlags := (true, true, true)
|}.

(** [execute] on this machine: no heaters, no fans, no files, and a home
    routine that returns at once *)
Definition execute : state -> Z -> Command -> State.Outcome state :=
  State.execute MM_PER_IN NAN tt (fun f => f) (of_int 5) (of_int 5)
    (fun s => s) (fun s => s) (fun io => io) (fun io => io) (fun io _ => io) (fun io _ => io)
    (fun _ => zero) (fun _ => zero) (fun _ => zero) (fun _ ios => ios)
    (fun _ => EmptyString) (fun _ => 0) (fun _ => tt) (fun st => State.HomeReturns st).

Definition command (op : string) : Command :=
  mkCommand op None None None None None None None None None EmptyString.

End KosselState.

Module CoordinateSpec.

Import F32 F32Facts State.
Local Open Scope f32_scope.

Section Coordinates.

Context {Planner Com Sched IoDrivers : Type}.
Variable MM_PER_IN : float.

Local Abbreviation state :=
  (State.t (Planner:=Planner) (Com:=Com) (Sched:=Sched) (IoDrivers:=IoDrivers)).
Local Abbreviation coordToPrimitive := (State.coordToPrimitive MM_PER_IN).

(** The composition as C6 words it: (a) the parameter is read in the unit
    mode, (b) the host-zero offset is added, (c) in relative mode the
    current destination is added. *)
Definition coordToPrimitive_spec (st : state) (coord : Vector4f) : Vector4f :=
  let inMm :=
    match unitMode st with
    | UNIT_IN => v4_scale coord MM_PER_IN
    | UNIT_MM => coord
    end in
  let offset := v4_add inMm (_hostZeroOffset st) in
  match positionMode st with
  | POS_RELATIVE => v4_add offset (destMm st)
  | POS_ABSOLUTE => offset
  end.

(** Where the code and the composition of C6 agree: in absolute mode,
    whatever the unit mode, the offset and the destination.  In relative
    mode with millimetres the code computes [(coord + dest) + offset], the
    terms of the claim summed in another order. *)
Lemma coordToPrimitive_absolute_first (st : state) (coord : Vector4f) :
  (positionMode st = POS_ABSOLUTE ->
     coordToPrimitive st coord = coordToPrimitive_spec st coord /\
     coordToPrimitive st coord =
       v4_add (match unitMode st with
               | UNIT_IN => v4_scale coord MM_PER_IN
               | UNIT_MM => coord
               end) (_hostZeroOffset st)) /\
  (positionMode st = POS_RELATIVE -> unitMode st = UNIT_MM ->
     coordToPrimitive st coord = v4_add (v4_add coord (destMm st)) (_hostZeroOffset st) /\
     coordToPrimitive_spec st coord = v4_add (v4_add coord (_hostZeroOffset st)) (destMm st)).
Proof.
  unfold State.coordToPrimitive, coordToPrimitive_spec, coordToMm, coordToAbsolute.
  split.
  - intros ->. destruct (unitMode st); split; reflexivity.
  - intros -> ->. split; reflexivity.
Qed.

End Coordinates.

Import KosselState.

(** the homed machine with its destination at 1 mm along x *)
Definition stateAt1mm : state :=
  set_isHomed (set_destMm state0 (mkVector4f (of_int 1) zero zero zero)) true.

(** a state in relative mode with inches, its destination at 1 mm along x *)
Definition stateRelativeIn : state :=
  set_unitMode
    (set_destMm
       (set_positionMode state0 POS_RELATIVE)
       (mkVector4f (of_int 1) zero zero zero))
    UNIT_IN.

(** G1 X0 *)
Definition G1_X0 : Command :=
  mkCommand "G1" (Some zero) None None None None None None None None EmptyString.

(** C6 at G91, G20, G1 X0 with the destination at 1 mm along x.  The
    composition of the claim reads X0 as 0 mm, adds the offset 0 and then the
    current destination: 1 mm, the head stays where it is.  The code adds the
    current destination, which [State] keeps in millimetres, to the
    parameter before it converts inches, so [coordToPrimitive] gives
    (0 + 1) * 25.4 = 25.4 mm, and [execute] queues a move to 25.4 mm. *)
Theorem coordToPrimitive_relative_inches :
  val (v4_x (State.coordToPrimitive MM_PER_IN stateRelativeIn origin)) = val MM_PER_IN /\
  val (v4_x (coordToPrimitive_spec MM_PER_IN stateRelativeIn origin)) = val (of_int 1) /\
  State.coordToPrimitive MM_PER_IN stateRelativeIn origin
    <> coordToPrimitive_spec MM_PER_IN stateRelativeIn origin /\
  exists st1 st2 st3 : state,
    KosselState.execute stateAt1mm 0 (command "G91") = Returns st1 [Response_Ok] /\
    KosselState.execute st1 0 (command "G20") = Returns st2 [Response_Ok] /\
    KosselState.execute st2 0 G1_X0 = Returns st3 [Response_Ok] /\
    val (v4_x (_destMm st1)) = val (of_int 1) /\
    val (v4_x (_destMm st3)) = val MM_PER_IN.
Proof.
  split; [vm_compute; reflexivity|].
  split; [vm_compute; reflexivity|].
  split.
  - intros E. apply (f_equal (fun v => val (v4_x v))) in E. vm_compute in E. discriminate.
  - eexists. eexists. eexists.
    split; [reflexivity|]. split; [reflexivity|]. split; [reflexivity|].
    split; vm_compute; reflexivity.
Qed.

End CoordinateSpec.

Module ExecuteSpec.

Import F32 State.
Local Open Scope f32_scope.
Local Open Scope string_scope.

(** the opcodes that [execute] has a branch for, tool selections apart *)
Definition supported : list string :=
  ["G0"; "G1"; "G2"; "G3"; "G20"; "G21"; "G28"; "G90"; "G91"; "G92";
   "M0"; "M17"; "M18"; "M21"; "M22"; "M32"; "M82"; "M83"; "M84"; "M99";
   "M104"; "M105"; "M106"; "M107"; "M109"; "M110"; "M111"; "M112"; "M115";
   "M116"; "M117"; "M140"].

Definition recognized (cmd : Command) : bool :=
  existsb (String.eqb (opcode cmd)) supported || isTxxx cmd.

Section Execute.

Context {Planner MotionFlags : Type} `{MotionPlannerT Planner MotionFlags}.
Context {Com Sched IoDrivers : Type}.
Variables MM_PER_IN ARG_NOT_PRESENT : float.
Variable MOTIONFLAGS_DEFAULT : MotionFlags.
Variable clampMoveRate : float -> float.
Variables maxRetractRate maxExtrudeRate : float.
Variables setDefaultMaxSleep setMaxSleep_1ms : Sched -> Sched.
Variables lockAllAxis unlockAllAxis : IoDrivers -> IoDrivers.
Variables setHotendTemp setBedTemp : IoDrivers -> float -> IoDrivers.
Variables getHotendTemp getBedTemp getHotendTargetTemp : IoDrivers -> float.
Variable setFanDutyCycles : float -> IoDrivers * Sched -> IoDrivers * Sched.
Variable to_string : float -> string.
Variable float_to_int : float -> Z.
Variable openGcodeFile : string -> Com.

Local Abbreviation state :=
  (State.t (Planner:=Planner) (Com:=Com) (Sched:=Sched) (IoDrivers:=IoDrivers)).

Variable executeHomeRoutine : state -> HomeOutcome state.

Local Abbreviation execute :=
  (State.execute MM_PER_IN ARG_NOT_PRESENT MOTIONFLAGS_DEFAULT clampMoveRate
     maxRetractRate maxExtrudeRate setDefaultMaxSleep setMaxSleep_1ms lockAllAxis
     unlockAllAxis setHotendTemp setBedTemp getHotendTemp getBedTemp getHotendTargetTemp
     setFanDutyCycles to_string float_to_int openGcodeFile executeHomeRoutine).

(** what C9 says of a call of [execute]: it returns, having sent a reply *)
Definition replies_and_continues (o : Outcome state) : Prop :=
  exists st' r rs, o = Returns st' (r :: rs).

(** C9, amended.  For a command whose opcode [execute] has no branch for,
    [execute] throws [std::runtime_error] with the message
    "unrecognized gcode opcode: '<opcode>'": it sends no reply and does not
    return. *)
Theorem execute_unrecognized_throws (st : state) (now : Z) (cmd : Command) :
  recognized cmd = false ->
  execute st now cmd = Throws ("unrecognized gcode opcode: '" ++ opcode cmd ++ "'") [] /\
  ~ replies_and_continues (execute st now cmd).
Proof.
  intros Hr.
  assert (E : execute st now cmd =
              Throws ("unrecognized gcode opcode: '" ++ opcode cmd ++ "'") []).
  { unfold recognized, supported in Hr. simpl existsb in Hr.
    repeat (apply orb_false_iff in Hr; destruct Hr as [? Hr]).
    repeat match goal with
           | Hq : (_ || _)%bool = false |- _ =>
               apply orb_false_iff in Hq; destruct Hq as [? Hq]
           end.
    unfold State.execute, isOpcode.
    repeat match goal with
           | Hq : String.eqb (opcode cmd) ?s = false |- _ => rewrite Hq; clear Hq
           end.
    rewrite Hr. reflexivity. }
  split; [exact E|]. rewrite E. intros (st' & r & rs & Hc). discriminate.
Qed.

End Execute.

Import KosselState.

(** G5 is no opcode of [execute]: the call throws, whatever the state. *)
Lemma execute_unknown_opcode_throws :
  KosselState.execute state0 0 (command "G5") = Throws "unrecognized gcode opcode: 'G5'" [] /\
  ~ (exists st' r rs, KosselState.execute state0 0 (command "G5") = Returns st' (r :: rs)).
Proof.
  assert (E : KosselState.execute state0 0 (command "G5")
              = Throws "unrecognized gcode opcode: 'G5'" []) by reflexivity.
  split; [exact E|]. rewrite E. intros (st' & r & rs & Hc). discriminate.
Qed.

Lemma execute_unrecognized_throws_witness :
  KosselState.execute state0 0 (command "G5") = Throws "unrecognized gcode opcode: 'G5'" [].
Proof.
  apply (execute_unrecognized_throws MM_PER_IN NAN tt (fun f => f) (of_int 5) (of_int 5)
           (fun s => s) (fun s => s) (fun io => io) (fun io => io) (fun io _ => io)
           (fun io _ => io) (fun _ => zero) (fun _ => zero) (fun _ => zero) (fun _ ios => ios)
           (fun _ => EmptyString) (fun _ => 0%Z) (fun _ => tt) (fun st => HomeReturns st)
           state0 0%Z (command "G5")).
  reflexivity.
Defined.

End ExecuteSpec.

Module SegmentStartSpec.

Import F32 F32Facts MotionPlanner MotionPlannerFacts.
Local Open Scope f32_scope.

Lemma std_max_time_max (a b : Z) : State.std_max_time a b = Z.max a b.
Proof. unfold State.std_max_time. destruct (Z.ltb_spec a b); lia. Qed.

Section StartTime.

Context {Stepper HomeStepper Accel : Type}.
Context `{AxisStepper Stepper} `{AxisStepper HomeStepper} `{AccelerationProfile Accel}.
Variable CoordMapT : CoordMap.
Variable toDuration : float -> Z.
Variable initAxisSteppers :
  list Stepper -> list Z -> float -> float -> float -> float -> list Stepper.

Local Abbreviation planner :=
  (MotionPlanner.t (Stepper:=Stepper) (HomeStepper:=HomeStepper) (Accel:=Accel)).
Local Abbreviation run := (MotionPlanner.run CoordMapT toDuration).

Variable planner_arcTo :
  planner -> Z -> Vector4f -> Vector3f -> float -> float -> float -> bool -> planner.
Variable planner_doHomeBeforeFirstMovement : bool.

Context {Com Sched IoDrivers : Type}.
Variables maxRetractRate maxExtrudeRate : float.

Local Abbreviation plannerT :=
  (MotionPlanner_MotionPlannerT CoordMapT initAxisSteppers planner_arcTo
     planner_doHomeBeforeFirstMovement).
Local Abbreviation state :=
  (State.t (Planner:=planner) (Com:=Com) (Sched:=Sched) (IoDrivers:=IoDrivers)).
Local Abbreviation queueMovement :=
  (State.queueMovement (H:=plannerT) maxRetractRate maxExtrudeRate).
Local Abbreviation queueArc :=
  (State.queueArc (H:=plannerT) maxRetractRate maxExtrudeRate).

(** a step at a positive time is due no earlier than the segment begins *)
Definition later_is_later : Prop :=
  forall (acc : Accel) (t : float),
    (zero <? t) = true -> (0 <= toDuration (accel_transform acc t))%Z.

Lemma run_after_baseTime (Hpos : later_is_later) (n : nat) : forall p : planner,
  _motionType p = MotionMove ->
  Forall (fun e => (_baseTime p <= deadline e)%Z) (fst (run n p)).
Proof.
  induction n as [|n IH]; intros p Hm; simpl; [constructor|].
  destruct (MotionPlanner.nextStep CoordMapT toDuration p) as [p' e] eqn:En.
  destruct e as [|d idx dir]; [constructor|].
  destruct (nextStep_step_inv CoordMapT toDuration p p' d idx dir Hm En)
    as (s & _ & _ & _ & Hfin & _ & Hd & Hp').
  destruct (not_finished p _ Hfin) as (_ & Hlt & _).
  assert (Hm' : _motionType p' = MotionMove) by (subst p'; exact Hm).
  assert (Hb' : _baseTime p' = _baseTime p) by (subst p'; reflexivity).
  pose proof (IH p' Hm') as IH1. rewrite Hb' in IH1.
  destruct (MotionPlanner.run CoordMapT toDuration n p') as [es p''].
  simpl in IH1 |- *. constructor; [|exact IH1].
  simpl. pose proof (Hpos (_accel p) (as_time s) Hlt). lia.
Qed.

Lemma run_idle (n : nat) (p : planner) : _motionType p = MotionNone -> fst (run n p) = [].
Proof.
  intros Hm. destruct n; [reflexivity|]. simpl.
  rewrite (nextStep_idle CoordMapT toDuration p Hm). reflexivity.
Qed.

(** C7.  [queueMovement] and [queueArc] give the planner, as the instant at
    which the segment begins, the later of [_lastMotionPlannedTime], the
    deadline of the motion event planned last, and the instant [now] of the
    clock.  The planner of motion/motionplanner.h, when it is ready for a
    move, takes it as its base time, so that with a conversion that sends
    the positive times to no negative durations no event of the new segment
    is due before the segment begins, nor before [_lastMotionPlannedTime]. *)
Theorem segment_starts_after_last_event (st : state) (now : Z) (dest : Vector4f)
    (velXyz : option float) (center : Vector3f) (isCW : bool) :
  MotionPlanner.readyForNextMove (State._motionPlanner st) = true ->
  later_is_later ->
  let startTime := Z.max (State._lastMotionPlannedTime st) now in
  State._motionPlanner (queueMovement st now dest velXyz tt) =
    MotionPlanner.moveTo CoordMapT initAxisSteppers (State._motionPlanner st) startTime
      (v4_x dest) (v4_y dest) (v4_z dest) (v4_e dest)
      (default (State._destMoveRatePrimitive st) velXyz) (- maxRetractRate) maxExtrudeRate /\
  State._motionPlanner (queueArc st now dest center isCW) =
    planner_arcTo (State._motionPlanner st) startTime dest center
      (State._destMoveRatePrimitive st) (- maxRetractRate) maxExtrudeRate isCW /\
  (State._lastMotionPlannedTime st <= startTime)%Z /\
  (now <= startTime)%Z /\
  (_iters (State._motionPlanner st) <> [] ->
     _baseTime (State._motionPlanner (queueMovement st now dest velXyz tt)) = startTime) /\
  forall n,
    Forall (fun e => (startTime <= deadline e)%Z /\
                     (State._lastMotionPlannedTime st <= deadline e)%Z)
           (fst (run n (State._motionPlanner (queueMovement st now dest velXyz tt)))).
Proof.
  intros Hready Hpos startTime.
  assert (Em : State._motionPlanner (queueMovement st now dest velXyz tt) =
    MotionPlanner.moveTo CoordMapT initAxisSteppers (State._motionPlanner st) startTime
      (v4_x dest) (v4_y dest) (v4_z dest) (v4_e dest)
      (default (State._destMoveRatePrimitive st) velXyz) (- maxRetractRate) maxExtrudeRate).
  { unfold State.queueMovement. simpl. rewrite std_max_time_max. reflexivity. }
  split; [exact Em|].
  split; [unfold State.queueArc; simpl; rewrite std_max_time_max; reflexivity|].
  split; [subst startTime; lia|]. split; [subst startTime; lia|].
  assert (Hidle : _motionType (State._motionPlanner st) = MotionNone).
  { unfold MotionPlanner.readyForNextMove in Hready.
    destruct (_motionType (State._motionPlanner st)); [reflexivity|discriminate..]. }
  rewrite Em. unfold MotionPlanner.moveTo.
  destruct (_iters (State._motionPlanner st)) as [|s l] eqn:El; simpl length; simpl Nat.eqb;
    cbv iota.
  - split; [congruence|]. intros n. rewrite (run_idle n _ Hidle). constructor.
  - destruct (xyzeFromMechanical CoordMapT _) as [[[curX curY] curZ] curE].
    destruct (applyLeveling CoordMapT _) as [[x1 y1] z1].
    destruct (bound CoordMapT _) as [[[x2 y2] z2] e2].
    split; [reflexivity|]. intros n.
    match goal with |- Forall _ (fst (MotionPlanner.run _ _ n ?q)) =>
      pose proof (run_after_baseTime Hpos n q eq_refl) as Hr end.
    simpl in Hr. eapply Forall_impl; [exact Hr|].
    intros e He. simpl in He. subst startTime. lia.
Qed.

End StartTime.

Import Kossel KosselState.

(** The last motion event was planned for the instant 5000000 and the clock
    is at 1000000: the move to x = 10 begins at 5000000, and so do its
    events. *)
Lemma segment_starts_after_last_event_witness :
  let st := State.set_motionPlanner
              {| State._doShutdownAfterMoveCompletes := false;
                 State._doExitEventLoopAfterMoveCompletes := false;
                 State._doBufferMoves := true;
                 State._positionMode := POS_ABSOLUTE;
                 State._extruderPosMode := POS_ABSOLUTE;
                 State.unitMode := UNIT_MM;
                 State._destMm := origin;
                 State._destMoveRatePrimitive := of_int 10;
                 State._hostZeroOffset := origin;
                 State._isHoming := false;
                 State._isHomed := true;
                 State._isWaitingForHotend := false;
                 State._lastMotionPlannedTime := 5000000;
                 State._isRootComPersistent := false;
                 State.gcodeFileStack := [tt];
                 State.scheduler := tt;
                 State._motionPlanner := planner0;
                 State.ioDrivers := tt;
                 State.logFlags := (true, true, true) |} planner0 in
  Forall (fun e => (5000000 <= deadline e)%Z)
    (fst (MotionPlanner.run coordMap toNanos 4
            (State._motionPlanner
               (State.queueMovement (of_int 5) (of_int 5) st 1000000
                  (mkVector4f (of_int 10) zero zero zero) None tt)))).
Proof.
  intros st.
  pose proof (segment_starts_after_last_event coordMap toNanos initAxisSteppers
                (fun p _ _ _ _ _ _ _ => p) true (of_int 5) (of_int 5) st 1000000
                (mkVector4f (of_int 10) zero zero zero) None (mkVector3f zero zero zero) true)
    as Hw.
  destruct Hw as (_ & _ & _ & _ & _ & Hev).
  - reflexivity.
  - intros acc t. apply KosselFacts.toNanos_nonneg.
  - eapply Forall_impl; [exact (Hev 4%nat)|]. intros e [He _]. exact He.
Defined.

End SegmentStartSpec.

Module SetPositionSpec.

Import F32 State.
Local Open Scope f32_scope.
Local Open Scope string_scope.

(** a difference from [d] taken four times is the difference taken twice *)
Lemma sub_four_times (d o : float) : d - (d - (d - (d - o))) = d - (d - o).
Proof.
  apply ext. unfold sub, val. simpl.
  apply (Subtraction.sub_four prec emax); try reflexivity; apply IEEE754.bvalid.
Qed.

Section SetPosition.

Context {Planner MotionFlags : Type} `{MotionPlannerT Planner MotionFlags}.
Context {Com Sched IoDrivers : Type}.
Variables MM_PER_IN ARG_NOT_PRESENT : float.
Variable MOTIONFLAGS_DEFAULT : MotionFlags.
Variable clampMoveRate : float -> float.
Variables maxRetractRate maxExtrudeRate : float.
Variables setDefaultMaxSleep setMaxSleep_1ms : Sched -> Sched.
Variables lockAllAxis unlockAllAxis : IoDrivers -> IoDrivers.
Variables setHotendTemp setBedTemp : IoDrivers -> float -> IoDrivers.
Variables getHotendTemp getBedTemp getHotendTargetTemp : IoDrivers -> float.
Variable setFanDutyCycles : float -> IoDrivers * Sched -> IoDrivers * Sched.
Variable to_string : float -> string.
Variable float_to_int : float -> Z.
Variable openGcodeFile : string -> Com.

Local Abbreviation state :=
  (State.t (Planner:=Planner) (Com:=Com) (Sched:=Sched) (IoDrivers:=IoDrivers)).

Variable executeHomeRoutine : state -> HomeOutcome state.

Local Abbreviation executeG92 := (State.executeG92 MM_PER_IN ARG_NOT_PRESENT).
Local Abbreviation execute :=
  (State.execute MM_PER_IN ARG_NOT_PRESENT MOTIONFLAGS_DEFAULT clampMoveRate
     maxRetractRate maxExtrudeRate setDefaultMaxSleep setMaxSleep_1ms lockAllAxis
     unlockAllAxis setHotendTemp setBedTemp getHotendTemp getBedTemp getHotendTargetTemp
     setFanDutyCycles to_string float_to_int openGcodeFile executeHomeRoutine).

(** the branch of G92 taken twice *)
Lemma executeG92_twice (st : state) (cmd : Command) :
  executeG92 (executeG92 st cmd) cmd = executeG92 st cmd.
Proof.
  unfold State.executeG92, setHostZeroPos, coordToMm, destMm.
  destruct (hasAnyXYZEParam cmd); simpl; [|reflexivity].
  unfold set_hostZeroOffset, v4_sub. simpl. f_equal.
  destruct (unitMode st), (has (param_X cmd)), (has (param_Y cmd)), (has (param_Z cmd)),
    (has (param_E cmd)); simpl; rewrite ?sub_four_times; reflexivity.
Qed.

Lemma execute_G92 (st : state) (now : Z) (cmd : Command) : opcode cmd = "G92" ->
  execute st now cmd = Returns (executeG92 st cmd) [Response_Ok].
Proof.
  intros Hop. unfold State.execute, isOpcode. rewrite Hop. reflexivity.
Qed.

(** C8.  [execute] of a G92 command replies ok and returns the state that
    the branch of G92 leaves; executed again with the same arguments, in the
    state it left, it leaves that state as it is: the host-zero offset, and
    with it every destination computed afterwards, is the one of the first
    execution.  This holds with no argument, with all of X, Y, Z, E and with
    any subset of them, whatever the destination and the offset were. *)
Theorem G92_twice_is_once (st : state) (now now' : Z) (cmd : Command) :
  opcode cmd = "G92" ->
  exists st1,
    execute st now cmd = Returns st1 [Response_Ok] /\
    execute st1 now' cmd = Returns st1 [Response_Ok] /\
    _hostZeroOffset (executeG92 (executeG92 st cmd) cmd) = _hostZeroOffset (executeG92 st cmd) /\
    (forall coord, coordToPrimitive MM_PER_IN (executeG92 (executeG92 st cmd) cmd) coord
                   = coordToPrimitive MM_PER_IN (executeG92 st cmd) coord).
Proof.
  intros Hop. exists (executeG92 st cmd).
  rewrite !execute_G92 by exact Hop. rewrite !executeG92_twice. repeat split.
Qed.

End SetPosition.

Import KosselState.

(** G92 X1 Z3 in a state whose offset along y is not zero *)
Lemma G92_twice_is_once_witness :
  let cmd := mkCommand "G92" (Some (of_int 1)) None (Some (of_int 3)) None None None None None
               None EmptyString in
  let st := set_hostZeroOffset state0 (mkVector4f zero (of_int 7) zero zero) in
  exists st1,
    KosselState.execute st 0 cmd = Returns st1 [Response_Ok] /\
    KosselState.execute st1 1 cmd = Returns st1 [Response_Ok].
Proof.
  intros cmd st.
  destruct (G92_twice_is_once MM_PER_IN NAN tt (fun f => f) (of_int 5) (of_int 5)
              (fun s => s) (fun s => s) (fun io => io) (fun io => io) (fun io _ => io)
              (fun io _ => io) (fun _ => zero) (fun _ => zero) (fun _ => zero)
              (fun _ ios => ios) (fun _ => EmptyString) (fun _ => 0%Z) (fun _ => tt)
              (fun st => State.HomeReturns st) st 0%Z 1%Z cmd eq_refl) as (st1 & E1 & E2 & _).
  exists st1. split; [exact E1 | exact E2].
Defined.

End SetPositionSpec.

(** * More of the code *)

(** ** Every move ends *)

Module F32Rank.

Import F32 F32Facts.
Local Open Scope f32_scope.

(** A number for every [float] that is not NaN, larger for a larger float. *)
Definition rank (x : float) : Z :=
  match IEEE754.key (val x) with
  | Some (a1, a2, a3) => a1 * 2 ^ 40 + a2 * 2 ^ 25 + a3
  | None => 0
  end.

Lemma key_bounds (x : float) (a1 a2 a3 : Z) : IEEE754.key (val x) = Some (a1, a2, a3) ->
  (-2 <= a1 <= 2 /\ -1024 <= a2 <= 1024 /\ - 2 ^ 24 < a3 < 2 ^ 24)%Z.
Proof.
  destruct x as [v Hv]. unfold val. simpl.
  destruct v as [s|s| |s m e].
  - destruct s; simpl; intros E; inversion E; lia.
  - destruct s; simpl; intros E; inversion E; lia.
  - discriminate.
  - destruct (IEEE754.bounded_canonical prec emax m e Hv) as [Hc He].
    destruct (IEEE754.canonical_digits prec emax m e Hc) as [Hd _].
    pose proof (IEEE754.Zdigits2_bounds (Zpos m) eq_refl) as Hb.
    change (Zdigits2 (Zpos m)) with (Zpos (digits2_pos m)) in Hb.
    assert (Hm : (Zpos m < 2 ^ 24)%Z)
      by (eapply Z.lt_le_trans; [apply Hb | apply Z.pow_le_mono_r; unfold prec in Hd; lia]).
    assert (Hlo : (-149 <= e)%Z) by (unfold SpecFloat.fexp, SpecFloat.emin, emax, prec in Hc; lia).
    unfold emax, prec in He.
    destruct s; simpl; intros E; inversion E; lia.
Qed.

Lemma rank_lt (x y : float) : (x <? y) = true -> (rank x < rank y)%Z.
Proof.
  intros H. apply IEEE754.SFltb_key in H. destruct H as ([[a1 a2] a3] & [[b1 b2] b3] & Ha & Hb & Hlt).
  pose proof (key_bounds x _ _ _ Ha). pose proof (key_bounds y _ _ _ Hb).
  unfold rank. fold (val x) in Ha. fold (val y) in Hb. rewrite Ha, Hb.
  unfold IEEE754.klt in Hlt. lia.
Qed.

Lemma rank_range (x : float) : (- 2 ^ 42 < rank x < 2 ^ 42)%Z.
Proof.
  unfold rank. destruct (IEEE754.key (val x)) as [[[a1 a2] a3]|] eqn:E; [|lia].
  pose proof (key_bounds x _ _ _ E). lia.
Qed.

End F32Rank.

Module MoveTermination.

Import F32 F32Facts MotionPlanner MotionPlannerFacts.

Section Termination.

Context {Stepper HomeStepper Accel : Type}.
Context `{AxisStepper Stepper} `{AxisStepper HomeStepper} `{AccelerationProfile Accel}.
Variable CoordMapT : CoordMap.
Variable toDuration : float -> Z.

Local Abbreviation planner :=
  (MotionPlanner.t (Stepper:=Stepper) (HomeStepper:=HomeStepper) (Accel:=Accel)).
Local Abbreviation nextStep := (MotionPlanner.nextStep CoordMapT toDuration).
Local Abbreviation run := (MotionPlanner.run CoordMapT toDuration).

(** The number of floats above the time of a stepper bounds the steps it
    can still propose; a stepper whose time is NaN proposes none. *)
Definition steps_left (s : Stepper) : Z :=
  if isnan (as_time s) then 0 else 2 ^ 42 - F32Rank.rank (as_time s).

Definition all_steps_left (l : list Stepper) : Z := foldr (fun s n => steps_left s + n) 0 l.

Lemma steps_left_bound (s : Stepper) : 0 <= steps_left s < 2 ^ 43.
Proof.
  unfold steps_left. pose proof (F32Rank.rank_range (as_time s)).
  destruct (isnan (as_time s)); lia.
Qed.

Lemma all_steps_left_bound (l : list Stepper) :
  0 <= all_steps_left l <= Z.of_nat (length l) * 2 ^ 43.
Proof.
  unfold all_steps_left. induction l as [|s l IH]; [simpl; lia|].
  cbn [foldr length]. pose proof (steps_left_bound s). lia.
Qed.

Lemma steps_left_nextStep (Hlater : proposes_later Stepper) (s : Stepper) :
  isnan (as_time s) = false -> steps_left (as_nextStep s) < steps_left s.
Proof.
  intros Hn. unfold steps_left. rewrite Hn.
  pose proof (F32Rank.rank_range (as_time s)).
  destruct (Hlater s) as [E|E].
  - rewrite E. lia.
  - destruct (ltb_not_nan _ _ E) as [_ E']. rewrite E'.
    pose proof (F32Rank.rank_lt _ _ E). lia.
Qed.

Lemma all_steps_left_alter (f : Stepper -> Stepper) (l : list Stepper) :
  forall (i : nat) (s : Stepper),
  l !! i = Some s -> steps_left (f s) < steps_left s ->
  all_steps_left (alter f i l) < all_steps_left l.
Proof.
  unfold all_steps_left.
  induction l as [|x l IH]; intros [|i] s Hs Hlt; try discriminate.
  - cbn in Hs. inversion Hs; subst. cbn [alter list_alter foldr]. lia.
  - cbn in Hs. specialize (IH i s Hs Hlt). cbn [alter list_alter foldr].
    change (list_alter f i l) with (alter f i l). lia.
Qed.

(** A call of [nextStep] in a move either ends the move or emits a step and
    leaves fewer steps to propose. *)
Lemma nextStep_progress (Hlater : proposes_later Stepper) (p : planner) :
  _motionType p = MotionMove -> _iters p <> [] ->
  (exists p', nextStep p = (p', NullEvent) /\ _motionType p' = MotionNone) \/
  (exists p' d idx dir, nextStep p = (p', StepEvent d idx dir) /\
     _motionType p' = MotionMove /\ _iters p' <> [] /\
     all_steps_left (_iters p') < all_steps_left (_iters p)).
Proof.
  intros Hm Hne. rewrite (nextStep_moving CoordMapT toDuration p Hm Hne).
  destruct (getNextTime_spec (_iters p) Hne) as (sr & Hsr & _).
  destruct (finished p (as_time sr)) eqn:Ef.
  - left. eexists. split.
    + apply (_nextStep_finished CoordMapT toDuration p _ false (as_time sr) (as_direction sr));
        [|exact Ef].
      unfold chosen. rewrite Hsr. reflexivity.
    + reflexivity.
  - right. rewrite (_nextStep_step CoordMapT toDuration p _ sr Hsr Ef).
    do 4 eexists. split; [reflexivity|]. simpl.
    destruct (not_finished p _ Ef) as (Nn & _).
    split; [exact Hm|]. split.
    { intros E. apply (f_equal length) in E. rewrite length_alter in E.
      destruct (_iters p); [congruence|discriminate]. }
    apply (all_steps_left_alter _ _ _ sr Hsr). apply steps_left_nextStep; assumption.
Qed.

Lemma run_ends_within (Hlater : proposes_later Stepper) (k : nat) : forall p : planner,
  _motionType p = MotionMove -> _iters p <> [] ->
  all_steps_left (_iters p) < Z.of_nat k ->
  exists n, (n <= k)%nat /\ (length (fst (run n p)) < n)%nat /\
            _motionType (snd (run n p)) = MotionNone.
Proof.
  induction k as [|k IH]; intros p Hm Hne Hk.
  { pose proof (all_steps_left_bound (_iters p)). lia. }
  destruct (nextStep_progress Hlater p Hm Hne)
    as [(p' & En & Hm')|(p' & d & idx & dir & En & Hm' & Hne' & Hlt)].
  - exists 1%nat. cbn [MotionPlanner.run]. rewrite En. cbn. split; [lia|]. split; [lia | exact Hm'].
  - destruct (IH p' Hm' Hne' ltac:(lia)) as (n & Hn & Hlen & Hend).
    exists (S n). cbn [MotionPlanner.run]. rewrite En.
    destruct (MotionPlanner.run CoordMapT toDuration n p') as [es p''] eqn:Er.
    cbn in *. split; [lia|]. split; [lia | exact Hend].
Qed.

End Termination.

Section LinearDelta.

Context {HomeStepper Accel : Type}.
Context `{AxisStepper HomeStepper} `{AccelerationProfile Accel}.
Variable CoordMapT : CoordMap.
Variable toDuration : float -> Z.

Local Abbreviation planner :=
  (MotionPlanner.t (Stepper:=LinearDeltaStepper.t) (HomeStepper:=HomeStepper) (Accel:=Accel)).
Local Abbreviation nextStep := (MotionPlanner.nextStep CoordMapT toDuration).
Local Abbreviation run := (MotionPlanner.run CoordMapT toDuration).

(** A move of linear delta steppers ends: within a number of calls of
    [nextStep] that the number of steppers bounds, one call returns the null
    event and leaves the planner without a motion, ready for the next move.
    Whatever the duration, the velocities and the acceleration profile are:
    the times a stepper proposes strictly increase, and a float takes
    finitely many values. *)
Theorem move_ends (p : planner) :
  _motionType p = MotionMove -> _iters p <> [] ->
  exists n, Z.of_nat n <= 1 + Z.of_nat (length (_iters p)) * 2 ^ 43 /\
    (length (fst (run n p)) < n)%nat /\
    _motionType (snd (run n p)) = MotionNone /\
    readyForNextMove (snd (run n p)) = true /\
    nextStep (snd (run n p)) = (snd (run n p), NullEvent).
Proof.
  intros Hm Hne.
  assert (Hlater : proposes_later LinearDeltaStepper.t)
    by (intros s; apply LinearDeltaStepperFacts._nextStep_time).
  pose proof (all_steps_left_bound (_iters p)) as Hb.
  destruct (run_ends_within CoordMapT toDuration Hlater
              (Z.to_nat (all_steps_left (_iters p) + 1)) p Hm Hne ltac:(lia))
    as (n & Hn & Hlen & Hend).
  exists n. split; [lia|]. split; [exact Hlen|]. split; [exact Hend|].
  split; [unfold readyForNextMove; rewrite Hend; reflexivity|].
  apply nextStep_idle. exact Hend.
Qed.

End LinearDelta.

Import Kossel.

Lemma move_ends_witness :
  exists n, Z.of_nat n <= 1 + 3 * 2 ^ 43 /\
    (length (fst (MotionPlanner.run coordMap toNanos n planner1)) < n)%nat /\
    _motionType (snd (MotionPlanner.run coordMap toNanos n planner1)) = MotionNone /\
    readyForNextMove (snd (MotionPlanner.run coordMap toNanos n planner1)) = true /\
    MotionPlanner.nextStep coordMap toNanos (snd (MotionPlanner.run coordMap toNanos n planner1))
      = (snd (MotionPlanner.run coordMap toNanos n planner1), NullEvent).
Proof.
  apply (move_ends coordMap toNanos planner1); [reflexivity | discriminate].
Defined.

End MoveTermination.

(** ** The steps a move emits and the position the planner keeps *)

Module StepAccounting.

Import F32 F32Facts MotionPlanner MotionPlannerFacts.

(** the steps of axis [i] among the events [es], forward less backward *)
Definition net_steps (i : nat) (es : list Event) : Z :=
  foldr (fun e n =>
           match e with
           | StepEvent _ j dir => if (j =? i)%nat then stepDirToSigned dir + n else n
           | NullEvent => n
           end) 0 es.

Lemma net_steps_bound (i : nat) (es : list Event) :
  - Z.of_nat (length es) <= net_steps i es <= Z.of_nat (length es).
Proof.
  induction es as [|e es IH]; [simpl; lia|].
  cbn [net_steps foldr length]. fold (net_steps i es).
  destruct e as [|d j dir]; [lia|].
  destruct (j =? i)%nat; [|lia]. destruct dir; simpl; lia.
Qed.

Section Accounting.

Context {Stepper HomeStepper Accel : Type}.
Context `{AxisStepper Stepper} `{AxisStepper HomeStepper} `{AccelerationProfile Accel}.
Variable CoordMapT : CoordMap.
Variable toDuration : float -> Z.

Local Abbreviation planner :=
  (MotionPlanner.t (Stepper:=Stepper) (HomeStepper:=HomeStepper) (Accel:=Accel)).
Local Abbreviation nextStep := (MotionPlanner.nextStep CoordMapT toDuration).
Local Abbreviation run := (MotionPlanner.run CoordMapT toDuration).

(** a call of [nextStep] that yields no event in a move leaves the position *)
Lemma nextStep_null_position (p p' : planner) :
  _motionType p = MotionMove -> nextStep p = (p', NullEvent) ->
  _destMechanicalPos p' = _destMechanicalPos p.
Proof.
  unfold MotionPlanner.nextStep, isHoming. intros ->. simpl.
  destruct (length (_iters p) =? 0)%nat; [intros E; inversion E; reflexivity|].
  unfold MotionPlanner._nextStep. destruct (chosen p _ false) as [[tm dir]|].
  - destruct ((tm >? _duration p) || (tm <=? zero) || isnan tm)%f32;
      intros E; inversion E; reflexivity.
  - intros E; inversion E; reflexivity.
Qed.

Lemma run_length (n : nat) : forall p : planner, (length (fst (run n p)) <= n)%nat.
Proof.
  induction n as [|n IH]; intros p; cbn [MotionPlanner.run]; [simpl; lia|].
  destruct (MotionPlanner.nextStep CoordMapT toDuration p) as [p' e].
  destruct e as [|d idx dir]; [simpl; lia|].
  specialize (IH p'). destruct (MotionPlanner.run CoordMapT toDuration n p') as [es p''].
  simpl in *. lia.
Qed.

(** In a move, the entry of an axis in the mechanical position is, after any
    number of calls of [nextStep], the entry at the start plus the steps the
    events emitted for this axis: forward steps less backward steps.  The
    entry is an [int]; [n] steps from [v] stay within [int] when [v] is [n]
    away from its ends. *)
Theorem position_counts_steps (n : nat) : forall (p : planner) (i : nat) (v : Z),
  _motionType p = MotionMove ->
  _destMechanicalPos p !! i = Some v ->
  INT_MIN + Z.of_nat n <= v <= INT_MAX - Z.of_nat n ->
  _destMechanicalPos (snd (run n p)) !! i = Some (v + net_steps i (fst (run n p))) /\
  length (_destMechanicalPos (snd (run n p))) = length (_destMechanicalPos p).
Proof.
  induction n as [|n IH]; intros p i v Hm Hv Hr; cbn [MotionPlanner.run].
  - simpl. rewrite Z.add_0_r. auto.
  - destruct (MotionPlanner.nextStep CoordMapT toDuration p) as [p' e] eqn:En.
    destruct e as [|d idx dir].
    + simpl. rewrite (nextStep_null_position p p' Hm En), Z.add_0_r. auto.
    + destruct (nextStep_step_inv CoordMapT toDuration p p' d idx dir Hm En)
        as (s & Hs & _ & _ & _ & Hdir & _ & Hp').
      assert (Hm' : _motionType p' = MotionMove) by (subst p'; exact Hm).
      assert (Hlen : length (_destMechanicalPos p') = length (_destMechanicalPos p))
        by (subst p'; simpl; apply length_alter).
      pose proof (stepDirToSigned_unit dir) as Hu.
      assert (Hv' : _destMechanicalPos p' !! i
                    = Some (if (idx =? i)%nat then v + stepDirToSigned dir else v)).
      { subst p'. simpl. rewrite <- Hdir. destruct (Nat.eqb_spec idx i) as [->|Hne].
        - rewrite list_lookup_alter_eq, Hv. simpl. rewrite wrap_int_id; [reflexivity|].
          unfold in_int, INT_MIN, INT_MAX in *. lia.
        - rewrite list_lookup_alter_ne by exact Hne. exact Hv. }
      destruct (IH p' i _ Hm' Hv') as [IH1 IH2].
      { unfold INT_MIN, INT_MAX in *. destruct (idx =? i)%nat; lia. }
      destruct (MotionPlanner.run CoordMapT toDuration n p') as [es p''] eqn:Er.
      simpl in IH1, IH2 |- *. fold (net_steps i es). split; [|congruence].
      rewrite IH1. f_equal. destruct (idx =? i)%nat; lia.
Qed.

End Accounting.

Import Kossel.

(** The first eight events of the move of 10 mm along x are four steps of
    tower B and four of tower C. *)
Lemma position_counts_steps_witness :
  _destMechanicalPos (snd (MotionPlanner.run coordMap toNanos 8 planner1)) !! 1%nat
    = Some (22913 + net_steps 1 (fst (MotionPlanner.run coordMap toNanos 8 planner1))).
Proof.
  refine (proj1 (position_counts_steps coordMap toNanos 8 planner1 1%nat 22913 _ _ _)).
  - reflexivity.
  - reflexivity.
  - unfold INT_MIN, INT_MAX. lia.
Defined.

End StepAccounting.

(** ** A stepper that has no step left *)

Module F32Nan.

Import F32 F32Facts.
Local Open Scope f32_scope.

Lemma isnan_eq (x : float) : isnan x = true -> x = NAN.
Proof.
  destruct x as [[s|s| |s m e] V]; try discriminate. intros _. apply ext. reflexivity.
Qed.

Lemma add_nan_l (y : float) : NAN + y = NAN.
Proof. apply ext. reflexivity. Qed.

Lemma add_nan_r (x : float) : x + NAN = NAN.
Proof. apply ext. destruct x as [[s|s| |s m e] V]; reflexivity. Qed.

Lemma sub_nan_l (y : float) : NAN - y = NAN.
Proof. apply ext. reflexivity. Qed.

Lemma mul_nan_l (y : float) : NAN * y = NAN.
Proof. apply ext. reflexivity. Qed.

Lemma mul_nan_r (x : float) : x * NAN = NAN.
Proof. apply ext. destruct x as [[s|s| |s m e] V]; reflexivity. Qed.

Lemma div_nan_r (x : float) : x / NAN = NAN.
Proof. apply ext. destruct x as [[s|s| |s m e] V]; reflexivity. Qed.

Lemma sqrt_nan : sqrt NAN = NAN.
Proof. apply ext. reflexivity. Qed.

(** [==] with zero: the float is +0 or -0 *)
Lemma eqb_zero (x : float) : (x =? zero) = true -> exists s, val x = S754_zero s.
Proof.
  destruct x as [[s|s| |s m e] V]; unfold eqb, IEEE754.Beqb; simpl; try discriminate.
  - intros _. exists s. reflexivity.
  - destruct s; discriminate.
  - destruct s; discriminate.
Qed.

End F32Nan.

Module LinearDeltaStepperDone.

Import F32 F32Facts F32Nan LinearDeltaStepper.
Local Open Scope f32_scope.

Lemma testDir_nan_time (st : t) (s : float) : isnan (time st) = true -> testDir st s = NAN.
Proof.
  intros Hn. unfold testDir. destruct (getTerm1AndRootParam st s) as [term1 rp].
  unfold gtb. rewrite !(ltb_nan_l (time st)) by exact Hn.
  destruct (rp <? zero); [reflexivity|]. destruct (term1 <? sqrt rp); reflexivity.
Qed.

(** A stepper whose time is NaN has no step left, and stays as it is:
    [_nextStep] changes neither its time nor its direction nor its count of
    steps, however often it is called. *)
Theorem finished_stepper_stays (st : t) (n : nat) :
  isnan (time st) = true -> Nat.iter n _nextStep st = st.
Proof.
  intros Hn. induction n as [|n IH]; [reflexivity|].
  rewrite Nat.iter_succ, IH.
  unfold _nextStep. rewrite !testDir_nan_time by exact Hn.
  change (isnan NAN) with true. rewrite orb_true_r.
  unfold gtb. rewrite ltb_nan_r by reflexivity.
  unfold with_time, with_step. rewrite <- (isnan_eq _ Hn). destruct st; reflexivity.
Qed.

Lemma testDir_nan_ratio (st : t) (s : float) : vz_over_v2 st = NAN -> testDir st s = NAN.
Proof.
  intros Hv. unfold testDir, getTerm1AndRootParam. rewrite Hv.
  rewrite mul_nan_l, add_nan_r, mul_nan_l, add_nan_l, sub_nan_l.
  change (NAN <? zero) with false. cbv iota. rewrite sqrt_nan, sub_nan_l, add_nan_l.
  unfold gtb. rewrite (ltb_nan_l NAN NAN), (ltb_nan_r (time st) NAN) by reflexivity.
  reflexivity.
Qed.

Lemma _nextStep_nan_ratio (st : t) : vz_over_v2 st = NAN -> _nextStep st = with_time st NAN.
Proof.
  intros Hv. unfold _nextStep. rewrite !testDir_nan_ratio by exact Hv.
  change (isnan NAN) with true. rewrite orb_true_r.
  unfold gtb. rewrite ltb_nan_r by reflexivity. reflexivity.
Qed.

Lemma zero_velocity_ratio (vx vy vz : float) :
  (vx =? zero) = true -> (vy =? zero) = true -> (vz =? zero) = true ->
  vz * (of_int 1 / (vx * vx + vy * vy + vz * vz)) = NAN.
Proof.
  intros Hx Hy Hz.
  destruct (eqb_zero _ Hx) as [sx Ex], (eqb_zero _ Hy) as [sy Ey], (eqb_zero _ Hz) as [sz Ez].
  apply ext. unfold mul, div, add, of_int, val in *. simpl. rewrite Ex, Ey, Ez.
  destruct sx, sy, sz; reflexivity.
Qed.

Lemma nan_velocity_ratio (vx vy vz : float) :
  isnan vx || isnan vy || isnan vz = true ->
  vz * (of_int 1 / (vx * vx + vy * vy + vz * vz)) = NAN.
Proof.
  intros Hn. apply orb_true_iff in Hn. destruct Hn as [Hn|Hn];
    [apply orb_true_iff in Hn; destruct Hn as [Hn|Hn]|];
    rewrite (isnan_eq _ Hn);
    repeat first [rewrite mul_nan_l | rewrite mul_nan_r | rewrite add_nan_l
                  | rewrite add_nan_r | rewrite div_nan_r]; reflexivity.
Qed.

(** A stepper constructed for a segment of no Cartesian velocity (vx, vy
    and vz all zero, as in a move that only extrudes) or of a velocity that
    is NaN, on any tower, for any geometry and position: the first
    [_nextStep] finds no step.  The time becomes NaN; the direction and the
    count of steps stay. *)
Theorem no_velocity_no_step (AxisIdx : DeltaAxis) (idx : nat) (map : DeltaMap)
    (curPos : list Z) (vx vy vz ve : float) (dir0 : StepDirection) :
  ((vx =? zero) && (vy =? zero) && (vz =? zero)) || isnan vx || isnan vy || isnan vz = true ->
  let st := _nextStep (make AxisIdx idx map curPos vx vy vz ve dir0) in
  time st = NAN /\ sTotal st = 0%Z /\ direction st = dir0 /\ index st = idx.
Proof.
  intros Hv st.
  assert (Er : vz_over_v2 (make AxisIdx idx map curPos vx vy vz ve dir0) = NAN).
  { unfold make. destruct (map_xyzeFromMechanical map curPos) as [[[x0 y0] z0] e_]. simpl.
    apply orb_true_iff in Hv. destruct Hv as [Hv|Hv];
      [apply orb_true_iff in Hv; destruct Hv as [Hv|Hv];
       [apply orb_true_iff in Hv; destruct Hv as [Hv|Hv]|]|].
    - apply andb_true_iff in Hv. destruct Hv as [Hv Hz].
      apply andb_true_iff in Hv. destruct Hv as [Hx Hy].
      apply zero_velocity_ratio; assumption.
    - apply nan_velocity_ratio. rewrite Hv. reflexivity.
    - apply nan_velocity_ratio. rewrite Hv, orb_true_r. reflexivity.
    - apply nan_velocity_ratio. rewrite Hv. apply orb_true_r. }
  subst st. rewrite (_nextStep_nan_ratio _ Er).
  unfold make. destruct (map_xyzeFromMechanical map curPos) as [[[x0 y0] z0] e_].
  repeat split.
Qed.

Import Kossel.

Lemma finished_stepper_stays_witness :
  Nat.iter 3 _nextStep (with_time (stepper0 0) NAN) = with_time (stepper0 0) NAN.
Proof. apply (finished_stepper_stays (with_time (stepper0 0) NAN) 3). reflexivity. Defined.

(** tower B at the centre, in a move that only extrudes *)
Lemma no_velocity_no_step_witness :
  time (_nextStep (make DELTA_AXIS_B 1 deltaMap centre zero zero zero (of_int 5) StepForward))
    = NAN.
Proof.
  apply (no_velocity_no_step DELTA_AXIS_B 1 deltaMap centre zero zero zero (of_int 5) StepForward).
  reflexivity.
Defined.

End LinearDeltaStepperDone.

(** ** The stepper of an arc *)

Module LinearDeltaArcStepperFacts.

Import F32 F32Facts LinearDeltaArcStepper.
Local Open Scope f32_scope.

Section Facts.

Variables cos sin : F64.double -> F64.double.
Variable atan2 : F64.double -> F64.double -> F64.double.

Local Abbreviation testDir := (LinearDeltaArcStepper.testDir cos sin atan2).
Local Abbreviation _nextStep := (LinearDeltaArcStepper._nextStep cos sin atan2).

Lemma std_min_cases (a b : float) : std_min a b = a \/ std_min a b = b.
Proof. unfold std_min. destruct (b <? a); auto. Qed.

(** [testDir] returns NaN or a time that is not before [curTime] *)
Lemma testDir_not_before (st : t) (s curTime : float) :
  (testDir st s curTime <? curTime) = false.
Proof.
  unfold LinearDeltaArcStepper.testDir. cbv zeta.
  match goal with
  | |- context [if (?a <? curTime) && (?b <? curTime) then _ else _] =>
      generalize a, b; intros t1 t2
  end.
  destruct (t1 <? curTime) eqn:E1, (t2 <? curTime) eqn:E2; simpl; try assumption.
  - apply ltb_nan_l. reflexivity.
  - destruct (std_min_cases t1 t2) as [-> | ->]; assumption.
Qed.

(** Whatever the trigonometric functions return: the arc stepper never
    proposes a time before the one it had.  After [_nextStep] the time is
    NaN, and the direction and the count of steps are kept, or it is a
    candidate time not before the old one, with the count of steps one
    further in the direction taken. *)
Theorem arc_step_is_not_earlier (st : t) :
  let st' := _nextStep st in
  (time st' <? time st) = false /\
  ((isnan (time st') = true /\ sTotal st' = sTotal st /\ direction st' = direction st) \/
   (isnan (time st') = false /\
    ((direction st' = StepForward /\ sTotal st' = wrap_int (sTotal st + 1) /\
      time st' = testDir st (of_int (wrap_int (sTotal st + 1)) * _MM_STEPS st) (time st)) \/
     (direction st' = StepBackward /\ sTotal st' = wrap_int (sTotal st - 1) /\
      time st' = testDir st (of_int (wrap_int (sTotal st - 1)) * _MM_STEPS st) (time st))))).
Proof.
  intros st'. subst st'. unfold LinearDeltaArcStepper._nextStep.
  pose proof (testDir_not_before st (of_int (wrap_int (sTotal st - 1)) * _MM_STEPS st) (time st))
    as Hn.
  pose proof (testDir_not_before st (of_int (wrap_int (sTotal st + 1)) * _MM_STEPS st) (time st))
    as Hp.
  set (negTime := testDir st (of_int (wrap_int (sTotal st - 1)) * _MM_STEPS st) (time st)) in *.
  set (posTime := testDir st (of_int (wrap_int (sTotal st + 1)) * _MM_STEPS st) (time st)) in *.
  rewrite Hn, Hp. cbn [orb]. unfold gtb.
  assert (Hnan : (NAN <? time st) = false) by (apply ltb_nan_l; reflexivity).
  destruct (isnan negTime) eqn:En.
  - destruct (time st <? posTime) eqn:E; simpl.
    + split; [exact Hp|]. right. split; [apply (ltb_not_nan _ _ E)|]. left. repeat split.
    + split; [exact Hnan|]. left. repeat split.
  - destruct (isnan posTime) eqn:Ep.
    + destruct (time st <? negTime) eqn:E; simpl.
      * split; [exact Hn|]. right. split; [exact En|]. right. repeat split.
      * split; [exact Hnan|]. left. repeat split.
    + destruct (negTime <? posTime); simpl.
      * split; [exact Hn|]. right. split; [exact En|]. right. repeat split.
      * split; [exact Hp|]. right. split; [exact Ep|]. left. repeat split.
Qed.

End Facts.

End LinearDeltaArcStepperFacts.

(** ** Tuples *)

Module TupleUtilFacts.

Import TupleUtil.

Section Facts.

Context {T S : Type}.

(** one call after the other, from the first member to the last *)
Fixpoint each (i : nat) (t : list T) (f : nat -> T -> S -> T * S) (s : S) : list T * S :=
  match t with
  | [] => ([], s)
  | x :: t' =>
      let '(x', s') := f i x s in
      let '(t'', s'') := each (Datatypes.S i) t' f s' in
      (x' :: t'', s'')
  end.

Lemma each_length (t : list T) (f : nat -> T -> S -> T * S) : forall i s,
  length (fst (each i t f s)) = length t.
Proof.
  induction t as [|x t IH]; intros i s; simpl; [reflexivity|].
  destruct (f i x s) as [x' s']. specialize (IH (Datatypes.S i) s').
  destruct (each (Datatypes.S i) t f s') as [t'' s'']. simpl in *. congruence.
Qed.

Lemma each_snoc (t : list T) (x : T) (f : nat -> T -> S -> T * S) : forall i s,
  each i (t ++ [x]) f s =
    let '(t', s') := each i t f s in
    let '(x', s'') := f (i + length t)%nat x s' in
    (t' ++ [x'], s'').
Proof.
  induction t as [|y t IH]; intros i s; simpl.
  - rewrite Nat.add_0_r. destruct (f i x s) as [x' s']. reflexivity.
  - destruct (f i y s) as [y' s']. rewrite IH.
    destruct (each (Datatypes.S i) t f s') as [t' s''].
    replace (Datatypes.S i + length t)%nat with (i + Datatypes.S (length t))%nat by lia.
    destruct (f _ x s'') as [x' s3]. reflexivity.
Qed.

(** [__callOnAll] on the first [n] members *)
Lemma __callOnAll_prefix (f : nat -> T -> S -> T * S) (n : nat) : forall (t : list T) (s : S),
  (n <= length t)%nat ->
  __callOnAll n t f s =
    (fst (each 0 (take n t) f s) ++ drop n t, snd (each 0 (take n t) f s)).
Proof.
  induction n as [|n IH]; intros t s Hn.
  - simpl. rewrite drop_0. reflexivity.
  - cbn [__callOnAll]. rewrite IH by lia.
    destruct (lookup_lt_is_Some_2 t n ltac:(lia)) as [x Hx].
    rewrite (take_S_r t n x Hx), each_snoc.
    pose proof (each_length (take n t) f 0 s) as Hl. rewrite length_take in Hl.
    destruct (each 0 (take n t) f s) as [t' s'] eqn:E. simpl in Hl |- *.
    rewrite lookup_app_r by lia. replace (n - length t')%nat with 0%nat by lia.
    rewrite (drop_S t x n Hx). simpl.
    replace (length (take n t)) with n by (rewrite length_take; lia).
    destruct (f n x s') as [x' s'']. simpl. f_equal.
    rewrite insert_app_r_alt by lia. replace (n - length t')%nat with 0%nat by lia.
    simpl. rewrite <- app_assoc. reflexivity.
Qed.

Lemma callOnAll_each (t : list T) (f : nat -> T -> S -> T * S) (s : S) :
  callOnAll t f s = each 0 t f s.
Proof.
  unfold callOnAll. rewrite __callOnAll_prefix by lia.
  rewrite firstn_all, drop_all, app_nil_r. destruct (each 0 t f s); reflexivity.
Qed.

(** [callOnAll] calls [f] once on every member, in the order of the tuple,
    each call with the number of the member and with the state the call
    before has left; the tuple keeps its length. *)
Theorem callOnAll_in_order (t : list T) (f : nat -> T -> S -> T * S) (s : S) :
  callOnAll t f s = each 0 t f s /\ length (fst (callOnAll t f s)) = length t.
Proof.
  split; [apply callOnAll_each|]. rewrite callOnAll_each. apply each_length.
Qed.

(** the calls of [tupleReduce], one after the other, and their results *)
Fixpoint each_result {R : Type} (i : nat) (t : list T) (f : nat -> T -> S -> T * S * R) (s : S)
    : list T * S * list R :=
  match t with
  | [] => ([], s, [])
  | x :: t' =>
      let '(x', s', res) := f i x s in
      let '(t'', s'', ress) := each_result (Datatypes.S i) t' f s' in
      (x' :: t'', s'', res :: ress)
  end.

Lemma each_result_length {R : Type} (t : list T) (f : nat -> T -> S -> T * S * R) : forall i s,
  length (fst (fst (each_result i t f s))) = length t.
Proof.
  induction t as [|x t IH]; intros i s; simpl; [reflexivity|].
  destruct (f i x s) as [[x' s'] res]. specialize (IH (Datatypes.S i) s').
  destruct (each_result (Datatypes.S i) t f s') as [[t'' s''] ress]. simpl in *. congruence.
Qed.

Lemma each_result_snoc {R : Type} (t : list T) (x : T) (f : nat -> T -> S -> T * S * R) :
  forall i s,
  each_result i (t ++ [x]) f s =
    let '(t', s', ress) := each_result i t f s in
    let '(x', s'', res) := f (i + length t)%nat x s' in
    (t' ++ [x'], s'', ress ++ [res]).
Proof.
  induction t as [|y t IH]; intros i s; simpl.
  - rewrite Nat.add_0_r. destruct (f i x s) as [[x' s'] res]. reflexivity.
  - destruct (f i y s) as [[y' s'] res]. rewrite IH.
    destruct (each_result (Datatypes.S i) t f s') as [[t' s''] ress].
    replace (Datatypes.S i + length t)%nat with (i + Datatypes.S (length t))%nat by lia.
    destruct (f _ x s'') as [[x' s3] res']. reflexivity.
Qed.

Lemma __callOnAllReduce_prefix {R : Type} (f : nat -> T -> S -> T * S * R) (r : R -> R -> R)
    (d : R) (n : nat) : forall (t : list T) (s : S),
  (n <= length t)%nat ->
  __callOnAllReduce n t f r d s =
    let '(t', s', ress) := each_result 0 (take n t) f s in
    (t' ++ drop n t, s', foldl r d ress).
Proof.
  induction n as [|n IH]; intros t s Hn.
  - simpl. rewrite drop_0. reflexivity.
  - cbn [__callOnAllReduce]. rewrite IH by lia.
    destruct (lookup_lt_is_Some_2 t n ltac:(lia)) as [x Hx].
    rewrite (take_S_r t n x Hx), each_result_snoc.
    pose proof (each_result_length (take n t) f 0 s) as Hl. rewrite length_take in Hl.
    destruct (each_result 0 (take n t) f s) as [[t' s'] ress] eqn:E. simpl in Hl |- *.
    rewrite lookup_app_r by lia. replace (n - length t')%nat with 0%nat by lia.
    rewrite (drop_S t x n Hx). simpl.
    replace (length (take n t)) with n by (rewrite length_take; lia).
    destruct (f n x s') as [[x' s''] res]. rewrite foldl_app. simpl. f_equal. f_equal.
    rewrite insert_app_r_alt by lia. replace (n - length t')%nat with 0%nat by lia.
    simpl. rewrite <- app_assoc. reflexivity.
Qed.

(** [tupleReduce] calls [f] once on every member, in the order of the
    tuple, and folds the results from the left, beginning with the default.
    So does [tupleReduceLogicalOr]: its result is true when some call has
    returned true, and a call that returns true does not keep the members
    after it from being called. *)
Theorem tupleReduce_folds_all {R : Type} (t : list T) (f : nat -> T -> S -> T * S * R)
    (r : R -> R -> R) (d : R) (g : nat -> T -> S -> T * S * bool) (s : S) :
  tupleReduce t f r d s =
    (let '(t', s', ress) := each_result 0 t f s in (t', s', foldl r d ress)) /\
  tupleReduceLogicalOr t g s =
    (let '(t', s', ress) := each_result 0 t g s in (t', s', existsb (fun b => b) ress)) /\
  fst (tupleReduceLogicalOr t g s) = callOnAll t (fun i x s => fst (g i x s)) s.
Proof.
  assert (E : forall (R' : Type) (f' : nat -> T -> S -> T * S * R') r' d',
            tupleReduce t f' r' d' s =
            (let '(t', s', ress) := each_result 0 t f' s in (t', s', foldl r' d' ress))).
  { intros R' f' r' d'. unfold tupleReduce. rewrite __callOnAllReduce_prefix by lia.
    rewrite firstn_all, drop_all. destruct (each_result 0 t f' s) as [[t' s'] ress].
    rewrite app_nil_r. reflexivity. }
  split; [apply E|].
  assert (Eor : forall l b, foldl (fun a b => a || b) b l = b || existsb (fun b => b) l).
  { induction l as [|c l IH]; intros b; simpl; [rewrite orb_false_r; reflexivity|].
    rewrite IH. rewrite orb_assoc. reflexivity. }
  assert (E2 : tupleReduceLogicalOr t g s =
               (let '(t', s', ress) := each_result 0 t g s in
                (t', s', existsb (fun b => b) ress))).
  { unfold tupleReduceLogicalOr. rewrite E.
    destruct (each_result 0 t g s) as [[t' s'] ress]. rewrite Eor. reflexivity. }
  split; [exact E2|].
  rewrite E2. rewrite callOnAll_each.
  clear. generalize 0%nat. revert s. induction t as [|x t IH]; intros s i; simpl; [reflexivity|].
  destruct (g i x s) as [[x' s'] res]. simpl. specialize (IH s' (Datatypes.S i)).
  destruct (each_result (Datatypes.S i) t g s') as [[t' s''] ress].
  destruct (each (Datatypes.S i) t _ s') as [t2 s2]. simpl in *. congruence.
Qed.

(** [tupleCallOnIndex] on a tuple that is not empty calls [f] on the member
    [idx], and on the last member when [idx] is past the end: an index out
    of range is not refused. *)
Theorem tupleCallOnIndex_clamps {R : Type} (t : list T) (f : T -> S -> T * S * R)
    (idx : nat) (s : S) :
  t <> [] ->
  let i := Nat.min idx (length t - 1) in
  exists x, t !! i = Some x /\
    tupleCallOnIndex t f idx s =
      (let '(x', s', res) := f x s in Some (<[i := x']> t, s', res)).
Proof.
  intros Hne i. unfold tupleCallOnIndex.
  assert (Hlen : (length t - 1 < length t)%nat) by (destruct t; [congruence|simpl; lia]).
  revert Hlen. subst i. generalize (length t - 1)%nat. intros n.
  induction n as [|n IH]; intros Hn.
  - rewrite Nat.min_0_r. destruct (lookup_lt_is_Some_2 t 0 Hn) as [x Hx].
    exists x. split; [exact Hx|]. simpl. rewrite Hx. simpl. reflexivity.
  - cbn [__callOnIndex]. destruct (Nat.ltb_spec idx (Datatypes.S n)) as [Hlt|Hge].
    + replace (Nat.min idx (Datatypes.S n)) with (Nat.min idx n) by lia.
      apply IH. lia.
    + replace (Nat.min idx (Datatypes.S n)) with (Datatypes.S n) by lia.
      destruct (lookup_lt_is_Some_2 t (Datatypes.S n) Hn) as [x Hx].
      exists x. split; [exact Hx|]. rewrite Hx. simpl. reflexivity.
Qed.

End Facts.

(** a tuple of three counters; the call adds the number of the member *)
Lemma tupleCallOnIndex_clamps_witness :
  tupleCallOnIndex [10; 20; 30]%nat (fun (x : nat) (s : unit) => (x, s, x)) 7 tt
  = Some ([10; 20; 30]%nat, tt, 30%nat).
Proof.
  destruct (tupleCallOnIndex_clamps [10; 20; 30]%nat (fun (x : nat) (s : unit) => (x, s, x)) 7 tt)
    as (x & Hx & E); [discriminate|].
  rewrite E. simpl in Hx. inversion Hx. reflexivity.
Defined.

End TupleUtilFacts.

(** ** The commands of [State::execute] *)

Module StateCommands.

Import F32 F32Facts State.
Local Open Scope f32_scope.
Local Open Scope string_scope.

(** the commands that queue a motion: G0, G1, G2, G3 and G28 *)
Definition moves (cmd : Command) : bool :=
  isOpcode "G0" cmd || isOpcode "G1" cmd || isOpcode "G2" cmd || isOpcode "G3" cmd
  || isOpcode "G28" cmd.

Section Commands.

Context {Planner MotionFlags : Type} `{MotionPlannerT Planner MotionFlags}.
Context {Com Sched IoDrivers : Type}.
Variables MM_PER_IN ARG_NOT_PRESENT : float.
Variable MOTIONFLAGS_DEFAULT : MotionFlags.
Variable clampMoveRate : float -> float.
Variables maxRetractRate maxExtrudeRate : float.
Variables setDefaultMaxSleep setMaxSleep_1ms : Sched -> Sched.
Variables lockAllAxis unlockAllAxis : IoDrivers -> IoDrivers.
Variables setHotendTemp setBedTemp : IoDrivers -> float -> IoDrivers.
Variables getHotendTemp getBedTemp getHotendTargetTemp : IoDrivers -> float.
Variable setFanDutyCycles : float -> IoDrivers * Sched -> IoDrivers * Sched.
Variable to_string : float -> string.
Variable float_to_int : float -> Z.
Variable openGcodeFile : string -> Com.

Local Abbreviation state :=
  (State.t (Planner:=Planner) (Com:=Com) (Sched:=Sched) (IoDrivers:=IoDrivers)).

Variable executeHomeRoutine : state -> HomeOutcome state.

Local Abbreviation isHotendReady := (State.isHotendReady getHotendTemp getHotendTargetTemp).
Local Abbreviation readyToMove := (State.readyToMove getHotendTemp getHotendTargetTemp).
Local Abbreviation homeEndstops :=
  (State.homeEndstops setDefaultMaxSleep setMaxSleep_1ms executeHomeRoutine).
Local Abbreviation execute :=
  (State.execute MM_PER_IN ARG_NOT_PRESENT MOTIONFLAGS_DEFAULT clampMoveRate
     maxRetractRate maxExtrudeRate setDefaultMaxSleep setMaxSleep_1ms lockAllAxis
     unlockAllAxis setHotendTemp setBedTemp getHotendTemp getBedTemp getHotendTargetTemp
     setFanDutyCycles to_string float_to_int openGcodeFile executeHomeRoutine).

Ltac case_if :=
  match goal with
  | |- context [if ?c then _ else _] => destruct c eqn:?
  | |- context [match param_S ?c with _ => _ end] => destruct (param_S c) eqn:?
  | |- context [match gcodeFileStack ?s with _ => _ end] => destruct (gcodeFileStack s) eqn:?
  end.

(** the state in which [homeEndstops] runs the home routine *)
Definition entersHoming (st : state) : state :=
  State.setMoveBuffering setDefaultMaxSleep setMaxSleep_1ms (set_isHoming st true) false.

(** whether a command that is carried out in [st] runs the home routine: G28
    does, and G0 to G3 do on a machine that is not homed, when the planner
    asks for homing before the first movement *)
Definition runs_home (st : state) (cmd : Command) : bool :=
  isOpcode "G28" cmd
  || ((isOpcode "G0" cmd || isOpcode "G1" cmd || isOpcode "G2" cmd || isOpcode "G3" cmd)
      && negb (_isHomed st) && doHomeBeforeFirstMovement (_motionPlanner st)).

(** *** One reply for each command *)

Lemma homeEndstops_cases (st : state) :
  match homeEndstops st with
  | HomeReturns _ => exists after, executeHomeRoutine (entersHoming st) = HomeReturns after
  | HomeThrows what => executeHomeRoutine (entersHoming st) = HomeThrows what
  | HomeExits status => executeHomeRoutine (entersHoming st) = HomeExits status
  end.
Proof.
  unfold State.homeEndstops. fold (entersHoming st).
  destruct (executeHomeRoutine (entersHoming st)) as [after|what|status];
    [exists after|..]; reflexivity.
Qed.

Lemma homeBeforeFirstMovement_cases (st : state) :
  match State.homeBeforeFirstMovement setDefaultMaxSleep setMaxSleep_1ms executeHomeRoutine st with
  | HomeReturns _ => True
  | HomeThrows what =>
      negb (_isHomed st) && doHomeBeforeFirstMovement (_motionPlanner st) = true /\
      executeHomeRoutine (entersHoming st) = HomeThrows what
  | HomeExits status =>
      negb (_isHomed st) && doHomeBeforeFirstMovement (_motionPlanner st) = true /\
      executeHomeRoutine (entersHoming st) = HomeExits status
  end.
Proof.
  unfold State.homeBeforeFirstMovement.
  destruct (negb (_isHomed st) && doHomeBeforeFirstMovement (_motionPlanner st));
    [|exact I].
  pose proof (homeEndstops_cases st) as Hc.
  destruct (homeEndstops st); [exact I|split; [reflexivity|exact Hc]..].
Qed.

Ltac motion_case :=
  match goal with
  | |- context [State.readyToMove ?a ?b ?st] =>
      destruct (State.readyToMove a b st) as [st1 []] eqn:?; cbn [negb fst snd];
      [|right; repeat split; reflexivity]
  end.

(** However a call of [execute] ends, it has sent one reply at most.  A
    call that returns has sent exactly one, or none: none only for a G0, G1,
    G2, G3 or G28 that found the planner busy, the hotend below its target or
    the machine homing, which is left to be read again.  Of its own a call
    ends the process only for M112, after one reply, and is left by an
    exception only for an opcode it has no branch for, before any reply.
    Besides, a G28, and a G0, G1, G2 or G3 that homes first, ends as the home
    routine does when that routine, in whose event loop other commands are
    executed, ends the process or is left by an exception: G28 has sent its
    reply by then, the others have not. *)
Theorem execute_replies_once (st : state) (now : Z) (cmd : Command) :
  let st1 := fst (readyToMove st) in
  match execute st now cmd with
  | Returns st' rs =>
      (exists r, rs = [r]) \/
      (rs = [] /\ moves cmd = true /\ snd (readyToMove st) = false /\ st' = st1)
  | Exits status rs =>
      (isOpcode "M112" cmd = true /\ status = 1%Z /\ rs = [Response_Ok]) \/
      (moves cmd = true /\ snd (readyToMove st) = true /\ runs_home st1 cmd = true /\
       executeHomeRoutine (entersHoming st1) = HomeExits status /\
       rs = if isOpcode "G28" cmd then [Response_Ok] else [])
  | Throws what rs =>
      (moves cmd = false /\ rs = [] /\
       what = "unrecognized gcode opcode: '" ++ opcode cmd ++ "'") \/
      (moves cmd = true /\ snd (readyToMove st) = true /\ runs_home st1 cmd = true /\
       executeHomeRoutine (entersHoming st1) = HomeThrows what /\
       rs = if isOpcode "G28" cmd then [Response_Ok] else [])
  end.
Proof.
  assert (G28' : forall s, isOpcode s cmd = true -> s <> "G28" -> isOpcode "G28" cmd = false).
  { unfold isOpcode. intros s Hs Hne. apply String.eqb_eq in Hs.
    apply String.eqb_neq. congruence. }
  cbn zeta. unfold State.execute, moves, runs_home.
  destruct (isOpcode "G0" cmd) eqn:G0; cbn [orb].
  { rewrite (G28' "G0" G0) by discriminate. cbn [orb andb]. motion_case.
    pose proof (homeBeforeFirstMovement_cases st1) as Hc.
    destruct (State.homeBeforeFirstMovement _ _ _ st1);
      [left; eexists; reflexivity
      |right; destruct Hc as [Hc1 Hc2]; rewrite Hc1; repeat split; assumption..]. }
  destruct (isOpcode "G1" cmd) eqn:G1; cbn [orb].
  { rewrite (G28' "G1" G1) by discriminate. cbn [orb andb]. motion_case.
    pose proof (homeBeforeFirstMovement_cases st1) as Hc.
    destruct (State.homeBeforeFirstMovement _ _ _ st1);
      [left; eexists; reflexivity
      |right; destruct Hc as [Hc1 Hc2]; rewrite Hc1; repeat split; assumption..]. }
  destruct (isOpcode "G2" cmd) eqn:G2; cbn [orb].
  { rewrite (G28' "G2" G2) by discriminate. cbn [orb andb]. motion_case.
    pose proof (homeBeforeFirstMovement_cases st1) as Hc.
    destruct (State.homeBeforeFirstMovement _ _ _ st1);
      [left; eexists; reflexivity
      |right; destruct Hc as [Hc1 Hc2]; rewrite Hc1; repeat split; assumption..]. }
  destruct (isOpcode "G3" cmd) eqn:G3; cbn [orb].
  { rewrite (G28' "G3" G3) by discriminate. cbn [orb andb]. motion_case.
    pose proof (homeBeforeFirstMovement_cases st1) as Hc.
    destruct (State.homeBeforeFirstMovement _ _ _ st1);
      [left; eexists; reflexivity
      |right; destruct Hc as [Hc1 Hc2]; rewrite Hc1; repeat split; assumption..]. }
  destruct (isOpcode "G20" cmd); [left; eexists; reflexivity|].
  destruct (isOpcode "G21" cmd); [left; eexists; reflexivity|].
  destruct (isOpcode "G28" cmd) eqn:G28.
  { motion_case. pose proof (homeEndstops_cases st1) as Hc.
    destruct (homeEndstops st1);
      [left; eexists; reflexivity|right; repeat split; assumption..]. }
  repeat (case_if; try (left; eexists; reflexivity)).
  all: left; repeat split; reflexivity.
Qed.

(** *** Motion commands that have to wait *)

Lemma moves_cases (cmd : Command) : moves cmd = true ->
  opcode cmd = "G0" \/ opcode cmd = "G1" \/ opcode cmd = "G2" \/ opcode cmd = "G3"
  \/ opcode cmd = "G28".
Proof.
  unfold moves, isOpcode. intros Hm.
  repeat (apply orb_true_iff in Hm; destruct Hm as [Hm|Hm]);
    apply String.eqb_eq in Hm; auto 6.
Qed.

Lemma execute_moves (st : state) (now : Z) (cmd : Command) : moves cmd = true ->
  snd (readyToMove st) = false -> execute st now cmd = Returns (fst (readyToMove st)) [].
Proof.
  intros Hm Hr. unfold State.execute, isOpcode.
  destruct (readyToMove st) as [st1 ready] eqn:R. simpl in Hr. subst ready.
  destruct (moves_cases cmd Hm) as [E|[E|[E|[E|E]]]]; rewrite E; reflexivity.
Qed.

Lemma set_isWaitingForHotend_same (st : state) (b : bool) :
  _isWaitingForHotend st = b -> set_isWaitingForHotend st b = st.
Proof. destruct st; simpl; intros ->; reflexivity. Qed.

(** A G0, G1, G2, G3 or G28 that arrives while the planner is in a motion,
    or while the wait of M109 or M116 is on and the hotend is below its
    target, is not consumed: [execute] sends no reply and leaves the state as
    it is, so nothing is queued and the command is read again.  The same
    while the machine is homing, where only the flag of the wait can change
    (it is cleared if the hotend has reached its target). *)
Theorem busy_move_is_not_consumed (st : state) (now : Z) (cmd : Command) :
  moves cmd = true ->
  (negb (readyForNextMove (_motionPlanner st))
   || (_isWaitingForHotend st
       && (getHotendTemp (ioDrivers st) <? getHotendTargetTemp (ioDrivers st))%f32) = true ->
   execute st now cmd = Returns st []) /\
  (_isHoming st = true ->
   execute st now cmd = Returns st [] \/
   execute st now cmd = Returns (set_isWaitingForHotend st false) []).
Proof.
  intros Hm. split.
  - intros Hb.
    assert (R : readyToMove st = (st, false)).
    { unfold State.readyToMove, State.isHotendReady.
      destruct (readyForNextMove (_motionPlanner st)); [|reflexivity]. simpl in Hb |- *.
      apply andb_true_iff in Hb. destruct Hb as [Hw Hc]. rewrite Hw, Hc. simpl.
      rewrite (set_isWaitingForHotend_same st true Hw). reflexivity. }
    rewrite (execute_moves st now cmd Hm); rewrite R; reflexivity.
  - intros Hh.
    assert (R : readyToMove st = (st, false) \/
                readyToMove st = (set_isWaitingForHotend st false, false)).
    { unfold State.readyToMove, State.isHotendReady.
      destruct (readyForNextMove (_motionPlanner st)); [|left; reflexivity]. simpl.
      destruct (_isWaitingForHotend st) eqn:Hw.
      - destruct (getHotendTemp (ioDrivers st) <? getHotendTargetTemp (ioDrivers st))%f32; simpl.
        + left. rewrite (set_isWaitingForHotend_same st true Hw). reflexivity.
        + right. rewrite Hh. reflexivity.
      - simpl. rewrite Hw. simpl. rewrite Hh. left. reflexivity. }
    destruct R as [R|R]; [left|right];
      rewrite (execute_moves st now cmd Hm); rewrite R; reflexivity.
Qed.

(** *** The wait for the hotend *)

(** The wait that M109 and M116 start ends the first time [isHotendReady]
    finds the hotend not below its target; from then on [isHotendReady]
    answers true without reading a temperature, whatever the IO drivers
    measure, until a command starts the wait again.  It changes no member but
    the flag of the wait. *)
Theorem hotend_wait_ends_once (st : state) :
  snd (isHotendReady st) = true ->
  _isWaitingForHotend (fst (isHotendReady st)) = false /\
  fst (isHotendReady st) = set_isWaitingForHotend st false /\
  forall io : IoDrivers,
    isHotendReady (set_ioDrivers (fst (isHotendReady st)) io)
    = (set_ioDrivers (fst (isHotendReady st)) io, true).
Proof.
  unfold State.isHotendReady.
  destruct (_isWaitingForHotend st) eqn:Hw.
  - destruct (getHotendTemp (ioDrivers st) <? getHotendTargetTemp (ioDrivers st))%f32;
      simpl; [discriminate|]. intros _. repeat split.
  - simpl. rewrite Hw. simpl. intros _. split; [reflexivity|].
    split; [symmetry; apply set_isWaitingForHotend_same; exact Hw|].
    intros io. rewrite Hw. reflexivity.
Qed.

(** *** Homing *)

(** [homeEndstops] runs the home routine of the coordinate map with the
    machine marked as homing and the buffering of moves off.  When the
    routine returns, whatever it has done to the state, [homeEndstops] marks
    the machine as homed and no longer homing and puts the buffering of moves
    back as it was before the call, with the maximal sleep of the scheduler
    that goes with it.  When the routine ends the process or is left by an
    exception, so is [homeEndstops]. *)
Theorem homeEndstops_restores_buffering (st : state) :
  let entered := setMoveBuffering setDefaultMaxSleep setMaxSleep_1ms (set_isHoming st true) false in
  _isHoming entered = true /\ _doBufferMoves entered = false /\
  scheduler entered = setMaxSleep_1ms (scheduler st) /\
  match executeHomeRoutine entered with
  | HomeReturns after =>
      exists st',
        homeEndstops st = HomeReturns st' /\
        _isHomed st' = true /\
        _isHoming st' = false /\
        _doBufferMoves st' = _doBufferMoves st /\
        scheduler st'
          = (if _doBufferMoves st then setDefaultMaxSleep else setMaxSleep_1ms) (scheduler after) /\
        _motionPlanner st' = _motionPlanner after /\
        _destMm st' = _destMm after
  | HomeThrows what => homeEndstops st = HomeThrows what
  | HomeExits status => homeEndstops st = HomeExits status
  end.
Proof.
  intros entered. unfold State.homeEndstops. fold entered.
  split; [reflexivity|]. split; [reflexivity|]. split; [reflexivity|].
  destruct (executeHomeRoutine entered) as [after|what|status]; [|reflexivity..].
  eexists. split; [reflexivity|].
  unfold State.setMoveBuffering. cbn [_doBufferMoves set_isHoming].
  destruct (_doBufferMoves st); repeat split.
Qed.

(** *** Files of G-code *)

(** M32 opens the named file on top of the stack of channels and M99 closes
    the channel on top: M32 followed by M99 leaves the state as it was, each
    with one reply.  M99 with no channel open asks for the shutdown that M0
    asks for. *)
Theorem subprogram_call_and_return (st : state) (now now' : Z) (call ret : Command) :
  opcode call = "M32" -> opcode ret = "M99" ->
  (exists st1,
     execute st now call = Returns st1 [Response_Ok] /\
     gcodeFileStack st1 = (gcodeFileStack st ++ [openGcodeFile (specialStringParam call)])%list /\
     execute st1 now' ret = Returns st [Response_Ok]) /\
  (gcodeFileStack st = [] ->
     execute st now ret = Returns (set_doShutdownAfterMoveCompletes st true) [Response_Ok]).
Proof.
  intros Hc Hr. split.
  - eexists. split; [unfold State.execute, isOpcode; rewrite Hc; reflexivity|].
    split; [reflexivity|].
    unfold State.execute, isOpcode. rewrite Hr. cbn [String.eqb Ascii.eqb Bool.eqb orb].
    cbn [gcodeFileStack set_gcodeFileStack].
    destruct (gcodeFileStack st ++ [openGcodeFile (specialStringParam call)])%list eqn:E.
    + destruct (gcodeFileStack st); discriminate.
    + rewrite <- E, removelast_last. destruct st; reflexivity.
  - intros He. unfold State.execute, isOpcode. rewrite Hr, He. reflexivity.
Qed.

(** *** The position mode of the extruder *)

(** two states that differ at most in [_extruderPosMode] *)
Definition same_but_extruderPosMode (a b : state) : Prop :=
  set_extruderPosMode a POS_ABSOLUTE = set_extruderPosMode b POS_ABSOLUTE.

(** the home routine ends the same way, in states that differ at most in
    [_extruderPosMode] when it returns *)
Definition same_home_outcome (o1 o2 : HomeOutcome state) : Prop :=
  match o1, o2 with
  | HomeReturns a, HomeReturns b => same_but_extruderPosMode a b
  | HomeThrows x, HomeThrows y => x = y
  | HomeExits s, HomeExits s' => s = s'
  | _, _ => False
  end.

Definition same_outcome (o1 o2 : Outcome state) : Prop :=
  match o1, o2 with
  | Returns a ra, Returns b rb => same_but_extruderPosMode a b /\ ra = rb
  | Throws x ra, Throws y rb => x = y /\ ra = rb
  | Exits s ra, Exits s' rb => s = s' /\ ra = rb
  | _, _ => False
  end.

Local Abbreviation with_mode := set_extruderPosMode.

Lemma same_but_set (st : state) (m : PositionMode) : same_but_extruderPosMode (with_mode st m) st.
Proof. destruct st; reflexivity. Qed.

Lemma same_but_inv (a b : state) : same_but_extruderPosMode a b -> a = with_mode b (_extruderPosMode a).
Proof.
  unfold same_but_extruderPosMode. destruct a, b; simpl. intros E. inversion E; subst. reflexivity.
Qed.

Section HomeRoutine.

(** The home routine drives [State] through [CoordMapInterface]: it queues
    movements and runs the event loop, in which commands are executed.  How
    it ends is taken not to depend on the position mode of the extruder. *)
Hypothesis Hhome : forall s1 s2 : state,
  same_but_extruderPosMode s1 s2 ->
  same_home_outcome (executeHomeRoutine s1) (executeHomeRoutine s2).

Lemma readyToMove_ext (st : state) (m : PositionMode) :
  readyToMove (with_mode st m) = (with_mode (fst (readyToMove st)) m, snd (readyToMove st)).
Proof.
  unfold State.readyToMove, State.isHotendReady.
  destruct st as [? ? ? ? ? ? ? ? ? homing ? waiting ? ? ? ? pl io ?]; simpl.
  destruct (readyForNextMove pl); simpl; [|reflexivity].
  destruct waiting; simpl;
    [destruct (getHotendTemp io <? getHotendTargetTemp io)%f32; simpl|];
    try reflexivity; destruct homing; reflexivity.
Qed.

Lemma homeEndstops_ext (st : state) (m : PositionMode) :
  same_home_outcome (homeEndstops (with_mode st m)) (homeEndstops st).
Proof.
  unfold State.homeEndstops.
  replace (_doBufferMoves (set_isHoming (with_mode st m) true))
    with (_doBufferMoves (set_isHoming st true)) by (destruct st; reflexivity).
  generalize (_doBufferMoves (set_isHoming st true)). intros b.
  assert (Hin : same_but_extruderPosMode
                  (State.setMoveBuffering setDefaultMaxSleep setMaxSleep_1ms
                     (set_isHoming (with_mode st m) true) false)
                  (State.setMoveBuffering setDefaultMaxSleep setMaxSleep_1ms
                     (set_isHoming st true) false))
    by (destruct st; reflexivity).
  apply Hhome in Hin. unfold same_home_outcome in Hin.
  destruct (executeHomeRoutine _) as [a| |], (executeHomeRoutine _) as [a'| |];
    try contradiction; try exact Hin.
  apply same_but_inv in Hin. rewrite Hin. generalize (_extruderPosMode a). intros m'.
  cbn [same_home_outcome]. destruct a' as []; unfold State.setMoveBuffering.
  destruct b; reflexivity.
Qed.

Lemma homeBeforeFirstMovement_ext (st : state) (m : PositionMode) :
  same_home_outcome
    (State.homeBeforeFirstMovement setDefaultMaxSleep setMaxSleep_1ms executeHomeRoutine
       (with_mode st m))
    (State.homeBeforeFirstMovement setDefaultMaxSleep setMaxSleep_1ms executeHomeRoutine st).
Proof.
  unfold State.homeBeforeFirstMovement.
  replace (_isHomed (with_mode st m)) with (_isHomed st) by (destruct st; reflexivity).
  replace (_motionPlanner (with_mode st m)) with (_motionPlanner st) by (destruct st; reflexivity).
  destruct (negb (_isHomed st) && doHomeBeforeFirstMovement (_motionPlanner st));
    [apply homeEndstops_ext | apply same_but_set].
Qed.

(** The position mode of the extruder, which M82, M83, G90 and G91 set, is
    read by no command: two states that differ only in it give, for every
    command, the same replies and the same end of the call, and leave states
    that again differ only in it.  In particular the E coordinate of a move
    is relative exactly when X, Y and Z are, whatever M82 and M83 have set. *)
Theorem extruder_mode_is_never_read (st1 st2 : state) (now : Z) (cmd : Command) :
  same_but_extruderPosMode st1 st2 ->
  same_outcome (execute st1 now cmd) (execute st2 now cmd) /\
  (forall coord, State.coordToPrimitive MM_PER_IN st1 coord
                 = State.coordToPrimitive MM_PER_IN st2 coord) /\
  State.trueDest MM_PER_IN ARG_NOT_PRESENT st1 cmd = State.trueDest MM_PER_IN ARG_NOT_PRESENT st2 cmd.
Proof.
  intros Hs. rewrite (same_but_inv _ _ Hs). generalize (_extruderPosMode st1). intros m.
  clear Hs st1. rename st2 into st.
  split; [|split; [intros coord|]; destruct st; reflexivity].
  unfold State.execute.
  destruct (isOpcode "G0" cmd || isOpcode "G1" cmd).
  { rewrite readyToMove_ext. destruct (readyToMove st) as [st1 []]; cbn [negb fst snd];
      [|split; [apply same_but_set|reflexivity]].
    pose proof (homeBeforeFirstMovement_ext st1 m) as Hx.
    destruct (State.homeBeforeFirstMovement _ _ _ (with_mode st1 m)) as [a| |],
             (State.homeBeforeFirstMovement _ _ _ st1) as [a'| |];
      cbn [same_home_outcome] in Hx; try contradiction;
      [|split; [exact Hx|reflexivity]..].
    apply same_but_inv in Hx. rewrite Hx. generalize (_extruderPosMode a). intros m'.
    split; [|reflexivity].
    unfold State.setMoveRateOf. destruct (param_F cmd); destruct a'; reflexivity. }
  destruct (isOpcode "G2" cmd || isOpcode "G3" cmd).
  { rewrite readyToMove_ext. destruct (readyToMove st) as [st1 []]; cbn [negb fst snd];
      [|split; [apply same_but_set|reflexivity]].
    pose proof (homeBeforeFirstMovement_ext st1 m) as Hx.
    destruct (State.homeBeforeFirstMovement _ _ _ (with_mode st1 m)) as [a| |],
             (State.homeBeforeFirstMovement _ _ _ st1) as [a'| |];
      cbn [same_home_outcome] in Hx; try contradiction;
      [|split; [exact Hx|reflexivity]..].
    apply same_but_inv in Hx. rewrite Hx. generalize (_extruderPosMode a). intros m'.
    split; [|reflexivity].
    unfold State.setMoveRateOf. destruct (param_F cmd); destruct a'; reflexivity. }
  destruct (isOpcode "G20" cmd); [split; [destruct st|]; reflexivity|].
  destruct (isOpcode "G21" cmd); [split; [destruct st|]; reflexivity|].
  destruct (isOpcode "G28" cmd).
  { rewrite readyToMove_ext. destruct (readyToMove st) as [st1 []]; cbn [negb fst snd];
      [|split; [apply same_but_set|reflexivity]].
    pose proof (homeEndstops_ext st1 m) as Hx.
    destruct (homeEndstops (with_mode st1 m)) as [a| |], (homeEndstops st1) as [a'| |];
      cbn [same_home_outcome] in Hx; try contradiction; (split; [exact Hx|reflexivity]). }
  repeat match goal with
         | |- context [if isOpcode ?s cmd then _ else _] => destruct (isOpcode s cmd) eqn:?
         | |- context [if isTxxx cmd then _ else _] => destruct (isTxxx cmd) eqn:?
         end;
    try (split; [|reflexivity]);
    try apply same_but_set;
    try reflexivity.
  all: try (destruct st; reflexivity).
  all: try (unfold State.executeG92; destruct st, (hasAnyXYZEParam cmd); reflexivity).
  all: try (destruct st; simpl; repeat case_if; split; reflexivity).
  all: try (unfold State.setFanRate; destruct st; simpl;
            match goal with
            | |- context [setFanDutyCycles ?r ?p] => destruct (setFanDutyCycles r p)
            end; reflexivity).
Qed.

End HomeRoutine.

(** *** A linear move *)



(** *** Homed once, homed for good *)

(** No command takes the mark of a homed machine away: after any command
    that returns, a machine that was homed is homed, also after M18 and M84,
    which release the motors.  And a G0, G1, G2 or G3 that is carried out
    leaves the machine homed whenever the planner asks for homing before the
    first movement. *)
Theorem homed_stays_homed (st st' : state) (now : Z) (cmd : Command) (rs : list Response) :
  execute st now cmd = Returns st' rs ->
  (_isHomed st = true -> _isHomed st' = true) /\
  (isOpcode "G0" cmd || isOpcode "G1" cmd || isOpcode "G2" cmd || isOpcode "G3" cmd = true ->
   rs <> [] -> doHomeBeforeFirstMovement (_motionPlanner (fst (readyToMove st))) = true ->
   _isHomed st' = true).
Proof.
  assert (Hr : forall s : state, _isHomed (fst (readyToMove s)) = _isHomed s).
  { intros s. unfold State.readyToMove, State.isHotendReady.
    destruct s as [? ? ? ? ? ? ? ? ? homing ? waiting ? ? ? ? pl io ?]; simpl.
    destruct (readyForNextMove pl); simpl; [|reflexivity].
    destruct waiting; simpl;
      [destruct (getHotendTemp io <? getHotendTargetTemp io)%f32; simpl|];
      try reflexivity; destruct homing; reflexivity. }
  assert (Hh : forall s a : state, homeEndstops s = HomeReturns a -> _isHomed a = true).
  { intros s a. unfold State.homeEndstops.
    destruct (executeHomeRoutine _); intros E; inversion E; reflexivity. }
  assert (Hb : forall s a : state,
            _isHomed s = true \/ doHomeBeforeFirstMovement (_motionPlanner s) = true ->
            State.homeBeforeFirstMovement setDefaultMaxSleep setMaxSleep_1ms
              executeHomeRoutine s = HomeReturns a ->
            _isHomed a = true).
  { intros s a Hs. unfold State.homeBeforeFirstMovement.
    destruct (_isHomed s) eqn:E; simpl; [intros Ea; inversion Ea; subst; exact E|].
    destruct Hs as [Hs|Hs]; [discriminate|]. rewrite Hs. apply Hh. }
  assert (Hq : forall (s : state) c,
            _isHomed (State.setMoveRateOf MM_PER_IN clampMoveRate s c) = _isHomed s).
  { intros s c. unfold State.setMoveRateOf. destruct (param_F c); destruct s; reflexivity. }
  assert (Hm : forall (s : state) t dest v fl,
            _isHomed (State.queueMovement maxRetractRate maxExtrudeRate s t dest v fl)
            = _isHomed s) by (intros []; reflexivity).
  assert (Ha : forall (s : state) t dest c cw,
            _isHomed (State.queueArc maxRetractRate maxExtrudeRate s t dest c cw)
            = _isHomed s) by (intros []; reflexivity).
  unfold State.execute.
  destruct (isOpcode "G0" cmd || isOpcode "G1" cmd) eqn:G01.
  { specialize (Hr st). destruct (readyToMove st) as [st1 []] eqn:R; simpl in Hr |- *.
    - destruct (State.homeBeforeFirstMovement _ _ _ st1) as [a| |] eqn:Hx;
        intros E; inversion E; subst; clear E.
      rewrite Hm, Hq. split; [intros Hs|intros _ _ Hd]; apply (Hb st1 a); auto; left; congruence.
    - intros E; inversion E; subst; clear E.
      split; [intros Hs; congruence | intros _ Hne; congruence]. }
  destruct (isOpcode "G2" cmd || isOpcode "G3" cmd) eqn:G23.
  { specialize (Hr st). destruct (readyToMove st) as [st1 []] eqn:R; simpl in Hr |- *.
    - destruct (State.homeBeforeFirstMovement _ _ _ st1) as [a| |] eqn:Hx;
        intros E; inversion E; subst; clear E.
      rewrite Ha, Hq. split; [intros Hs|intros _ _ Hd]; apply (Hb st1 a); auto; left; congruence.
    - intros E; inversion E; subst; clear E.
      split; [intros Hs; congruence | intros _ Hne; congruence]. }
  apply orb_false_iff in G23. destruct G23 as [G2 G3]. rewrite G2, G3. cbn [orb].
  intros E. split; [|discriminate]. revert E.
  destruct (isOpcode "G20" cmd);
    [intros E; inversion E; subst; destruct st; simpl; auto|].
  destruct (isOpcode "G21" cmd);
    [intros E; inversion E; subst; destruct st; simpl; auto|].
  destruct (isOpcode "G28" cmd).
  { specialize (Hr st). destruct (readyToMove st) as [st1 []] eqn:R; simpl in Hr |- *.
    - destruct (homeEndstops st1) as [a| |] eqn:Hx; intros E; inversion E; subst.
      intros _. exact (Hh st1 st' Hx).
    - intros E; inversion E; subst. congruence. }
  repeat (case_if; try discriminate);
    try (intros E; inversion E; subst; clear E; destruct st; simpl; intros Hs; exact Hs).
  all: try (intros E; inversion E; subst; clear E; unfold State.executeG92, State.setFanRate;
            destruct st; simpl;
            repeat match goal with
                   | |- context [if ?c then _ else _] => destruct c
                   | |- context [setFanDutyCycles ?r ?p] => destruct (setFanDutyCycles r p)
                   end; simpl; intros Hs; exact Hs).
  all: intros E; inversion E; subst; auto.
Qed.

(** *** G92 without parameters *)

Lemma sub_zero_r (x : float) : (x - zero)%f32 = x.
Proof. apply ext. destruct x as [[s|s| |s m e] V]; try destruct s; reflexivity. Qed.

Lemma add_zero_eqb (z x : float) : (z =? zero)%f32 = true -> isnan x = false ->
  (z + x =? x)%f32 = true.
Proof.
  intros Hz Hn. destruct (F32Nan.eqb_zero z Hz) as [sz Ez].
  destruct x as [[s|s| |s m e] V]; try discriminate;
    unfold eqb, add, IEEE754.Beqb, IEEE754.Badd, val in *; simpl in *; rewrite Ez; simpl.
  - destruct sz, s; reflexivity.
  - destruct s; reflexivity.
  - unfold SFeqb, SFcompare. destruct s; rewrite Z.compare_refl, Pos.compare_cont_refl; reflexivity.
Qed.

Lemma mul_zero_finite (k : float) : F32Arith.is_finite k = true -> (zero * k =? zero)%f32 = true.
Proof. destruct k as [[s|s| |s m e] V]; try discriminate; intros _; destruct s; reflexivity. Qed.

(** [a == b] on each component that is not NaN in [b] *)
Definition v4_eq (a b : Vector4f) : Prop :=
  (isnan (v4_x b) = false -> (v4_x a =? v4_x b)%f32 = true) /\
  (isnan (v4_y b) = false -> (v4_y a =? v4_y b)%f32 = true) /\
  (isnan (v4_z b) = false -> (v4_z a =? v4_z b)%f32 = true) /\
  (isnan (v4_e b) = false -> (v4_e a =? v4_e b)%f32 = true).

(** G92 without X, Y, Z or E makes the current destination the point that
    the host calls (0, 0, 0, 0): the offset becomes the destination itself,
    and with absolute coordinates, in millimetres or in inches, the point
    (0, 0, 0, 0) of a later command converts to the current destination. *)
Theorem G92_makes_here_the_origin (st : state) (now : Z) (cmd : Command) :
  opcode cmd = "G92" -> hasAnyXYZEParam cmd = false ->
  positionMode st = POS_ABSOLUTE -> F32Arith.is_finite MM_PER_IN = true ->
  exists st',
    execute st now cmd = Returns st' [Response_Ok] /\
    _hostZeroOffset st' = _destMm st /\
    _destMm st' = _destMm st /\
    v4_eq (State.coordToPrimitive MM_PER_IN st' (mkVector4f zero zero zero zero)) (_destMm st).
Proof.
  intros Hop Hno Hpos Hfin. eexists. split.
  { unfold State.execute, isOpcode. rewrite Hop. reflexivity. }
  unfold State.executeG92. rewrite Hno. cbn [negb].
  unfold State.setHostZeroPos, v4_sub. cbn [v4_x v4_y v4_z v4_e].
  rewrite !sub_zero_r.
  assert (Ed : forall d : Vector4f, mkVector4f (v4_x d) (v4_y d) (v4_z d) (v4_e d) = d)
    by (intros []; reflexivity).
  rewrite Ed. split; [destruct st; reflexivity|]. split; [destruct st; reflexivity|].
  unfold State.coordToPrimitive, State.coordToAbsolute, State.coordToMm, State.positionMode in *.
  destruct st as [? ? ? pm ? um d ? ? ? ? ? ? ? ? ? ? ? ?]. simpl in Hpos |- *. subst pm.
  assert (Hz : forall z, (z =? zero)%f32 = true ->
                v4_eq (v4_add (mkVector4f z z z z) d) d).
  { intros z Hz. unfold v4_eq, v4_add. cbn [v4_x v4_y v4_z v4_e].
    repeat split; intros Hn; apply add_zero_eqb; assumption. }
  destruct um; unfold v4_scale; cbn [v4_x v4_y v4_z v4_e].
  - apply Hz. reflexivity.
  - apply Hz. apply mul_zero_finite. exact Hfin.
Qed.

End Commands.

Import Kossel KosselState.

(** the reference machine in the middle of the move [planner1] *)
Definition stateMoving : state := State.set_motionPlanner state0 planner1.

(** the reference machine with the destination (10, 20, 30, 40) *)
Definition stateAway : state :=
  State.set_destMm state0 (mkVector4f (of_int 10) (of_int 20) (of_int 30) (of_int 40)).

(** A G5 that arrives while G28 homes: the exception leaves the home
    routine and [execute], after the reply to G28. *)
Example G28_ends_as_homing_does :
  State.execute MM_PER_IN NAN tt (fun f => f) (of_int 5) (of_int 5)
    (fun s => s) (fun s => s) (fun io => io) (fun io => io) (fun io _ => io)
    (fun io _ => io) (fun _ => zero) (fun _ => zero) (fun _ => zero) (fun _ ios => ios)
    (fun _ => EmptyString) (fun _ => 0%Z) (fun _ => tt)
    (fun _ => State.HomeThrows "unrecognized gcode opcode: 'G5'")
    state0 0%Z (command "G28")
  = Throws "unrecognized gcode opcode: 'G5'" [Response_Ok].
Proof. reflexivity. Qed.

Lemma busy_move_is_not_consumed_witness :
  KosselState.execute stateMoving 0 (command "G1") = Returns stateMoving [].
Proof.
  apply (busy_move_is_not_consumed MM_PER_IN NAN tt (fun f => f) (of_int 5) (of_int 5)
           (fun s => s) (fun s => s) (fun io => io) (fun io => io) (fun io _ => io)
           (fun io _ => io) (fun _ => zero) (fun _ => zero) (fun _ => zero) (fun _ ios => ios)
           (fun _ => EmptyString) (fun _ => 0%Z) (fun _ => tt) (fun st => State.HomeReturns st)
           stateMoving 0%Z (command "G1")); reflexivity.
Defined.

Lemma hotend_wait_ends_once_witness :
  State._isWaitingForHotend
    (fst (State.isHotendReady (fun _ : unit => of_int 200) (fun _ => of_int 200)
            (State.set_isWaitingForHotend state0 true))) = false.
Proof.
  apply (hotend_wait_ends_once (fun _ : unit => of_int 200) (fun _ => of_int 200)
           (State.set_isWaitingForHotend state0 true)).
  reflexivity.
Defined.

Lemma subprogram_call_and_return_witness :
  exists st1,
    KosselState.execute state0 0 (command "M32") = Returns st1 [Response_Ok] /\
    State.gcodeFileStack st1 = [tt; tt] /\
    KosselState.execute st1 1 (command "M99") = Returns state0 [Response_Ok].
Proof.
  apply (subprogram_call_and_return MM_PER_IN NAN tt (fun f => f) (of_int 5) (of_int 5)
           (fun s => s) (fun s => s) (fun io => io) (fun io => io) (fun io _ => io)
           (fun io _ => io) (fun _ => zero) (fun _ => zero) (fun _ => zero) (fun _ ios => ios)
           (fun _ => EmptyString) (fun _ => 0%Z) (fun _ => tt) (fun st => State.HomeReturns st)
           state0 0%Z 1%Z (command "M32") (command "M99")); reflexivity.
Defined.

(** a G1 with E after M83 and after M82 *)
Lemma extruder_mode_is_never_read_witness :
  State.trueDest MM_PER_IN NAN (State.set_extruderPosMode stateAway POS_RELATIVE)
    (mkCommand "G1" None None None (Some (of_int 1)) None None None None None EmptyString)
  = State.trueDest MM_PER_IN NAN stateAway
      (mkCommand "G1" None None None (Some (of_int 1)) None None None None None EmptyString).
Proof.
  apply (extruder_mode_is_never_read MM_PER_IN NAN tt (fun f => f) (of_int 5) (of_int 5)
           (fun s => s) (fun s => s) (fun io => io) (fun io => io) (fun io _ => io)
           (fun io _ => io) (fun _ => zero) (fun _ => zero) (fun _ => zero) (fun _ ios => ios)
           (fun _ => EmptyString) (fun _ => 0%Z) (fun _ => tt) (fun st => State.HomeReturns st)
           (fun s1 s2 Hs => Hs)
           (State.set_extruderPosMode stateAway POS_RELATIVE) stateAway 0%Z
           (mkCommand "G1" None None None (Some (of_int 1)) None None None None None EmptyString)).
  reflexivity.
Defined.


(** M18 releases the motors of a homed machine, which stays homed *)
Lemma homed_stays_homed_witness :
  State._isHomed (State.set_ioDrivers (State.set_isHomed state0 true) tt) = true.
Proof.
  refine (proj1 (homed_stays_homed MM_PER_IN NAN tt (fun f => f) (of_int 5) (of_int 5)
           (fun s => s) (fun s => s) (fun io => io) (fun io => io) (fun io _ => io)
           (fun io _ => io) (fun _ => zero) (fun _ => zero) (fun _ => zero) (fun _ ios => ios)
           (fun _ => EmptyString) (fun _ => 0%Z) (fun _ => tt) (fun st => State.HomeReturns st)
           (State.set_isHomed state0 true) (State.set_ioDrivers (State.set_isHomed state0 true) tt)
           0%Z (command "M18") [Response_Ok] _) _); reflexivity.
Defined.

Lemma G92_makes_here_the_origin_witness :
  exists st',
    KosselState.execute stateAway 0 (command "G92") = Returns st' [Response_Ok] /\
    State._hostZeroOffset st' = State._destMm stateAway /\
    State._destMm st' = State._destMm stateAway /\
    v4_eq (State.coordToPrimitive MM_PER_IN st' (mkVector4f zero zero zero zero))
          (State._destMm stateAway).
Proof.
  apply (G92_makes_here_the_origin MM_PER_IN NAN tt (fun f => f) (of_int 5) (of_int 5)
           (fun s => s) (fun s => s) (fun io => io) (fun io => io) (fun io _ => io)
           (fun io _ => io) (fun _ => zero) (fun _ => zero) (fun _ => zero) (fun _ ios => ios)
           (fun _ => EmptyString) (fun _ => 0%Z) (fun _ => tt) (fun st => State.HomeReturns st)
           stateAway 0%Z (command "G92")); reflexivity.
Defined.

End StateCommands.

(** ** The events that reach the scheduler *)

Module StateEventsFacts.

Import State StateEvents.

Section Facts.

Context {Planner Com Sched IoDrivers OutputEvent : Type}.
Variable isNull : OutputEvent -> bool.
Variable time : OutputEvent -> Z.
Variable isRoomInBuffer : Sched -> bool.
Variable queue : Sched -> OutputEvent -> Sched.
Variable exitEventLoop : Sched -> Sched.
Variable tuplePeekNextEvent : IoDrivers -> IoDrivers * OutputEvent.
Variable tupleConsumeNextEvent : IoDrivers -> IoDrivers.
Variable peekNextEvent : Planner -> Planner * OutputEvent.
Variable consumeNextEvent : Planner -> Planner.

Local Abbreviation state :=
  (State.t (Planner:=Planner) (Com:=Com) (Sched:=Sched) (IoDrivers:=IoDrivers)).
Local Abbreviation onIdleCpu_events :=
  (StateEvents.onIdleCpu_events isNull time isRoomInBuffer queue exitEventLoop
     tuplePeekNextEvent tupleConsumeNextEvent peekNextEvent consumeNextEvent).

(** The end of the block, after the planner has been asked again for its
    next event. *)
Definition leaves (st : state) (motionNeedsCpu : bool) : state * Next :=
  let '(pl, evt) := peekNextEvent (_motionPlanner st) in
  let st := set_motionPlanner st pl in
  if isNull evt
     && ((_doShutdownAfterMoveCompletes st || _doExitEventLoopAfterMoveCompletes st)
         && negb motionNeedsCpu)
  then (set_scheduler (set_doExitEventLoopAfterMoveCompletes st false)
          (exitEventLoop (scheduler st)), ReturnsFalse)
  else (st, GoesOn motionNeedsCpu).

Lemma leaves_spec (st : state) (b : bool) :
  let st' := fst (leaves st b) in
  let exits :=
    isNull (snd (peekNextEvent (_motionPlanner st)))
    && (_doShutdownAfterMoveCompletes st || _doExitEventLoopAfterMoveCompletes st)
    && negb b in
  _motionPlanner st' = fst (peekNextEvent (_motionPlanner st)) /\
  snd (leaves st b) = (if exits then ReturnsFalse else GoesOn b) /\
  scheduler st' = (if exits then exitEventLoop (scheduler st) else scheduler st) /\
  _doExitEventLoopAfterMoveCompletes st'
    = (if exits then false else _doExitEventLoopAfterMoveCompletes st) /\
  ioDrivers st' = ioDrivers st /\
  _lastMotionPlannedTime st' = _lastMotionPlannedTime st /\
  _doShutdownAfterMoveCompletes st' = _doShutdownAfterMoveCompletes st /\
  _doBufferMoves st' = _doBufferMoves st /\
  _destMm st' = _destMm st /\
  gcodeFileStack st' = gcodeFileStack st.
Proof.
  unfold leaves. destruct st as [sd ex ? ? ? ? ? ? ? ? ? ? ? ? ? sch pl ? ?].
  cbn [_motionPlanner]. destruct (peekNextEvent pl) as [pl2 evt].
  cbn [set_motionPlanner _doShutdownAfterMoveCompletes _doExitEventLoopAfterMoveCompletes
       fst snd].
  rewrite <- andb_assoc.
  destruct (isNull evt && ((sd || ex) && negb b)); cbn; repeat split.
Qed.

Lemma onIdleCpu_events_full (st : state) (now : Z) :
  isRoomInBuffer (scheduler st) = false -> onIdleCpu_events st now = (st, GoesOn false).
Proof. intros H. unfold StateEvents.onIdleCpu_events. rewrite H. reflexivity. Qed.

Lemma onIdleCpu_events_io (st : state) (now : Z) io1 ioEvt pl1 motionEvt :
  isRoomInBuffer (scheduler st) = true ->
  tuplePeekNextEvent (ioDrivers st) = (io1, ioEvt) ->
  peekNextEvent (_motionPlanner st) = (pl1, motionEvt) ->
  negb (isNull ioEvt) && (isNull motionEvt || (time ioEvt <=? time motionEvt)) = true ->
  onIdleCpu_events st now =
    leaves (set_ioDrivers (set_scheduler (set_motionPlanner st pl1)
                             (queue (scheduler st) ioEvt))
              (tupleConsumeNextEvent io1)) false.
Proof.
  intros Hroom Hio Hpl Hsvc.
  unfold StateEvents.onIdleCpu_events, leaves. rewrite Hroom, Hio.
  destruct st. cbn in *. rewrite Hpl. cbn. rewrite Hsvc. cbn.
  destruct (peekNextEvent pl1) as [pl2 evt]. cbn.
  destruct (isNull evt); [|reflexivity]. cbn. rewrite andb_true_r. reflexivity.
Qed.

Lemma onIdleCpu_events_motion (st : state) (now : Z) io1 ioEvt pl1 motionEvt :
  isRoomInBuffer (scheduler st) = true ->
  tuplePeekNextEvent (ioDrivers st) = (io1, ioEvt) ->
  peekNextEvent (_motionPlanner st) = (pl1, motionEvt) ->
  negb (isNull ioEvt) && (isNull motionEvt || (time ioEvt <=? time motionEvt)) = false ->
  _doBufferMoves st || (_lastMotionPlannedTime st <=? now) = true ->
  isNull motionEvt = false ->
  onIdleCpu_events st now =
    leaves (set_lastMotionPlannedTime
              (set_scheduler (set_motionPlanner (set_ioDrivers st io1) (consumeNextEvent pl1))
                 (queue (scheduler st) motionEvt))
              (time motionEvt))
           (isRoomInBuffer (queue (scheduler st) motionEvt)).
Proof.
  intros Hroom Hio Hpl Hsvc Hold Hnull.
  unfold StateEvents.onIdleCpu_events, leaves. rewrite Hroom, Hio.
  destruct st. cbn in *. rewrite Hpl. cbn. rewrite Hsvc, Hold, Hnull. cbn.
  destruct (peekNextEvent (consumeNextEvent pl1)) as [pl2 evt]. cbn.
  destruct (isNull evt); reflexivity.
Qed.

Lemma onIdleCpu_events_none (st : state) (now : Z) io1 ioEvt pl1 motionEvt :
  isRoomInBuffer (scheduler st) = true ->
  tuplePeekNextEvent (ioDrivers st) = (io1, ioEvt) ->
  peekNextEvent (_motionPlanner st) = (pl1, motionEvt) ->
  negb (isNull ioEvt) && (isNull motionEvt || (time ioEvt <=? time motionEvt)) = false ->
  (_doBufferMoves st || (_lastMotionPlannedTime st <=? now)) && negb (isNull motionEvt)
    = false ->
  onIdleCpu_events st now = leaves (set_motionPlanner (set_ioDrivers st io1) pl1) false.
Proof.
  intros Hroom Hio Hpl Hsvc Hold.
  unfold StateEvents.onIdleCpu_events, leaves. rewrite Hroom, Hio.
  destruct st as [sd ex bm ? ? ? ? ? ? ? ? ? last ? ? sch pl io ?].
  cbn in *. rewrite Hpl. cbn. rewrite Hsvc.
  destruct bm; [|destruct (last <=? now)]; cbn in Hold |- *; try rewrite Hold; cbn.
  all: destruct (peekNextEvent pl1) as [pl2 evt]; cbn.
  all: destruct (isNull evt); [|reflexivity]; cbn; rewrite andb_true_r; reflexivity.
Qed.

(** One call hands at most one event to the scheduler, and which one is
    decided by the times.  With no room in the buffer of the scheduler
    nothing changes.  With room: the event of the IO drivers is handed over
    and consumed when there is one and the planner has none or a later one
    (the IO drivers go first when the times are equal); otherwise the event
    of the planner is handed over and consumed when there is one and moves
    are buffered or the time of the last planned motion has come, and that
    time becomes the time of the event; otherwise nothing is handed over.
    The block then makes [onIdleCpu] return false exactly when the planner
    has no further event, a shutdown or an exit was asked for and the
    scheduler has not just been left with room after a motion event: it asks
    the scheduler to leave the event loop and clears the flag of the exit,
    not that of the shutdown. *)
Theorem one_event_in_time_order (st : state) (now : Z) :
  let io0 := fst (tuplePeekNextEvent (ioDrivers st)) in
  let ioEvt := snd (tuplePeekNextEvent (ioDrivers st)) in
  let pl0 := fst (peekNextEvent (_motionPlanner st)) in
  let motionEvt := snd (peekNextEvent (_motionPlanner st)) in
  let ioFirst :=
    negb (isNull ioEvt) && (isNull motionEvt || (time ioEvt <=? time motionEvt)) in
  let motionDue :=
    negb ioFirst && (_doBufferMoves st || (_lastMotionPlannedTime st <=? now))
    && negb (isNull motionEvt) in
  let st' := fst (onIdleCpu_events st now) in
  let next := snd (onIdleCpu_events st now) in
  (isRoomInBuffer (scheduler st) = false -> onIdleCpu_events st now = (st, GoesOn false)) /\
  (isRoomInBuffer (scheduler st) = true ->
   exists (sch1 : Sched) (pl1 : Planner) (motionNeedsCpu : bool),
     (ioFirst = true ->
        sch1 = queue (scheduler st) ioEvt /\
        ioDrivers st' = tupleConsumeNextEvent io0 /\ pl1 = pl0 /\
        motionNeedsCpu = false /\
        _lastMotionPlannedTime st' = _lastMotionPlannedTime st) /\
     (motionDue = true ->
        sch1 = queue (scheduler st) motionEvt /\
        ioDrivers st' = io0 /\ pl1 = consumeNextEvent pl0 /\
        motionNeedsCpu = isRoomInBuffer sch1 /\
        _lastMotionPlannedTime st' = time motionEvt) /\
     (ioFirst = false -> motionDue = false ->
        sch1 = scheduler st /\
        ioDrivers st' = io0 /\ pl1 = pl0 /\
        motionNeedsCpu = false /\
        _lastMotionPlannedTime st' = _lastMotionPlannedTime st) /\
     let exits :=
       isNull (snd (peekNextEvent pl1))
       && (_doShutdownAfterMoveCompletes st || _doExitEventLoopAfterMoveCompletes st)
       && negb motionNeedsCpu in
     _motionPlanner st' = fst (peekNextEvent pl1) /\
     next = (if exits then ReturnsFalse else GoesOn motionNeedsCpu) /\
     scheduler st' = (if exits then exitEventLoop sch1 else sch1) /\
     _doExitEventLoopAfterMoveCompletes st'
       = (if exits then false else _doExitEventLoopAfterMoveCompletes st)) /\
  _doShutdownAfterMoveCompletes st' = _doShutdownAfterMoveCompletes st /\
  _doBufferMoves st' = _doBufferMoves st /\
  _destMm st' = _destMm st /\
  gcodeFileStack st' = gcodeFileStack st.
Proof.
  intros io0 ioEvt pl0 motionEvt ioFirst motionDue st' next.
  split; [apply onIdleCpu_events_full|].
  destruct (isRoomInBuffer (scheduler st)) eqn:Room.
  2:{ split; [discriminate|]. subst st'. rewrite (onIdleCpu_events_full _ _ Room).
      repeat split. }
  subst io0 ioEvt pl0 motionEvt st' next.
  destruct (tuplePeekNextEvent (ioDrivers st)) as [io0 ioEvt] eqn:Hio.
  destruct (peekNextEvent (_motionPlanner st)) as [pl0 motionEvt] eqn:Hpl.
  cbn [fst snd] in ioFirst, motionDue |- *.
  destruct ioFirst eqn:Hsvc; subst ioFirst.
  - subst motionDue. cbn [negb andb].
    rewrite (onIdleCpu_events_io _ now _ _ _ _ Room Hio Hpl Hsvc).
    match goal with |- context [leaves ?s ?b] =>
      destruct (leaves_spec s b) as (Hp & Hn & Hs & Hx & Hi & Ht & Hsd & Hbm & Hd & Hg) end.
    rewrite Hsd, Hbm, Hd, Hg, Hp, Hn, Hs, Hx, Hi, Ht.
    split; [intros _|destruct st; repeat split].
    exists (queue (scheduler st) ioEvt), pl0, false.
    split; [intros _; destruct st; repeat split|].
    split; [discriminate|]. split; [discriminate|].
    destruct st; repeat split.
  - destruct motionDue eqn:Hdue; subst motionDue.
    + cbn [negb andb] in Hdue. apply andb_true_iff in Hdue. destruct Hdue as [Hold Nm].
      apply negb_true_iff in Nm.
      rewrite (onIdleCpu_events_motion _ now _ _ _ _ Room Hio Hpl Hsvc Hold Nm).
      match goal with |- context [leaves ?s ?b] =>
        destruct (leaves_spec s b) as (Hp & Hn & Hs & Hx & Hi & Ht & Hsd & Hbm & Hd & Hg) end.
      rewrite Hsd, Hbm, Hd, Hg, Hp, Hn, Hs, Hx, Hi, Ht.
      split; [intros _|destruct st; repeat split].
      exists (queue (scheduler st) motionEvt), (consumeNextEvent pl0),
        (isRoomInBuffer (queue (scheduler st) motionEvt)).
      split; [discriminate|].
      split; [intros _; destruct st; repeat split|].
      split; [discriminate|].
      destruct st; repeat split.
    + cbn [negb andb] in Hdue.
      rewrite (onIdleCpu_events_none _ now _ _ _ _ Room Hio Hpl Hsvc Hdue).
      match goal with |- context [leaves ?s ?b] =>
        destruct (leaves_spec s b) as (Hp & Hn & Hs & Hx & Hi & Ht & Hsd & Hbm & Hd & Hg) end.
      rewrite Hsd, Hbm, Hd, Hg, Hp, Hn, Hs, Hx, Hi, Ht.
      split; [intros _|destruct st; repeat split].
      exists (scheduler st), pl0, false.
      split; [discriminate|]. split; [discriminate|].
      split; [intros _ _; destruct st; repeat split|].
      destruct st; repeat split.
Qed.

End Facts.

End StateEventsFacts.

(** ** The earlier State *)

Module LegacyUnitsFacts.

Import F32 F32Facts LegacyUnits.
Local Open Scope f32_scope.

Section Facts.

Variable MM_PER_IN : float.
Variable clampMoveRate : float -> float.
Variable defaultMoveRate : float.

Local Abbreviation init := (LegacyUnits.init clampMoveRate defaultMoveRate).
Local Abbreviation eUnitToPrimitive := (LegacyUnits.eUnitToPrimitive MM_PER_IN).
Local Abbreviation xUnitToPrimitive := (LegacyUnits.xUnitToPrimitive MM_PER_IN).
Local Abbreviation posUnitToMM := (LegacyUnits.posUnitToMM MM_PER_IN).

(** In the earlier [State] the E coordinate has a position mode of its own,
    which the constructor leaves undefined.  While it is undefined E is
    relative exactly when X, Y and Z are, so that G90 and G91 (which set the
    position mode) switch all four; once M82 or M83 has set it, E keeps that
    mode whatever the position mode becomes, and is converted like X with the
    mode of the extruder in place of the position mode. *)
Theorem extruder_mode_follows_until_set (st : t) (mode set : PositionMode) (e : float) :
  _extruderPosMode (init (length (_destMechanicalPos st)) (_destMoveRatePrimitive st))
    = POS_UNDEFINED /\
  (_extruderPosMode st = POS_UNDEFINED ->
     extruderPosMode (setPositionMode st mode) = mode /\
     eUnitToPrimitive (setPositionMode st mode) e =
       posUnitToMM st (match mode with POS_RELATIVE => e + _destEPrimitive st | _ => e end)
       + _hostZeroE st) /\
  (set <> POS_UNDEFINED ->
     extruderPosMode (setPositionMode (setExtruderPosMode st set) mode) = set /\
     eUnitToPrimitive (setPositionMode (setExtruderPosMode st set) mode) e =
       posUnitToMM st (match set with POS_RELATIVE => e + _destEPrimitive st | _ => e end)
       + _hostZeroE st).
Proof.
  split; [reflexivity|]. split.
  - intros Hu. unfold LegacyUnits.eUnitToPrimitive, eUnitToAbsolute, extruderPosMode,
      LegacyUnits.posUnitToMM. destruct st; simpl in *. subst. destruct mode; split; reflexivity.
  - intros Hs. unfold LegacyUnits.eUnitToPrimitive, eUnitToAbsolute, extruderPosMode,
      LegacyUnits.posUnitToMM. destruct st; simpl in *. destruct set; try congruence;
      split; reflexivity.
Qed.

End Facts.

(** after M83, G90 leaves E relative *)
Lemma extruder_mode_follows_until_set_witness :
  let st := LegacyUnits.init (fun f => f) (of_int 10) 4 zero in
  extruderPosMode (setPositionMode (setExtruderPosMode st POS_RELATIVE) POS_ABSOLUTE)
    = POS_RELATIVE.
Proof.
  intros st.
  apply (extruder_mode_follows_until_set (of_int 254 / of_int 10) (fun f => f) (of_int 10)
           st POS_ABSOLUTE POS_RELATIVE zero).
  discriminate.
Defined.

(** The earlier [State::queueMovement] takes the larger of one nanosecond
    and [dist / velXYZ] for the duration.  Whatever the positions and the
    velocity are (a distance of zero, a velocity of zero, infinities, NaN),
    that duration is a number, positive and not below the nanosecond: the
    extrusion length is never divided by zero. *)
Theorem queueMovement_duration_floor (NANOSECOND : float) (clamp : float -> float)
    (curX curY curZ curE x y z e velXYZ : float) :
  (zero <? NANOSECOND) = true ->
  let d := LegacyState.v_duration0
             (LegacyState.queueMovement_velocities NANOSECOND clamp
                curX curY curZ curE x y z e velXYZ) in
  d = std_max NANOSECOND
        (sqrt ((x - curX) * (x - curX) + (y - curY) * (y - curY) + (z - curZ) * (z - curZ))
         / velXYZ) /\
  isnan d = false /\ (NANOSECOND <=? d) = true /\ (zero <? d) = true /\ (d =? zero) = false.
Proof.
  intros Hpos d.
  destruct (ltb_not_nan _ _ Hpos) as [_ Hn].
  pose proof (LegacyStateFacts.queueMovement_duration_bounded NANOSECOND clamp
                curX curY curZ curE x y z e velXYZ Hn) as Hle. fold d in Hle.
  assert (Hd : (zero <? d) = true) by (apply ltb_leb_trans with NANOSECOND; assumption).
  split.
  { subst d. unfold LegacyState.queueMovement_velocities. cbv zeta.
    match goal with |- context [if ?c then _ else _] => destruct c end; reflexivity. }
  split; [apply (leb_not_nan _ _ Hle)|]. split; [exact Hle|]. split; [exact Hd|].
  destruct (d =? zero) eqn:E; [|reflexivity].
  apply F32Arith.eqb_sym in E. revert Hd E. clear.
  unfold eqb, ltb, IEEE754.Beqb, IEEE754.Bltb, SFeqb, SFltb.
  destruct (SFcompare _ _) as [[]|]; discriminate.
Qed.

(** a move that stays in place, at 10 mm/s, with a nanosecond of 1e-9 s *)
Lemma queueMovement_duration_floor_witness :
  let ns := of_int 1 / of_int 1000000000 in
  LegacyState.v_duration0
    (LegacyState.queueMovement_velocities ns (fun v => v)
       zero zero zero zero zero zero zero (of_int 1) (of_int 10)) = ns.
Proof.
  intros ns.
  destruct (queueMovement_duration_floor ns (fun v => v)
              zero zero zero zero zero zero zero (of_int 1) (of_int 10)) as (E & _).
  - vm_compute. reflexivity.
  - rewrite E. apply ext. vm_compute. reflexivity.
Defined.

End LegacyUnitsFacts.

(** ** Registers *)

Module DmaGpioFacts.

Import DmaGpio.

Lemma not32_bit (mask i : Z) : 0 <= i ->
  Z.testbit (not32 mask) i = xorb (Z.testbit mask i) (i <? 32).
Proof.
  intros Hi. unfold not32. change (2 ^ 32 - 1) with (Z.ones 32).
  rewrite Z.lxor_spec, Z.testbit_ones_nonneg by lia.
  reflexivity.
Qed.

Lemma high_bit (x i : Z) : 0 <= x < 2 ^ 32 -> 32 <= i -> Z.testbit x i = false.
Proof.
  intros Hx Hi. destruct (Z.eq_dec x 0) as [->|Hne]; [apply Z.bits_0|].
  apply Z.bits_above_log2; [lia|].
  assert (Z.log2 x < 32) by (apply Z.log2_lt_pow2; lia). lia.
Qed.

(** [writeBitmasked] reads the register once and writes it twice, both
    times with the word that has the bits of [value] where [mask] is set and
    the bits read where it is not.  Writing the same mask and value over the
    result leaves it. *)
Theorem writeBitmasked_bits (cur mask value : Z) :
  0 <= cur < 2 ^ 32 -> 0 <= mask < 2 ^ 32 -> 0 <= value < 2 ^ 32 ->
  exists new,
    writeBitmasked cur mask value = [new; new] /\
    0 <= new < 2 ^ 32 /\
    (forall i, 0 <= i ->
       Z.testbit new i = if Z.testbit mask i then Z.testbit value i else Z.testbit cur i) /\
    writeBitmasked new mask value = [new; new].
Proof.
  intros Hc Hm Hv. unfold writeBitmasked.
  set (new := Z.lor (Z.land cur (not32 mask)) (Z.land value mask)).
  assert (Hbits : forall i, 0 <= i ->
            Z.testbit new i = if Z.testbit mask i then Z.testbit value i else Z.testbit cur i).
  { intros i Hi. unfold new. rewrite Z.lor_spec, !Z.land_spec, not32_bit by exact Hi.
    destruct (Z.ltb_spec i 32) as [Hlt|Hge].
    - destruct (Z.testbit mask i), (Z.testbit value i), (Z.testbit cur i); reflexivity.
    - rewrite (high_bit mask i Hm Hge), (high_bit cur i Hc Hge). simpl.
      rewrite andb_false_r. reflexivity. }
  assert (Hnn : 0 <= new).
  { unfold new. apply Z.lor_nonneg. split; apply Z.land_nonneg; lia. }
  exists new. split; [reflexivity|]. split; [|split; [exact Hbits|]].
  - split; [exact Hnn|].
    destruct (Z.eq_dec new 0) as [E|Hne]; [lia|].
    apply Z.log2_lt_pow2; [lia|].
    destruct (Z.lt_ge_cases (Z.log2 new) 32) as [Hl|Hl]; [exact Hl|exfalso].
    assert (Hp : 0 < new) by lia.
    pose proof (Z.bit_log2 new Hp) as Hb.
    rewrite Hbits in Hb by apply Z.log2_nonneg.
    rewrite (high_bit mask _ Hm Hl), (high_bit cur _ Hc Hl) in Hb. discriminate.
  - assert (E : Z.lor (Z.land new (not32 mask)) (Z.land value mask) = new).
    { apply Z.bits_inj'. intros i Hi.
      rewrite Z.lor_spec, !Z.land_spec, Hbits, (not32_bit mask i Hi) by exact Hi.
      destruct (Z.ltb_spec i 32) as [Hlt|Hge].
      - destruct (Z.testbit mask i), (Z.testbit value i), (Z.testbit cur i); reflexivity.
      - rewrite (high_bit mask i Hm Hge), (high_bit cur i Hc Hge). simpl.
        rewrite andb_false_r. reflexivity. }
    rewrite E. reflexivity.
Qed.

(** The register 11001100 written with the mask 00000110 and the value
    11110011 becomes 11001010. *)
Lemma writeBitmasked_bits_witness :
  writeBitmasked 0xCC 0x06 0xF3 = [0xCA; 0xCA] /\
  writeBitmasked 0xCA 0x06 0xF3 = [0xCA; 0xCA].
Proof.
  destruct (writeBitmasked_bits 0xCC 0x06 0xF3) as (new & E & _ & _ & E'); try lia.
  assert (En : new = 0xCA) by (vm_compute in E; congruence).
  subst new. split; assumption.
Defined.

(** [readSysTime] puts the word of [TIMER_CHI] above the word of
    [TIMER_CLO]; both are found again in the 64 bits it returns. *)
Theorem readSysTime_words (mem : Z -> Z) :
  0 <= mem (TIMER_CHI / 4) < 2 ^ 32 -> 0 <= mem (TIMER_CLO / 4) < 2 ^ 32 ->
  readSysTime mem = mem (TIMER_CHI / 4) * 2 ^ 32 + mem (TIMER_CLO / 4) /\
  0 <= readSysTime mem < 2 ^ 64 /\
  readSysTime mem / 2 ^ 32 = mem (TIMER_CHI / 4) /\
  readSysTime mem mod 2 ^ 32 = mem (TIMER_CLO / 4).
Proof.
  unfold readSysTime. generalize (mem (TIMER_CHI / 4)), (mem (TIMER_CLO / 4)).
  intros hi lo Hhi Hlo.
  rewrite Z.shiftl_mul_pow2 by lia.
  rewrite (Z.mod_small (hi * 2 ^ 32)) by lia.
  rewrite Z.mod_small by lia.
  split; [reflexivity|]. split; [lia|]. split.
  - rewrite Z.add_comm, Z.div_add by lia. rewrite Z.div_small by lia. lia.
  - rewrite Z.add_comm, Z.mod_add by lia. apply Z.mod_small. lia.
Qed.

Lemma readSysTime_words_witness :
  readSysTime (fun i => if i =? 2 then 1 else 5) = 2 ^ 32 + 5.
Proof.
  apply (readSysTime_words (fun i => if i =? 2 then 1 else 5)); simpl; lia.
Defined.

End DmaGpioFacts.
